(** * goptimization: the revised simplex method of [simplex.go]

    A shallow embedding of the canonical-form dictionary and its pivot
    engine.  Go's [float64] is idealised as the exact rationals [Q]; Go's
    [int] is [Z]; a [*mat.Dense] is a row-major buffer with its dimensions;
    the views [B], [AN], [cB], [cN] are windows into the shared buffers
    [A] and [c], so that a write through a view is a write to its parent.
    The two linear-algebra entry points of gonum that the package calls,
    [Inverse] and [Solve], are parameters of the model; an exact instance
    of them runs the scenarios.  The package itself divides once, in the
    ratio test, and compares the quotient with a start value of [+Inf]: the
    step of the ratio test is a number or an infinity, and the division is
    a parameter of the model too.  The ratio test and the update of
    [xBStar] are also given on binary64 numbers, where rounding matters. *)

From Stdlib Require Import ZArith QArith Floats Lia String.
From stdpp Require Import base list list_numbers gmap.

Local Open Scope Z_scope.

(** ** Results: a returned Go [error], or a run-time panic *)

Inductive result (X : Type) : Type :=
| Ok (x : X)
| Err (e : string)
| Panic (why : string).
Arguments Ok {X} x.
Arguments Err {X} e.
Arguments Panic {X} why.

Definition rbind {X Y} (r : result X) (k : X -> result Y) : result Y :=
  match r with
  | Ok x => k x
  | Err e => Err e
  | Panic w => Panic w
  end.

Declare Scope res_scope.
Delimit Scope res_scope with res.
Notation "'let*' x ':=' e 'in' k" := (rbind e (fun x => k))
  (at level 10, x pattern, e at level 200, k at level 200) : res_scope.

(** A [for] loop over the indices [js] whose body may panic. *)
Fixpoint forM {St : Type} (js : list Z) (body : Z -> St -> result St) (s : St)
  : result St :=
  match js with
  | [] => Ok s
  | j :: js' => rbind (body j s) (forM js' body)
  end.

Definition ErrIndexOutOfRange : string := "mat: index out of range".
Definition ErrShape : string := "mat: dimension mismatch".
Definition ErrZeroLength : string := "mat: zero length in matrix dimension".
Definition ErrSliceIndex : string := "runtime error: index out of range".

(** ** The dense-matrix collaborator (gonum's [mat.Dense]) *)

(** Modelled from the spec: gonum's [mat.Dense], which the package imports
    and its sources do not contain.  The specification gives its contract:
    a matrix is built from its dimensions; a sub-matrix view is read and
    written through the storage of its parent; matrices of compatible
    dimensions are multiplied, subtracted and scaled; the row and column
    counts are queryable.  Here a matrix is a row-major buffer with its
    dimensions, as [NewDense] makes it, and an access outside the
    dimensions panics. *)
Record DenseOf (T : Type) : Type := mkDense { Rows : Z; Cols : Z; Data : list T }.
Arguments mkDense {T} Rows Cols Data.
Arguments Rows {T} d.
Arguments Cols {T} d.
Arguments Data {T} d.

(** The matrices of the exact model. *)
Abbreviation Dense := (DenseOf Q).

(** A sub-matrix view: the window's origin and extent in its parent. *)
Record View : Type := mkView { vi : Z; vj : Z; vRows : Z; vCols : Z }.

(** The nil [*mat.Dense] of a zero-valued struct: every access panics. *)
Definition nilDense : Dense := mkDense 0 0 [].
Definition nilView : View := mkView 0 0 0 0.

Definition wf {T} (a : DenseOf T) : Prop :=
  0 <= Rows a /\ 0 <= Cols a /\ length (Data a) = Z.to_nat (Rows a * Cols a).

Definition Dims {T} (a : DenseOf T) : Z * Z := (Rows a, Cols a).

Definition inside (r c i j : Z) : bool :=
  (0 <=? i) && (i <? r) && (0 <=? j) && (j <? c).

Definition pos {T} (a : DenseOf T) (i j : Z) : nat := Z.to_nat (i * Cols a + j).

(** [a.At(i, j)] *)
Definition At {T} (a : DenseOf T) (i j : Z) : result T :=
  if inside (Rows a) (Cols a) i j then
    match Data a !! pos a i j with
    | Some v => Ok v
    | None => Panic ErrSliceIndex
    end
  else Panic ErrIndexOutOfRange.

(** [a.Set(i, j, v)] *)
Definition Set_ {T} (a : DenseOf T) (i j : Z) (v : T) : result (DenseOf T) :=
  if inside (Rows a) (Cols a) i j then
    if (pos a i j <? length (Data a))%nat
    then Ok (mkDense (Rows a) (Cols a) (<[pos a i j := v]> (Data a)))
    else Panic ErrSliceIndex
  else Panic ErrIndexOutOfRange.

(** The entry read without a bounds check, zero outside the buffer. *)
Definition get (a : Dense) (i j : Z) : Q := default 0%Q (Data a !! pos a i j).

(** An [r]x[c] matrix filled row by row from [f]. *)
Definition build (r c : Z) (f : Z -> Z -> Q) : Dense :=
  mkDense r c (concat ((fun i => f i <$> seqZ 0 c) <$> seqZ 0 r)).

(** [mat.NewDense(r, c, nil)]: a zeroed matrix. *)
Definition NewDense (r c : Z) : result Dense :=
  if (0 <? r) && (0 <? c) then Ok (build r c (fun _ _ => 0%Q))
  else Panic ErrZeroLength.

(** [mat.DenseCopyOf(a)] *)
Definition DenseCopyOf (a : Dense) : Dense := mkDense (Rows a) (Cols a) (Data a).

(** [a.Grow(r, c)] for a matrix at full capacity, as [NewDense] makes
    them: a fresh buffer, the old entries copied, the rest zero. *)
Definition Grow (a : Dense) (r c : Z) : result Dense :=
  if (r <? 0) || (c <? 0) then Panic ErrIndexOutOfRange
  else if (r =? 0) && (c =? 0) then Ok a
  else Ok (build (Rows a + r) (Cols a + c)
             (fun i j => if inside (Rows a) (Cols a) i j then get a i j else 0%Q)).

(** [a.Slice(i, k, j, l)]: the window of rows [i..k) and columns [j..l). *)
Definition Slice (a : Dense) (i k j l : Z) : result View :=
  if (0 <=? i) && (i <? k) && (k <=? Rows a) && (0 <=? j) && (j <? l) && (l <=? Cols a)
  then Ok (mkView i j (k - i) (l - j))
  else Panic ErrIndexOutOfRange.

(** Reads and writes through a view go to the parent buffer. *)
Definition VAt (a : Dense) (v : View) (i j : Z) : result Q :=
  if inside (vRows v) (vCols v) i j then At a (vi v + i) (vj v + j)
  else Panic ErrIndexOutOfRange.

Definition VSet (a : Dense) (v : View) (i j : Z) (x : Q) : result Dense :=
  if inside (vRows v) (vCols v) i j then Set_ a (vi v + i) (vj v + j) x
  else Panic ErrIndexOutOfRange.

(** The window's current content, as an operand of [Mul], [Sub],
    [Inverse] and [Solve].  A window is made by [Slice], inside its
    parent. *)
Definition Deref (a : Dense) (v : View) : Dense :=
  build (vRows v) (vCols v) (fun i j => get a (vi v + i) (vj v + j)).

(** [v.ColView(j)]: column [j] of the window, as a column vector. *)
Definition ColView (a : Dense) (v : View) (j : Z) : result Dense :=
  if (0 <=? j) && (j <? vCols v)
  then Ok (mkDense (vRows v) 1 ((fun i => get a (vi v + i) (vj v + j)) <$> seqZ 0 (vRows v)))
  else Panic ErrIndexOutOfRange.

Definition Qsum (l : list Q) : Q := foldr Qplus 0%Q l.

(** [m.Mul(a, b)] *)
Definition Mul (a b : Dense) : result Dense :=
  if Cols a =? Rows b
  then Ok (build (Rows a) (Cols b)
             (fun i j => Qsum ((fun k => (get a i k * get b k j)%Q) <$> seqZ 0 (Cols a))))
  else Panic ErrShape.

(** [m.Sub(a, b)] *)
Definition Sub (a b : Dense) : result Dense :=
  if (Rows a =? Rows b) && (Cols a =? Cols b)
  then Ok (mkDense (Rows a) (Cols a) (zip_with Qminus (Data a) (Data b)))
  else Panic ErrShape.

(** [m.Scale(f, a)] *)
Definition Scale (f : Q) (a : Dense) : Dense :=
  mkDense (Rows a) (Cols a) (Qmult f <$> Data a).

(** Go's [<] and [<=] on the idealised numbers. *)
Definition Qltb (x y : Q) : bool := negb (Qle_bool y x).
Definition Qleb (x y : Q) : bool := Qle_bool x y.

(** ** The step of the ratio test

    [x := math.Inf(1)], then [tmp := xBStar[i] / d[i]] and [tmp < x]: the
    step is a number or an infinity.  The quotient of two numbers by a
    positive divisor is a number, or an infinity when it overflows; it is
    never a NaN. *)
Inductive float64 : Type :=
| Num (q : Q)
| PosInf
| NegInf.

(** Go's [<] on the steps. *)
Definition ltF (x y : float64) : bool :=
  match x, y with
  | Num p, Num q => Qltb p q
  | Num _, PosInf => true
  | NegInf, Num _ => true
  | NegInf, PosInf => true
  | _, _ => false
  end.

(** The division without rounding and without overflow. *)
Definition exactQuo (a e : Q) : float64 := Num (a / e).

(** The division without rounding, overflowing as binary64 does: a quotient
    of magnitude [2^1024 - 2^970] or more is an infinity. *)
Definition overflowQuo (a e : Q) : float64 :=
  let q := (a / e)%Q in
  let huge := inject_Z (2 ^ 1024 - 2 ^ 970) in
  if Qle_bool huge q then PosInf
  else if Qle_bool q (- huge) then NegInf
  else Num q.

(** The entries of the matrices are numbers; so is a step that [Update]
    stores.  The ratio test returns an infinity with a row only when a
    quotient is [-Inf]; the Go code then goes on and fills [xBStar] with
    infinities, for which the matrices of the model have no value.  The
    model stops there, with a panic of its own that no theorem below
    ascribes to the Go code. *)
Definition ErrNotANumber : string := "model: the step is not a number".

Definition number (x : float64) : result Q :=
  match x with
  | Num q => Ok q
  | _ => Panic ErrNotANumber
  end.

(** ** Methods with a pointer receiver: state passing with early return *)

Definition M (St X : Type) : Type := St -> St * result X.

Definition ret {St X} (x : X) : M St X := fun s => (s, Ok x).
Definition fail {St X} (e : string) : M St X := fun s => (s, Err e).
Definition reads {St X} (f : St -> X) : M St X := fun s => (s, Ok (f s)).
Definition readsR {St X} (f : St -> result X) : M St X := fun s => (s, f s).
Definition modify {St} (f : St -> St) : M St unit := fun s => (f s, Ok tt).
Definition bind {St X Y} (a : M St X) (k : X -> M St Y) : M St Y :=
  fun s =>
    match a s with
    | (s', Ok x) => k x s'
    | (s', Err e) => (s', Err e)
    | (s', Panic w) => (s', Panic w)
    end.

Declare Scope go_scope.
Delimit Scope go_scope with go.
Notation "'let*' x ':=' e 'in' k" := (bind e (fun x => k))
  (at level 10, x pattern, e at level 200, k at level 200) : go_scope.
Notation "e ';;' k" := (bind e (fun _ => k))
  (at level 100, right associativity) : go_scope.

(** [cf.f = e], where evaluating [e] may panic. *)
Definition assign {St X} (set : X -> St -> St) (e : St -> result X) : M St unit :=
  fun s =>
    match e s with
    | Ok x => (set x s, Ok tt)
    | Err e => (s, Err e)
    | Panic w => (s, Panic w)
    end.

Fixpoint forS {St : Type} (js : list Z) (body : Z -> M St unit) : M St unit :=
  match js with
  | [] => ret tt
  | j :: js' => bind (body j) (fun _ => forS js' body)
  end.

(** A [for] loop that carries a local variable. *)
Fixpoint forSA {St X : Type} (js : list Z) (body : Z -> X -> M St X) (acc : X)
  : M St X :=
  match js with
  | [] => ret acc
  | j :: js' => bind (body j acc) (forSA js' body)
  end.

(** ** Go slices of [int] *)

Definition make (len : Z) : result (list Z) :=
  if len <? 0 then Panic "runtime error: makeslice: len out of range"
  else Ok (replicate (Z.to_nat len) 0).

Definition index (l : list Z) (i : Z) : result Z :=
  if 0 <=? i then
    match l !! Z.to_nat i with
    | Some v => Ok v
    | None => Panic ErrSliceIndex
    end
  else Panic ErrSliceIndex.

Definition store (l : list Z) (i : Z) (v : Z) : result (list Z) :=
  if (0 <=? i) && (Z.to_nat i <? length l)%nat
  then Ok (<[Z.to_nat i := v]> l)
  else Panic ErrSliceIndex.

(** ** The canonical form of a linear optimisation problem

    The struct of both versions of the package; they differ in the type
    [R] of [remap]: [[]int] in one, [map[int]int] in the other. *)

Record CanonicalForm (R : Type) : Type := mkCF {
  cf_n : Z;  (* positivity constraints *)
  cf_m : Z;  (* equality constraints *)
  cf_A : Dense;  (* matrix (m, n+m) *)
  cf_x : Dense;  (* column vector (n+m) *)
  cf_c : Dense;  (* row vector (n+m) *)
  cf_b : Dense;  (* column vector (m) *)
  cf_xBStar : Dense;  (* feasible solution of the current dictionary (m) *)
  cf_xN : View;  (* window of x: column vector (n) *)
  cf_B : View;  (* window of A: matrix (m, m) *)
  cf_AN : View;  (* window of A: matrix (m, n) *)
  cf_cB : View;  (* window of c: row vector (m) *)
  cf_cN : View;  (* window of c: row vector (n) *)
  cf_remap : R }.
Arguments cf_n {R} _.
Arguments cf_m {R} _.
Arguments cf_A {R} _.
Arguments cf_x {R} _.
Arguments cf_c {R} _.
Arguments cf_b {R} _.
Arguments cf_xBStar {R} _.
Arguments cf_xN {R} _.
Arguments cf_B {R} _.
Arguments cf_AN {R} _.
Arguments cf_cB {R} _.
Arguments cf_cN {R} _.
Arguments cf_remap {R} _.
Arguments mkCF {R}.

Section Setters.
Context {R : Type}.
Implicit Type cf : CanonicalForm R.

Definition set_n (v : Z) cf : CanonicalForm R :=
  mkCF v (cf_m cf) (cf_A cf) (cf_x cf) (cf_c cf) (cf_b cf) (cf_xBStar cf)
    (cf_xN cf) (cf_B cf) (cf_AN cf) (cf_cB cf) (cf_cN cf) (cf_remap cf).
Definition set_m (v : Z) cf : CanonicalForm R :=
  mkCF (cf_n cf) v (cf_A cf) (cf_x cf) (cf_c cf) (cf_b cf) (cf_xBStar cf)
    (cf_xN cf) (cf_B cf) (cf_AN cf) (cf_cB cf) (cf_cN cf) (cf_remap cf).
Definition set_A (v : Dense) cf : CanonicalForm R :=
  mkCF (cf_n cf) (cf_m cf) v (cf_x cf) (cf_c cf) (cf_b cf) (cf_xBStar cf)
    (cf_xN cf) (cf_B cf) (cf_AN cf) (cf_cB cf) (cf_cN cf) (cf_remap cf).
Definition set_x (v : Dense) cf : CanonicalForm R :=
  mkCF (cf_n cf) (cf_m cf) (cf_A cf) v (cf_c cf) (cf_b cf) (cf_xBStar cf)
    (cf_xN cf) (cf_B cf) (cf_AN cf) (cf_cB cf) (cf_cN cf) (cf_remap cf).
Definition set_c (v : Dense) cf : CanonicalForm R :=
  mkCF (cf_n cf) (cf_m cf) (cf_A cf) (cf_x cf) v (cf_b cf) (cf_xBStar cf)
    (cf_xN cf) (cf_B cf) (cf_AN cf) (cf_cB cf) (cf_cN cf) (cf_remap cf).
Definition set_b (v : Dense) cf : CanonicalForm R :=
  mkCF (cf_n cf) (cf_m cf) (cf_A cf) (cf_x cf) (cf_c cf) v (cf_xBStar cf)
    (cf_xN cf) (cf_B cf) (cf_AN cf) (cf_cB cf) (cf_cN cf) (cf_remap cf).
Definition set_xBStar (v : Dense) cf : CanonicalForm R :=
  mkCF (cf_n cf) (cf_m cf) (cf_A cf) (cf_x cf) (cf_c cf) (cf_b cf) v
    (cf_xN cf) (cf_B cf) (cf_AN cf) (cf_cB cf) (cf_cN cf) (cf_remap cf).
Definition set_xN (v : View) cf : CanonicalForm R :=
  mkCF (cf_n cf) (cf_m cf) (cf_A cf) (cf_x cf) (cf_c cf) (cf_b cf)
    (cf_xBStar cf) v (cf_B cf) (cf_AN cf) (cf_cB cf) (cf_cN cf) (cf_remap cf).
Definition set_B (v : View) cf : CanonicalForm R :=
  mkCF (cf_n cf) (cf_m cf) (cf_A cf) (cf_x cf) (cf_c cf) (cf_b cf)
    (cf_xBStar cf) (cf_xN cf) v (cf_AN cf) (cf_cB cf) (cf_cN cf) (cf_remap cf).
Definition set_AN (v : View) cf : CanonicalForm R :=
  mkCF (cf_n cf) (cf_m cf) (cf_A cf) (cf_x cf) (cf_c cf) (cf_b cf)
    (cf_xBStar cf) (cf_xN cf) (cf_B cf) v (cf_cB cf) (cf_cN cf) (cf_remap cf).
Definition set_cB (v : View) cf : CanonicalForm R :=
  mkCF (cf_n cf) (cf_m cf) (cf_A cf) (cf_x cf) (cf_c cf) (cf_b cf)
    (cf_xBStar cf) (cf_xN cf) (cf_B cf) (cf_AN cf) v (cf_cN cf) (cf_remap cf).
Definition set_cN (v : View) cf : CanonicalForm R :=
  mkCF (cf_n cf) (cf_m cf) (cf_A cf) (cf_x cf) (cf_c cf) (cf_b cf)
    (cf_xBStar cf) (cf_xN cf) (cf_B cf) (cf_AN cf) (cf_cB cf) v (cf_remap cf).
Definition set_remap (v : R) cf : CanonicalForm R :=
  mkCF (cf_n cf) (cf_m cf) (cf_A cf) (cf_x cf) (cf_c cf) (cf_b cf)
    (cf_xBStar cf) (cf_xN cf) (cf_B cf) (cf_AN cf) (cf_cB cf) (cf_cN cf) v.

End Setters.

(** [CanonicalForm{}] *)
Definition zeroCF {R : Type} (r0 : R) : CanonicalForm R :=
  mkCF 0 0 nilDense nilDense nilDense nilDense nilDense nilView nilView nilView
    nilView nilView r0.

(** ** [simplex.go], the version whose [remap] is a slice *)

Module ArrayRemap.

Local Open Scope go_scope.

Abbreviation CF := (CanonicalForm (list Z)).

Section WithLinearAlgebra.

(** [BInv.Inverse(a)] and [d.Solve(a, b)] of gonum. *)
Variable Inverse : Dense -> result Dense.
Variable Solve : Dense -> Dense -> result Dense.

(** Go's [/] on [float64], at line 207. *)
Variable quo : Q -> Q -> float64.

(** New: initialise all the parameters in order to run the simplex
    algorithm. *)
Definition New (c A b : Dense) : M CF unit :=
  let '(rows, cols) := Dims c in
  if 1 <? rows then fail "z dims.r > 1" else
  modify (set_n cols) ;;
  let '(rows, cols) := Dims A in
  let* n := reads cf_n in
  if n <? cols then fail "A dims.c > z dims.r" else
  modify (set_m rows) ;;
  modify (set_A A) ;;
  assign set_A (fun cf => Grow (cf_A cf) 0 (cf_m cf)) ;;
  (* add slack variables *)
  let* m := reads cf_m in
  forS (seqZ 0 m) (fun i =>
    assign set_A (fun cf => Set_ (cf_A cf) i (cf_n cf + i) 1%Q)) ;;
  modify (set_b b) ;;
  modify (set_c c) ;;
  assign set_c (fun cf => Grow (cf_c cf) 0 (cf_m cf)) ;;
  assign set_x (fun cf => NewDense (cf_n cf + cf_m cf) 1) ;;
  modify (set_xBStar (DenseCopyOf b)) ;;
  assign set_xN (fun cf => Slice (cf_x cf) 0 (cf_n cf) 0 1) ;;
  assign set_B (fun cf => Slice (cf_A cf) 0 (cf_m cf) (cf_n cf) (cf_n cf + cf_m cf)) ;;
  assign set_AN (fun cf => Slice (cf_A cf) 0 (cf_m cf) 0 (cf_n cf)) ;;
  assign set_cB (fun cf => Slice (cf_c cf) 0 1 (cf_n cf) (cf_n cf + cf_m cf)) ;;
  assign set_cN (fun cf => Slice (cf_c cf) 0 1 0 (cf_n cf)) ;;
  (* store the entering and leaving pairs for each iteration *)
  assign set_remap (fun cf => make (cf_n cf + cf_m cf)) ;;
  let* nm := reads (fun cf => cf_n cf + cf_m cf) in
  forS (seqZ 0 nm) (fun i =>
    assign set_remap (fun cf => store (cf_remap cf) i i)) ;;
  ret tt.

(** FindY: y = cB * B^-1. *)
Definition FindY (cf : CF) : result Dense :=
  (let* BInv := Inverse (Deref (cf_A cf) (cf_B cf)) in
   let* y := Mul (Deref (cf_c cf) (cf_cB cf)) BInv in
   Ok y)%res.

(** The reduced-cost row [cN - y*AN] that [FindEnteringVariable] scans. *)
Definition reducedCosts (cf : CF) (y : Dense) : result Dense :=
  (let* m := Mul y (Deref (cf_A cf) (cf_AN cf)) in
   Sub (Deref (cf_c cf) (cf_cN cf)) m)%res.

(** The scan of [FindEnteringVariable] when no index is forced; the
    accumulator is [(max, enteringVarIndex)]. *)
Definition scanEntering (m : Dense) (j : Z) (acc : Q * Z) : result (Q * Z) :=
  (let '(max, enteringVarIndex) := acc in
   let* v := At m 0 j in
   if Qltb 0 v && Qltb max v then Ok (v, j) else Ok (max, enteringVarIndex))%res.

(** FindEnteringVariable: the best entering variable by Dantzig's
    criterion, or the forced one. *)
Definition FindEnteringVariable (cf : CF) (y : Dense) (forceEnteringVarIndex : Z)
  : result Z :=
  (let* m := reducedCosts cf y in
   let '(_, c) := Dims m in
   if negb (forceEnteringVarIndex =? 0) then
     let* v := At m 0 forceEnteringVarIndex in
     if Qltb 0 v then Ok forceEnteringVarIndex else Ok (-1)
   else
     let* acc := forM (seqZ 0 c) (scanEntering m) (0%Q, -1) in
     Ok (snd acc))%res.

(** SolveBd: solve B*d = a^k. *)
Definition SolveBd (cf : CF) (enteringVarIndex : Z) : result Dense :=
  (let* col := ColView (cf_A cf) (cf_AN cf) enteringVarIndex in
   Solve (Deref (cf_A cf) (cf_B cf)) col)%res.

(** The scan of [FindLeavingVariable]; the accumulator is
    [(x, leavingVarIndex, found)]. *)
Definition scanLeaving (xBStar d : Dense) (i : Z) (acc : float64 * Z * bool)
  : result (float64 * Z * bool) :=
  (let '(x, leavingVarIndex, found) := acc in
   let* di := At d i 0 in
   if Qleb di 0 then Ok acc else
   let* xi := At xBStar i 0 in
   let tmp := quo xi di in
   (* Bland's rule *)
   if ltF tmp x then Ok (tmp, i, true) else Ok (x, leavingVarIndex, true))%res.

(** FindLeavingVariable: the ratio test. *)
Definition FindLeavingVariable (cf : CF) (d : Dense) : result (float64 * Z) :=
  (let '(r, _) := Dims d in
   let* acc := forM (seqZ 0 r) (scanLeaving (cf_xBStar cf) d) (PosInf, -1, false) in
   let '(x, leavingVarIndex, found) := acc in
   if negb found then Ok (Num (-1), -1) else Ok (x, leavingVarIndex))%res.

(** Row [i] of the column exchange in [Update]. *)
Definition exchangeRow (leavingCol : Dense) (enteringVarIndex leavingVarIndex i : Z)
  : M CF unit :=
  assign set_A (fun cf =>
    let* v := VAt (cf_A cf) (cf_AN cf) i enteringVarIndex in
    VSet (cf_A cf) (cf_B cf) i leavingVarIndex v)%res ;;
  assign set_A (fun cf =>
    let* v := At leavingCol i 0 in
    VSet (cf_A cf) (cf_AN cf) i enteringVarIndex v)%res.

(** Update: replace the leaving variable with the entering variable in
    xBStar, and exchange the leaving column of B with the entering column. *)
Definition Update (d y : Dense) (x : Q) (enteringVarIndex leavingVarIndex : Z)
  : M CF unit :=
  let tmp := Scale x d in
  assign set_xBStar (fun cf => Sub (cf_xBStar cf) tmp) ;;
  assign set_xBStar (fun cf => Set_ (cf_xBStar cf) leavingVarIndex 0 x) ;;
  let '(r, _) := Dims d in
  let* leavingCol := readsR (fun cf => ColView (cf_A cf) (cf_B cf) leavingVarIndex) in
  let* leavingC := readsR (fun cf => VAt (cf_c cf) (cf_cB cf) 0 leavingVarIndex) in
  forS (seqZ 0 r) (exchangeRow leavingCol enteringVarIndex leavingVarIndex) ;;
  assign set_c (fun cf =>
    let* v := VAt (cf_c cf) (cf_cN cf) 0 enteringVarIndex in
    VSet (cf_c cf) (cf_cB cf) 0 leavingVarIndex v)%res ;;
  assign set_c (fun cf => VSet (cf_c cf) (cf_cN cf) 0 enteringVarIndex leavingC) ;;
  ret tt.

(** Iter: run one iteration of the simplex algorithm. *)
Definition Iter (forceEnteringVarIndex : Z) : M CF bool :=
  let* y := readsR FindY in
  let* enteringVarIndex := readsR (fun cf => FindEnteringVariable cf y forceEnteringVarIndex) in
  (* the algorithm ends when there is no candidate *)
  if enteringVarIndex =? -1 then ret true else
  let* d := readsR (fun cf => SolveBd cf enteringVarIndex) in
  let* (x, leavingVarIndex) := readsR (fun cf => FindLeavingVariable cf d) in
  if leavingVarIndex =? -1 then ret true else
  (* store the new pair of entering/leaving variables *)
  let* tmp := readsR (fun cf => index (cf_remap cf) (cf_n cf + leavingVarIndex)) in
  assign set_remap (fun cf => store (cf_remap cf) (cf_n cf + leavingVarIndex) enteringVarIndex) ;;
  assign set_remap (fun cf => store (cf_remap cf) enteringVarIndex tmp) ;;
  (* update the dictionary for the next iteration *)
  let* x := readsR (fun _ => number x) in
  Update d y x enteringVarIndex leavingVarIndex ;;
  ret false.

(** The loop body of [GetResults]; the accumulator is [(result, total)]. *)
Definition collect (cf : CF) (i : Z) (acc : Dense * Q) : result (Dense * Q) :=
  (let '(result, total) := acc in
   let* ri := index (cf_remap cf) i in
   let* v := At (cf_xBStar cf) (i - cf_n cf) 0 in
   let* result := Set_ result ri 0 v in
   if ri <? cf_n cf then
     let* ci := At (cf_c cf) 0 i in
     Ok (result, (total + v * ci)%Q)
   else Ok (result, total))%res.

(** GetResults: the solution, a matrix (n+m, 1), and the score. *)
Definition GetResults (cf : CF) : result (Dense * Q) :=
  (let '(rows, cols) := Dims (cf_x cf) in
   let* result := NewDense rows cols in
   forM (seqZ (cf_n cf) (cf_m cf)) (collect cf) (result, 0%Q))%res.

(** The loop of [Simplex]: at most [fuel] calls of [Iter 0], stopping at
    the first that signals the end. *)
Fixpoint iterate (fuel : nat) (totalIter : Z) : M CF Z :=
  match fuel with
  | O => ret totalIter
  | S fuel' =>
      let* end_ := Iter 0 in
      if (end_ : bool) then ret totalIter else iterate fuel' (totalIter + 1)
  end.

(** Simplex: solve a linear problem in standard form. *)
Definition Simplex (c A b : Dense) (maxIter : Z) : result (Z * Dense * Q) :=
  match New c A b (zeroCF []) with
  | (_, Err e) => Err e
  | (_, Panic w) => Panic w
  | (cf, Ok _) =>
      match iterate (Z.to_nat maxIter) 0 cf with
      | (_, Err e) => Err e
      | (_, Panic w) => Panic w
      | (cf, Ok totalIter) =>
          (let* (results, score) := GetResults cf in
           Ok (totalIter, results, score))%res
      end
  end.

End WithLinearAlgebra.

End ArrayRemap.

(** ** The version of the package whose [remap] is a map *)

Module MapRemap.

Local Open Scope go_scope.

Abbreviation CF := (CanonicalForm (gmap Z Z)).

Section WithLinearAlgebra.

Variable Inverse : Dense -> result Dense.
Variable Solve : Dense -> Dense -> result Dense.

(** Go's [/] on [float64], at line 499. *)
Variable quo : Q -> Q -> float64.

Definition New (z A b : Dense) : M CF unit :=
  modify (set_remap (∅ : gmap Z Z)) ;;
  let '(r, c) := Dims z in
  if 1 <? r then fail "z dims.r > 1" else
  modify (set_n c) ;;
  let '(r, c) := Dims A in
  let* n := reads cf_n in
  if n <? c then fail "A dims.c > z dims.r" else
  modify (set_m r) ;;
  modify (set_A A) ;;
  assign set_A (fun cf => Grow (cf_A cf) 0 (cf_m cf)) ;;
  let* m := reads cf_m in
  forS (seqZ 0 m) (fun i =>
    assign set_A (fun cf => Set_ (cf_A cf) i (cf_n cf + i) 1%Q)) ;;
  modify (set_b b) ;;
  modify (set_c z) ;;
  assign set_c (fun cf => Grow (cf_c cf) 0 (cf_m cf)) ;;
  assign set_x (fun cf => NewDense (cf_n cf + cf_m cf) 1) ;;
  modify (set_xBStar (DenseCopyOf b)) ;;
  assign set_xN (fun cf => Slice (cf_x cf) 0 (cf_n cf) 0 1) ;;
  assign set_B (fun cf => Slice (cf_A cf) 0 (cf_m cf) (cf_n cf) (cf_n cf + cf_m cf)) ;;
  assign set_AN (fun cf => Slice (cf_A cf) 0 (cf_m cf) 0 (cf_n cf)) ;;
  assign set_cB (fun cf => Slice (cf_c cf) 0 1 (cf_n cf) (cf_n cf + cf_m cf)) ;;
  assign set_cN (fun cf => Slice (cf_c cf) 0 1 0 (cf_n cf)) ;;
  let* n := reads cf_n in
  let* m := reads cf_m in
  forSA (seqZ n m) (fun i j =>
    modify (fun cf => set_remap (<[i := j]> (cf_remap cf)) cf) ;;
    ret (j + 1)) 0 ;;
  ret tt.

Definition FindY (cf : CF) : result Dense :=
  (let* BInv := Inverse (Deref (cf_A cf) (cf_B cf)) in
   let* y := Mul (Deref (cf_c cf) (cf_cB cf)) BInv in
   Ok y)%res.

Definition scanInput (m : Dense) (j : Z) (acc : Q * Z) : result (Q * Z) :=
  (let '(max, inputVarIndex) := acc in
   let* v := At m 0 j in
   if Qltb 0 v && Qltb max v then Ok (v, j) else Ok (max, inputVarIndex))%res.

Definition FindInputVariable (cf : CF) (y : Dense) (forceInputVarIndex : Z)
  : result Z :=
  (let* m0 := Mul y (Deref (cf_A cf) (cf_AN cf)) in
   let* m := Sub (Deref (cf_c cf) (cf_cN cf)) m0 in
   let '(_, c) := Dims m in
   if negb (forceInputVarIndex =? 0) then
     let* v := At m 0 forceInputVarIndex in
     if Qltb 0 v then Ok forceInputVarIndex else Ok (-1)
   else
     let* acc := forM (seqZ 0 c) (scanInput m) (0%Q, -1) in
     Ok (snd acc))%res.

Definition SolveBd (cf : CF) (inputVarIndex : Z) : result Dense :=
  (let* col := ColView (cf_A cf) (cf_AN cf) inputVarIndex in
   Solve (Deref (cf_A cf) (cf_B cf)) col)%res.

(** The scan of [FindOutputVariable]; the accumulator is
    [(x, outputVarIndex, found)]. *)
Definition scanOutput (xBStar d : Dense) (i : Z) (acc : float64 * Z * bool)
  : result (float64 * Z * bool) :=
  (let '(x, outputVarIndex, found) := acc in
   let* di := At d i 0 in
   if Qleb di 0 then Ok acc else
   let* xi := At xBStar i 0 in
   let tmp := quo xi di in
   if ltF tmp x then Ok (tmp, i, true) else Ok (x, outputVarIndex, true))%res.

(** FindOutputVariable: the ratio test; once a row of [d] is positive it
    deletes the key [n + outputVarIndex] from [remap], the key of the slack
    variable of the chosen row, or [n - 1] when no row was chosen. *)
Definition FindOutputVariable (d : Dense) : M CF (float64 * Z) :=
  let '(r, _) := Dims d in
  let* acc := readsR (fun cf =>
    forM (seqZ 0 r) (scanOutput (cf_xBStar cf) d) (PosInf, -1, false)) in
  let '(x, outputVarIndex, found) := acc in
  if negb found then ret (Num (-1), -1) else
  modify (fun cf => set_remap (delete (cf_n cf + outputVarIndex) (cf_remap cf)) cf) ;;
  ret (x, outputVarIndex).

(** Row [i] of the column copy in [Update]. *)
Definition copyRow (inputVarIndex outputVarIndex i : Z) : M CF unit :=
  assign set_A (fun cf =>
    let* v := VAt (cf_A cf) (cf_AN cf) i inputVarIndex in
    VSet (cf_A cf) (cf_B cf) i outputVarIndex v)%res.

(** Update: the column of the input variable is copied into B, and its
    cost into cB; AN and cN are left as they are. *)
Definition Update (d y : Dense) (x : Q) (inputVarIndex outputVarIndex : Z)
  : M CF unit :=
  let tmp := Scale x d in
  assign set_xBStar (fun cf => Sub (cf_xBStar cf) tmp) ;;
  assign set_xBStar (fun cf => Set_ (cf_xBStar cf) outputVarIndex 0 x) ;;
  let '(r, _) := Dims d in
  forS (seqZ 0 r) (copyRow inputVarIndex outputVarIndex) ;;
  assign set_c (fun cf =>
    let* v := VAt (cf_c cf) (cf_cN cf) 0 inputVarIndex in
    VSet (cf_c cf) (cf_cB cf) 0 outputVarIndex v)%res ;;
  ret tt.

Definition Iter (forceInputVarIndex : Z) : M CF bool :=
  let* y := readsR FindY in
  let* inputVarIndex := readsR (fun cf => FindInputVariable cf y forceInputVarIndex) in
  if inputVarIndex =? -1 then ret true else
  let* d := readsR (fun cf => SolveBd cf inputVarIndex) in
  let* (x, outputVarIndex) := FindOutputVariable d in
  if outputVarIndex =? -1 then ret true else
  modify (fun cf => set_remap (<[inputVarIndex := outputVarIndex]> (cf_remap cf)) cf) ;;
  let* x := readsR (fun _ => number x) in
  Update d y x inputVarIndex outputVarIndex ;;
  ret false.

(** The loop body of [GetResults]; the accumulator is [(result, total)]. *)
Definition collect (cf : CF) (xInput : Z) (acc : Dense * Q) : result (Dense * Q) :=
  (let '(result, total) := acc in
   match cf_remap cf !! xInput with
   | Some xOutput =>
       let* v := At (cf_xBStar cf) xOutput 0 in
       let* result := Set_ result xInput 0 v in
       if xInput <? cf_n cf then
         let* ci := VAt (cf_c cf) (cf_cN cf) 0 xInput in
         Ok (result, (total + v * ci)%Q)
       else Ok (result, total)
   | None => Ok (result, total)
   end)%res.

Definition GetResults (cf : CF) : result (Dense * Q) :=
  (let '(r, c) := Dims (cf_x cf) in
   let* result := NewDense r c in
   forM (seqZ 0 r) (collect cf) (result, 0%Q))%res.

Fixpoint iterate (fuel : nat) (totalIter : Z) : M CF Z :=
  match fuel with
  | O => ret totalIter
  | S fuel' =>
      let* end_ := Iter 0 in
      if (end_ : bool) then ret totalIter else iterate fuel' (totalIter + 1)
  end.

Definition Simplex (z A b : Dense) (maxIter : Z) : result (Z * Dense * Q) :=
  match New z A b (zeroCF ∅) with
  | (_, Err e) => Err e
  | (_, Panic w) => Panic w
  | (cf, Ok _) =>
      match iterate (Z.to_nat maxIter) 0 cf with
      | (_, Err e) => Err e
      | (_, Panic w) => Panic w
      | (cf, Ok totalIter) =>
          (let* (results, score) := GetResults cf in
           Ok (totalIter, results, score))%res
      end
  end.

End WithLinearAlgebra.

End MapRemap.

(** ** The ratio test and the update of [xBStar] in binary64

    The same two steps of the pivot on IEEE 754 binary64 numbers, Go's
    [float64], to see what rounding does to the exact model. *)

Module Float64.

Abbreviation Dense64 := (DenseOf float).

(** [m.Scale(f, a)] *)
Definition Scale (f : float) (a : Dense64) : Dense64 :=
  mkDense (Rows a) (Cols a) ((fun v => (v * f)%float) <$> Data a).

(** [m.Sub(a, b)] *)
Definition Sub (a b : Dense64) : result Dense64 :=
  if (Rows a =? Rows b) && (Cols a =? Cols b)
  then Ok (mkDense (Rows a) (Cols a) (zip_with PrimFloat.sub (Data a) (Data b)))
  else Panic ErrShape.

(** The scan of [FindLeavingVariable]; the accumulator is
    [(x, leavingVarIndex, found)]. *)
Definition scanLeaving (xBStar d : Dense64) (i : Z) (acc : float * Z * bool)
  : result (float * Z * bool) :=
  (let '(x, leavingVarIndex, found) := acc in
   let* di := At d i 0 in
   if (di <=? 0)%float then Ok acc else
   let* xi := At xBStar i 0 in
   let tmp := (xi / di)%float in
   if (tmp <? x)%float then Ok (tmp, i, true) else Ok (x, leavingVarIndex, true))%res.

Definition FindLeavingVariable (xBStar d : Dense64) : result (float * Z) :=
  (let '(r, _) := Dims d in
   let* acc := forM (seqZ 0 r) (scanLeaving xBStar d) (infinity, -1, false) in
   let '(x, leavingVarIndex, found) := acc in
   if negb found then Ok ((-1)%float, -1) else Ok (x, leavingVarIndex))%res.

(** The first three statements of [Update]: [xBStar <- xBStar - x*d], then
    [xBStar[leavingVarIndex] = x]. *)
Definition UpdateXBStar (xBStar d : Dense64) (x : float) (leavingVarIndex : Z)
  : result Dense64 :=
  (let tmp := Scale x d in
   let* s := Sub xBStar tmp in
   Set_ s leavingVarIndex 0 x)%res.

End Float64.

(** ** An exact instance of the linear-algebra collaborator *)

(** Modelled from the spec: gonum's [Inverse] and [Solve], which the
    sources do not contain.  The specification gives their contract: solve
    a linear system [M*x = v] for a square [M], invert a square matrix,
    both failing with a distinguishable singular-matrix error.  This
    instance computes them without rounding, by Gauss-Jordan elimination
    over the rationals. *)
Module Exact.

Definition ErrSquare : string := "mat: expect square matrix".
Definition ErrSingular : string :=
  "matrix singular or near-singular with condition number +Inf".

Definition rowsOf (a : Dense) : list (list Q) :=
  (fun i => get a i <$> seqZ 0 (Cols a)) <$> seqZ 0 (Rows a).

Definition unit_row (n i : Z) : list Q :=
  (fun j => if i =? j then 1%Q else 0%Q) <$> seqZ 0 n.

Definition nonzero (q : Q) : bool := negb (Qeq_bool q 0).

(** The first row of [todo] with a non-zero entry in column [k]. *)
Fixpoint pick (k : nat) (todo : list (list Q)) : option (list Q * list (list Q)) :=
  match todo with
  | [] => None
  | r :: rs =>
      if nonzero (nth k r 0%Q) then Some (r, rs)
      else match pick k rs with
           | Some (p, rest) => Some (p, r :: rest)
           | None => None
           end
  end.

(** [r - r[k] * p] *)
Definition clear (k : nat) (p r : list Q) : list Q :=
  zip_with (fun a b => Qred (b - nth k r 0%Q * a)) p r.

Fixpoint eliminate (steps k : nat) (done todo : list (list Q))
  : option (list (list Q)) :=
  match steps with
  | O => Some done
  | S steps' =>
      match pick k todo with
      | None => None
      | Some (p, rest) =>
          let p' := (fun a => Qred (a / nth k p 0%Q)) <$> p in
          eliminate steps' (S k) ((clear k p' <$> done) ++ [p']) (clear k p' <$> rest)
      end
  end.

(** The solution [X] of [a * X = b] for a square [a]. *)
Definition solve (a b : Dense) : result Dense :=
  let n := Z.to_nat (Rows a) in
  match eliminate n 0 [] (zip_with app (rowsOf a) (rowsOf b)) with
  | None => Err ErrSingular
  | Some rs => Ok (mkDense (Cols a) (Cols b) (concat (drop n <$> rs)))
  end.

Definition identity (n : Z) : Dense :=
  mkDense n n (concat ((unit_row n) <$> seqZ 0 n)).

Definition Inverse (a : Dense) : result Dense :=
  if Rows a =? Cols a then solve a (identity (Rows a)) else Panic ErrSquare.

Definition Solve (a b : Dense) : result Dense :=
  if negb (Rows a =? Cols a) then Panic ErrSquare
  else if negb (Rows a =? Rows b) then Panic ErrShape
  else solve a b.

End Exact.

(** Matrices from integer literals, row-major. *)
Definition ofZ (r c : Z) (l : list Z) : Dense := mkDense r c (inject_Z <$> l).


(** * Specification *)

(** ** States and invariants *)

(** Computations that never return a Go error. *)
Definition noErr {X} (r : result X) : Prop := forall e, r <> Err e.
Definition NoErr {St X} (a : M St X) : Prop := forall s, noErr (snd (a s)).

(** The state that [New] builds: the augmented matrix and cost row, with
    [B], [AN], [cB], [cN] the windows on their slack and structural
    columns. *)
Definition shaped {R : Type} (cf : CanonicalForm R) : Prop :=
  0 < cf_n cf /\ 0 < cf_m cf /\
  wf (cf_A cf) /\ Dims (cf_A cf) = (cf_m cf, cf_n cf + cf_m cf) /\
  wf (cf_c cf) /\ Dims (cf_c cf) = (1, cf_n cf + cf_m cf) /\
  wf (cf_xBStar cf) /\ Dims (cf_xBStar cf) = (cf_m cf, 1) /\
  cf_B cf = mkView 0 (cf_n cf) (cf_m cf) (cf_m cf) /\
  cf_AN cf = mkView 0 0 (cf_m cf) (cf_n cf) /\
  cf_cB cf = mkView 0 (cf_n cf) 1 (cf_m cf) /\
  cf_cN cf = mkView 0 0 1 (cf_n cf).

Definition nonneg (a : Dense) : Prop := Forall (fun v => (0 <= v)%Q) (Data a).

(** The division is exact: it neither rounds nor overflows. *)
Definition exact (quo : Q -> Q -> float64) : Prop :=
  forall a e, quo a e = Num (a / e).

(** [xBStar] is a well-formed column of non-negative entries. *)
Definition feasible (xB : Dense) : Prop := wf xB /\ Cols xB = 1 /\ nonneg xB.

(** What the scan of the reduced costs has established after the columns
    below [k]: nothing positive so far, or the first largest positive
    entry. *)
Definition entering_inv (r : Dense) (k : Z) (acc : Q * Z) : Prop :=
  let '(max, j) := acc in
  (j = -1 /\ max = 0%Q /\
   forall i v, 0 <= i < k -> At r 0 i = Ok v -> (v <= 0)%Q)
  \/
  (0 <= j < k /\ At r 0 j = Ok max /\ (0 < max)%Q /\
   (forall i v, 0 <= i < k -> At r 0 i = Ok v -> (v <= max)%Q) /\
   (forall i v, 0 <= i < j -> At r 0 i = Ok v -> (v < max)%Q)).

(** What the scan of [d] has established after the rows below [k]:
    [found] tells whether one of them is positive; no quotient of a
    positive row is below [x], and those of the rows before [l] are above
    it; [x] is still [+Inf] and no row chosen, or [x] is the quotient of
    the row [l]. *)
Definition leaving_inv (quo : Q -> Q -> float64) (xB d : Dense) (k : Z)
    (acc : float64 * Z * bool) : Prop :=
  let '(x, l, found) := acc in
  (found = false -> forall i e, 0 <= i < k -> At d i 0 = Ok e -> (e <= 0)%Q) /\
  (found = true ->
     exists i e a, 0 <= i < k /\ At d i 0 = Ok e /\ (0 < e)%Q /\ At xB i 0 = Ok a) /\
  (forall i ei ai, 0 <= i < k ->
     At d i 0 = Ok ei -> (0 < ei)%Q -> At xB i 0 = Ok ai ->
     ltF (quo ai ei) x = false /\ (i < l -> ltF x (quo ai ei) = true)) /\
  ((l = -1 /\ x = PosInf) \/
   (0 <= l < k /\ found = true /\ ltF x PosInf = true /\
    exists a e, At d l 0 = Ok e /\ (0 < e)%Q /\ At xB l 0 = Ok a /\ x = quo a e)).

(** The entries of [A] once the rows below [k] have had their columns
    [e] and [n + l] exchanged. *)
Definition exchanged (A : Dense) (n e l k i j : Z) : result Q :=
  if i <? k then
    if j =? n + l then At A i e
    else if j =? e then At A i (n + l)
    else At A i j
  else At A i j.

(** The entries of [A] once the rows below [k] have had their column [e]
    copied into column [n + l]. *)
Definition copied (A : Dense) (n e l k i j : Z) : result Q :=
  if (i <? k) && (j =? n + l) then At A i e else At A i j.

(** ** Runs *)

Section Runs.

Variable Inverse : Dense -> result Dense.
Variable Solve : Dense -> Dense -> result Dense.
Variable quo : Q -> Q -> float64.

(** The state after [k] further calls of [Iter f]. *)
Fixpoint again (k : nat) (f : Z) (cf : ArrayRemap.CF) : ArrayRemap.CF :=
  match k with
  | O => cf
  | S k' => again k' f (fst (ArrayRemap.Iter Inverse Solve quo f cf))
  end.

(** The state after the calls [Iter f] for the [f] of [fs], in turn. *)
Fixpoint pivots (fs : list Z) (cf : ArrayRemap.CF) : result ArrayRemap.CF :=
  match fs with
  | [] => Ok cf
  | f :: fs' =>
      match ArrayRemap.Iter Inverse Solve quo f cf with
      | (cf', Ok _) => pivots fs' cf'
      | (_, Err e) => Err e
      | (_, Panic w) => Panic w
      end
  end.

(** The state after [t] pivots: [t] calls of [Iter 0], each of which has
    returned false. *)
Fixpoint pivoted (t : nat) (cf : ArrayRemap.CF) : option ArrayRemap.CF :=
  match t with
  | O => Some cf
  | S t' =>
      match ArrayRemap.Iter Inverse Solve quo 0 cf with
      | (cf', Ok false) => pivoted t' cf'
      | _ => None
      end
  end.

End Runs.

(** ** Scenarios, with the exact linear algebra and the exact division *)

Abbreviation ASimplex := (ArrayRemap.Simplex Exact.Inverse Exact.Solve exactQuo).
Abbreviation AIter := (ArrayRemap.Iter Exact.Inverse Exact.Solve exactQuo).
Abbreviation MSimplex := (MapRemap.Simplex Exact.Inverse Exact.Solve exactQuo).
Abbreviation MIter := (MapRemap.Iter Exact.Inverse Exact.Solve exactQuo).

(** Scenario A of the test suite. *)
Definition cA : Dense := ofZ 1 4 [7; 9; 18; 17].
Definition AA : Dense := ofZ 3 4 [2; 4; 5; 7;  1; 1; 2; 2;  1; 2; 3; 3].
Definition bA : Dense := ofZ 3 1 [42; 17; 24].

(** The state after [New], and after one and two pivots. *)
Definition cfA0 : ArrayRemap.CF :=
  Eval vm_compute in fst (ArrayRemap.New cA AA bA (zeroCF [])).
Definition cfA1 : ArrayRemap.CF := Eval vm_compute in fst (AIter 0 cfA0).
Definition cfA2 : ArrayRemap.CF := Eval vm_compute in fst (AIter 0 cfA1).

Definition resA : Dense * Q :=
  Eval vm_compute in
    match ArrayRemap.GetResults cfA2 with Ok r => r | _ => (nilDense, 0%Q) end.

(** The multipliers, the reduced costs and the direction of scenario A,
    at the start and after the first pivot. *)
Definition yA0 : Dense :=
  Eval vm_compute in
    match ArrayRemap.FindY Exact.Inverse cfA0 with Ok y => y | _ => nilDense end.
Definition rA0 : Dense :=
  Eval vm_compute in
    match ArrayRemap.reducedCosts cfA0 yA0 with Ok r => r | _ => nilDense end.
Definition dA0 : Dense :=
  Eval vm_compute in
    match ArrayRemap.SolveBd Exact.Solve cfA0 2 with Ok d => d | _ => nilDense end.
Definition yA1 : Dense :=
  Eval vm_compute in
    match ArrayRemap.FindY Exact.Inverse cfA1 with Ok y => y | _ => nilDense end.
Definition rA1 : Dense :=
  Eval vm_compute in
    match ArrayRemap.reducedCosts cfA1 yA1 with Ok r => r | _ => nilDense end.
Definition vA1 : Q :=
  Eval vm_compute in match At rA1 0 1 with Ok v => v | _ => 0%Q end.

(** Scenario A in the version with a map. *)
Definition cfM0 : MapRemap.CF :=
  Eval vm_compute in fst (MapRemap.New cA AA bA (zeroCF ∅)).

(** Maximise x0 + x1 subject to x0 <= 1 and 2 x0 + x1 <= 2: the slack
    variable of the first row leaves the basis at the first pivot and
    enters it again at the third. *)
Definition c_reenter : Dense := ofZ 1 2 [1; 1].
Definition A_reenter : Dense := ofZ 2 2 [1; 0;  2; 1].
Definition b_reenter : Dense := ofZ 2 1 [1; 2].

Definition cf_reenter0 : ArrayRemap.CF :=
  Eval vm_compute in fst (ArrayRemap.New c_reenter A_reenter b_reenter (zeroCF [])).
Definition cf_reenter3 : ArrayRemap.CF :=
  Eval vm_compute in fst (AIter 0 (fst (AIter 0 (fst (AIter 0 cf_reenter0))))).

(** Maximise x0 + x1 subject to 2 x0 + x1 <= 1: x0 enters the basis at
    the first pivot and leaves it at the second. *)
Definition c_stale : Dense := ofZ 1 2 [1; 1].
Definition A_stale : Dense := ofZ 1 2 [2; 1].
Definition b_stale : Dense := ofZ 1 1 [1].

Definition cf_stale0 : MapRemap.CF :=
  Eval vm_compute in fst (MapRemap.New c_stale A_stale b_stale (zeroCF ∅)).
Definition cf_stale2 : MapRemap.CF :=
  Eval vm_compute in fst (MIter 0 (fst (MIter 0 cf_stale0))).

(** ** Vocabulary of the further properties *)

(** Every entry of [remap] is a row of the result vector. *)
Definition remap_ok (cf : ArrayRemap.CF) : Prop :=
  length (cf_remap cf) = Z.to_nat (cf_n cf + cf_m cf) /\
  Forall (fun v => 0 <= v < cf_n cf + cf_m cf) (cf_remap cf).

(** The term that basis row [i] adds to the score of [GetResults]. *)
Definition scoreTerm (cf : ArrayRemap.CF) (i : Z) : Q :=
  match index (cf_remap cf) (cf_n cf + i) with
  | Ok ri =>
      if ri <? cf_n cf
      then (get (cf_xBStar cf) i 0 * get (cf_c cf) 0 (cf_n cf + i))%Q
      else 0%Q
  | _ => 0%Q
  end.

(** What [GetResults] has written after the basis rows below [rows]: row [k]
    of the result holds the entry of [xBStar] of the last such basis row
    that [remap] sends to [k], and zero if there is none. *)
Definition reported (cf : ArrayRemap.CF) (rows : Z) (res : Dense) : Prop :=
  forall k, 0 <= k < cf_n cf + cf_m cf ->
    (exists i, 0 <= i < rows /\ index (cf_remap cf) (cf_n cf + i) = Ok k /\
       (forall i', i < i' < rows -> index (cf_remap cf) (cf_n cf + i') <> Ok k) /\
       At res k 0 = At (cf_xBStar cf) i 0)
    \/
    ((forall i, 0 <= i < rows -> index (cf_remap cf) (cf_n cf + i) <> Ok k) /\
     At res k 0 = Ok 0%Q).

(** The states on which [GetResults] completes. *)
Definition ready (cf : ArrayRemap.CF) : Prop :=
  shaped cf /\ remap_ok cf /\ Dims (cf_x cf) = (cf_n cf + cf_m cf, 1).

(** The dictionary of the version with a map, as a state of the version with
    a slice; [remap] is left out. *)
Definition asArray (cf : MapRemap.CF) : ArrayRemap.CF :=
  mkCF (cf_n cf) (cf_m cf) (cf_A cf) (cf_x cf) (cf_c cf) (cf_b cf) (cf_xBStar cf)
    (cf_xN cf) (cf_B cf) (cf_AN cf) (cf_cB cf) (cf_cN cf) [].

(** The term that the index [k] adds to the score of [GetResults], in the
    version with a map. *)
Definition mapScoreTerm (cf : MapRemap.CF) (k : Z) : Q :=
  match cf_remap cf !! k with
  | Some v =>
      if k <? cf_n cf
      then (get (cf_xBStar cf) v 0 * get (cf_c cf) 0 k)%Q
      else 0%Q
  | None => 0%Q
  end.

(** Every value of [remap] is a row of [xBStar]. *)
Definition mremap_ok (cf : MapRemap.CF) : Prop :=
  map_Forall (fun _ v => 0 <= v < cf_m cf) (cf_remap cf).

Definition mready (cf : MapRemap.CF) : Prop :=
  shaped cf /\ mremap_ok cf /\ Dims (cf_x cf) = (cf_n cf + cf_m cf, 1).

Section MapRuns.

Variable Inverse : Dense -> result Dense.
Variable Solve : Dense -> Dense -> result Dense.
Variable quo : Q -> Q -> float64.

(** The state after the calls [Iter f] for the [f] of [fs], in turn, in the
    version with a map. *)
Fixpoint mpivots (fs : list Z) (cf : MapRemap.CF) : result MapRemap.CF :=
  match fs with
  | [] => Ok cf
  | f :: fs' =>
      match MapRemap.Iter Inverse Solve quo f cf with
      | (cf', Ok _) => mpivots fs' cf'
      | (_, Err e) => Err e
      | (_, Panic w) => Panic w
      end
  end.

End MapRuns.

(** Row [i] of the product [B * xBStar]. *)
Definition basisRow {R} (cf : CanonicalForm R) (i : Z) : Q :=
  Qsum ((fun j => (get (cf_A cf) i (cf_n cf + j) * get (cf_xBStar cf) j 0)%Q)
          <$> seqZ 0 (cf_m cf)).

(** The basic solution satisfies the constraints: [B * xBStar = b]. *)
Definition basis_eq {R} (cf : CanonicalForm R) : Prop :=
  forall i, 0 <= i < cf_m cf -> (basisRow cf i == get (cf_b cf) i 0)%Q.

(** The value [cB * xBStar] of the objective at the basic solution. *)
Definition objective {R} (cf : CanonicalForm R) : Q :=
  Qsum ((fun j => (get (cf_c cf) 0 (cf_n cf + j) * get (cf_xBStar cf) j 0)%Q)
          <$> seqZ 0 (cf_m cf)).

(** [Solve] returns solutions: [a * d = col] whenever [Solve a col]
    returns [d]. *)
Definition solves (Solve : Dense -> Dense -> result Dense) : Prop :=
  forall a col d, Solve a col = Ok d ->
    forall i, 0 <= i < Rows a ->
      (Qsum ((fun j => (get a i j * get d j 0)%Q) <$> seqZ 0 (Cols a))
       == get col i 0)%Q.

(** [Inverse] returns left inverses: [ai * a] is the identity whenever
    [Inverse a] returns [ai]. *)
Definition inverts (Inverse : Dense -> result Dense) : Prop :=
  forall a ai, Inverse a = Ok ai ->
    forall p j, 0 <= p < Cols a -> 0 <= j < Cols a ->
      (Qsum ((fun i => (get ai p i * get a i j)%Q) <$> seqZ 0 (Rows a))
       == if p =? j then 1 else 0)%Q.

(** ** The exact linear algebra, with its answers checked

    [Exact.Solve] and [Exact.Inverse], whose answer is multiplied back
    before it is returned. *)

Definition solvedBy (a d col : Dense) : bool :=
  forallb (fun i =>
    Qeq_bool (Qsum ((fun j => (get a i j * get d j 0)%Q) <$> seqZ 0 (Cols a)))
             (get col i 0))
    (seqZ 0 (Rows a)).

Definition invertedBy (a ai : Dense) : bool :=
  forallb (fun p =>
    forallb (fun j =>
      Qeq_bool (Qsum ((fun i => (get ai p i * get a i j)%Q) <$> seqZ 0 (Rows a)))
               (if p =? j then 1 else 0))
      (seqZ 0 (Cols a)))
    (seqZ 0 (Cols a)).

Definition checkedSolve (a col : Dense) : result Dense :=
  match Exact.Solve a col with
  | Ok d => if solvedBy a d col then Ok d else Err Exact.ErrSingular
  | r => r
  end.

Definition checkedInverse (a : Dense) : result Dense :=
  match Exact.Inverse a with
  | Ok ai => if invertedBy a ai then Ok ai else Err Exact.ErrSingular
  | r => r
  end.

(** ** Further scenarios *)

(** Scenario A, in the version with a map, after one and two pivots. *)
Definition cfM1 : MapRemap.CF := Eval vm_compute in fst (MIter 0 cfM0).

Definition cfM2 : MapRemap.CF := Eval vm_compute in fst (MIter 0 cfM1).

(** The initial state of scenario A with the slack columns zeroed: a
    singular basis. *)
Definition cf_singular : ArrayRemap.CF :=
  set_A (ofZ 3 7 [2; 4; 5; 7; 0; 0; 0;  1; 1; 2; 2; 0; 0; 0;  1; 2; 3; 3; 0; 0; 0]) cfA0.

Definition cfM_singular : MapRemap.CF :=
  set_A (ofZ 3 7 [2; 4; 5; 7; 0; 0; 0;  1; 1; 2; 2; 0; 0; 0;  1; 2; 3; 3; 0; 0; 0]) cfM0.

(** A constraint matrix narrower than the objective. *)
Definition c_narrow : Dense := ofZ 1 2 [1; 1].

Definition A_narrow : Dense := ofZ 1 1 [1].

Definition b_narrow : Dense := ofZ 1 1 [1].


(** ** The program of a state *)

(** The linear program a state holds is: maximise [c * z] over the points
    [z >= 0] of [n + m] coordinates with [A * z = b].  [objectiveAt] is
    the value [c * z] of a point. *)
Definition objectiveAt {R} (cf : CanonicalForm R) (z : Z -> Q) : Q :=
  Qsum ((fun j => (get (cf_c cf) 0 j * z j)%Q) <$> seqZ 0 (cf_n cf + cf_m cf)).

(** [z] is a point of the program of the state: [z >= 0] and [A * z = b]. *)
Definition admissible {R} (cf : CanonicalForm R) (z : Z -> Q) : Prop :=
  (forall j, 0 <= j < cf_n cf + cf_m cf -> (0 <= z j)%Q) /\
  forall i, 0 <= i < cf_m cf ->
    (Qsum ((fun j => (get (cf_A cf) i j * z j)%Q) <$> seqZ 0 (cf_n cf + cf_m cf))
     == get (cf_b cf) i 0)%Q.

(** The point at distance [t] along the direction of the entering column
    [k]: [t] at [k], [xBStar - t * d] on the basis, 0 elsewhere. *)
Definition ray {R} (cf : CanonicalForm R) (k : Z) (d : Dense) (t : Q) (j : Z) : Q :=
  if j =? k then t
  else if j <? cf_n cf then 0%Q
  else (get (cf_xBStar cf) (j - cf_n cf) 0 - t * get d (j - cf_n cf) 0)%Q.

(** A program without a maximum: maximise [x0 + x1] with [x0 - x1 <= 1].
    The states after [New] and one pivot, in both versions. *)
Definition cU : Dense := ofZ 1 2 [1; 1].
Definition AU : Dense := ofZ 1 2 [1; -1].
Definition bU : Dense := ofZ 1 1 [1].
Definition dU : Dense := ofZ 1 1 [-1].
Definition cfU1 : ArrayRemap.CF :=
  Eval vm_compute in fst (AIter 0 (fst (ArrayRemap.New cU AU bU (zeroCF [])))).
Definition cfMU1 : MapRemap.CF :=
  Eval vm_compute in fst (MIter 0 (fst (MapRemap.New cU AU bU (zeroCF ∅)))).
Definition yU1 : Dense :=
  Eval vm_compute in
    match ArrayRemap.FindY Exact.Inverse cfU1 with Ok y => y | _ => nilDense end.

(** Maximise x0 + 2 x1 subject to 2^-700 x0 <= 2^700 and x1 <= 1, with
    the division that overflows as binary64 does.  The first pivot brings
    x1 into the basis; at the second call the only positive row of the
    direction has the quotient 2^1400. *)
Definition cO : Dense := ofZ 1 2 [1; 2].
Definition AO : Dense := mkDense 2 2 [1 / inject_Z (2 ^ 700); 0; 0; 1]%Q.
Definition bO : Dense := mkDense 2 1 [inject_Z (2 ^ 700); 1]%Q.
Definition cfMO0 : MapRemap.CF :=
  Eval vm_compute in fst (MapRemap.New cO AO bO (zeroCF ∅)).
Definition cfMO1 : MapRemap.CF :=
  Eval vm_compute in
    fst (MapRemap.Iter Exact.Inverse Exact.Solve overflowQuo 0 cfMO0).
Definition cfMO2 : MapRemap.CF :=
  Eval vm_compute in
    fst (MapRemap.Iter Exact.Inverse Exact.Solve overflowQuo 0 cfMO1).

(** * Properties *)

(** ** Loops *)

Lemma forM_app {St} (l1 l2 : list Z) (body : Z -> St -> result St) (s : St) :
  forM (l1 ++ l2) body s = rbind (forM l1 body s) (forM l2 body).
Proof.
  revert s; induction l1 as [|j l1 IH]; intros s; simpl; [reflexivity|].
  destruct (body j s); simpl; auto.
Qed.

(** A loop whose body preserves an invariant and never panics under it
    runs to completion and establishes the invariant at the end. *)
Lemma forM_inv {St} (P : Z -> St -> Prop) (body : Z -> St -> result St) lo len s :
  0 <= len ->
  P lo s ->
  (forall j t, lo <= j < lo + len -> P j t ->
     exists t', body j t = Ok t' /\ P (j + 1) t') ->
  exists s', forM (seqZ lo len) body s = Ok s' /\ P (lo + len) s'.
Proof.
  intros Hlen. rewrite <- (Z2Nat.id len Hlen).
  induction (Z.to_nat len) as [|k IH]; intros H0 Hstep.
  - exists s. rewrite Z.add_0_r. split; [reflexivity|exact H0].
  - destruct IH as (s1 & E1 & P1); [exact H0| |].
    { intros j t Hj. apply Hstep. lia. }
    destruct (Hstep (lo + Z.of_nat k) s1) as (s2 & E2 & P2); [lia|exact P1|].
    exists s2. rewrite seqZ_S, forM_app, E1. simpl. rewrite E2. split; [reflexivity|].
    replace (lo + Z.of_nat (S k)) with (lo + Z.of_nat k + 1) by lia. exact P2.
Qed.

(** The partial-correctness form: if the loop returned, every step did. *)
Lemma forM_post {St} (P : Z -> St -> Prop) (body : Z -> St -> result St) lo len s s' :
  0 <= len ->
  P lo s ->
  (forall j t t', lo <= j < lo + len -> P j t -> body j t = Ok t' -> P (j + 1) t') ->
  forM (seqZ lo len) body s = Ok s' -> P (lo + len) s'.
Proof.
  intros Hlen. rewrite <- (Z2Nat.id len Hlen). revert s'.
  induction (Z.to_nat len) as [|k IH]; intros s' H0 Hstep.
  - simpl. intros [= <-]. rewrite Z.add_0_r. exact H0.
  - rewrite seqZ_S, forM_app.
    destruct (forM (seqZ lo (Z.of_nat k)) body s) as [s1| |] eqn:E1; simpl; try discriminate.
    destruct (body (lo + Z.of_nat k) s1) as [s2| |] eqn:E2; simpl; try discriminate.
    intros [= <-].
    replace (lo + Z.of_nat (S k)) with (lo + Z.of_nat k + 1) by lia.
    eapply Hstep; [|eapply IH|exact E2]; eauto. lia.
    intros j t t' Hj. apply Hstep. lia.
Qed.

Lemma forS_app {St} (l1 l2 : list Z) (body : Z -> M St unit) (s : St) :
  forS (l1 ++ l2) body s = bind (forS l1 body) (fun _ => forS l2 body) s.
Proof.
  revert s; induction l1 as [|j l1 IH]; intros s; simpl; [reflexivity|].
  unfold bind in *. destruct (body j s) as [s1 [[]| |]]; auto.
Qed.

Lemma forS_inv {St} (P : Z -> St -> Prop) (body : Z -> M St unit) lo len s :
  0 <= len ->
  P lo s ->
  (forall j t, lo <= j < lo + len -> P j t ->
     exists t', body j t = (t', Ok tt) /\ P (j + 1) t') ->
  exists s', forS (seqZ lo len) body s = (s', Ok tt) /\ P (lo + len) s'.
Proof.
  intros Hlen. rewrite <- (Z2Nat.id len Hlen).
  induction (Z.to_nat len) as [|k IH]; intros H0 Hstep.
  - exists s. rewrite Z.add_0_r. split; [reflexivity|exact H0].
  - destruct IH as (s1 & E1 & P1); [exact H0| |].
    { intros j t Hj. apply Hstep. lia. }
    destruct (Hstep (lo + Z.of_nat k) s1) as (s2 & E2 & P2); [lia|exact P1|].
    exists s2. rewrite seqZ_S, forS_app. unfold bind. rewrite E1. simpl.
    unfold bind. rewrite E2. split; [reflexivity|].
    replace (lo + Z.of_nat (S k)) with (lo + Z.of_nat k + 1) by lia. exact P2.
Qed.

(** ** Inversion of successful runs *)

Lemma bind_inv {St X Y} (a : M St X) (k : X -> M St Y) s s' r :
  bind a k s = (s', Ok r) ->
  exists s1 x, a s = (s1, Ok x) /\ k x s1 = (s', Ok r).
Proof.
  unfold bind. destruct (a s) as [s1 [x| |]]; try discriminate. eauto.
Qed.

Lemma assign_inv {St X} (set : X -> St -> St) e s s' u :
  assign set e s = (s', Ok u) -> exists v, e s = Ok v /\ s' = set v s.
Proof.
  unfold assign. destruct (e s) as [v| |]; try discriminate.
  intros [= <- _]. eauto.
Qed.

Lemma modify_inv {St} (f : St -> St) s s' u :
  modify f s = (s', Ok u) -> s' = f s.
Proof. intros [= <- _]. reflexivity. Qed.

Lemma readsR_inv {St X} (f : St -> result X) s s' x :
  readsR f s = (s', Ok x) -> s' = s /\ f s = Ok x.
Proof. intros [= <- ->]. auto. Qed.

Lemma reads_inv {St X} (f : St -> X) s s' x :
  reads f s = (s', Ok x) -> s' = s /\ x = f s.
Proof. intros [= <- <-]. auto. Qed.

Lemma ret_inv {St X} (x y : X) (s s' : St) :
  ret x s = (s', Ok y) -> s' = s /\ y = x.
Proof. intros [= <- <-]. auto. Qed.

(** A loop whose body leaves a part [g] of the state alone leaves it
    alone. *)
Lemma forS_frame {St Y} (g : St -> Y) (body : Z -> M St unit) js :
  (forall j s s' r, body j s = (s', r) -> g s' = g s) ->
  forall s s' r, forS js body s = (s', r) -> g s' = g s.
Proof.
  intros Hbody. induction js as [|j js IH]; intros s s' r; simpl.
  - intros [= <- _]. reflexivity.
  - unfold bind. destruct (body j s) as [s1 [[]| |]] eqn:E.
    + intros H. rewrite (IH _ _ _ H). eapply Hbody; eassumption.
    + intros [= <- _]. eapply Hbody; eassumption.
    + intros [= <- _]. eapply Hbody; eassumption.
Qed.

Lemma assign_frame {St X Y} (g : St -> Y) (set : X -> St -> St) e :
  (forall v s, g (set v s) = g s) ->
  forall s s' r, assign set e s = (s', r) -> g s' = g s.
Proof.
  intros Hset s s' r. unfold assign.
  destruct (e s); intros [= <- _]; auto.
Qed.

Lemma bind_frame {St X Y Z'} (g : St -> Z') (a : M St X) (k : X -> M St Y) :
  (forall s s' r, a s = (s', r) -> g s' = g s) ->
  (forall x s s' r, k x s = (s', r) -> g s' = g s) ->
  forall s s' r, bind a k s = (s', r) -> g s' = g s.
Proof.
  intros Ha Hk s s' r. unfold bind.
  destruct (a s) as [s1 [x| |]] eqn:E.
  - intros H. rewrite (Hk _ _ _ _ H). eapply Ha; eassumption.
  - intros [= <- _]. eapply Ha; eassumption.
  - intros [= <- _]. eapply Ha; eassumption.
Qed.

Lemma leaf_frame {St X Y} (g : St -> Y) (a : M St X) :
  (forall s, fst (a s) = s) ->
  forall s s' r, a s = (s', r) -> g s' = g s.
Proof. intros Ha s s' r E. rewrite <- (Ha s), E. reflexivity. Qed.

Create HintDb frame.
#[global] Hint Unfold ArrayRemap.exchangeRow MapRemap.copyRow : frame.

(** [frame] proves that a computation leaves a field of the state alone. *)
Ltac frame :=
  cbv beta; autounfold with frame;
  lazymatch goal with
  | |- forall s s' r, bind _ _ s = (s', r) -> _ =>
      apply bind_frame; [frame | intro; frame]
  | |- forall s s' r, forS _ _ s = (s', r) -> _ =>
      apply forS_frame; intro; frame
  | |- forall s s' r, assign _ _ s = (s', r) -> _ =>
      apply assign_frame; intros; reflexivity
  | |- forall s s' r, modify _ s = (s', r) -> _ =>
      intros ? ? ? [= <- _]; reflexivity
  | |- forall s s' r, _ s = (s', r) -> _ =>
      apply leaf_frame; intros; reflexivity
  end.

(** [framed H g] rewrites with the fact that the run [H] kept [g]. *)
Ltac framed H g :=
  lazymatch type of H with
  | ?a ?s = (?s', _) =>
      let F := fresh "F" in
      assert (F : forall t t' r, a t = (t', r) -> g t' = g t) by frame;
      rewrite (F _ _ _ H); clear F
  end.

Lemma bind_NoErr {St X Y} (a : M St X) (k : X -> M St Y) :
  NoErr a -> (forall x, NoErr (k x)) -> NoErr (bind a k).
Proof.
  intros Ha Hk s e. unfold bind. specialize (Ha s).
  destruct (a s) as [s1 [x| |]]; simpl in *.
  - apply Hk.
  - exfalso. exact (Ha _ eq_refl).
  - discriminate.
Qed.

Lemma assign_NoErr {St X} (set : X -> St -> St) (f : St -> result X) :
  (forall s, noErr (f s)) -> NoErr (assign set f).
Proof.
  intros Hf s e. unfold assign. specialize (Hf s).
  destruct (f s); simpl; try discriminate. exfalso. exact (Hf _ eq_refl).
Qed.

Lemma forS_NoErr {St} (body : Z -> M St unit) js :
  (forall j, NoErr (body j)) -> NoErr (forS js body).
Proof.
  intros Hb. induction js as [|j js IH]; simpl.
  - intros s e. discriminate.
  - apply bind_NoErr; auto.
Qed.

Lemma Grow_noErr a r c : noErr (Grow a r c).
Proof. intros e. unfold Grow. repeat destruct (_ : bool); discriminate. Qed.

Lemma Set_noErr {T} (a : DenseOf T) i j v : noErr (Set_ a i j v).
Proof. intros e. unfold Set_. repeat destruct (_ : bool); discriminate. Qed.

Lemma NewDense_noErr r c : noErr (NewDense r c).
Proof. intros e. unfold NewDense. destruct (_ : bool); discriminate. Qed.

Lemma Slice_noErr a i k j l : noErr (Slice a i k j l).
Proof. intros e. unfold Slice. destruct (_ : bool); discriminate. Qed.

Lemma make_noErr len : noErr (make len).
Proof. intros e. unfold make. destruct (_ : bool); discriminate. Qed.

Lemma store_noErr l i v : noErr (store l i v).
Proof. intros e. unfold store. destruct (_ : bool); discriminate. Qed.

(** [no_err] proves that a computation never returns a Go error. *)
Ltac no_err :=
  cbv beta;
  lazymatch goal with
  | |- NoErr (bind _ _) => apply bind_NoErr; [no_err | intro; no_err]
  | |- NoErr (forS _ _) => apply forS_NoErr; intro; no_err
  | |- NoErr (assign _ _) =>
      apply assign_NoErr; intro;
      first [ apply Grow_noErr | apply Set_noErr | apply NewDense_noErr
            | apply Slice_noErr | apply make_noErr | apply store_noErr ]
  | |- NoErr _ => intros ? ?; discriminate
  end.

Ltac inv_bind H :=
  let s := fresh "s" in
  let x := fresh "x" in
  let H1 := fresh H in
  apply bind_inv in H; destruct H as (s & x & H1 & H).

(** ** Comparisons *)

Lemma Qltb_lt x y : Qltb x y = true <-> (x < y)%Q.
Proof.
  unfold Qltb. rewrite negb_true_iff. split; intros H.
  - apply Qnot_le_lt. intros Hle. apply Qle_bool_iff in Hle. congruence.
  - destruct (Qle_bool y x) eqn:E; [|reflexivity].
    apply Qle_bool_iff in E. exfalso. exact (Qlt_not_le _ _ H E).
Qed.

Lemma Qltb_ge x y : Qltb x y = false <-> (y <= x)%Q.
Proof.
  unfold Qltb. rewrite negb_false_iff. apply Qle_bool_iff.
Qed.

Lemma Qleb_le x y : Qleb x y = true <-> (x <= y)%Q.
Proof. apply Qle_bool_iff. Qed.

Lemma Qleb_gt x y : Qleb x y = false <-> (y < x)%Q.
Proof.
  unfold Qleb. split; intros H.
  - apply Qnot_le_lt. intros Hle. apply Qle_bool_iff in Hle. congruence.
  - destruct (Qle_bool x y) eqn:E; [|reflexivity].
    apply Qle_bool_iff in E. exfalso. exact (Qlt_not_le _ _ H E).
Qed.

(** [<] on the steps is a strict total order, up to the equality of
    rationals. *)
Lemma ltF_irrefl x : ltF x x = false.
Proof.
  destruct x as [q| |]; simpl; try reflexivity.
  apply Qltb_ge. apply Qle_refl.
Qed.

Lemma ltF_trans x y z : ltF x y = true -> ltF y z = true -> ltF x z = true.
Proof.
  destruct x as [p| |], y as [q| |], z as [r| |]; simpl; try discriminate; try reflexivity.
  rewrite !Qltb_lt. apply Qlt_trans.
Qed.

(** [x < y] and [not (z < y)] give [x < z]. *)
Lemma ltF_lt_ge x y z : ltF x y = true -> ltF z y = false -> ltF x z = true.
Proof.
  destruct x as [p| |], y as [q| |], z as [r| |]; simpl; try discriminate; try reflexivity.
  rewrite !Qltb_lt, Qltb_ge. intros H1 H2. eapply Qlt_le_trans; eassumption.
Qed.

(** [not (x < y)] and [z < y] give [not (x < z)]. *)
Lemma ltF_ge_lt x y z : ltF x y = false -> ltF z y = true -> ltF x z = false.
Proof.
  destruct x as [p| |], y as [q| |], z as [r| |]; simpl; try discriminate; try reflexivity.
  rewrite Qltb_lt, !Qltb_ge. intros H1 H2.
  apply Qlt_le_weak. eapply Qlt_le_trans; eassumption.
Qed.

Lemma ltF_PosInf x : ltF x PosInf = false -> x = PosInf.
Proof. destruct x; simpl; try discriminate; reflexivity. Qed.

Lemma ltF_Num p q : ltF (Num p) (Num q) = true <-> (p < q)%Q.
Proof. apply Qltb_lt. Qed.

Lemma ltF_Num_ge p q : ltF (Num p) (Num q) = false <-> (q <= p)%Q.
Proof. apply Qltb_ge. Qed.

Lemma number_inv x q : number x = Ok q -> x = Num q.
Proof. destruct x; simpl; intros [=]. congruence. Qed.

Lemma number_noErr x : forall e, number x <> Err e.
Proof. intros e. destruct x; discriminate. Qed.

(** ** Bounds-checked access *)

Section Access.

Context {T : Type}.
Implicit Types a : DenseOf T.

Lemma inside_true r c i j :
  inside r c i j = true <-> 0 <= i < r /\ 0 <= j < c.
Proof. unfold inside. rewrite !andb_true_iff. lia. Qed.

Lemma inside_false r c i j :
  inside r c i j = false <-> ~ (0 <= i < r /\ 0 <= j < c).
Proof. rewrite <- inside_true. destruct (inside r c i j); split; congruence. Qed.

Lemma pos_inj a i j i' j' :
  0 <= i -> 0 <= j < Cols a -> 0 <= i' -> 0 <= j' < Cols a ->
  pos a i j = pos a i' j' -> i = i' /\ j = j'.
Proof.
  unfold pos. intros Hi Hj Hi' Hj' E.
  apply Z2Nat.inj in E; [|nia|nia].
  assert (i = i') by nia. subst. lia.
Qed.

Lemma pos_lt a i j :
  wf a -> 0 <= i < Rows a -> 0 <= j < Cols a -> (pos a i j < length (Data a))%nat.
Proof.
  intros (Hr & Hc & Hl) Hi Hj. rewrite Hl. unfold pos.
  apply Z2Nat.inj_lt; nia.
Qed.

Lemma At_ok a i j :
  wf a -> 0 <= i < Rows a -> 0 <= j < Cols a -> exists v, At a i j = Ok v.
Proof.
  intros Hwf Hi Hj. unfold At.
  replace (inside (Rows a) (Cols a) i j) with true
    by (symmetry; apply inside_true; lia).
  destruct (lookup_lt_is_Some_2 (Data a) (pos a i j)) as [v Hv].
  { apply pos_lt; assumption. }
  rewrite Hv. eauto.
Qed.

Lemma At_inv a i j v :
  At a i j = Ok v ->
  0 <= i < Rows a /\ 0 <= j < Cols a /\ Data a !! pos a i j = Some v.
Proof.
  unfold At. destruct (inside (Rows a) (Cols a) i j) eqn:E; [|discriminate].
  apply inside_true in E.
  destruct (Data a !! pos a i j) eqn:L; [|discriminate].
  intros [= ->]. tauto.
Qed.

Lemma Set_ok a i j v :
  wf a -> 0 <= i < Rows a -> 0 <= j < Cols a -> exists a', Set_ a i j v = Ok a'.
Proof.
  intros Hwf Hi Hj. unfold Set_.
  replace (inside (Rows a) (Cols a) i j) with true
    by (symmetry; apply inside_true; lia).
  pose proof (pos_lt a i j Hwf Hi Hj) as Hp.
  apply Nat.ltb_lt in Hp. rewrite Hp. eauto.
Qed.

Lemma Set_spec a i j v a' :
  Set_ a i j v = Ok a' ->
  Rows a' = Rows a /\ Cols a' = Cols a /\
  length (Data a') = length (Data a) /\
  0 <= i < Rows a /\ 0 <= j < Cols a /\
  forall i' j',
    At a' i' j' = if (i' =? i) && (j' =? j) then Ok v else At a i' j'.
Proof.
  unfold Set_. destruct (inside (Rows a) (Cols a) i j) eqn:E; [|discriminate].
  apply inside_true in E.
  destruct (pos a i j <? length (Data a))%nat eqn:Hp; [|discriminate].
  apply Nat.ltb_lt in Hp. intros [= <-]. simpl.
  repeat split; try lia.
  - apply length_insert.
  - intros i' j'. unfold At; simpl.
    destruct (inside (Rows a) (Cols a) i' j') eqn:E'.
    + apply inside_true in E'.
      destruct ((i' =? i) && (j' =? j)) eqn:Eq.
      * apply andb_true_iff in Eq as [->%Z.eqb_eq ->%Z.eqb_eq].
        unfold pos at 1; simpl. fold (pos a i j).
        rewrite list_lookup_insert_eq by exact Hp. reflexivity.
      * unfold pos at 1; simpl. fold (pos a i' j').
        rewrite list_lookup_insert_ne; [reflexivity|].
        intros Hpos. apply pos_inj in Hpos; [|lia..].
        destruct Hpos as [-> ->]. rewrite !Z.eqb_refl in Eq. discriminate.
    + destruct ((i' =? i) && (j' =? j)) eqn:Eq; [|reflexivity].
      apply andb_true_iff in Eq as [->%Z.eqb_eq ->%Z.eqb_eq].
      apply inside_false in E'. tauto.
Qed.

Lemma Set_wf a i j v a' : wf a -> Set_ a i j v = Ok a' -> wf a'.
Proof.
  intros (Hr & Hc & Hl) H. apply Set_spec in H as (R & C & L & _).
  unfold wf. rewrite R, C, L. auto.
Qed.

Lemma At_row_out a i j :
  i < 0 \/ Rows a <= i -> At a i j = Panic ErrIndexOutOfRange.
Proof.
  intros H. unfold At.
  replace (inside (Rows a) (Cols a) i j) with false; [reflexivity|].
  symmetry. apply inside_false. lia.
Qed.

End Access.

Lemma At_get a i j v : At a i j = Ok v -> get a i j = v.
Proof. intros H. apply At_inv in H as (_ & _ & H). unfold get. rewrite H. reflexivity. Qed.

Lemma At_wf a i j :
  wf a -> 0 <= i < Rows a -> 0 <= j < Cols a -> At a i j = Ok (get a i j).
Proof.
  intros Hwf Hi Hj. destruct (At_ok a i j Hwf Hi Hj) as [v Hv].
  rewrite Hv. f_equal. symmetry. apply At_get. exact Hv.
Qed.

Lemma ColView_At a v j col i :
  ColView a v j = Ok col -> 0 <= i < vRows v ->
  At col i 0 = Ok (get a (vi v + i) (vj v + j)).
Proof.
  unfold ColView. destruct (_ && _); [|discriminate]. intros [= <-] Hi.
  unfold At; simpl.
  replace (inside (vRows v) 1 i 0) with true by (symmetry; apply inside_true; lia).
  unfold pos; simpl. rewrite list_lookup_fmap.
  rewrite lookup_seqZ_lt by lia. simpl.
  do 3 f_equal. lia.
Qed.

Lemma Sub_At a b s i j u v :
  Sub a b = Ok s -> At a i j = Ok u -> At b i j = Ok v ->
  At s i j = Ok (u - v)%Q.
Proof.
  unfold Sub. destruct (_ && _) eqn:E; [|discriminate].
  apply andb_true_iff in E as [ER%Z.eqb_eq EC%Z.eqb_eq].
  intros [= <-] (Hi & Hj & Hu)%At_inv (_ & _ & Hv)%At_inv.
  unfold At; simpl.
  replace (inside (Rows a) (Cols a) i j) with true by (symmetry; apply inside_true; lia).
  unfold pos in *; simpl. rewrite lookup_zip_with, Hu. simpl.
  rewrite EC, Hv. reflexivity.
Qed.

Lemma Scale_At f a i j v :
  At a i j = Ok v -> At (Scale f a) i j = Ok (f * v)%Q.
Proof.
  intros (Hi & Hj & Hv)%At_inv. unfold At; simpl.
  replace (inside (Rows a) (Cols a) i j) with true by (symmetry; apply inside_true; lia).
  unfold pos in *; simpl. rewrite list_lookup_fmap, Hv. reflexivity.
Qed.

Lemma Scale_wf f a : wf a -> wf (Scale f a).
Proof.
  intros (Hr & Hc & Hl). unfold wf; simpl. rewrite length_fmap. auto.
Qed.

Lemma length_build r c f :
  length (Data (build r c f)) = (Z.to_nat r * Z.to_nat c)%nat.
Proof.
  unfold build; simpl. rewrite <- (length_seqZ 0 r).
  induction (seqZ 0 r) as [|i l IH]; simpl; [reflexivity|].
  rewrite length_app, length_fmap, length_seqZ. f_equal. exact IH.
Qed.

Lemma build_wf r c f : 0 <= r -> 0 <= c -> wf (build r c f).
Proof.
  intros Hr Hc. unfold wf. rewrite length_build. simpl.
  repeat split; try assumption. rewrite Z2Nat.inj_mul by assumption. reflexivity.
Qed.

Lemma Sub_wf a b s : wf a -> wf b -> Sub a b = Ok s ->
  wf s /\ Rows s = Rows a /\ Cols s = Cols a.
Proof.
  intros (Ra & Ca & La) (Rb & Cb & Lb). unfold Sub.
  destruct ((Rows a =? Rows b) && (Cols a =? Cols b)) eqn:E; [|discriminate].
  apply andb_true_iff in E as [ER%Z.eqb_eq EC%Z.eqb_eq].
  intros [= <-]. unfold wf; simpl. repeat split; try assumption.
  rewrite length_zip_with, La, Lb, ER, EC. lia.
Qed.

Lemma Sub_wf_left a b s :
  wf a -> (length (Data a) <= length (Data b))%nat -> Sub a b = Ok s ->
  wf s /\ Rows s = Rows a /\ Cols s = Cols a.
Proof.
  intros (Ra & Ca & La) Hlen. unfold Sub.
  destruct (_ && _); [|discriminate].
  intros [= <-]. unfold wf; simpl. repeat split; try assumption.
  rewrite length_zip_with. lia.
Qed.

(** Case analysis on the integer comparisons of the goal. *)
Ltac cases :=
  repeat match goal with
  | |- context [?a =? ?b] => destruct (Z.eqb_spec a b)
  | |- context [?a <? ?b] => destruct (Z.ltb_spec a b)
  | |- context [andb _ _] => cbn [andb]
  end; subst; try lia; try reflexivity; try congruence.

(** ** Matrices made by [build] *)

Lemma lookup_concat_rows {T} (l : list (list T)) (c i j : nat) :
  Forall (fun r => length r = c) l -> (j < c)%nat ->
  concat l !! (i * c + j)%nat = l !! i ≫= (fun r => r !! j).
Proof.
  intros Hl Hj. revert i. induction Hl as [|r l Hr Hl IH]; intros i; simpl.
  - destruct i; reflexivity.
  - destruct i as [|i]; simpl.
    + rewrite lookup_app_l by lia. reflexivity.
    + rewrite lookup_app_r by lia. rewrite <- IH. f_equal. lia.
Qed.

Lemma At_build r c f i j :
  0 <= i < r -> 0 <= j < c -> At (build r c f) i j = Ok (f i j).
Proof.
  intros Hi Hj. unfold At. cbn [Rows Cols build].
  replace (inside r c i j) with true by (symmetry; apply inside_true; lia).
  unfold pos. cbn [Cols Data build].
  replace (Z.to_nat (i * c + j)) with (Z.to_nat i * Z.to_nat c + Z.to_nat j)%nat by nia.
  rewrite (lookup_concat_rows _ (Z.to_nat c)).
  - rewrite list_lookup_fmap, lookup_seqZ_lt by lia. simpl.
    rewrite list_lookup_fmap, lookup_seqZ_lt by lia. simpl.
    do 2 f_equal; lia.
  - apply Forall_fmap, Forall_forall. intros k _. simpl.
    rewrite length_fmap, length_seqZ. reflexivity.
  - lia.
Qed.

Lemma get_build r c f i j :
  0 <= i < r -> 0 <= j < c -> get (build r c f) i j = f i j.
Proof. intros Hi Hj. apply At_get, At_build; assumption. Qed.

Lemma get_Deref a v i j :
  0 <= i < vRows v -> 0 <= j < vCols v ->
  get (Deref a v) i j = get a (vi v + i) (vj v + j).
Proof. intros Hi Hj. unfold Deref. rewrite get_build by assumption. reflexivity. Qed.

Lemma Mul_inv a b m :
  Mul a b = Ok m ->
  Cols a = Rows b /\ Rows m = Rows a /\ Cols m = Cols b /\
  forall i j, 0 <= i < Rows a -> 0 <= j < Cols b ->
    At m i j = Ok (Qsum ((fun k => (get a i k * get b k j)%Q) <$> seqZ 0 (Cols a))).
Proof.
  unfold Mul. destruct (Z.eqb_spec (Cols a) (Rows b)) as [E|]; [|discriminate].
  intros [= <-]. split; [exact E|]. split; [reflexivity|]. split; [reflexivity|].
  intros i j Hi Hj. apply At_build; assumption.
Qed.

(** ** The reduced-cost row and the entering variable *)

Section ArrayRemapFacts.

Variable Inverse : Dense -> result Dense.
Variable Solve : Dense -> Dense -> result Dense.
Variable quo : Q -> Q -> float64.

Import ArrayRemap.

Local Abbreviation Iter := (ArrayRemap.Iter Inverse Solve quo).
Local Abbreviation FindY := (ArrayRemap.FindY Inverse).
Local Abbreviation SolveBd := (ArrayRemap.SolveBd Solve).
Local Abbreviation scanLeaving := (ArrayRemap.scanLeaving quo).
Local Abbreviation FindLeavingVariable := (ArrayRemap.FindLeavingVariable quo).
Local Abbreviation leaving_inv := (leaving_inv quo).
Local Abbreviation again := (again Inverse Solve quo).
Local Abbreviation pivots := (pivots Inverse Solve quo).

Lemma reducedCosts_shape (cf : CF) y r :
  0 <= vRows (cf_cN cf) -> 0 <= vCols (cf_cN cf) ->
  reducedCosts cf y = Ok r ->
  wf r /\ Rows r = vRows (cf_cN cf) /\ Cols r = vCols (cf_cN cf).
Proof.
  intros HR HC. unfold reducedCosts, Mul.
  destruct (Cols y =? Rows (Deref (cf_A cf) (cf_AN cf))); simpl; [|discriminate].
  intros H.
  assert (Hd : wf (Deref (cf_c cf) (cf_cN cf))) by (apply build_wf; assumption).
  pose proof H as H'. unfold Sub in H'.
  destruct (_ && _) eqn:E in H'; [|discriminate].
  apply andb_true_iff in E as [ER%Z.eqb_eq EC%Z.eqb_eq]. simpl in ER, EC.
  eapply Sub_wf in H; [exact H|exact Hd|].
  apply build_wf; lia.
Qed.

(** The entries of the row that [FindEnteringVariable] scans are those of
    [cN - y*AN]. *)
Lemma reducedCosts_entry (cf : CF) y r k v :
  reducedCosts cf y = Ok r -> At r 0 k = Ok v ->
  v = (get (Deref (cf_c cf) (cf_cN cf)) 0 k
       - Qsum ((fun i => get y 0 i * get (Deref (cf_A cf) (cf_AN cf)) i k)
                 <$> seqZ 0 (Cols y)))%Q.
Proof.
  unfold reducedCosts.
  destruct (Mul y _) as [m0| |] eqn:Hm; simpl; try discriminate.
  intros Hsub Hv.
  apply Mul_inv in Hm as (Em & Rm & Cm & Hm).
  pose proof Hsub as Hsub'. unfold Sub in Hsub'.
  destruct (_ && _) eqn:E in Hsub'; [|discriminate].
  apply andb_true_iff in E as [ER%Z.eqb_eq EC%Z.eqb_eq]. injection Hsub' as Hr.
  pose proof (At_inv _ _ _ _ Hv) as (Hi & Hk & _).
  rewrite <- Hr in Hi, Hk. cbn [Rows Cols Deref build] in Hi, Hk, ER, EC, Rm, Cm.
  assert (Hc : At (Deref (cf_c cf) (cf_cN cf)) 0 k
               = Ok (get (Deref (cf_c cf) (cf_cN cf)) 0 k)).
  { unfold Deref. rewrite get_build by assumption.
    apply (At_build _ _ (fun i j => get (cf_c cf) (vi (cf_cN cf) + i) (vj (cf_cN cf) + j)));
      assumption. }
  assert (Hk' : 0 <= k < Cols (Deref (cf_A cf) (cf_AN cf)))
    by (cbn [Cols Deref build]; lia).
  assert (Hi' : 0 <= 0 < Rows y) by lia.
  pose proof (Sub_At _ _ _ 0 k _ _ Hsub Hc (Hm 0 k Hi' Hk')) as Hv'.
  rewrite Hv in Hv'. injection Hv' as ->. reflexivity.
Qed.

Lemma scanEntering_step r k acc :
  wf r -> Rows r = 1 -> 0 <= k < Cols r ->
  entering_inv r k acc ->
  exists acc', scanEntering r k acc = Ok acc' /\ entering_inv r (k + 1) acc'.
Proof.
  intros Hwf HR Hk Hinv. destruct acc as [mx j].
  destruct (At_ok r 0 k Hwf ltac:(lia) Hk) as [v Hv].
  unfold scanEntering. rewrite Hv. simpl.
  destruct (Qltb 0 v && Qltb mx v) eqn:E.
  - apply andb_true_iff in E as [Hpos%Qltb_lt Hgt%Qltb_lt].
    eexists; split; [reflexivity|]. right.
    repeat split; try lia; try assumption.
    + intros i w Hi Hw. destruct (Z.eq_dec i k) as [->|Hne].
      * rewrite Hv in Hw. injection Hw as <-. apply Qle_refl.
      * destruct Hinv as [(_ & -> & Hall)|(_ & _ & _ & Hall & _)].
        -- apply Qlt_le_weak. eapply Qle_lt_trans; [|exact Hpos].
           apply (Hall i); [lia|assumption].
        -- apply Qlt_le_weak. eapply Qle_lt_trans; [|exact Hgt].
           apply (Hall i); [lia|assumption].
    + intros i w Hi Hw.
      destruct Hinv as [(_ & -> & Hall)|(_ & _ & _ & Hall & _)].
      * eapply Qle_lt_trans; [|exact Hpos]. apply (Hall i); [lia|assumption].
      * eapply Qle_lt_trans; [|exact Hgt]. apply (Hall i); [lia|assumption].
  - eexists; split; [reflexivity|].
    apply andb_false_iff in E.
    destruct Hinv as [(-> & -> & Hall)|(Hj & Hat & Hmx & Hall & Hfirst)].
    + left. repeat split; try reflexivity.
      intros i w Hi Hw. destruct (Z.eq_dec i k) as [->|Hne].
      * rewrite Hv in Hw. injection Hw as <-.
        destruct E as [E|E]; apply Qltb_ge in E; exact E.
      * apply (Hall i); [lia|assumption].
    + right. repeat split; try lia; try assumption.
      intros i w Hi Hw. destruct (Z.eq_dec i k) as [->|Hne].
      * rewrite Hv in Hw. injection Hw as <-.
        destruct E as [E|E]; apply Qltb_ge in E; [|exact E].
        apply Qlt_le_weak. eapply Qle_lt_trans; eassumption.
      * apply (Hall i); [lia|assumption].
Qed.

Lemma scanEntering_spec r :
  wf r -> Rows r = 1 ->
  exists acc, forM (seqZ 0 (Cols r)) (scanEntering r) (0%Q, -1) = Ok acc
    /\ entering_inv r (Cols r) acc.
Proof.
  intros Hwf HR.
  destruct (forM_inv (entering_inv r) (scanEntering r) 0 (Cols r) (0%Q, -1))
    as (acc & E & P).
  - apply Hwf.
  - left. repeat split; try reflexivity. intros; lia.
  - intros j t Hj Ht. apply scanEntering_step; auto; lia.
  - exists acc. split; [exact E|exact P].
Qed.

(** Whenever [Iter] signals the end, it has not touched the state. *)
Lemma Iter_end_unchanged f (cf cf' : CF) :
  Iter f cf = (cf', Ok true) -> cf' = cf.
Proof.
  unfold ArrayRemap.Iter, bind, readsR, ret.
  destruct (FindY cf) as [y| |]; try discriminate.
  destruct (FindEnteringVariable cf y f) as [e| |]; try discriminate.
  destruct (e =? -1); [congruence|].
  destruct (SolveBd cf e) as [d| |]; try discriminate.
  destruct (FindLeavingVariable cf d) as [[x l]| |]; try discriminate.
  destruct (l =? -1); [congruence|].
  destruct (index _ _) as [tmp| |]; try discriminate.
  destruct (assign set_remap _ cf) as [s1 [[]| |]]; try discriminate.
  destruct (assign set_remap _ s1) as [s2 [[]| |]]; try discriminate.
  destruct (number x) as [q| |]; try discriminate.
  destruct (Update d y q e l s2) as [s3 [[]| |]]; discriminate.
Qed.

Lemma Iter_no_entering f (cf : CF) y :
  FindY cf = Ok y -> FindEnteringVariable cf y f = Ok (-1) ->
  Iter f cf = (cf, Ok true).
Proof.
  intros Hy He. unfold ArrayRemap.Iter, bind, readsR, ret.
  rewrite Hy, He. reflexivity.
Qed.

(** C3. The row [r] that [FindEnteringVariable] scans is [cN - y*AN]: one
    row, with the entry [cN[k] - sum_i y[i] * AN[i][k]] in each column [k]
    of [cN].  With no forced index, [FindEnteringVariable] returns the
    first index of the largest strictly positive entry of [r]; it returns
    -1 exactly when no entry of [r] is strictly positive, and [Iter] then
    signals the end and leaves the state as it was. *)
Theorem C3_entering_variable_dantzig (cf : CF) (y r : Dense) :
  vRows (cf_cN cf) = 1 -> 0 <= vCols (cf_cN cf) ->
  reducedCosts cf y = Ok r ->
  Dims r = (1, vCols (cf_cN cf)) /\
  (forall k, 0 <= k < vCols (cf_cN cf) ->
     At r 0 k =
     Ok (get (Deref (cf_c cf) (cf_cN cf)) 0 k
         - Qsum ((fun i => get y 0 i * get (Deref (cf_A cf) (cf_AN cf)) i k)
                   <$> seqZ 0 (Cols y)))%Q) /\
  exists j,
    FindEnteringVariable cf y 0 = Ok j /\
    (j = -1 <-> forall i v, At r 0 i = Ok v -> (v <= 0)%Q) /\
    (j <> -1 ->
       0 <= j < Cols r /\
       exists max, At r 0 j = Ok max /\ (0 < max)%Q /\
         (forall i v, At r 0 i = Ok v -> (v <= max)%Q) /\
         (forall i v, i < j -> At r 0 i = Ok v -> (v < max)%Q)) /\
    (j = -1 -> FindY cf = Ok y -> Iter 0 cf = (cf, Ok true)).
Proof.
  intros HR HC Hr.
  destruct (reducedCosts_shape cf y r) as (Hwf & Rr & Cr); [lia|assumption..|].
  rewrite HR in Rr.
  destruct (scanEntering_spec r Hwf Rr) as ([mx j] & Hscan & Hinv).
  assert (Hrange : forall i v, At r 0 i = Ok v -> 0 <= i < Cols r).
  { intros i v Hv. apply At_inv in Hv. lia. }
  split; [unfold Dims; congruence|]. split.
  { intros k Hk. destruct (At_ok r 0 k Hwf ltac:(lia) ltac:(lia)) as [v Hv].
    rewrite Hv. f_equal. exact (reducedCosts_entry cf y r k v Hr Hv). }
  exists j. split; [|split; [|split]].
  - unfold FindEnteringVariable. rewrite Hr. simpl. rewrite Hscan. reflexivity.
  - destruct Hinv as [(-> & _ & Hall)|(Hj & Hat & Hpos & _)].
    + split; [|reflexivity]. intros _ i v Hv. exact (Hall i v (Hrange i v Hv) Hv).
    + split; [lia|]. intros Hall. exfalso.
      apply (Qlt_not_le _ _ Hpos). exact (Hall j mx Hat).
  - intros Hne. destruct Hinv as [(-> & _)|(Hj & Hat & Hpos & Hall & Hfirst)]; [lia|].
    split; [exact Hj|]. exists mx. repeat split; try assumption.
    + intros i v Hv. exact (Hall i v (Hrange i v Hv) Hv).
    + intros i v Hi Hv. apply (Hfirst i v); [|exact Hv].
      apply Hrange in Hv. lia.
  - intros -> Hy. apply (Iter_no_entering 0 cf y Hy).
    unfold FindEnteringVariable. rewrite Hr. simpl. rewrite Hscan. reflexivity.
Qed.

(** C10. A forced entering index (non-zero) whose reduced cost is not
    strictly positive makes [Iter] signal the end, with no error and the
    state as it was, whatever the other reduced costs are. *)
Theorem C10_forced_index_nonpositive (cf : CF) (f : Z) (y r : Dense) (v : Q) :
  f <> 0 ->
  FindY cf = Ok y ->
  reducedCosts cf y = Ok r ->
  At r 0 f = Ok v ->
  (v <= 0)%Q ->
  FindEnteringVariable cf y f = Ok (-1) /\ Iter f cf = (cf, Ok true).
Proof.
  intros Hf Hy Hr Hv Hle.
  assert (He : FindEnteringVariable cf y f = Ok (-1)).
  { unfold FindEnteringVariable. rewrite Hr. simpl.
    apply Z.eqb_neq in Hf. rewrite Hf. simpl. rewrite Hv. simpl.
    apply Qltb_ge in Hle. rewrite Hle. reflexivity. }
  split; [exact He|]. apply (Iter_no_entering f cf y Hy He).
Qed.

(** C6. Once [Iter] has signalled the end, it has left the state as it
    was; every further call signals the end again and changes nothing, and
    [GetResults] gives the same solution and score after each of them. *)
Theorem C6_terminal_idempotent (f : Z) (cf cf' : CF) :
  Iter f cf = (cf', Ok true) ->
  cf' = cf /\
  forall k,
    again k f cf' = cf /\
    Iter f (again k f cf') = (cf, Ok true) /\
    GetResults (again k f cf') = GetResults cf.
Proof.
  intros H. pose proof (Iter_end_unchanged f cf cf' H) as ->.
  split; [reflexivity|].
  assert (Hk : forall k, again k f cf = cf).
  { induction k as [|k IH]; simpl; [reflexivity|]. rewrite H. exact IH. }
  intros k. rewrite Hk. auto.
Qed.

(** ** The ratio test *)

Lemma scanLeaving_step xB d k acc acc' :
  scanLeaving xB d k acc = Ok acc' ->
  leaving_inv xB d k acc -> leaving_inv xB d (k + 1) acc'.
Proof.
  destruct acc as [[x l] found]. unfold ArrayRemap.scanLeaving.
  destruct (At d k 0) as [dk| |] eqn:Hd; simpl; try discriminate.
  pose proof (At_inv _ _ _ _ Hd) as (Hk & _).
  destruct (Qleb dk 0) eqn:Hle.
  - intros [= <-] (Hnf & Hf & Hall & Hsel). apply Qleb_le in Hle.
    split; [|split; [|split]].
    + intros Hfalse i e Hi He. destruct (Z.eq_dec i k) as [->|Hne].
      * rewrite Hd in He. injection He as <-. exact Hle.
      * apply (Hnf Hfalse i); [lia|assumption].
    + intros Htrue. destruct (Hf Htrue) as (i & e & a & Hi & He & Hp).
      exists i, e, a. split; [lia|auto].
    + intros i ei ai Hi Hei Hpos Hai. destruct (Z.eq_dec i k) as [->|Hne].
      * rewrite Hd in Hei. injection Hei as <-.
        exfalso. exact (Qlt_not_le _ _ Hpos Hle).
      * apply Hall; [lia|assumption..].
    + destruct Hsel as [Hs|(Hl & Hs)]; [left; exact Hs|right; split; [lia|exact Hs]].
  - apply Qleb_gt in Hle.
    destruct (At xB k 0) as [xk| |] eqn:Hx; simpl; try discriminate.
    destruct (ltF (quo xk dk) x) eqn:Hlt.
    + intros [= <-] (Hnf & Hf & Hall & Hsel).
      split; [discriminate|].
      split; [intros _; exists k, dk, xk; split; [lia|auto]|]. split.
      * intros i ei ai Hi Hei Hpos Hai. destruct (Z.eq_dec i k) as [->|Hne].
        -- rewrite Hd in Hei. rewrite Hx in Hai.
           injection Hei as <-. injection Hai as <-.
           split; [apply ltF_irrefl|lia].
        -- destruct (Hall i ei ai) as [H1 _]; [lia|assumption..|].
           split; [eapply ltF_ge_lt; eassumption|intros _; eapply ltF_lt_ge; eassumption].
      * right. split; [lia|]. split; [reflexivity|]. split.
        -- destruct (quo xk dk), x; simpl in *; try discriminate; reflexivity.
        -- exists xk, dk. auto.
    + intros [= <-] (Hnf & Hf & Hall & Hsel).
      split; [discriminate|].
      split; [intros _; exists k, dk, xk; split; [lia|auto]|]. split.
      * intros i ei ai Hi Hei Hpos Hai. destruct (Z.eq_dec i k) as [->|Hne].
        -- rewrite Hd in Hei. rewrite Hx in Hai.
           injection Hei as <-. injection Hai as <-.
           split; [exact Hlt|]. intros Hkl.
           destruct Hsel as [[-> _]|(Hl & _)]; lia.
        -- apply Hall; [lia|assumption..].
      * destruct Hsel as [Hs|(Hl & Hfd & Hs)];
          [left; exact Hs|right; split; [lia|split; [reflexivity|exact Hs]]].
Qed.

Lemma scanLeaving_post xB d acc :
  0 <= Rows d ->
  forM (seqZ 0 (Rows d)) (scanLeaving xB d) (PosInf, -1, false) = Ok acc ->
  leaving_inv xB d (Rows d) acc.
Proof.
  intros Hr H.
  apply (forM_post (leaving_inv xB d) (scanLeaving xB d) 0 (Rows d)
           (PosInf, -1, false) acc Hr).
  - split; [intros; lia|]. split; [discriminate|]. split; [intros; lia|]. left. auto.
  - intros j t t' _ Ht Hs. eapply scanLeaving_step; eassumption.
  - exact H.
Qed.

Lemma scanLeaving_reads xB d acc0 acc :
  0 <= Rows d ->
  forM (seqZ 0 (Rows d)) (scanLeaving xB d) acc0 = Ok acc ->
  forall i, 0 <= i < Rows d -> exists e, At d i 0 = Ok e.
Proof.
  intros Hr H.
  apply (forM_post (fun k _ => forall i, 0 <= i < k -> exists e, At d i 0 = Ok e)
           (scanLeaving xB d) 0 (Rows d) acc0 acc Hr); [intros; lia| |exact H].
  intros j t t' _ Ht Hs i Hi. destruct (Z.eq_dec i j) as [->|Hne].
  - unfold ArrayRemap.scanLeaving in Hs. destruct t as [[? ?] ?].
    destruct (At d j 0); try discriminate. eauto.
  - apply Ht. lia.
Qed.

Lemma scanLeaving_total xB d acc0 :
  wf d -> Cols d = 1 -> wf xB -> Dims xB = (Rows d, 1) ->
  exists acc, forM (seqZ 0 (Rows d)) (scanLeaving xB d) acc0 = Ok acc.
Proof.
  intros Hd Cd Hx [= Rx Cx].
  destruct (forM_inv (fun _ _ => True) (scanLeaving xB d) 0 (Rows d) acc0)
    as (acc & E & _); [apply Hd|exact I| |eauto].
  intros j t Hj _.
  destruct (At_ok d j 0 Hd ltac:(lia) ltac:(lia)) as [dj Hdj].
  destruct (At_ok xB j 0 Hx ltac:(lia) ltac:(lia)) as [xj Hxj].
  unfold ArrayRemap.scanLeaving. destruct t as [[x l] found]. rewrite Hdj. simpl.
  destruct (Qleb dj 0); [eauto|]. rewrite Hxj. simpl.
  destruct (ltF _ _); eauto.
Qed.

(** What [FindLeavingVariable] returns: the step -1 and no row when no
    row of [d] is positive; otherwise what the scan has found. *)
Lemma FindLeavingVariable_inv (cf : CF) d x l :
  0 <= Rows d ->
  FindLeavingVariable cf d = Ok (x, l) ->
  (x = Num (-1) /\ l = -1 /\
   forall i e, 0 <= i < Rows d -> At d i 0 = Ok e -> (e <= 0)%Q)
  \/
  (forM (seqZ 0 (Rows d)) (scanLeaving (cf_xBStar cf) d) (PosInf, -1, false)
     = Ok (x, l, true) /\
   leaving_inv (cf_xBStar cf) d (Rows d) (x, l, true)).
Proof.
  intros Hr. unfold ArrayRemap.FindLeavingVariable. cbn [Dims].
  destruct (forM _ _ _) as [[[x0 l0] found]| |] eqn:Hscan; simpl; try discriminate.
  pose proof (scanLeaving_post _ _ _ Hr Hscan) as Hinv.
  destruct found; simpl; intros [= <- <-].
  - right. split; [reflexivity|exact Hinv].
  - left. destruct Hinv as (Hnf & _). split; [reflexivity|]. split; [reflexivity|].
    exact (Hnf eq_refl).
Qed.

(** The step [+Inf]: some row of [d] is positive, and the quotient of
    every positive row is [+Inf]. *)
Lemma FindLeavingVariable_overflow (cf : CF) d l :
  FindLeavingVariable cf d = Ok (PosInf, l) ->
  l = -1 /\
  (exists i e a, 0 <= i < Rows d /\ At d i 0 = Ok e /\ (0 < e)%Q /\
     At (cf_xBStar cf) i 0 = Ok a) /\
  (forall i e a, 0 <= i < Rows d -> At d i 0 = Ok e -> (0 < e)%Q ->
     At (cf_xBStar cf) i 0 = Ok a -> quo a e = PosInf).
Proof.
  intros H. destruct (Z.lt_ge_cases (Rows d) 0) as [Hneg|Hr].
  { unfold ArrayRemap.FindLeavingVariable in H. cbn [Dims] in H.
    rewrite seqZ_nil in H by lia. discriminate. }
  apply FindLeavingVariable_inv in H as [(Hx & _)|(_ & _ & Hf & Hall & Hsel)];
    [discriminate| |exact Hr].
  destruct Hsel as [[-> _]|(_ & _ & Hlt & _)]; [|discriminate].
  split; [reflexivity|]. split; [exact (Hf eq_refl)|].
  intros i e a Hi He Hpos Ha.
  destruct (Hall i e a Hi He Hpos Ha) as [Hge _].
  apply ltF_PosInf. exact Hge.
Qed.

(** With the exact division the step is never [+Inf]. *)
Lemma FindLeavingVariable_exact_number (cf : CF) d l :
  exact quo -> FindLeavingVariable cf d <> Ok (PosInf, l).
Proof.
  intros Hq H. apply FindLeavingVariable_overflow in H
    as (_ & (i & e & a & Hi & He & Hpos & Ha) & Hall).
  specialize (Hall i e a Hi He Hpos Ha). rewrite Hq in Hall. discriminate.
Qed.

(** The index returned is -1 or a row of [d]. *)
Lemma FindLeavingVariable_index (cf : CF) d x l :
  FindLeavingVariable cf d = Ok (x, l) -> l = -1 \/ 0 <= l < Rows d.
Proof.
  intros H. destruct (Z.lt_ge_cases (Rows d) 0) as [Hneg|Hr].
  - unfold ArrayRemap.FindLeavingVariable in H. cbn [Dims] in H.
    rewrite seqZ_nil in H by lia. simpl in H. injection H as _ <-. auto.
  - apply FindLeavingVariable_inv in H as [(_ & -> & _)|(_ & _ & _ & _ & Hsel)]; auto.
    destruct Hsel as [[-> _]|(Hl & _)]; auto.
Qed.

Lemma Iter_no_leaving f (cf : CF) y k d x :
  FindY cf = Ok y -> FindEnteringVariable cf y f = Ok k -> k <> -1 ->
  SolveBd cf k = Ok d -> FindLeavingVariable cf d = Ok (x, -1) ->
  Iter f cf = (cf, Ok true).
Proof.
  intros Hy He Hk Hd Hl. unfold ArrayRemap.Iter, bind, readsR, ret.
  rewrite Hy, He. apply Z.eqb_neq in Hk. rewrite Hk, Hd, Hl. reflexivity.
Qed.

(** C4. When no row of [d] is strictly positive, [FindLeavingVariable]
    returns the step -1 and the index -1, and the enclosing [Iter] signals
    the end with no error and no update of the state.  When a row with
    [d[i] > 0] has a quotient [xBStar[i]/d[i]] below [+Inf], it returns
    the least quotient over the rows with [d[i] > 0], at the first row that
    attains it.  When rows with [d[i] > 0] exist and none has a quotient
    below [+Inf], it returns [+Inf] and the index -1, and [Iter] signals
    the end as well.  The quotients are those that the division computes,
    whatever it is. *)
Theorem C4_leaving_variable_ratio_test (cf : CF) (d : Dense) :
  wf d -> Cols d = 1 ->
  wf (cf_xBStar cf) -> Dims (cf_xBStar cf) = (Rows d, 1) ->
  exists x l,
    FindLeavingVariable cf d = Ok (x, l) /\
    ((forall i e, At d i 0 = Ok e -> (e <= 0)%Q) ->
       x = Num (-1) /\ l = -1) /\
    ((exists i e a, At d i 0 = Ok e /\ (0 < e)%Q /\
        At (cf_xBStar cf) i 0 = Ok a /\ ltF (quo a e) PosInf = true) ->
       0 <= l < Rows d /\
       (exists a e, At d l 0 = Ok e /\ (0 < e)%Q /\
          At (cf_xBStar cf) l 0 = Ok a /\ x = quo a e) /\
       forall i ei ai,
         At d i 0 = Ok ei -> (0 < ei)%Q -> At (cf_xBStar cf) i 0 = Ok ai ->
         ltF (quo ai ei) x = false /\ (i < l -> ltF x (quo ai ei) = true)) /\
    ((exists i e, At d i 0 = Ok e /\ (0 < e)%Q) ->
     (forall i e a, At d i 0 = Ok e -> (0 < e)%Q ->
        At (cf_xBStar cf) i 0 = Ok a -> ltF (quo a e) PosInf = false) ->
       x = PosInf /\ l = -1) /\
    (l = -1 ->
       forall f y k, FindY cf = Ok y -> FindEnteringVariable cf y f = Ok k ->
         k <> -1 -> SolveBd cf k = Ok d -> Iter f cf = (cf, Ok true)).
Proof.
  intros Hd Cd Hx Dx.
  destruct (scanLeaving_total (cf_xBStar cf) d (PosInf, -1, false) Hd Cd Hx Dx)
    as ([[x l] found] & Hscan).
  pose proof (scanLeaving_post _ _ _ (proj1 Hd) Hscan) as (Hnf & Hf & Hall & Hsel).
  assert (Hrange : forall i e, At d i 0 = Ok e -> 0 <= i < Rows d).
  { intros i e He. apply At_inv in He. lia. }
  assert (Hfl : FindLeavingVariable cf d =
                if negb found then Ok (Num (-1), -1) else Ok (x, l)).
  { unfold ArrayRemap.FindLeavingVariable. cbn [Dims]. rewrite Hscan. reflexivity. }
  exists (if negb found then Num (-1) else x), (if negb found then -1 else l).
  split; [rewrite Hfl; destruct found; reflexivity|].
  destruct found; simpl.
  - destruct (Hf eq_refl) as (i0 & e0 & a0 & Hi0 & He0 & Hp0 & _).
    split; [|split; [|split]].
    + intros Hno. exfalso. apply (Qlt_not_le _ _ Hp0). exact (Hno i0 e0 He0).
    + intros (i & e & a & He & Hp & Ha & Hlt).
      destruct Hsel as [[-> ->]|(Hl & _ & _ & Hex)].
      * destruct (Hall i e a (Hrange i e He) He Hp Ha) as [Hge _]. congruence.
      * split; [exact Hl|]. split; [exact Hex|].
        intros j ej aj Hej Hpj Haj. apply Hall; try assumption. eapply Hrange; eassumption.
    + intros _ Hinf. destruct Hsel as [[-> ->]|(Hl & _ & Hlt & a & e & He & Hp & Ha & ->)].
      * auto.
      * rewrite (Hinf l e a He Hp Ha) in Hlt. discriminate.
    + intros -> f y k Hy He Hk Hs. apply (Iter_no_leaving f cf y k d x); try assumption.
  - split; [|split; [|split]].
    + auto.
    + intros (i & e & a & He & Hp & _). exfalso. apply (Qlt_not_le _ _ Hp).
      exact (Hnf eq_refl i e (Hrange i e He) He).
    + intros (i & e & He & Hp). exfalso. apply (Qlt_not_le _ _ Hp).
      exact (Hnf eq_refl i e (Hrange i e He) He).
    + intros _ f y k Hy He Hk Hs. apply (Iter_no_leaving f cf y k d (Num (-1))); try assumption.
Qed.

(** ** Feasibility of the basic solution *)

Lemma column_entry (a : Dense) (p : nat) (v : Q) :
  wf a -> Cols a = 1 -> Data a !! p = Some v -> At a (Z.of_nat p) 0 = Ok v.
Proof.
  intros (Hr & Hc & Hl) C1 Hp. unfold At.
  pose proof (lookup_lt_Some _ _ _ Hp) as Hlt. rewrite Hl, C1, Z.mul_1_r in Hlt.
  replace (inside (Rows a) (Cols a) (Z.of_nat p) 0) with true
    by (symmetry; apply inside_true; lia).
  unfold pos. rewrite C1.
  replace (Z.to_nat (Z.of_nat p * 1 + 0)) with p by lia.
  rewrite Hp. reflexivity.
Qed.

Lemma nonneg_At a i v : nonneg a -> At a i 0 = Ok v -> (0 <= v)%Q.
Proof.
  intros Hn Hv. apply At_inv in Hv as (_ & _ & Hv).
  unfold nonneg in Hn. rewrite Forall_lookup in Hn. exact (Hn _ _ Hv).
Qed.

Lemma ratio_step_le (x a e : Q) : (0 < e)%Q -> (x <= a / e)%Q -> (x * e <= a)%Q.
Proof.
  intros He Hx.
  assert (Hne : ~ (e == 0)%Q) by (intros E; rewrite E in He; exact (Qlt_irrefl _ He)).
  apply Qle_trans with (a / e * e)%Q.
  - apply Qmult_le_compat_r; [exact Hx|apply Qlt_le_weak; exact He].
  - rewrite Qmult_comm, Qmult_div_r; [apply Qle_refl|exact Hne].
Qed.

Lemma New_xBStar c A b (cf cf' : CF) :
  New c A b cf = (cf', Ok tt) -> cf_xBStar cf' = DenseCopyOf b.
Proof.
  unfold New. simpl. destruct (1 <? Rows c); [discriminate|].
  intros H. inv_bind H. inv_bind H.
  destruct (_ <? _); [discriminate|].
  do 10 (inv_bind H).
  framed H (@cf_xBStar (list Z)).
  apply modify_inv in H11. subst. reflexivity.
Qed.

Lemma Update_xBStar d y x e l (cf cf' : CF) :
  Update d y x e l cf = (cf', Ok tt) ->
  exists s s',
    Sub (cf_xBStar cf) (Scale x d) = Ok s /\ Set_ s l 0 x = Ok s' /\
    cf_xBStar cf' = s'.
Proof.
  unfold Update. simpl. intros H. inv_bind H. inv_bind H.
  apply assign_inv in H0 as (s1 & E1 & ->).
  apply assign_inv in H1 as (s2 & E2 & ->). simpl in E2.
  framed H (@cf_xBStar (list Z)). simpl. eauto.
Qed.

Lemma Iter_xBStar f (cf cf' : CF) :
  Iter f cf = (cf', Ok false) ->
  exists d x l s s',
    FindLeavingVariable cf d = Ok (Num x, l) /\ l <> -1 /\
    Sub (cf_xBStar cf) (Scale x d) = Ok s /\ Set_ s l 0 x = Ok s' /\
    cf_xBStar cf' = s'.
Proof.
  unfold ArrayRemap.Iter. intros H.
  apply bind_inv in H as (? & y & [-> Hy]%readsR_inv & H).
  apply bind_inv in H as (? & k & [-> He]%readsR_inv & H).
  destruct (_ =? -1); [discriminate|].
  apply bind_inv in H as (? & d & [-> Hd]%readsR_inv & H).
  apply bind_inv in H as (? & [x l] & [-> Hl]%readsR_inv & H).
  destruct (l =? -1) eqn:El; [discriminate|]. apply Z.eqb_neq in El.
  apply bind_inv in H as (? & tmp & [-> Ht]%readsR_inv & H).
  apply bind_inv in H as (? & ? & (r1 & E1 & ->)%assign_inv & H).
  apply bind_inv in H as (? & ? & (r2 & E2 & ->)%assign_inv & H).
  apply bind_inv in H as (? & q & [-> ->%number_inv]%readsR_inv & H).
  apply bind_inv in H as (? & [] & (s & s' & Hsub & Hset & Hx)%Update_xBStar & H).
  apply ret_inv in H as [-> _].
  exists d, q, l, s, s'. simpl in Hsub. auto.
Qed.

(** ** The pivot update *)

Lemma exchange_loop (cf : CF) leavingCol e l :
  shaped cf -> 0 <= e < cf_n cf -> 0 <= l < cf_m cf ->
  ColView (cf_A cf) (cf_B cf) l = Ok leavingCol ->
  exists A',
    forS (seqZ 0 (cf_m cf)) (exchangeRow leavingCol e l) cf = (set_A A' cf, Ok tt) /\
    wf A' /\ Dims A' = Dims (cf_A cf) /\
    forall i j, At A' i j = exchanged (cf_A cf) (cf_n cf) e l (cf_m cf) i j.
Proof.
  intros (Hn & Hm & HwA & [= RA CA] & _ & _ & _ & _ & HB & HAN & _ & _) He Hl Hcol.
  destruct (forS_inv
    (fun k t => exists A', t = set_A A' cf /\ wf A' /\ Dims A' = Dims (cf_A cf) /\
       forall i j, At A' i j = exchanged (cf_A cf) (cf_n cf) e l k i j)
    (exchangeRow leavingCol e l) 0 (cf_m cf) cf) as (t & E & A' & -> & P); [lia| | |].
  - exists (cf_A cf). split; [destruct cf; reflexivity|].
    split; [assumption|]. split; [reflexivity|].
    intros i j. unfold exchanged. cases.
    all: rewrite !At_row_out by lia; reflexivity.
  - intros k t Hk (Ak & -> & HwAk & [= RAk CAk] & HAk).
    unfold exchangeRow, bind, assign. cbn [cf_A cf_AN cf_B set_A].
    rewrite HB, HAN. unfold VAt, VSet. cbn [vi vj vRows vCols].
    replace (inside (cf_m cf) (cf_n cf) k e) with true by (symmetry; apply inside_true; lia).
    replace (inside (cf_m cf) (cf_m cf) k l) with true by (symmetry; apply inside_true; lia).
    rewrite !Z.add_0_l.
    destruct (At_ok Ak k e HwAk ltac:(lia) ltac:(lia)) as [v Hv]. rewrite Hv. cbn [rbind].
    destruct (Set_ok Ak k (cf_n cf + l) v HwAk ltac:(lia) ltac:(lia)) as [A1 HA1].
    rewrite HA1.
    pose proof (Set_wf _ _ _ _ _ HwAk HA1) as HwA1.
    pose proof (Set_spec _ _ _ _ _ HA1) as (R1 & C1 & _ & _ & _ & HS1).
    rewrite (ColView_At _ _ _ _ k Hcol) by (rewrite HB; simpl; lia).
    rewrite HB. cbn [rbind vi vj cf_A cf_AN set_A]. rewrite HAN.
    cbn [vi vj vRows vCols]. rewrite !Z.add_0_l.
    replace (inside (cf_m cf) (cf_n cf) k e) with true by (symmetry; apply inside_true; lia).
    set (w := get (cf_A cf) k (cf_n cf + l)).
    destruct (Set_ok A1 k e w HwA1 ltac:(lia) ltac:(lia)) as [A2 HA2].
    rewrite HA2.
    pose proof (Set_wf _ _ _ _ _ HwA1 HA2) as HwA2.
    pose proof (Set_spec _ _ _ _ _ HA2) as (R2 & C2 & _ & _ & _ & HS2).
    eexists. split; [reflexivity|]. exists A2. split; [reflexivity|].
    split; [exact HwA2|]. split; [unfold Dims; congruence|].
    intros i j. rewrite HS2, HS1, HAk.
    assert (Hw : At (cf_A cf) k (cf_n cf + l) = Ok w) by (apply At_wf; [assumption|lia..]).
    assert (Hv' : At (cf_A cf) k e = Ok v).
    { rewrite <- Hv, HAk. unfold exchanged. cases. }
    unfold exchanged. cases.
  - exists A'. rewrite Z.add_0_l in P. split; [exact E|]. exact P.
Qed.

Lemma Update_spec (cf : CF) d y x e l :
  shaped cf -> (Z.to_nat (cf_m cf) <= length (Data d))%nat -> Dims d = (cf_m cf, 1) ->
  0 <= e < cf_n cf -> 0 <= l < cf_m cf ->
  exists xB' A' c',
    Update d y x e l cf = (set_c c' (set_A A' (set_xBStar xB' cf)), Ok tt) /\
    (wf xB' /\ Dims xB' = (cf_m cf, 1) /\
     forall i a di, At (cf_xBStar cf) i 0 = Ok a -> At d i 0 = Ok di ->
       At xB' i 0 = Ok (if i =? l then x else (a - x * di)%Q)) /\
    (wf A' /\ Dims A' = Dims (cf_A cf) /\
     forall i j, At A' i j = exchanged (cf_A cf) (cf_n cf) e l (cf_m cf) i j) /\
    (wf c' /\ Dims c' = Dims (cf_c cf) /\
     forall i j, At c' i j = exchanged (cf_c cf) (cf_n cf) e l 1 i j).
Proof.
  intros Hs Hwd [= Rd Cd] He Hl. pose proof Hs as Hs'.
  destruct Hs' as (Hn & Hm & HwA & [= RA CA] & Hwc & [= Rc Cc] & Hwx & [= Rx Cx]
                  & HB & HAN & HcB & HcN).
  unfold Update. cbn [Dims].
  (* xBStar <- xBStar - x*d *)
  destruct (Sub (cf_xBStar cf) (Scale x d)) as [s1| |] eqn:Hsub.
  2,3: (unfold Sub in Hsub; simpl in Hsub;
        replace (Rows (cf_xBStar cf) =? Rows d) with true in Hsub by (symmetry; lia);
        replace (Cols (cf_xBStar cf) =? Cols d) with true in Hsub by (symmetry; lia);
        discriminate).
  assert (Hlen : (length (Data (cf_xBStar cf)) <= length (Data (Scale x d)))%nat).
  { destruct Hwx as (_ & _ & ->). simpl. rewrite length_fmap, Rx, Cx, Z.mul_1_r.
    exact Hwd. }
  destruct (Sub_wf_left _ _ _ Hwx Hlen Hsub) as (Hw1 & R1 & C1).
  destruct (Set_ok s1 l 0 x Hw1 ltac:(lia) ltac:(lia)) as [s2 Hset].
  pose proof (Set_wf _ _ _ _ _ Hw1 Hset) as Hw2.
  pose proof (Set_spec _ _ _ _ _ Hset) as (R2 & C2 & _ & _ & _ & HS2).
  (* the leaving column and its cost *)
  destruct (ColView (cf_A cf) (cf_B cf) l) as [leavingCol| |] eqn:Hcol.
  2,3: (unfold ColView in Hcol; rewrite HB in Hcol; simpl in Hcol;
        replace ((0 <=? l) && (l <? cf_m cf)) with true in Hcol
          by (symmetry; apply andb_true_iff; lia);
        discriminate).
  assert (HlC : At (cf_c cf) 0 (cf_n cf + l) = Ok (get (cf_c cf) 0 (cf_n cf + l)))
    by (apply At_wf; [assumption|lia..]).
  assert (HeC : At (cf_c cf) 0 e = Ok (get (cf_c cf) 0 e))
    by (apply At_wf; [assumption|lia..]).
  set (cf1 := set_xBStar s2 (set_xBStar s1 cf)).
  assert (Hs1 : shaped cf1).
  { unfold shaped, cf1.
    cbn [cf_n cf_m cf_A cf_c cf_xBStar cf_B cf_AN cf_cB cf_cN set_xBStar].
    unfold Dims. rewrite R2, C2, R1, C1, RA, CA, Rc, Cc, Rx, Cx.
    repeat match goal with |- _ /\ _ => split end; auto. }
  destruct (exchange_loop cf1 leavingCol e l Hs1 He Hl Hcol) as (A' & Hloop & HwA' & HdA' & HA').
  unfold cf1 in Hloop, HdA', HA'. clear Hs1. clearbody cf1. clear cf1.
  cbn [cf_m cf_n cf_A set_xBStar] in Hloop, HdA', HA'.
  (* the exchange of the costs *)
  destruct (Set_ok (cf_c cf) 0 (cf_n cf + l) (get (cf_c cf) 0 e) Hwc ltac:(lia) ltac:(lia))
    as [c1 Hc1].
  pose proof (Set_wf _ _ _ _ _ Hwc Hc1) as Hwc1.
  pose proof (Set_spec _ _ _ _ _ Hc1) as (Rc1 & Cc1 & _ & _ & _ & HSc1).
  destruct (Set_ok c1 0 e (get (cf_c cf) 0 (cf_n cf + l)) Hwc1 ltac:(lia) ltac:(lia))
    as [c2 Hc2].
  pose proof (Set_wf _ _ _ _ _ Hwc1 Hc2) as Hwc2.
  pose proof (Set_spec _ _ _ _ _ Hc2) as (Rc2 & Cc2 & _ & _ & _ & HSc2).
  exists s2, A', c2. split; [|split; [|split]].
  - unfold bind at 1. unfold assign at 1. rewrite Hsub.
    unfold bind at 1. unfold assign at 1. cbn [cf_xBStar set_xBStar]. rewrite Hset.
    unfold bind at 1. unfold readsR at 1. cbn [cf_A cf_B set_xBStar]. rewrite Hcol.
    unfold bind at 1. unfold readsR at 1. cbn [cf_c cf_cB set_xBStar].
    rewrite HcB. unfold VAt at 1. cbn [vi vj vRows vCols].
    replace (inside 1 (cf_m cf) 0 l) with true by (symmetry; apply inside_true; lia).
    rewrite Z.add_0_l, HlC.
    unfold bind at 1. rewrite Rd, Hloop.
    unfold bind at 1. unfold assign at 1. cbn [cf_c cf_cN cf_cB set_A set_xBStar].
    rewrite HcN, HcB. unfold VAt, VSet. cbn [vi vj vRows vCols].
    replace (inside 1 (cf_n cf) 0 e) with true by (symmetry; apply inside_true; lia).
    replace (inside 1 (cf_m cf) 0 l) with true by (symmetry; apply inside_true; lia).
    rewrite !Z.add_0_l, HeC. cbn [rbind]. rewrite Hc1.
    unfold bind at 1. unfold assign at 1. cbn [cf_c cf_cN set_c set_A set_xBStar].
    rewrite HcN. cbn [vi vj vRows vCols].
    replace (inside 1 (cf_n cf) 0 e) with true by (symmetry; apply inside_true; lia).
    rewrite !Z.add_0_l, Hc2. reflexivity.
  - split; [exact Hw2|]. split; [unfold Dims; congruence|].
    intros i a di Ha Hdi. rewrite HS2.
    rewrite (Sub_At _ _ _ _ _ _ _ Hsub Ha (Scale_At x _ _ _ _ Hdi)).
    cases.
  - split; [exact HwA'|]. split; [exact HdA'|exact HA'].
  - split; [exact Hwc2|]. split; [unfold Dims; congruence|].
    intros i j. rewrite HSc2, HSc1. unfold exchanged. cases.
    all: rewrite ?At_row_out by lia; try reflexivity.
Qed.

(** The update, read through the windows. *)
Lemma Update_exchanges (cf : CF) d y x k l :
  shaped cf -> wf d -> Dims d = (cf_m cf, 1) ->
  0 <= k < cf_n cf -> 0 <= l < cf_m cf ->
  exists cf',
    Update d y x k l cf = (cf', Ok tt) /\
    cf' = set_c (cf_c cf') (set_A (cf_A cf') (set_xBStar (cf_xBStar cf') cf)) /\
    (forall i a di, At (cf_xBStar cf) i 0 = Ok a -> At d i 0 = Ok di ->
       At (cf_xBStar cf') i 0 = Ok (if i =? l then x else (a - x * di)%Q)) /\
    (forall i, 0 <= i < cf_m cf ->
       VAt (cf_A cf') (cf_B cf') i l = VAt (cf_A cf) (cf_AN cf) i k /\
       VAt (cf_A cf') (cf_AN cf') i k = VAt (cf_A cf) (cf_B cf) i l) /\
    (forall i j, j <> k -> j <> cf_n cf + l -> At (cf_A cf') i j = At (cf_A cf) i j) /\
    VAt (cf_c cf') (cf_cB cf') 0 l = VAt (cf_c cf) (cf_cN cf) 0 k /\
    VAt (cf_c cf') (cf_cN cf') 0 k = VAt (cf_c cf) (cf_cB cf) 0 l /\
    (forall i j, j <> k -> j <> cf_n cf + l -> At (cf_c cf') i j = At (cf_c cf) i j).
Proof.
  intros Hs Hwd Hd Hk Hl.
  assert (Hlen : (Z.to_nat (cf_m cf) <= length (Data d))%nat).
  { destruct Hwd as (_ & _ & ->). injection Hd as -> ->. lia. }
  destruct (Update_spec cf d y x k l Hs Hlen Hd Hk Hl)
    as (xB' & A' & c' & HU & (_ & _ & HxB) & (_ & _ & HA) & (_ & _ & Hc)).
  destruct Hs as (Hn & Hm & _ & _ & _ & _ & _ & _ & HB & HAN & HcB & HcN).
  eexists. split; [exact HU|].
  cbn [cf_A cf_c cf_xBStar cf_B cf_AN cf_cB cf_cN set_c set_A set_xBStar].
  split; [reflexivity|]. split; [exact HxB|].
  rewrite HB, HAN, HcB, HcN. unfold VAt. cbn [vi vj vRows vCols].
  replace (inside 1 (cf_m cf) 0 l) with true by (symmetry; apply inside_true; lia).
  replace (inside 1 (cf_n cf) 0 k) with true by (symmetry; apply inside_true; lia).
  rewrite !Z.add_0_l, !Hc.
  split; [|split; [|split; [|split]]].
  - intros i Hi.
    replace (inside (cf_m cf) (cf_m cf) i l) with true by (symmetry; apply inside_true; lia).
    replace (inside (cf_m cf) (cf_n cf) i k) with true by (symmetry; apply inside_true; lia).
    rewrite !Z.add_0_l, !HA. unfold exchanged. split; cases.
  - intros i j Hj1 Hj2. rewrite HA. unfold exchanged. cases.
  - unfold exchanged. cases.
  - unfold exchanged. cases.
  - intros i j Hj1 Hj2. rewrite Hc. unfold exchanged. cases.
Qed.

(** ** Construction *)

Lemma New_first_check c A b (cf : CF) :
  1 < Rows c -> New c A b cf = (cf, Err "z dims.r > 1").
Proof.
  intros H. unfold New. simpl. apply Z.ltb_lt in H. rewrite H. reflexivity.
Qed.

Lemma New_second_check c A b (cf : CF) :
  Rows c <= 1 -> Cols c < Cols A ->
  New c A b cf = (set_n (Cols c) cf, Err "A dims.c > z dims.r").
Proof.
  intros H1 H2. unfold New. simpl.
  replace (1 <? Rows c) with false by (symmetry; apply Z.ltb_ge; lia).
  unfold bind at 1. unfold modify at 1. unfold bind at 1. unfold reads at 1.
  simpl. apply Z.ltb_lt in H2. rewrite H2. reflexivity.
Qed.

Lemma New_no_other_error c A b (cf cf' : CF) e :
  Rows c <= 1 -> Cols A <= Cols c -> New c A b cf <> (cf', Err e).
Proof.
  intros H1 H2. unfold New. simpl.
  replace (1 <? Rows c) with false by (symmetry; apply Z.ltb_ge; lia).
  unfold bind at 1. unfold modify at 1. unfold bind at 1. unfold reads at 1.
  simpl. replace (Cols c <? Cols A) with false by (symmetry; apply Z.ltb_ge; lia).
  match goal with |- ?a ?s <> _ => assert (Hn : NoErr a) by no_err; specialize (Hn s) end.
  intros E. rewrite E in Hn. exact (Hn e eq_refl).
Qed.

Lemma slack_loop (cf : CF) :
  wf (cf_A cf) -> 0 <= cf_m cf <= Rows (cf_A cf) -> 0 <= cf_n cf ->
  cf_n cf + cf_m cf <= Cols (cf_A cf) ->
  exists A',
    forS (seqZ 0 (cf_m cf))
      (fun i => assign set_A (fun cf => Set_ (cf_A cf) i (cf_n cf + i) 1%Q)) cf
    = (set_A A' cf, Ok tt) /\
    wf A' /\ Dims A' = Dims (cf_A cf).
Proof.
  intros Hw Hm Hn Hc.
  destruct (forS_inv
    (fun (k : Z) t => exists A', t = set_A A' cf /\ wf A' /\ Dims A' = Dims (cf_A cf))
    (fun i => assign set_A (fun cf => Set_ (cf_A cf) i (cf_n cf + i) 1%Q))
    0 (cf_m cf) cf) as (t & E & A' & -> & P); [lia| | |].
  - exists (cf_A cf). split; [destruct cf; reflexivity|]. auto.
  - intros k t Hk (Ak & -> & HwAk & [= RAk CAk]).
    unfold assign. cbn [cf_A cf_n set_A].
    destruct (Set_ok Ak k (cf_n cf + k) 1%Q HwAk ltac:(lia) ltac:(lia)) as [A1 HA1].
    rewrite HA1. eexists. split; [reflexivity|]. exists A1. split; [reflexivity|].
    split; [eapply Set_wf; eassumption|].
    apply Set_spec in HA1 as (R1 & C1 & _). unfold Dims. congruence.
  - exists A'. split; [exact E|exact P].
Qed.

Lemma identity_loop (cf : CF) len :
  0 <= len -> length (cf_remap cf) = Z.to_nat len ->
  exists r,
    forS (seqZ 0 len) (fun i => assign set_remap (fun cf => store (cf_remap cf) i i)) cf
    = (set_remap r cf, Ok tt) /\
    length r = Z.to_nat len /\
    forall i, 0 <= i < len -> index r i = Ok i.
Proof.
  intros Hlen Hl.
  destruct (forS_inv
    (fun (k : Z) t => exists r, t = set_remap r cf /\ length r = Z.to_nat len /\
       forall i, 0 <= i < k -> index r i = Ok i)
    (fun i => assign set_remap (fun cf => store (cf_remap cf) i i))
    0 len cf) as (t & E & r & -> & P); [lia| | |].
  - exists (cf_remap cf). split; [destruct cf; reflexivity|]. split; [exact Hl|].
    intros; lia.
  - intros k t Hk (r & -> & Hr & Hall).
    unfold assign, store. cbn [cf_remap set_remap].
    replace ((0 <=? k) && (Z.to_nat k <? length r)%nat) with true.
    2:{ symmetry. apply andb_true_iff. split; [lia|]. apply Nat.ltb_lt. lia. }
    eexists. split; [reflexivity|]. exists (<[Z.to_nat k := k]> r).
    split; [reflexivity|]. split; [rewrite length_insert; exact Hr|].
    intros i Hi. unfold index.
    replace (0 <=? i) with true by (symmetry; lia).
    destruct (Z.eq_dec i k) as [->|Hne].
    + rewrite list_lookup_insert_eq by lia. reflexivity.
    + rewrite list_lookup_insert_ne by lia.
      specialize (Hall i ltac:(lia)). unfold index in Hall.
      replace (0 <=? i) with true in Hall by (symmetry; lia). exact Hall.
  - exists r. rewrite Z.add_0_l in P. split; [exact E|exact P].
Qed.

(** [New] completes on an objective row [c] (1 x n) and a constraint
    matrix [A] (m x n), and builds a [shaped] state whose [remap] is the
    identity. *)
Lemma New_ok c A b (cf : CF) :
  wf c -> wf A -> wf b ->
  Rows c = 1 -> 0 < Cols c -> 0 < Rows A -> Cols A = Cols c ->
  Dims b = (Rows A, 1) ->
  exists cf',
    New c A b cf = (cf', Ok tt) /\
    shaped cf' /\ cf_n cf' = Cols c /\ cf_m cf' = Rows A /\
    cf_b cf' = b /\ cf_xBStar cf' = DenseCopyOf b /\
    forall i, 0 <= i < Cols c + Rows A -> index (cf_remap cf') i = Ok i.
Proof.
  intros Hwc HwA Hwb Rc Cc RA CA [= Rb Cb].
  unfold New. cbn [Dims].
  replace (1 <? Rows c) with false by (symmetry; apply Z.ltb_ge; lia).
  unfold bind at 1. unfold modify at 1. unfold bind at 1. unfold reads at 1.
  cbn [cf_n set_n].
  replace (Cols c <? Cols A) with false by (symmetry; apply Z.ltb_ge; lia).
  unfold bind at 1. unfold modify at 1.
  unfold bind at 1. unfold modify at 1.
  unfold bind at 1. unfold assign at 1. cbn [cf_A cf_m set_A set_m set_n].
  unfold Grow at 1.
  replace ((0 <? 0) || (Rows A <? 0)) with false by (symmetry; apply orb_false_iff; lia).
  replace ((0 =? 0) && (Rows A =? 0)) with false by (symmetry; apply andb_false_iff; lia).
  match goal with |- context [set_A (build ?r ?k ?f) _] => set (A0 := build r k f) end.
  assert (HwA0 : wf A0) by (apply build_wf; destruct HwA; lia).
  unfold bind at 1. unfold reads at 1. cbn [cf_m set_A set_m].
  unfold bind at 1.
  match goal with |- context [forS _ _ ?s] =>
    destruct (slack_loop s) as (A1 & E1 & HwA1 & [= RA1 CA1]) end;
    cbn [cf_A cf_m cf_n set_A set_m set_n]; try assumption; try (simpl; lia).
  cbn [cf_A cf_m cf_n set_A set_m set_n] in E1, RA1, CA1. simpl in RA1, CA1.
  rewrite E1.
  unfold bind at 1. unfold modify at 1.
  unfold bind at 1. unfold modify at 1.
  unfold bind at 1. unfold assign at 1. cbn [cf_c cf_m set_A set_m set_b set_c].
  unfold Grow at 1.
  replace ((0 <? 0) || (Rows A <? 0)) with false by (symmetry; apply orb_false_iff; lia).
  replace ((0 =? 0) && (Rows A =? 0)) with false by (symmetry; apply andb_false_iff; lia).
  match goal with |- context [set_c (build ?r ?k ?f) _] => set (c0 := build r k f) end.
  assert (Hwc0 : wf c0) by (apply build_wf; destruct Hwc; lia).
  unfold bind at 1. unfold assign at 1.
  cbn [cf_n cf_m set_A set_m set_n set_b set_c].
  unfold NewDense at 1.
  replace ((0 <? Cols c + Rows A) && (0 <? 1)) with true
    by (symmetry; apply andb_true_iff; lia).
  match goal with |- context [set_x (build ?r ?k ?f) _] => set (x0 := build r k f) end.
  unfold bind at 1. unfold modify at 1.
  unfold bind at 1. unfold assign at 1.
  cbn [cf_x cf_n cf_m set_A set_m set_n set_b set_c set_x set_xBStar].
  unfold Slice at 1. cbn [Rows Cols x0 build].
  replace ((0 <=? 0) && (0 <? Cols c) && (Cols c <=? Cols c + Rows A)
           && (0 <=? 0) && (0 <? 1) && (1 <=? 1)) with true
    by (symmetry; rewrite !andb_true_iff; lia).
  unfold bind at 1. unfold assign at 1.
  cbn [cf_A cf_n cf_m set_A set_m set_n set_b set_c set_x set_xBStar set_xN].
  unfold Slice at 1. rewrite RA1, CA1.
  replace ((0 <=? 0) && (0 <? Rows A) && (Rows A <=? Rows A + 0)
           && (0 <=? Cols c) && (Cols c <? Cols c + Rows A)
           && (Cols c + Rows A <=? Cols A + Rows A)) with true
    by (symmetry; rewrite !andb_true_iff; lia).
  unfold bind at 1. unfold assign at 1.
  cbn [cf_A cf_n cf_m set_A set_m set_n set_b set_c set_x set_xBStar set_xN set_B].
  unfold Slice at 1. rewrite RA1, CA1.
  replace ((0 <=? 0) && (0 <? Rows A) && (Rows A <=? Rows A + 0)
           && (0 <=? 0) && (0 <? Cols c)
           && (Cols c <=? Cols A + Rows A)) with true
    by (symmetry; rewrite !andb_true_iff; lia).
  unfold bind at 1. unfold assign at 1.
  cbn [cf_c cf_n cf_m set_A set_m set_n set_b set_c set_x set_xBStar set_xN set_B set_AN].
  unfold Slice at 1. cbn [Rows Cols c0 build].
  replace ((0 <=? 0) && (0 <? 1) && (1 <=? Rows c + 0)
           && (0 <=? Cols c) && (Cols c <? Cols c + Rows A)
           && (Cols c + Rows A <=? Cols c + Rows A)) with true
    by (symmetry; rewrite !andb_true_iff; lia).
  unfold bind at 1. unfold assign at 1.
  cbn [cf_c cf_n cf_m set_A set_m set_n set_b set_c set_x set_xBStar set_xN set_B set_AN set_cB].
  unfold Slice at 1. cbn [Rows Cols c0 build].
  replace ((0 <=? 0) && (0 <? 1) && (1 <=? Rows c + 0)
           && (0 <=? 0) && (0 <? Cols c)
           && (Cols c <=? Cols c + Rows A)) with true
    by (symmetry; rewrite !andb_true_iff; lia).
  unfold bind at 1. unfold assign at 1.
  cbn [cf_n cf_m set_A set_m set_n set_b set_c set_x set_xBStar set_xN set_B set_AN
       set_cB set_cN].
  unfold make at 1.
  replace (Cols c + Rows A <? 0) with false by (symmetry; apply Z.ltb_ge; lia).
  unfold bind at 1. unfold reads at 1.
  cbn [cf_n cf_m set_A set_m set_n set_b set_c set_x set_xBStar set_xN set_B set_AN
       set_cB set_cN set_remap].
  unfold bind at 1.
  match goal with |- context [forS _ _ ?s] =>
    destruct (identity_loop s (Cols c + Rows A)) as (r & E2 & Hlr & Hr) end;
    [lia|cbn [cf_remap set_remap]; apply length_replicate|].
  rewrite E2.
  eexists. split; [reflexivity|].
  cbn [cf_n cf_m cf_A cf_c cf_b cf_xBStar cf_B cf_AN cf_cB cf_cN cf_remap
       set_A set_m set_n set_b set_c set_x set_xBStar set_xN set_B set_AN
       set_cB set_cN set_remap].
  split; [|auto].
  unfold shaped.
  cbn [cf_n cf_m cf_A cf_c cf_b cf_xBStar cf_B cf_AN cf_cB cf_cN cf_remap
       set_A set_m set_n set_b set_c set_x set_xBStar set_xN set_B set_AN
       set_cB set_cN set_remap].
  unfold Dims. rewrite RA1, CA1. cbn [Rows Cols c0 build DenseCopyOf].
  rewrite Rb, Cb, Rc, CA, !Z.add_0_r.
  repeat match goal with |- _ /\ _ => split end; auto.
  all: f_equal; lia.
Qed.

(** ** The shape of the reachable states *)

Lemma Iter_pivot_inv f (cf cf' : CF) :
  Iter f cf = (cf', Ok false) ->
  exists y k d x l tmp r1 r2,
    FindY cf = Ok y /\ FindEnteringVariable cf y f = Ok k /\ k <> -1 /\
    SolveBd cf k = Ok d /\ FindLeavingVariable cf d = Ok (Num x, l) /\ l <> -1 /\
    index (cf_remap cf) (cf_n cf + l) = Ok tmp /\
    store (cf_remap cf) (cf_n cf + l) k = Ok r1 /\ store r1 k tmp = Ok r2 /\
    Update d y x k l (set_remap r2 (set_remap r1 cf)) = (cf', Ok tt).
Proof.
  unfold ArrayRemap.Iter. intros H.
  apply bind_inv in H as (? & y & [-> Hy]%readsR_inv & H).
  apply bind_inv in H as (? & k & [-> He]%readsR_inv & H).
  destruct (k =? -1) eqn:Ek; [discriminate|]. apply Z.eqb_neq in Ek.
  apply bind_inv in H as (? & d & [-> Hd]%readsR_inv & H).
  apply bind_inv in H as (? & [x l] & [-> Hl]%readsR_inv & H).
  destruct (l =? -1) eqn:El; [discriminate|]. apply Z.eqb_neq in El.
  apply bind_inv in H as (? & tmp & [-> Ht]%readsR_inv & H).
  apply bind_inv in H as (? & ? & (r1 & E1 & ->)%assign_inv & H).
  apply bind_inv in H as (? & ? & (r2 & E2 & ->)%assign_inv & H).
  apply bind_inv in H as (? & q & [-> ->%number_inv]%readsR_inv & H).
  apply bind_inv in H as (? & [] & HU & H).
  apply ret_inv in H as [-> _].
  exists y, k, d, q, l, tmp, r1, r2. cbn [cf_remap cf_n set_remap] in E2. auto 12.
Qed.

Lemma FindEnteringVariable_range (cf : CF) y f k :
  vRows (cf_cN cf) = 1 -> 0 <= vCols (cf_cN cf) ->
  FindEnteringVariable cf y f = Ok k -> k <> -1 ->
  0 <= k < vCols (cf_cN cf).
Proof.
  intros HR HC. unfold FindEnteringVariable.
  destruct (reducedCosts cf y) as [r| |] eqn:Hr; simpl; try discriminate.
  destruct (reducedCosts_shape cf y r) as (Hwf & Rr & Cr); [lia|assumption..|].
  rewrite HR in Rr. rewrite <- Cr.
  destruct (f =? 0); simpl.
  - destruct (scanEntering_spec r Hwf Rr) as ([mx j] & -> & Hinv). simpl.
    intros [= <-] Hne. destruct Hinv as [(-> & _)|(Hj & _)]; lia.
  - destruct (At r 0 f) as [v| |] eqn:Hv; simpl; try discriminate.
    apply At_inv in Hv. destruct (Qltb 0 v); intros [= <-] Hne; lia.
Qed.

Lemma FindLeavingVariable_range (cf : CF) d x l :
  FindLeavingVariable cf d = Ok (x, l) -> l <> -1 ->
  0 <= l < Rows d /\ (Z.to_nat (Rows d) <= length (Data d))%nat.
Proof.
  intros H Hne.
  destruct (FindLeavingVariable_index cf d x l H) as [?|Hl]; [lia|].
  split; [exact Hl|].
  apply FindLeavingVariable_inv in H as [(_ & -> & _)|(Hscan & _)]; [lia| |lia].
  assert (Hr : 0 <= Rows d) by lia.
  destruct (scanLeaving_reads _ _ _ _ Hr Hscan (Rows d - 1)) as [e' He']; [lia|].
  apply At_inv in He' as (_ & Hc & Hlk). apply lookup_lt_Some in Hlk.
  unfold pos in Hlk. nia.
Qed.

(** The row that [FindLeavingVariable] returns is a positive row of [d],
    and the step its quotient. *)
Lemma FindLeavingVariable_row (cf : CF) d x l :
  0 <= Rows d -> FindLeavingVariable cf d = Ok (x, l) -> l <> -1 ->
  (forall i, 0 <= i < Rows d -> exists e, At d i 0 = Ok e) /\
  exists a e, At d l 0 = Ok e /\ (0 < e)%Q /\
    At (cf_xBStar cf) l 0 = Ok a /\ quo a e = x.
Proof.
  intros Hr H Hne.
  apply FindLeavingVariable_inv in H as [(_ & -> & _)|(Hscan & _ & _ & _ & Hsel)];
    [lia| |exact Hr].
  split; [exact (scanLeaving_reads _ _ _ _ Hr Hscan)|].
  destruct Hsel as [[-> _]|(_ & _ & _ & a & e & He & Hp & Ha & ->)]; [lia|].
  exists a, e. auto.
Qed.

(** [Iter] keeps the shape of the state. *)
Lemma Iter_shaped f (cf cf' : CF) e :
  shaped cf -> Iter f cf = (cf', Ok e) -> shaped cf'.
Proof.
  intros Hs H. destruct e.
  { apply Iter_end_unchanged in H as ->. exact Hs. }
  apply Iter_pivot_inv in H
    as (y & k & d & x & l & tmp & r1 & r2 & Hy & Hk & Hkne & Hd & Hl & Hlne
        & Ht & E1 & E2 & HU).
  pose proof Hs as (Hn & Hm & HwA & DA & Hwc & Dc & Hwx & Dx & HB & HAN & HcB & HcN).
  assert (Hkr : 0 <= k < cf_n cf).
  { pose proof (FindEnteringVariable_range cf y f k) as Hr.
    rewrite HcN in Hr. simpl in Hr. apply Hr; try assumption; lia. }
  destruct (FindLeavingVariable_range cf d (Num x) l Hl Hlne) as (Hlr & Hlen).
  destruct (Update_xBStar _ _ _ _ _ _ _ HU) as (s & s' & Hsub & _).
  cbn [cf_xBStar set_remap] in Hsub.
  assert (Hdims : Dims d = (cf_m cf, 1)).
  { unfold Sub in Hsub. destruct (_ && _) eqn:E in Hsub; [|discriminate].
    apply andb_true_iff in E as [ER%Z.eqb_eq EC%Z.eqb_eq]. simpl in ER, EC.
    injection Dx as Rx Cx. unfold Dims. congruence. }
  injection Hdims as Rd Cd.
  set (cf2 := set_remap r2 (set_remap r1 cf)) in *.
  assert (Hs2 : shaped cf2) by exact Hs.
  destruct (Update_spec cf2 d y x k l Hs2) as
    (xB' & A' & c' & HU' & (HwxB & DxB & _) & (HwA' & DA' & _) & (Hwc' & Dc' & _));
    try (unfold cf2; cbn [cf_m cf_n set_remap]; rewrite <- ?Rd; first [assumption|lia]).
  { unfold Dims. cbn. congruence. }
  rewrite HU' in HU. injection HU as <-.
  unfold shaped, cf2.
  cbn [cf_n cf_m cf_A cf_c cf_xBStar cf_B cf_AN cf_cB cf_cN set_c set_A set_xBStar set_remap]
    in *.
  rewrite DA', Dc'.
  repeat match goal with |- _ /\ _ => split end; assumption.
Qed.

(** Every state reached from [New] by successful calls of [Iter] has the
    shape that the statements on [Update] and on the two scans assume. *)
Lemma reachable_shaped c A b (cf0 cf1 cf' : CF) fs :
  wf c -> wf A -> wf b ->
  Rows c = 1 -> 0 < Cols c -> 0 < Rows A -> Cols A = Cols c ->
  Dims b = (Rows A, 1) ->
  New c A b cf0 = (cf1, Ok tt) -> pivots fs cf1 = Ok cf' -> shaped cf'.
Proof.
  intros Hc HA Hb Rc Cc RA CA Db Hnew.
  destruct (New_ok c A b cf0 Hc HA Hb Rc Cc RA CA Db) as (cf1' & E & Hs & _).
  rewrite Hnew in E. injection E as <-.
  clear Hnew. revert cf1 Hs. induction fs as [|f fs IH]; intros cf1 Hs; simpl.
  - intros [= <-]. exact Hs.
  - destruct (Iter f cf1) as [cf2 [e| |]] eqn:E; try discriminate.
    apply IH. eapply Iter_shaped; eassumption.
Qed.

(** C7 (as amended). [New] returns a validation error exactly when the
    objective has more than one row or the constraint matrix has more
    columns than the objective.  The first check fails before any field is
    assigned; the second fails after [cf.n], and nothing else, has been
    assigned.  An input that passes both checks never yields an error, and
    [New] completes on an objective row (1 x n), a constraint matrix
    (m x n) and a right-hand side (m x 1). *)
Theorem C7_New_validation (c A b : Dense) (cf : CF) :
  ((exists cf' e, New c A b cf = (cf', Err e)) <-> (1 < Rows c \/ Cols c < Cols A)) /\
  (1 < Rows c -> New c A b cf = (cf, Err "z dims.r > 1")) /\
  (Rows c <= 1 -> Cols c < Cols A ->
     New c A b cf = (set_n (Cols c) cf, Err "A dims.c > z dims.r")) /\
  (wf c -> wf A -> wf b -> Rows c = 1 -> 0 < Cols c -> 0 < Rows A ->
     Cols A = Cols c -> Dims b = (Rows A, 1) ->
     exists cf', New c A b cf = (cf', Ok tt)).
Proof.
  split; [|split; [|split]].
  - split.
    + intros (cf' & e & H).
      destruct (Z.lt_ge_cases 1 (Rows c)) as [H1|H1]; [left; exact H1|].
      destruct (Z.lt_ge_cases (Cols c) (Cols A)) as [H2|H2]; [right; exact H2|].
      exfalso. exact (New_no_other_error c A b cf cf' e H1 H2 H).
    + destruct (Z.lt_ge_cases 1 (Rows c)) as [H1|H1].
      * intros _. eexists _, _. apply New_first_check. exact H1.
      * intros [H|H]; [lia|]. eexists _, _. apply New_second_check; assumption.
  - apply New_first_check.
  - apply New_second_check.
  - intros Hc HA Hb Rc Cc RA CA Db.
    destruct (New_ok c A b cf Hc HA Hb Rc Cc RA CA Db) as (cf' & H & _).
    eauto.
Qed.

(** ** Feasibility, with the exact division *)

(** The rest of this section is about the exact division. *)
Hypothesis quo_exact : exact quo.

(** With the exact division the step is the least ratio, at the first row
    that attains it. *)
Lemma FindLeavingVariable_exact (cf : CF) d x l :
  0 <= Rows d ->
  FindLeavingVariable cf d = Ok (x, l) -> l <> -1 ->
  exists a e,
    0 <= l < Rows d /\
    At d l 0 = Ok e /\ (0 < e)%Q /\ At (cf_xBStar cf) l 0 = Ok a /\ x = Num (a / e) /\
    (forall i, 0 <= i < Rows d -> exists ei, At d i 0 = Ok ei) /\
    forall i ei ai, 0 <= i < Rows d ->
      At d i 0 = Ok ei -> (0 < ei)%Q -> At (cf_xBStar cf) i 0 = Ok ai ->
      (a / e <= ai / ei)%Q /\ (i < l -> (a / e < ai / ei)%Q).
Proof.
  intros Hr Hfl Hl.
  apply FindLeavingVariable_inv in Hfl as [(_ & -> & _)|(Hscan & _ & _ & Hall & Hsel)];
    [lia| |exact Hr].
  destruct Hsel as [[-> _]|(Hl0 & _ & _ & a & e & Hde & Hpos & Hxa & ->)]; [lia|].
  exists a, e. rewrite quo_exact in Hall |- *.
  repeat match goal with |- _ /\ _ => split end; try assumption; try reflexivity; try lia.
  - exact (scanLeaving_reads _ _ _ _ Hr Hscan).
  - intros i ei ai Hi Hei Hp Hai.
    destruct (Hall i ei ai Hi Hei Hp Hai) as [H1 H2]. rewrite quo_exact in H1, H2.
    split; [apply ltF_Num_ge; exact H1|intros Hil; apply ltF_Num; exact (H2 Hil)].
Qed.

(** The pivot step on [xBStar] alone: the ratio test makes
    [xBStar - x*d], with [x] stored at the leaving row, feasible again. *)
Lemma pivot_feasible (cf : CF) d x l s s' :
  feasible (cf_xBStar cf) ->
  FindLeavingVariable cf d = Ok (Num x, l) -> l <> -1 ->
  Sub (cf_xBStar cf) (Scale x d) = Ok s ->
  Set_ s l 0 x = Ok s' ->
  feasible s'.
Proof.
  intros (Hwf & C1 & Hn) Hfl Hl Hsub Hset.
  pose proof Hsub as Hsub'. unfold Sub in Hsub'.
  destruct (_ && _) eqn:E in Hsub'; [|discriminate].
  apply andb_true_iff in E as [ER%Z.eqb_eq EC%Z.eqb_eq]. simpl in ER, EC.
  injection Hsub' as <-.
  assert (Hrd : 0 <= Rows d) by (rewrite <- ER; apply Hwf).
  destruct (FindLeavingVariable_exact cf d (Num x) l Hrd Hfl Hl)
    as (a & e & Hl0 & Hde & Hpos & Hxa & Hx & Hreads & Hall).
  injection Hx as ->.
  assert (Hx0 : (0 <= a / e)%Q).
  { apply Qle_shift_div_l; [exact Hpos|]. rewrite Qmult_0_l.
    eapply nonneg_At; eassumption. }
  pose proof (Set_spec _ _ _ _ _ Hset) as (R' & C' & L' & _ & _ & _).
  simpl in R', C', L'.
  assert (Hwfd : Cols d = 1) by lia.
  assert (Hsn : Forall (fun v => (0 <= v)%Q)
                  (zip_with Qminus (Data (cf_xBStar cf)) (Data (Scale (a / e) d)))).
  { rewrite Forall_lookup. intros p v Hp.
    apply lookup_zip_with_Some in Hp as (ap & tp & -> & Hap & Htp).
    simpl in Htp. rewrite list_lookup_fmap in Htp.
    destruct (Data d !! p) as [ep|] eqn:Hep; simpl in Htp; [|discriminate].
    injection Htp as <-.
    pose proof (column_entry _ _ _ Hwf C1 Hap) as Hxp.
    assert (Hdp : At d (Z.of_nat p) 0 = Ok ep).
    { apply At_inv in Hxp as (Hi & _ & _). unfold At.
      replace (inside (Rows d) (Cols d) (Z.of_nat p) 0) with true
        by (symmetry; apply inside_true; lia).
      unfold pos. rewrite Hwfd.
      replace (Z.to_nat (Z.of_nat p * 1 + 0)) with p by lia.
      rewrite Hep. reflexivity. }
    pose proof (nonneg_At _ _ _ Hn Hxp) as Hap0.
    destruct (Qlt_le_dec 0 ep) as [Hep0|Hep0].
    - destruct (Hall (Z.of_nat p) ep ap) as [Hle _]; try assumption.
      { apply At_inv in Hdp. lia. }
      pose proof (ratio_step_le _ _ _ Hep0 Hle) as Hm.
      unfold Qminus. apply (Qplus_le_r _ _ (a / e * ep)%Q). ring_simplify. exact Hm.
    - assert (Hm : (a / e * ep <= 0)%Q).
      { rewrite <- (Qmult_0_r (a / e)).
        rewrite (Qmult_comm (a / e) ep), (Qmult_comm (a / e) 0).
        apply Qmult_le_compat_r; assumption. }
      unfold Qminus. apply (Qplus_le_r _ _ (a / e * ep)%Q). ring_simplify.
      eapply Qle_trans; eassumption. }
  unfold feasible, wf, nonneg. rewrite R', C', L'. simpl.
  repeat split; try apply Hwf; try assumption.
  - rewrite length_zip_with, length_fmap.
    destruct Hwf as (_ & _ & Hlen). rewrite Hlen.
    destruct (Hreads (Rows d - 1)) as [e' He']; [lia|].
    apply At_inv in He' as (_ & _ & Hlk). apply lookup_lt_Some in Hlk.
    unfold pos in Hlk. rewrite Hwfd in Hlk.
    rewrite ER, C1 in *. lia.
  - unfold Set_ in Hset. destruct (inside _ _ _ _); [|discriminate].
    destruct (_ <? _)%nat; [|discriminate]. injection Hset as <-. simpl.
    apply Forall_insert; assumption.
Qed.

Lemma Iter_feasible f (cf cf' : CF) e :
  feasible (cf_xBStar cf) -> Iter f cf = (cf', Ok e) -> feasible (cf_xBStar cf').
Proof.
  intros Hf H. destruct e.
  - apply Iter_end_unchanged in H as ->. exact Hf.
  - apply Iter_xBStar in H as (d & x & l & s & s' & Hl & Hne & Hsub & Hset & ->).
    eapply pivot_feasible; eassumption.
Qed.

(** C2. In exact arithmetic, that is, with the exact division in the ratio
    test and the exact matrix operations of the model: from a right-hand
    side [b >= 0], [xBStar] is componentwise non-negative after [New] and
    after every successful call of [Iter], whatever entering index is
    forced: the update [xBStar - x*d] followed by [xBStar[l] = x], with [x]
    the least ratio over the rows with [d[i] > 0], keeps every component
    non-negative. *)
Theorem C2_pivot_preserves_feasibility (c A b : Dense) (cf0 cf1 cf' : CF) (fs : list Z) :
  wf b -> Cols b = 1 -> nonneg b ->
  New c A b cf0 = (cf1, Ok tt) ->
  pivots fs cf1 = Ok cf' ->
  nonneg (cf_xBStar cf') /\
  forall f cf'' e, Iter f cf' = (cf'', Ok e) -> nonneg (cf_xBStar cf'').
Proof.
  intros Hwf Hc Hn Hnew Hrun.
  assert (H1 : feasible (cf_xBStar cf1)).
  { rewrite (New_xBStar _ _ _ _ _ Hnew). repeat split; try apply Hwf; assumption. }
  clear Hnew. revert cf1 H1 Hrun.
  assert (Hall : forall cf1, feasible (cf_xBStar cf1) -> pivots fs cf1 = Ok cf' ->
                   feasible (cf_xBStar cf')).
  { induction fs as [|f fs IH]; intros cf1 H1; simpl.
    - intros [= <-]. exact H1.
    - destruct (Iter f cf1) as [cf2 [e| |]] eqn:E; try discriminate.
      apply IH. eapply Iter_feasible; eassumption. }
  intros cf1 H1 Hrun. pose proof (Hall cf1 H1 Hrun) as Hf.
  split; [apply Hf|]. intros f cf'' e Hi.
  exact (proj2 (proj2 (Iter_feasible f cf' cf'' e Hf Hi))).
Qed.

End ArrayRemapFacts.

(** ** The version with a map *)

Section MapRemapFacts.

Import MapRemap.

Lemma copy_loop (cf : CF) e l :
  shaped cf -> 0 <= e < cf_n cf -> 0 <= l < cf_m cf ->
  exists A',
    forS (seqZ 0 (cf_m cf)) (copyRow e l) cf = (set_A A' cf, Ok tt) /\
    wf A' /\ Dims A' = Dims (cf_A cf) /\
    forall i j, At A' i j = copied (cf_A cf) (cf_n cf) e l (cf_m cf) i j.
Proof.
  intros (Hn & Hm & HwA & [= RA CA] & _ & _ & _ & _ & HB & HAN & _ & _) He Hl.
  destruct (forS_inv
    (fun k t => exists A', t = set_A A' cf /\ wf A' /\ Dims A' = Dims (cf_A cf) /\
       forall i j, At A' i j = copied (cf_A cf) (cf_n cf) e l k i j)
    (copyRow e l) 0 (cf_m cf) cf) as (t & E & A' & -> & P); [lia| | |].
  - exists (cf_A cf). split; [destruct cf; reflexivity|].
    split; [assumption|]. split; [reflexivity|].
    intros i j. unfold copied. cases.
    all: rewrite !At_row_out by lia; reflexivity.
  - intros k t Hk (Ak & -> & HwAk & [= RAk CAk] & HAk).
    unfold copyRow, assign. cbn [cf_A cf_AN cf_B set_A].
    rewrite HB, HAN. unfold VAt, VSet. cbn [vi vj vRows vCols].
    replace (inside (cf_m cf) (cf_n cf) k e) with true by (symmetry; apply inside_true; lia).
    replace (inside (cf_m cf) (cf_m cf) k l) with true by (symmetry; apply inside_true; lia).
    rewrite !Z.add_0_l.
    destruct (At_ok Ak k e HwAk ltac:(lia) ltac:(lia)) as [v Hv]. rewrite Hv. cbn [rbind].
    destruct (Set_ok Ak k (cf_n cf + l) v HwAk ltac:(lia) ltac:(lia)) as [A1 HA1].
    rewrite HA1.
    pose proof (Set_wf _ _ _ _ _ HwAk HA1) as HwA1.
    pose proof (Set_spec _ _ _ _ _ HA1) as (R1 & C1 & _ & _ & _ & HS1).
    eexists. split; [reflexivity|]. exists A1. split; [reflexivity|].
    split; [exact HwA1|]. split; [unfold Dims; congruence|].
    intros i j. rewrite HS1, HAk.
    assert (Hv' : At (cf_A cf) k e = Ok v).
    { rewrite <- Hv, HAk. unfold copied. cases. }
    unfold copied. cases.
  - exists A'. rewrite Z.add_0_l in P. split; [exact E|]. exact P.
Qed.

Lemma Update_copies (cf : CF) d y x e l :
  shaped cf -> wf d -> Dims d = (cf_m cf, 1) ->
  0 <= e < cf_n cf -> 0 <= l < cf_m cf ->
  exists xB' A' c',
    Update d y x e l cf = (set_c c' (set_A A' (set_xBStar xB' cf)), Ok tt) /\
    (wf xB' /\ Dims xB' = (cf_m cf, 1) /\
     forall i a di, At (cf_xBStar cf) i 0 = Ok a -> At d i 0 = Ok di ->
       At xB' i 0 = Ok (if i =? l then x else (a - x * di)%Q)) /\
    (wf A' /\ Dims A' = Dims (cf_A cf) /\
     forall i j, At A' i j = copied (cf_A cf) (cf_n cf) e l (cf_m cf) i j) /\
    (wf c' /\ Dims c' = Dims (cf_c cf) /\
     forall i j, At c' i j = copied (cf_c cf) (cf_n cf) e l 1 i j).
Proof.
  intros Hs Hwd [= Rd Cd] He Hl. pose proof Hs as Hs'.
  destruct Hs' as (Hn & Hm & HwA & [= RA CA] & Hwc & [= Rc Cc] & Hwx & [= Rx Cx]
                  & HB & HAN & HcB & HcN).
  unfold Update. cbn [Dims].
  destruct (Sub (cf_xBStar cf) (Scale x d)) as [s1| |] eqn:Hsub.
  2,3: (unfold Sub in Hsub; simpl in Hsub;
        replace (Rows (cf_xBStar cf) =? Rows d) with true in Hsub by (symmetry; lia);
        replace (Cols (cf_xBStar cf) =? Cols d) with true in Hsub by (symmetry; lia);
        discriminate).
  destruct (Sub_wf _ _ _ Hwx (Scale_wf x d Hwd) Hsub) as (Hw1 & R1 & C1).
  destruct (Set_ok s1 l 0 x Hw1 ltac:(lia) ltac:(lia)) as [s2 Hset].
  pose proof (Set_wf _ _ _ _ _ Hw1 Hset) as Hw2.
  pose proof (Set_spec _ _ _ _ _ Hset) as (R2 & C2 & _ & _ & _ & HS2).
  assert (HeC : At (cf_c cf) 0 e = Ok (get (cf_c cf) 0 e))
    by (apply At_wf; [assumption|lia..]).
  assert (Hs1 : shaped (set_xBStar s2 (set_xBStar s1 cf))).
  { unfold shaped.
    cbn [cf_n cf_m cf_A cf_c cf_xBStar cf_B cf_AN cf_cB cf_cN set_xBStar].
    unfold Dims. rewrite R2, C2, R1, C1, RA, CA, Rc, Cc, Rx, Cx.
    repeat match goal with |- _ /\ _ => split end; auto. }
  destruct (copy_loop _ e l Hs1 He Hl) as (A' & Hloop & HwA' & HdA' & HA').
  clear Hs1. cbn [cf_m cf_n cf_A set_xBStar] in Hloop, HdA', HA'.
  destruct (Set_ok (cf_c cf) 0 (cf_n cf + l) (get (cf_c cf) 0 e) Hwc ltac:(lia) ltac:(lia))
    as [c1 Hc1].
  pose proof (Set_wf _ _ _ _ _ Hwc Hc1) as Hwc1.
  pose proof (Set_spec _ _ _ _ _ Hc1) as (Rc1 & Cc1 & _ & _ & _ & HSc1).
  exists s2, A', c1. split; [|split; [|split]].
  - unfold bind at 1. unfold assign at 1. rewrite Hsub.
    unfold bind at 1. unfold assign at 1. cbn [cf_xBStar set_xBStar]. rewrite Hset.
    unfold bind at 1. rewrite Rd, Hloop.
    unfold bind at 1. unfold assign at 1. cbn [cf_c cf_cN cf_cB set_A set_xBStar].
    rewrite HcN, HcB. unfold VAt, VSet. cbn [vi vj vRows vCols].
    replace (inside 1 (cf_n cf) 0 e) with true by (symmetry; apply inside_true; lia).
    replace (inside 1 (cf_m cf) 0 l) with true by (symmetry; apply inside_true; lia).
    rewrite !Z.add_0_l, HeC. cbn [rbind]. rewrite Hc1. reflexivity.
  - split; [exact Hw2|]. split; [unfold Dims; congruence|].
    intros i a di Ha Hdi. rewrite HS2.
    rewrite (Sub_At _ _ _ _ _ _ _ Hsub Ha (Scale_At x _ _ _ _ Hdi)).
    cases.
  - split; [exact HwA'|]. split; [exact HdA'|exact HA'].
  - split; [exact Hwc1|]. split; [unfold Dims; congruence|].
    intros i j. rewrite HSc1. unfold copied. cases.
    all: rewrite ?At_row_out by lia; try reflexivity.
Qed.

(** The update, read through the windows: [AN] and [cN] are not written. *)
Lemma Update_copies_column (cf : CF) d y x k l :
  shaped cf -> wf d -> Dims d = (cf_m cf, 1) ->
  0 <= k < cf_n cf -> 0 <= l < cf_m cf ->
  exists cf',
    Update d y x k l cf = (cf', Ok tt) /\
    cf' = set_c (cf_c cf') (set_A (cf_A cf') (set_xBStar (cf_xBStar cf') cf)) /\
    (forall i a di, At (cf_xBStar cf) i 0 = Ok a -> At d i 0 = Ok di ->
       At (cf_xBStar cf') i 0 = Ok (if i =? l then x else (a - x * di)%Q)) /\
    (forall i, 0 <= i < cf_m cf ->
       VAt (cf_A cf') (cf_B cf') i l = VAt (cf_A cf) (cf_AN cf) i k) /\
    (forall i j, j <> cf_n cf + l -> At (cf_A cf') i j = At (cf_A cf) i j) /\
    VAt (cf_c cf') (cf_cB cf') 0 l = VAt (cf_c cf) (cf_cN cf) 0 k /\
    (forall i j, j <> cf_n cf + l -> At (cf_c cf') i j = At (cf_c cf) i j).
Proof.
  intros Hs Hwd Hd Hk Hl.
  destruct (Update_copies cf d y x k l Hs Hwd Hd Hk Hl)
    as (xB' & A' & c' & HU & (_ & _ & HxB) & (_ & _ & HA) & (_ & _ & Hc)).
  destruct Hs as (Hn & Hm & _ & _ & _ & _ & _ & _ & HB & HAN & HcB & HcN).
  eexists. split; [exact HU|].
  cbn [cf_A cf_c cf_xBStar cf_B cf_AN cf_cB cf_cN set_c set_A set_xBStar].
  split; [reflexivity|]. split; [exact HxB|].
  rewrite HB, HAN, HcB, HcN. unfold VAt. cbn [vi vj vRows vCols].
  replace (inside 1 (cf_m cf) 0 l) with true by (symmetry; apply inside_true; lia).
  replace (inside 1 (cf_n cf) 0 k) with true by (symmetry; apply inside_true; lia).
  rewrite !Z.add_0_l, !Hc.
  split; [|split; [|split]].
  - intros i Hi.
    replace (inside (cf_m cf) (cf_m cf) i l) with true by (symmetry; apply inside_true; lia).
    replace (inside (cf_m cf) (cf_n cf) i k) with true by (symmetry; apply inside_true; lia).
    rewrite !Z.add_0_l, !HA. unfold copied. cases.
  - intros i j Hj. rewrite HA. unfold copied. cases.
  - unfold copied. cases.
  - intros i j Hj. rewrite Hc. unfold copied. cases.
Qed.

End MapRemapFacts.

(** C5 (as amended). In the version with a slice, [Update] sets
    [xBStar <- xBStar - x*d] and then [xBStar[l] = x], exchanges column [l]
    of [B] with column [k] of [AN] and the cost [cB[l]] with [cN[k]], and
    leaves every other entry of [A] and [c] and every other field as it
    was.  In the version with a map, [Update] makes the same change to
    [xBStar] and copies column [k] of [AN] into column [l] of [B] and
    [cN[k]] into [cB[l]], but writes nothing back: [AN], [cN] and every
    other entry stay as they were. *)
Theorem C5_update_exchanges_or_copies :
  (forall (cf : ArrayRemap.CF) d y x k l,
     shaped cf -> wf d -> Dims d = (cf_m cf, 1) ->
     0 <= k < cf_n cf -> 0 <= l < cf_m cf ->
     exists cf',
       ArrayRemap.Update d y x k l cf = (cf', Ok tt) /\
       cf' = set_c (cf_c cf') (set_A (cf_A cf') (set_xBStar (cf_xBStar cf') cf)) /\
       (forall i a di, At (cf_xBStar cf) i 0 = Ok a -> At d i 0 = Ok di ->
          At (cf_xBStar cf') i 0 = Ok (if i =? l then x else (a - x * di)%Q)) /\
       (forall i, 0 <= i < cf_m cf ->
          VAt (cf_A cf') (cf_B cf') i l = VAt (cf_A cf) (cf_AN cf) i k /\
          VAt (cf_A cf') (cf_AN cf') i k = VAt (cf_A cf) (cf_B cf) i l) /\
       (forall i j, j <> k -> j <> cf_n cf + l ->
          At (cf_A cf') i j = At (cf_A cf) i j) /\
       VAt (cf_c cf') (cf_cB cf') 0 l = VAt (cf_c cf) (cf_cN cf) 0 k /\
       VAt (cf_c cf') (cf_cN cf') 0 k = VAt (cf_c cf) (cf_cB cf) 0 l /\
       (forall i j, j <> k -> j <> cf_n cf + l ->
          At (cf_c cf') i j = At (cf_c cf) i j)) /\
  (forall (cf : MapRemap.CF) d y x k l,
     shaped cf -> wf d -> Dims d = (cf_m cf, 1) ->
     0 <= k < cf_n cf -> 0 <= l < cf_m cf ->
     exists cf',
       MapRemap.Update d y x k l cf = (cf', Ok tt) /\
       cf' = set_c (cf_c cf') (set_A (cf_A cf') (set_xBStar (cf_xBStar cf') cf)) /\
       (forall i a di, At (cf_xBStar cf) i 0 = Ok a -> At d i 0 = Ok di ->
          At (cf_xBStar cf') i 0 = Ok (if i =? l then x else (a - x * di)%Q)) /\
       (forall i, 0 <= i < cf_m cf ->
          VAt (cf_A cf') (cf_B cf') i l = VAt (cf_A cf) (cf_AN cf) i k) /\
       (forall i j, j <> cf_n cf + l -> At (cf_A cf') i j = At (cf_A cf) i j) /\
       VAt (cf_c cf') (cf_cB cf') 0 l = VAt (cf_c cf) (cf_cN cf) 0 k /\
       (forall i j, j <> cf_n cf + l -> At (cf_c cf') i j = At (cf_c cf) i j)).
Proof.
  split.
  - exact Update_exchanges.
  - exact Update_copies_column.
Qed.

(** ** The scenarios *)

Lemma New_A : ArrayRemap.New cA AA bA (zeroCF []) = (cfA0, Ok tt).
Proof. vm_compute. reflexivity. Qed.

Lemma Iter_A0 : AIter 0 cfA0 = (cfA1, Ok false).
Proof. vm_compute. reflexivity. Qed.

Lemma Iter_A1 : AIter 0 cfA1 = (cfA2, Ok false).
Proof. vm_compute. reflexivity. Qed.

Lemma Iter_A2 : AIter 0 cfA2 = (cfA2, Ok true).
Proof. vm_compute. reflexivity. Qed.

Lemma GetResults_A2 : ArrayRemap.GetResults cfA2 = Ok resA.
Proof. vm_compute. reflexivity. Qed.

(** C1. On scenario A, with any iteration bound of at least 2, [Simplex]
    returns without error after exactly 2 iterations, with the score 147
    and a solution column of length n + m = 7 whose first 4 entries are
    3, 0, 7, 0. *)
Theorem C1_scenario_A (maxIter : Z) :
  2 <= maxIter ->
  exists results score,
    ASimplex cA AA bA maxIter = Ok (2, results, score) /\
    (score == 147)%Q /\
    Dims results = (4 + 3, 1) /\ length (Data results) = 7%nat /\
    Forall2 Qeq (take 4 (Data results)) [3; 0; 7; 0]%Q.
Proof.
  intros Hmax. exists (fst resA), (snd resA). split.
  - unfold ArrayRemap.Simplex. rewrite New_A.
    destruct (Z.to_nat maxIter) as [|[|k]] eqn:E; [lia|lia|].
    cbn [ArrayRemap.iterate]. unfold bind at 1. rewrite Iter_A0.
    unfold bind at 1. rewrite Iter_A1.
    assert (Hk : ArrayRemap.iterate Exact.Inverse Exact.Solve exactQuo k (0 + 1 + 1) cfA2
                 = (cfA2, Ok 2)).
    { destruct k; [reflexivity|]. cbn [ArrayRemap.iterate].
      unfold bind. rewrite Iter_A2. reflexivity. }
    rewrite Hk, GetResults_A2. reflexivity.
  - vm_compute. repeat split; try reflexivity.
    repeat constructor.
Qed.

(** C1 with the bound 10 of the test suite. *)
Lemma C1_scenario_A_witness :
  exists results score,
    ASimplex cA AA bA 10 = Ok (2, results, score) /\
    (score == 147)%Q /\
    Dims results = (4 + 3, 1) /\ length (Data results) = 7%nat /\
    Forall2 Qeq (take 4 (Data results)) [3; 0; 7; 0]%Q.
Proof. apply (C1_scenario_A 10). lia. Defined.

Lemma exactQuo_exact : exact exactQuo.
Proof. intros a e. reflexivity. Defined.

(** C2 on scenario A, after its two pivots. *)
Lemma C2_pivot_preserves_feasibility_witness :
  nonneg (cf_xBStar cfA2) /\
  forall f cf'' e, AIter f cfA2 = (cf'', Ok e) -> nonneg (cf_xBStar cf'').
Proof.
  apply (C2_pivot_preserves_feasibility Exact.Inverse Exact.Solve exactQuo exactQuo_exact
           cA AA bA (zeroCF []) cfA0 cfA2 [0; 0]).
  - unfold wf. simpl. repeat split; try lia.
  - reflexivity.
  - unfold nonneg. simpl. repeat constructor; unfold Qle; simpl; lia.
  - vm_compute. reflexivity.
  - vm_compute. reflexivity.
Defined.

(** C3 after the first pivot of scenario A, where [y = (0, 0, 6)] and the
    reduced costs are (1, -3, -6, -1). *)
Lemma C3_entering_variable_dantzig_witness :
  Dims rA1 = (1, vCols (cf_cN cfA1)) /\
  (forall k, 0 <= k < vCols (cf_cN cfA1) ->
     At rA1 0 k =
     Ok (get (Deref (cf_c cfA1) (cf_cN cfA1)) 0 k
         - Qsum ((fun i => get yA1 0 i * get (Deref (cf_A cfA1) (cf_AN cfA1)) i k)
                   <$> seqZ 0 (Cols yA1)))%Q) /\
  exists j,
    ArrayRemap.FindEnteringVariable cfA1 yA1 0 = Ok j /\
    (j = -1 <-> forall i v, At rA1 0 i = Ok v -> (v <= 0)%Q) /\
    (j <> -1 ->
       0 <= j < Cols rA1 /\
       exists max, At rA1 0 j = Ok max /\ (0 < max)%Q /\
         (forall i v, At rA1 0 i = Ok v -> (v <= max)%Q) /\
         (forall i v, i < j -> At rA1 0 i = Ok v -> (v < max)%Q)) /\
    (j = -1 -> ArrayRemap.FindY Exact.Inverse cfA1 = Ok yA1 ->
       AIter 0 cfA1 = (cfA1, Ok true)).
Proof.
  apply (C3_entering_variable_dantzig Exact.Inverse Exact.Solve exactQuo cfA1 yA1 rA1).
  - reflexivity.
  - simpl. lia.
  - vm_compute. reflexivity.
Defined.

(** C4 at the start of scenario A, with the direction of its first pivot
    and the exact division. *)
Lemma C4_leaving_variable_ratio_test_witness :
  exists x l,
    ArrayRemap.FindLeavingVariable exactQuo cfA0 dA0 = Ok (x, l) /\
    ((forall i e, At dA0 i 0 = Ok e -> (e <= 0)%Q) ->
       x = Num (-1) /\ l = -1) /\
    ((exists i e a, At dA0 i 0 = Ok e /\ (0 < e)%Q /\
        At (cf_xBStar cfA0) i 0 = Ok a /\ ltF (exactQuo a e) PosInf = true) ->
       0 <= l < Rows dA0 /\
       (exists a e, At dA0 l 0 = Ok e /\ (0 < e)%Q /\
          At (cf_xBStar cfA0) l 0 = Ok a /\ x = exactQuo a e) /\
       forall i ei ai,
         At dA0 i 0 = Ok ei -> (0 < ei)%Q -> At (cf_xBStar cfA0) i 0 = Ok ai ->
         ltF (exactQuo ai ei) x = false /\ (i < l -> ltF x (exactQuo ai ei) = true)) /\
    ((exists i e, At dA0 i 0 = Ok e /\ (0 < e)%Q) ->
     (forall i e a, At dA0 i 0 = Ok e -> (0 < e)%Q ->
        At (cf_xBStar cfA0) i 0 = Ok a -> ltF (exactQuo a e) PosInf = false) ->
       x = PosInf /\ l = -1) /\
    (l = -1 ->
       forall f y k, ArrayRemap.FindY Exact.Inverse cfA0 = Ok y ->
         ArrayRemap.FindEnteringVariable cfA0 y f = Ok k ->
         k <> -1 -> ArrayRemap.SolveBd Exact.Solve cfA0 k = Ok dA0 ->
         AIter f cfA0 = (cfA0, Ok true)).
Proof.
  apply (C4_leaving_variable_ratio_test Exact.Inverse Exact.Solve exactQuo cfA0 dA0).
  - unfold wf. simpl. repeat split; try lia.
  - reflexivity.
  - unfold wf. simpl. repeat split; try lia.
  - reflexivity.
Defined.

(** In binary64 a positive row of [d] need not give a leaving row: from
    [xBStar = (2^700)] and [d = (2^-700)] the quotient of row 0 overflows
    to [+Inf], which is not below the start value [+Inf] of [x], and
    [FindLeavingVariable] returns [+Inf] with the index -1 although
    [d[0] > 0]. *)
Lemma C4_overflowing_quotient_selects_no_row :
  exists e,
    At (mkDense 1 1 [0x1p-700%float]) 0 0 = Ok e /\ (0 <? e)%float = true /\
    Float64.FindLeavingVariable (mkDense 1 1 [0x1p+700%float])
                                (mkDense 1 1 [0x1p-700%float])
    = Ok (infinity, -1).
Proof.
  eexists. split; [vm_compute; reflexivity|].
  split; vm_compute; reflexivity.
Qed.

(** C6 at the optimum of scenario A. *)
Lemma C6_terminal_idempotent_witness :
  cfA2 = cfA2 /\
  forall k,
    again Exact.Inverse Exact.Solve exactQuo k 0 cfA2 = cfA2 /\
    AIter 0 (again Exact.Inverse Exact.Solve exactQuo k 0 cfA2) = (cfA2, Ok true) /\
    ArrayRemap.GetResults (again Exact.Inverse Exact.Solve exactQuo k 0 cfA2)
    = ArrayRemap.GetResults cfA2.
Proof.
  apply (C6_terminal_idempotent Exact.Inverse Exact.Solve exactQuo 0 cfA2 cfA2).
  vm_compute. reflexivity.
Defined.

(** C10 after the first pivot of scenario A, where the reduced costs are
    (1, -3, -6, -1): forcing the index 1 ends the run although column 0 has
    a positive reduced cost. *)
Lemma C10_forced_index_nonpositive_witness :
  (ArrayRemap.FindEnteringVariable cfA1 yA1 1 = Ok (-1) /\
   AIter 1 cfA1 = (cfA1, Ok true)) /\
  exists w, At rA1 0 0 = Ok w /\ (0 < w)%Q.
Proof.
  split.
  - apply (C10_forced_index_nonpositive Exact.Inverse Exact.Solve exactQuo cfA1 1 yA1 rA1 vA1).
    + lia.
    + vm_compute. reflexivity.
    + vm_compute. reflexivity.
    + vm_compute. reflexivity.
    + unfold Qle. simpl. lia.
  - eexists. split; [vm_compute; reflexivity|]. unfold Qlt. simpl. lia.
Defined.

Lemma shaped_cfA0 : shaped cfA0.
Proof.
  unfold shaped, wf. simpl.
  repeat match goal with |- _ /\ _ => split end; try lia; reflexivity.
Defined.

Lemma shaped_cfM0 : shaped cfM0.
Proof.
  unfold shaped, wf. simpl.
  repeat match goal with |- _ /\ _ => split end; try lia; reflexivity.
Defined.

(** C5 at the first pivot of scenario A, in both versions. *)
Lemma C5_update_exchanges_or_copies_witness :
  (exists cf', ArrayRemap.Update dA0 yA0 8 2 2 cfA0 = (cf', Ok tt) /\
     VAt (cf_A cf') (cf_AN cf') 2 2 = VAt (cf_A cfA0) (cf_B cfA0) 2 2) /\
  (exists cf', MapRemap.Update dA0 yA0 8 2 2 cfM0 = (cf', Ok tt) /\
     VAt (cf_A cf') (cf_B cf') 2 2 = VAt (cf_A cfM0) (cf_AN cfM0) 2 2).
Proof.
  assert (Hd : wf dA0) by (unfold wf; simpl; repeat split; lia).
  split.
  - destruct (proj1 C5_update_exchanges_or_copies cfA0 dA0 yA0 8%Q 2 2
                shaped_cfA0 Hd eq_refl ltac:(simpl; lia) ltac:(simpl; lia))
      as (cf' & HU & _ & _ & Hcol & _).
    exists cf'. split; [exact HU|]. apply (Hcol 2). simpl. lia.
  - destruct (proj2 C5_update_exchanges_or_copies cfM0 dA0 yA0 8%Q 2 2
                shaped_cfM0 Hd eq_refl ltac:(simpl; lia) ltac:(simpl; lia))
      as (cf' & HU & _ & _ & Hcol & _).
    exists cf'. split; [exact HU|]. apply (Hcol 2). simpl. lia.
Defined.

(** In the version with a map, [Update] leaves column [k] of [AN] and the
    cost [cN[k]] as they were: they do not receive the former column [l]
    of [B] and the former [cB[l]]. *)
Lemma C5_map_update_does_not_exchange :
  exists cf',
    MapRemap.Update dA0 yA0 8 2 2 cfM0 = (cf', Ok tt) /\
    VAt (cf_A cfM0) (cf_B cfM0) 2 2 = Ok 1%Q /\
    VAt (cf_A cf') (cf_AN cf') 2 2 = Ok 3%Q /\
    VAt (cf_c cfM0) (cf_cB cfM0) 0 2 = Ok 0%Q /\
    VAt (cf_c cf') (cf_cN cf') 0 2 = Ok 18%Q.
Proof.
  eexists. split; [vm_compute; reflexivity|].
  vm_compute. repeat split; reflexivity.
Qed.

(** The second check of [New] fails after [cf.n] has been assigned. *)
Lemma C7_second_check_after_assignment :
  exists cf' e,
    ArrayRemap.New (ofZ 1 1 [1]) (ofZ 1 2 [1; 1]) (ofZ 1 1 [1]) (zeroCF [])
    = (cf', Err e) /\
    cf_n cf' = 1 /\ cf_n (zeroCF ([] : list Z)) = 0 /\ cf' <> zeroCF [].
Proof.
  eexists _, _. split; [vm_compute; reflexivity|].
  split; [reflexivity|]. split; [reflexivity|]. intros [=].
Qed.

(** C7 on scenario A. *)
Lemma C7_New_validation_witness :
  exists cf', ArrayRemap.New cA AA bA (zeroCF []) = (cf', Ok tt).
Proof.
  apply (proj2 (proj2 (proj2 (C7_New_validation cA AA bA (zeroCF []))))).
  - unfold wf. simpl. repeat split; lia.
  - unfold wf. simpl. repeat split; lia.
  - unfold wf. simpl. repeat split; lia.
  - reflexivity.
  - simpl. lia.
  - simpl. lia.
  - reflexivity.
  - reflexivity.
Defined.

(** ** Where [remap] loses track of the basis *)

(** C8, at the failing inputs.  With a slice: after the three pivots of
    [Simplex] on the first problem, [remap] maps both basis rows to the
    structural indices 0 and 1, although column 0 of [B] is the column of
    the slack variable 2 and not that of the variable 0; [GetResults]
    reports x = (1, 2), which violates the second constraint
    (2*1 + 1*2 = 4 > 2).  With a map: after the two pivots of [Simplex] on
    the second problem, [remap] has two entries, for one constraint. *)
Theorem C8_remap_does_not_track_basis :
  (ArrayRemap.New c_reenter A_reenter b_reenter (zeroCF []) = (cf_reenter0, Ok tt) /\
   ArrayRemap.iterate Exact.Inverse Exact.Solve exactQuo 10 0 cf_reenter0 = (cf_reenter3, Ok 3) /\
   cf_remap cf_reenter3 = [0; 3; 0; 1] /\
   index (cf_remap cf_reenter3) (cf_n cf_reenter3 + 0) = Ok 0 /\
   ColView (cf_A cf_reenter3) (cf_B cf_reenter3) 0 = Ok (ofZ 2 1 [1; 0]) /\
   ColView (cf_A cf_reenter0) (cf_AN cf_reenter0) 0 = Ok (ofZ 2 1 [1; 2]) /\
   ColView (cf_A cf_reenter0) (cf_B cf_reenter0) 0 = Ok (ofZ 2 1 [1; 0]) /\
   exists results score Ax v,
     ASimplex c_reenter A_reenter b_reenter 10 = Ok (3, results, score) /\
     Forall2 Qeq (Data results) [1; 2; 0; 0]%Q /\
     Mul A_reenter (mkDense 2 1 (take 2 (Data results))) = Ok Ax /\
     At Ax 1 0 = Ok v /\ (v == 4)%Q /\ At b_reenter 1 0 = Ok 2%Q) /\
  (MapRemap.New c_stale A_stale b_stale (zeroCF ∅) = (cf_stale0, Ok tt) /\
   MapRemap.iterate Exact.Inverse Exact.Solve exactQuo 10 0 cf_stale0 = (cf_stale2, Ok 2) /\
   cf_m cf_stale2 = 1 /\
   size (cf_remap cf_stale2) = 2%nat /\
   cf_remap cf_stale2 !! 0 = Some 0 /\ cf_remap cf_stale2 !! 1 = Some 0).
Proof.
  split.
  - split; [vm_compute; reflexivity|].
    split; [vm_compute; reflexivity|].
    split; [reflexivity|].
    split; [reflexivity|].
    split; [vm_compute; reflexivity|].
    split; [vm_compute; reflexivity|].
    split; [vm_compute; reflexivity|].
    eexists _, _, _, _.
    split; [vm_compute; reflexivity|].
    split; [repeat constructor|].
    split; [vm_compute; reflexivity|].
    split; [vm_compute; reflexivity|].
    split; reflexivity.
  - split; [vm_compute; reflexivity|].
    split; [vm_compute; reflexivity|].
    split; [reflexivity|].
    split; vm_compute; auto.
Qed.

(** ** The two versions disagree *)

(** C9. On the second problem above both versions of [Simplex] return
    without error after two pivots, with different solution columns and
    different scores: (0, 1, 0) and 1 with the slice, (1, 1, 0) and 2 with
    the map, whose [remap] has dropped the entry of the slack variable 2
    and still holds the entry of the variable 0, which has left the
    basis. *)
Theorem C9_remap_variants_diverge :
  exists c A b maxIter ra sa rm sm,
    ASimplex c A b maxIter = Ok (2, ra, sa) /\
    MSimplex c A b maxIter = Ok (2, rm, sm) /\
    Forall2 Qeq (Data ra) [0; 1; 0]%Q /\ (sa == 1)%Q /\
    Forall2 Qeq (Data rm) [1; 1; 0]%Q /\ (sm == 2)%Q /\
    ~ Forall2 Qeq (Data ra) (Data rm) /\ ~ (sa == sm)%Q /\
    exists cf,
      MapRemap.iterate Exact.Inverse Exact.Solve exactQuo (Z.to_nat maxIter) 0
        (fst (MapRemap.New c A b (zeroCF ∅))) = (cf, Ok 2) /\
      cf_remap cf !! 2 = None /\ cf_remap cf !! 0 = Some 0 /\
      cf_remap cf !! 1 = Some 0.
Proof.
  exists c_stale, A_stale, b_stale, 10.
  eexists _, _, _, _.
  split; [vm_compute; reflexivity|].
  split; [vm_compute; reflexivity|].
  split; [repeat constructor|].
  split; [reflexivity|].
  split; [repeat constructor|].
  split; [reflexivity|].
  split.
  { intros H. inversion H as [|? ? ? ? H1 _]; subst. discriminate H1. }
  split; [discriminate|].
  eexists. split; [vm_compute; reflexivity|].
  vm_compute. auto.
Qed.

(** ** Rounding *)

(** In binary64 the pivot step does not keep [xBStar] non-negative: from
    [xBStar = (7, 7)] and the direction [d = (25, 25)] (the first pivot of
    the problem max x subject to 25 x <= 7, 25 x <= 7, whose basis is the
    identity), the ratio test returns [x = 7/25], rounded up, at row 0, and
    the update leaves [7 - x*25 < 0] in row 1. *)
Lemma C2_binary64_rounding_goes_negative :
  exists x xB' v,
    Float64.FindLeavingVariable (mkDense 2 1 [7; 7]%float) (mkDense 2 1 [25; 25]%float)
    = Ok (x, 0) /\
    Float64.UpdateXBStar (mkDense 2 1 [7; 7]%float) (mkDense 2 1 [25; 25]%float) x 0
    = Ok xB' /\
    At xB' 1 0 = Ok v /\ (v <? 0)%float = true.
Proof.
  eexists _, _, _.
  split; [vm_compute; reflexivity|].
  split; [vm_compute; reflexivity|].
  split; vm_compute; reflexivity.
Qed.

(** * Further properties *)

(** ** Loops, continued *)

Lemma seqZ_snoc k : 0 <= k -> seqZ 0 (k + 1) = seqZ 0 k ++ [k].
Proof. intros Hk. rewrite seqZ_app by lia. reflexivity. Qed.

(** A loop whose body panics at the index [k], after the steps below [k]
    have kept an invariant, panics. *)
Lemma forS_panics_at {St} (P : Z -> St -> Prop) (body : Z -> M St unit) len k w s :
  0 <= k < len ->
  P 0 s ->
  (forall j t, 0 <= j < k -> P j t -> exists t', body j t = (t', Ok tt) /\ P (j + 1) t') ->
  (forall t, P k t -> exists t', body k t = (t', Panic w)) ->
  exists s', forS (seqZ 0 len) body s = (s', Panic w).
Proof.
  intros Hk H0 Hstep Hpanic.
  replace len with (k + (len - k)) by lia.
  rewrite seqZ_app, Z.add_0_l, forS_app by lia.
  destruct (forS_inv P body 0 k s) as (s1 & E1 & P1); [lia|exact H0| |].
  { intros j t Hj. apply Hstep. lia. }
  unfold bind at 1. rewrite E1.
  replace (len - k) with (Z.succ (len - k - 1)) by lia.
  rewrite seqZ_cons by lia. cbn [forS].
  destruct (Hpanic s1 P1) as (t' & E'). unfold bind. rewrite E'. eauto.
Qed.

Lemma forSA_app {St X} (l1 l2 : list Z) (body : Z -> X -> M St X) acc (s : St) :
  forSA (l1 ++ l2) body acc s = bind (forSA l1 body acc) (forSA l2 body) s.
Proof.
  revert acc s; induction l1 as [|j l1 IH]; intros acc s; simpl; [reflexivity|].
  unfold bind in *. destruct (body j acc s) as [s1 [a| |]]; auto.
Qed.

Lemma forSA_inv {St X} (P : Z -> St -> X -> Prop) (body : Z -> X -> M St X) lo len s acc :
  0 <= len ->
  P lo s acc ->
  (forall j t a, lo <= j < lo + len -> P j t a ->
     exists t' a', body j a t = (t', Ok a') /\ P (j + 1) t' a') ->
  exists s' acc', forSA (seqZ lo len) body acc s = (s', Ok acc') /\ P (lo + len) s' acc'.
Proof.
  intros Hlen. rewrite <- (Z2Nat.id len Hlen).
  induction (Z.to_nat len) as [|k IH]; intros H0 Hstep.
  - exists s, acc. rewrite Z.add_0_r. split; [reflexivity|exact H0].
  - destruct IH as (s1 & a1 & E1 & P1); [exact H0| |].
    { intros j t a Hj. apply Hstep. lia. }
    destruct (Hstep (lo + Z.of_nat k) s1 a1) as (s2 & a2 & E2 & P2); [lia|exact P1|].
    exists s2, a2. rewrite seqZ_S, forSA_app. unfold bind. rewrite E1. simpl.
    unfold bind. rewrite E2. split; [reflexivity|].
    replace (lo + Z.of_nat (S k)) with (lo + Z.of_nat k + 1) by lia. exact P2.
Qed.

Lemma forSA_frame {St X Y} (g : St -> Y) (body : Z -> X -> M St X) js :
  (forall j a s s' r, body j a s = (s', r) -> g s' = g s) ->
  forall acc s s' r, forSA js body acc s = (s', r) -> g s' = g s.
Proof.
  intros Hbody. induction js as [|j js IH]; intros acc s s' r; simpl.
  - intros [= <- _]. reflexivity.
  - unfold bind. destruct (body j acc s) as [s1 [a| |]] eqn:E.
    + intros H. rewrite (IH _ _ _ _ H). eapply Hbody; eassumption.
    + intros [= <- _]. eapply Hbody; eassumption.
    + intros [= <- _]. eapply Hbody; eassumption.
Qed.

(** [frame], extended to the loops that carry a local variable. *)
Ltac frame_acc :=
  cbv beta; autounfold with frame;
  lazymatch goal with
  | |- forall s s' r, bind _ _ s = (s', r) -> _ =>
      apply bind_frame; [frame_acc | intro; frame_acc]
  | |- forall s s' r, forS _ _ s = (s', r) -> _ =>
      apply forS_frame; intro; frame_acc
  | |- forall s s' r, forSA _ _ _ s = (s', r) -> _ =>
      apply forSA_frame; intros ? ?; frame_acc
  | |- forall s s' r, assign _ _ s = (s', r) -> _ =>
      apply assign_frame; intros; reflexivity
  | |- forall s s' r, modify _ s = (s', r) -> _ =>
      intros ? ? ? [= <- _]; reflexivity
  | |- forall s s' r, _ s = (s', r) -> _ =>
      apply leaf_frame; intros; reflexivity
  end.

Lemma forSA_NoErr {St X} (body : Z -> X -> M St X) js :
  (forall j a, NoErr (body j a)) -> forall acc, NoErr (forSA js body acc).
Proof.
  intros Hb. induction js as [|j js IH]; intros acc; simpl.
  - intros s e. discriminate.
  - apply bind_NoErr; auto.
Qed.

(** ** The matrix layer returns no Go error *)

Lemma rbind_noErr {X Y} (r : result X) (k : X -> result Y) :
  noErr r -> (forall x, noErr (k x)) -> noErr (rbind r k).
Proof.
  intros Hr Hk e. destruct r as [x| |]; simpl.
  - apply Hk.
  - exfalso. exact (Hr _ eq_refl).
  - discriminate.
Qed.

Lemma forM_noErr {St} (body : Z -> St -> result St) js s :
  (forall j t, noErr (body j t)) -> noErr (forM js body s).
Proof.
  intros Hb. revert s. induction js as [|j js IH]; intros s; simpl.
  - intros e. discriminate.
  - specialize (Hb j s). destruct (body j s) as [t| |]; simpl.
    + apply IH.
    + intros e' _. exact (Hb _ eq_refl).
    + intros e'. discriminate.
Qed.

Lemma At_noErr {T} (a : DenseOf T) i j : noErr (At a i j).
Proof. intros e. unfold At. destruct (inside _ _ _ _); [destruct (_ !! _)|]; discriminate. Qed.

Lemma Mul_noErr a b : noErr (Mul a b).
Proof. intros e. unfold Mul. destruct (_ =? _); discriminate. Qed.

Lemma Sub_noErr a b : noErr (Sub a b).
Proof. intros e. unfold Sub. destruct (_ && _); discriminate. Qed.

Lemma ColView_noErr a v j : noErr (ColView a v j).
Proof. intros e. unfold ColView. destruct (_ && _); discriminate. Qed.

Lemma VAt_noErr a v i j : noErr (VAt a v i j).
Proof. intros e. unfold VAt. destruct (inside _ _ _ _); [apply At_noErr|discriminate]. Qed.

Lemma VSet_noErr a v i j x : noErr (VSet a v i j x).
Proof. intros e. unfold VSet. destruct (inside _ _ _ _); [apply Set_noErr|discriminate]. Qed.

Lemma index_noErr l i : noErr (index l i).
Proof. intros e. unfold index. destruct (0 <=? i); [destruct (_ !! _)|]; discriminate. Qed.

Lemma readsR_NoErr {St X} (f : St -> result X) :
  (forall s, noErr (f s)) -> NoErr (readsR f).
Proof. intros Hf s. exact (Hf s). Qed.

Lemma ret_NoErr {St X} (x : X) : NoErr (ret x : M St X).
Proof. intros s e. discriminate. Qed.

(** ** Slices of [int] *)

Lemma index_ok (r : list Z) i :
  0 <= i -> (Z.to_nat i < length r)%nat -> exists v, index r i = Ok v /\ r !! Z.to_nat i = Some v.
Proof.
  intros Hi Hl. unfold index. replace (0 <=? i) with true by (symmetry; lia).
  destruct (lookup_lt_is_Some_2 r (Z.to_nat i) Hl) as [v Hv]. rewrite Hv. eauto.
Qed.

Lemma index_inv (r : list Z) i v :
  index r i = Ok v -> 0 <= i /\ r !! Z.to_nat i = Some v.
Proof.
  unfold index. destruct (Z.leb_spec 0 i); [|discriminate].
  destruct (r !! Z.to_nat i) eqn:E; [|discriminate]. intros [= ->]. auto.
Qed.

Lemma store_inv (r : list Z) i v r' :
  store r i v = Ok r' ->
  0 <= i /\ (Z.to_nat i < length r)%nat /\ r' = <[Z.to_nat i := v]> r.
Proof.
  unfold store. destruct (_ && _) eqn:E; [|discriminate].
  apply andb_true_iff in E as [E1 E2%Nat.ltb_lt]. intros [= <-]. split; [lia|auto].
Qed.

Lemma remap_ok_index (cf : ArrayRemap.CF) i :
  remap_ok cf -> 0 <= i < cf_n cf + cf_m cf ->
  exists v, index (cf_remap cf) i = Ok v /\ 0 <= v < cf_n cf + cf_m cf.
Proof.
  intros [Hl Hall] Hi.
  destruct (index_ok (cf_remap cf) i) as (v & Hv & Hlk); [lia|lia|].
  exists v. split; [exact Hv|].
  rewrite Forall_lookup in Hall. exact (Hall _ _ Hlk).
Qed.

(** ** Finite sums of rationals *)

Lemma Qsum_nil : Qsum [] = 0%Q.
Proof. reflexivity. Qed.

Lemma Qsum_cons x l : Qsum (x :: l) = (x + Qsum l)%Q.
Proof. reflexivity. Qed.

Lemma Qsum_snoc l x : (Qsum (l ++ [x]) == Qsum l + x)%Q.
Proof.
  induction l as [|y l IH]; simpl.
  - ring.
  - rewrite IH. ring.
Qed.

Lemma Qsum_app l1 l2 : (Qsum (l1 ++ l2) == Qsum l1 + Qsum l2)%Q.
Proof.
  induction l1 as [|x l1 IH].
  - rewrite app_nil_l, Qsum_nil. ring.
  - rewrite <- app_comm_cons, !Qsum_cons, IH. ring.
Qed.

Lemma Qsum_zero {X} (f : X -> Q) (l : list X) :
  (forall x, x ∈ l -> f x = 0%Q) -> (Qsum (f <$> l) == 0)%Q.
Proof.
  induction l as [|x l IH]; intros H; simpl; [reflexivity|].
  rewrite (H x) by (left). rewrite IH; [ring|]. intros y Hy. apply H. right. exact Hy.
Qed.

Lemma Qsum_ext {X} (f g : X -> Q) (l : list X) :
  (forall x, x ∈ l -> (f x == g x)%Q) -> (Qsum (f <$> l) == Qsum (g <$> l))%Q.
Proof.
  induction l as [|x l IH]; intros H; [reflexivity|].
  rewrite !fmap_cons, !Qsum_cons. rewrite (H x) by left. rewrite IH; [reflexivity|].
  intros y Hy. apply H. right. exact Hy.
Qed.

Lemma Qsum_linear {X} (f g : X -> Q) (x : Q) (l : list X) :
  (Qsum ((fun j => f j - x * g j) <$> l) == Qsum (f <$> l) - x * Qsum (g <$> l))%Q.
Proof.
  induction l as [|j l IH].
  - rewrite !fmap_nil, Qsum_nil. ring.
  - rewrite !fmap_cons, !Qsum_cons. rewrite IH. ring.
Qed.

Lemma Qsum_scale_l {X} (c : Q) (f : X -> Q) (l : list X) :
  (Qsum ((fun j => c * f j) <$> l) == c * Qsum (f <$> l))%Q.
Proof.
  induction l as [|j l IH].
  - rewrite !fmap_nil, Qsum_nil. ring.
  - rewrite !fmap_cons, !Qsum_cons, IH. ring.
Qed.

Lemma Qsum_scale_r {X} (c : Q) (f : X -> Q) (l : list X) :
  (Qsum ((fun j => f j * c) <$> l) == Qsum (f <$> l) * c)%Q.
Proof.
  induction l as [|j l IH].
  - rewrite !fmap_nil, Qsum_nil. ring.
  - rewrite !fmap_cons, !Qsum_cons, IH. ring.
Qed.

Lemma Qsum_plus {X} (f g : X -> Q) (l : list X) :
  (Qsum ((fun j => f j + g j) <$> l) == Qsum (f <$> l) + Qsum (g <$> l))%Q.
Proof.
  induction l as [|j l IH].
  - rewrite !fmap_nil, Qsum_nil. ring.
  - rewrite !fmap_cons, !Qsum_cons, IH. ring.
Qed.

Lemma Qsum_swap {X Y} (f : X -> Y -> Q) (l1 : list X) (l2 : list Y) :
  (Qsum ((fun i => Qsum ((fun j => f i j) <$> l2)) <$> l1)
   == Qsum ((fun j => Qsum ((fun i => f i j) <$> l1)) <$> l2))%Q.
Proof.
  induction l1 as [|i l1 IH].
  - rewrite fmap_nil, Qsum_nil. symmetry. apply Qsum_zero. intros; reflexivity.
  - rewrite fmap_cons, Qsum_cons, IH.
    rewrite <- Qsum_plus. apply Qsum_ext. intros j _.
    rewrite fmap_cons, Qsum_cons. reflexivity.
Qed.

(** Replacing the term of index [l] of a sum. *)
Lemma Qsum_replace (f : Z -> Q) (u : Q) (l m : Z) :
  0 <= l < m ->
  (Qsum ((fun j => if j =? l then u else f j) <$> seqZ 0 m)
   == Qsum (f <$> seqZ 0 m) + (u - f l))%Q.
Proof.
  intros Hl.
  replace m with (l + (1 + (m - l - 1))) by lia.
  rewrite !seqZ_app by lia. rewrite !fmap_app, !Qsum_app. rewrite !Z.add_0_l.
  change (seqZ l 1) with [l]. rewrite !fmap_cons, !fmap_nil, !Qsum_cons, !Qsum_nil.
  rewrite Z.eqb_refl.
  rewrite (Qsum_ext (fun j => if j =? l then u else f j) f (seqZ 0 l)).
  2:{ intros j Hj. apply elem_of_seqZ in Hj.
      replace (j =? l) with false by (symmetry; lia). reflexivity. }
  rewrite (Qsum_ext (fun j => if j =? l then u else f j) f (seqZ (l + 1) _)).
  2:{ intros j Hj. apply elem_of_seqZ in Hj.
      replace (j =? l) with false by (symmetry; lia). reflexivity. }
  ring.
Qed.

Lemma Qsum_delta (g : Z -> Q) (i m : Z) :
  0 <= i < m ->
  (Qsum ((fun j => (if j =? i then 1 else 0) * g j) <$> seqZ 0 m) == g i)%Q.
Proof.
  intros Hi.
  rewrite (Qsum_ext _ (fun j => if j =? i then g i else (fun _ => 0%Q) j)).
  2:{ intros j _. destruct (Z.eqb_spec j i) as [->|]; ring. }
  rewrite Qsum_replace by exact Hi.
  rewrite Qsum_zero by reflexivity. ring.
Qed.

Lemma ratio_cancels (a e x : Q) : (0 < e)%Q -> x = (a / e)%Q -> (a - x * e == 0)%Q.
Proof.
  intros Hpos ->. field. intros He0. rewrite He0 in Hpos. exact (Qlt_irrefl _ Hpos).
Qed.

Lemma ratio_nonneg (a e : Q) : (0 <= a)%Q -> (0 < e)%Q -> (0 <= a / e)%Q.
Proof.
  intros Ha He. unfold Qdiv. apply Qmult_le_0_compat; [exact Ha|].
  apply Qinv_le_0_compat. apply Qlt_le_weak. exact He.
Qed.

(** [(cB * BInv) * (B * d) = cB * d] when [BInv * B] is the identity. *)
Lemma inverse_cancels (cB d : Z -> Q) (BInv B : Z -> Z -> Q) (m : Z) :
  0 <= m ->
  (forall p j, 0 <= p < m -> 0 <= j < m ->
     (Qsum ((fun i => BInv p i * B i j) <$> seqZ 0 m) == if p =? j then 1 else 0)%Q) ->
  (Qsum ((fun i => Qsum ((fun p => cB p * BInv p i) <$> seqZ 0 m)
                   * Qsum ((fun j => B i j * d j) <$> seqZ 0 m)) <$> seqZ 0 m)
   == Qsum ((fun p => cB p * d p) <$> seqZ 0 m))%Q.
Proof.
  intros Hm Hinv.
  rewrite (Qsum_ext _ (fun i => Qsum ((fun p =>
             cB p * (BInv p i * Qsum ((fun j => B i j * d j) <$> seqZ 0 m)))%Q
                                      <$> seqZ 0 m))).
  2:{ intros i _. rewrite <- Qsum_scale_r. apply Qsum_ext. intros p _. ring. }
  rewrite Qsum_swap. apply Qsum_ext. intros p Hp. apply elem_of_seqZ in Hp.
  rewrite Qsum_scale_l.
  rewrite (Qsum_ext _ (fun i => Qsum ((fun j => BInv p i * B i j * d j)%Q <$> seqZ 0 m))).
  2:{ intros i _. rewrite <- Qsum_scale_l. apply Qsum_ext. intros j _. ring. }
  rewrite Qsum_swap.
  rewrite (Qsum_ext _ (fun j => (if j =? p then 1 else 0) * d j)%Q).
  2:{ intros j Hj. apply elem_of_seqZ in Hj.
      rewrite Qsum_scale_r. rewrite (Hinv p j) by lia.
      rewrite (Z.eqb_sym j p). reflexivity. }
  rewrite Qsum_delta by lia. reflexivity.
Qed.

(** ** The checked linear algebra is sound *)

Lemma forallb_elem {X} (f : X -> bool) (l : list X) (x : X) :
  forallb f l = true -> x ∈ l -> f x = true.
Proof.
  intros H Hx. apply Is_true_true in H. apply forallb_True in H.
  rewrite Forall_forall in H. apply Is_true_true. auto.
Qed.

Lemma checkedSolve_solves : solves checkedSolve.
Proof.
  intros a col d. unfold checkedSolve.
  destruct (Exact.Solve a col) as [d'| |]; try discriminate.
  destruct (solvedBy a d' col) eqn:E; [|discriminate].
  intros [= <-] i Hi. unfold solvedBy in E.
  apply (forallb_elem _ _ i) in E; [|apply elem_of_seqZ; lia].
  apply Qeq_bool_iff. exact E.
Qed.

Lemma checkedInverse_inverts : inverts checkedInverse.
Proof.
  intros a ai. unfold checkedInverse.
  destruct (Exact.Inverse a) as [ai'| |]; try discriminate.
  destruct (invertedBy a ai') eqn:E; [|discriminate].
  intros [= <-] p j Hp Hj. unfold invertedBy in E.
  apply (forallb_elem _ _ p) in E; [|apply elem_of_seqZ; lia].
  apply (forallb_elem _ _ j) in E; [|apply elem_of_seqZ; lia].
  apply Qeq_bool_iff. exact E.
Qed.

(** ** The algebra of a pivot *)

(** Replacing column [l] of the basis by a column [a^k = B*d], and
    [xBStar] by [xBStar - x*d] with [x] in row [l], where [x] cancels row
    [l], keeps [B * xBStar]. *)
Lemma basis_step {R R'} (cf : CanonicalForm R) (cf' : CanonicalForm R')
    (k l : Z) (x : Q) (d : Dense) :
  0 <= l < cf_m cf ->
  cf_n cf' = cf_n cf -> cf_m cf' = cf_m cf -> cf_b cf' = cf_b cf ->
  (forall j, 0 <= j < cf_m cf ->
     get (cf_xBStar cf') j 0 =
     if j =? l then x else (get (cf_xBStar cf) j 0 - x * get d j 0)%Q) ->
  (forall i j, 0 <= i < cf_m cf -> 0 <= j < cf_m cf ->
     get (cf_A cf') i (cf_n cf + j) =
     if j =? l then get (cf_A cf) i k else get (cf_A cf) i (cf_n cf + j)) ->
  (forall i, 0 <= i < cf_m cf ->
     (Qsum ((fun j => get (cf_A cf) i (cf_n cf + j) * get d j 0) <$> seqZ 0 (cf_m cf))
      == get (cf_A cf) i k)%Q) ->
  (get (cf_xBStar cf) l 0 - x * get d l 0 == 0)%Q ->
  basis_eq cf -> basis_eq cf'.
Proof.
  intros Hl Hn' Hm' Hb' HxB' HA' HBd Hzero Hbe i Hi.
  rewrite Hm' in Hi. unfold basisRow. rewrite Hn', Hm', Hb'.
  set (B := fun j => get (cf_A cf) i (cf_n cf + j)).
  set (xB := fun j => get (cf_xBStar cf) j 0).
  set (dd := fun j => get d j 0).
  rewrite (Qsum_ext _
    (fun j => if j =? l then (get (cf_A cf) i k * x)%Q
              else (fun j => B j * xB j - x * (B j * dd j))%Q j)).
  2:{ intros j Hj. apply elem_of_seqZ in Hj.
      rewrite (HxB' j), (HA' i j) by lia.
      unfold B, xB, dd. destruct (j =? l); [reflexivity|ring]. }
  rewrite Qsum_replace by lia. rewrite Qsum_linear.
  assert (HBx : (Qsum ((fun j => B j * xB j) <$> seqZ 0 (cf_m cf))
                 == get (cf_b cf) i 0)%Q) by (apply (Hbe i); lia).
  assert (HBd' : (Qsum ((fun j => B j * dd j) <$> seqZ 0 (cf_m cf))
                  == get (cf_A cf) i k)%Q) by exact (HBd i Hi).
  assert (Hzero' : (xB l - x * dd l == 0)%Q) by exact Hzero.
  assert (Hf : (B l * xB l - x * (B l * dd l) == B l * (xB l - x * dd l))%Q) by ring.
  rewrite HBx, HBd', Hf, Hzero'. ring.
Qed.

(** The column [d] that a sound [Solve] returns for column [k] of [AN]. *)
Lemma solved_column {R} (Solve : Dense -> Dense -> result Dense)
    (cf : CanonicalForm R) k col d :
  solves Solve -> shaped cf -> 0 <= k < cf_n cf ->
  ColView (cf_A cf) (cf_AN cf) k = Ok col ->
  Solve (Deref (cf_A cf) (cf_B cf)) col = Ok d ->
  forall i, 0 <= i < cf_m cf ->
    (Qsum ((fun j => get (cf_A cf) i (cf_n cf + j) * get d j 0) <$> seqZ 0 (cf_m cf))
     == get (cf_A cf) i k)%Q.
Proof.
  intros Hsolves Hs Hk Hcol Hd i Hi.
  pose proof Hs as (Hn & Hm & _ & _ & _ & _ & _ & _ & HB & HAN & _).
  pose proof (Hsolves _ _ _ Hd i) as Hsol.
  rewrite HB in Hsol. cbn [Deref Rows Cols build vRows vCols] in Hsol.
  specialize (Hsol ltac:(lia)).
  rewrite <- (Qsum_ext
    (fun j => get (Deref (cf_A cf) (mkView 0 (cf_n cf) (cf_m cf) (cf_m cf))) i j
              * get d j 0)%Q).
  - rewrite Hsol.
    rewrite HAN in Hcol. pose proof (ColView_At _ _ _ _ i Hcol) as Hc.
    cbn [vRows vi vj] in Hc. rewrite (At_get _ _ _ _ (Hc ltac:(lia))).
    rewrite !Z.add_0_l. reflexivity.
  - intros j Hj. apply elem_of_seqZ in Hj.
    rewrite get_Deref by (cbn [vRows vCols]; lia). cbn [vi vj].
    rewrite Z.add_0_l. reflexivity.
Qed.

(** The same pivot adds [x * (c_k - cB * d)] to the objective. *)
Lemma objective_step {R R'} (cf : CanonicalForm R) (cf' : CanonicalForm R')
    (k l : Z) (x : Q) (d : Dense) :
  0 <= l < cf_m cf ->
  cf_n cf' = cf_n cf -> cf_m cf' = cf_m cf ->
  (forall j, 0 <= j < cf_m cf ->
     get (cf_xBStar cf') j 0 =
     if j =? l then x else (get (cf_xBStar cf) j 0 - x * get d j 0)%Q) ->
  (forall j, 0 <= j < cf_m cf ->
     get (cf_c cf') 0 (cf_n cf + j) =
     if j =? l then get (cf_c cf) 0 k else get (cf_c cf) 0 (cf_n cf + j)) ->
  (get (cf_xBStar cf) l 0 - x * get d l 0 == 0)%Q ->
  (objective cf' ==
   objective cf
   + x * (get (cf_c cf) 0 k
          - Qsum ((fun j => get (cf_c cf) 0 (cf_n cf + j) * get d j 0)
                    <$> seqZ 0 (cf_m cf))))%Q.
Proof.
  intros Hl Hn' Hm' HxB' Hc' Hzero.
  unfold objective. rewrite Hn', Hm'.
  set (cB := fun j => get (cf_c cf) 0 (cf_n cf + j)).
  set (xB := fun j => get (cf_xBStar cf) j 0).
  set (dd := fun j => get d j 0).
  rewrite (Qsum_ext _
    (fun j => if j =? l then (get (cf_c cf) 0 k * x)%Q
              else (fun j => cB j * xB j - x * (cB j * dd j))%Q j)).
  2:{ intros j Hj. apply elem_of_seqZ in Hj.
      rewrite (HxB' j), (Hc' j) by lia.
      unfold cB, xB, dd. destruct (j =? l); [reflexivity|ring]. }
  rewrite Qsum_replace by lia. rewrite Qsum_linear.
  assert (Hzero' : (xB l - x * dd l == 0)%Q) by exact Hzero.
  assert (Hf : (cB l * xB l - x * (cB l * dd l) == cB l * (xB l - x * dd l))%Q) by ring.
  rewrite Hf, Hzero'. subst cB xB dd. cbv beta. ring.
Qed.

(** The reduced cost of column [k], with a sound [Inverse] and [Solve]:
    [c_k - cB * d] for the solution [d] of [B * d = a^k]. *)
Lemma reduced_cost_identity {R} (Inverse : Dense -> result Dense)
    (Solve : Dense -> Dense -> result Dense) (cf : CanonicalForm R)
    BInv y m0 r k v col d :
  inverts Inverse -> solves Solve -> shaped cf ->
  Inverse (Deref (cf_A cf) (cf_B cf)) = Ok BInv ->
  Mul (Deref (cf_c cf) (cf_cB cf)) BInv = Ok y ->
  Mul y (Deref (cf_A cf) (cf_AN cf)) = Ok m0 ->
  Sub (Deref (cf_c cf) (cf_cN cf)) m0 = Ok r ->
  At r 0 k = Ok v ->
  ColView (cf_A cf) (cf_AN cf) k = Ok col ->
  Solve (Deref (cf_A cf) (cf_B cf)) col = Ok d ->
  (v == get (cf_c cf) 0 k
        - Qsum ((fun j => get (cf_c cf) 0 (cf_n cf + j) * get d j 0)
                  <$> seqZ 0 (cf_m cf)))%Q.
Proof.
  intros Hinv Hsol Hs HBInv Hy Hm0 Hr Hv Hcol Hd.
  pose proof Hs as (Hn & Hm & HwA & [= RA CA] & Hwc & [= Rc Cc] & _ & _
                   & HB & HAN & HcB & HcN).
  rewrite HcB in Hy. rewrite HAN in Hm0. rewrite HcN in Hr.
  apply Mul_inv in Hy as (Ey & Ry & Cy & Hy).
  apply Mul_inv in Hm0 as (Em & Rm & Cm & Hm0).
  cbn [Deref build Rows Cols vRows vCols] in *.
  assert (Hk : 0 <= k < cf_n cf).
  { apply At_inv in Hv as (_ & Hk & _). unfold Sub in Hr.
    destruct (_ && _) in Hr; [|discriminate]. injection Hr as <-.
    cbn [Cols] in Hk. exact Hk. }
  assert (Hr1 : Rows y = 1).
  { unfold Sub in Hr. destruct (_ && _) eqn:E in Hr; [|discriminate].
    apply andb_true_iff in E as [E1%Z.eqb_eq _]. cbn [Rows] in E1. lia. }
  pose proof (Sub_At _ _ _ 0 k _ _ Hr
                (At_build 1 (cf_n cf) _ 0 k ltac:(lia) Hk)
                (Hm0 0 k ltac:(lia) Hk)) as Hv'.
  rewrite Hv in Hv'. injection Hv' as ->.
  rewrite !Z.add_0_l.
  match goal with |- (?a - ?s1 == ?a - ?s2)%Q =>
    cut (s1 == s2)%Q; [intros ->; reflexivity|] end.
  replace (Cols y) with (cf_m cf) by (rewrite Em; reflexivity).
  rewrite <- (inverse_cancels
    (fun p => get (cf_c cf) 0 (cf_n cf + p)) (fun j => get d j 0)
    (fun p i => get BInv p i) (fun i j => get (cf_A cf) i (cf_n cf + j))
    (cf_m cf)); [|lia|].
  - apply Qsum_ext. intros i Hi. apply elem_of_seqZ in Hi.
    rewrite (At_get _ _ _ _ (Hy 0 i ltac:(lia) ltac:(lia))).
    rewrite get_Deref by (cbn [vRows vCols]; lia). cbn [vi vj]. rewrite !Z.add_0_l.
    rewrite (solved_column Solve cf k col d Hsol Hs Hk Hcol Hd i) by lia.
    apply Qmult_comp; [|reflexivity].
    apply Qsum_ext. intros p Hp. apply elem_of_seqZ in Hp.
    rewrite get_Deref by (cbn [vRows vCols]; lia). cbn [vi vj].
    rewrite !Z.add_0_l. reflexivity.
  - intros p j Hp Hj.
    pose proof (Hinv _ _ HBInv p j) as Hi. rewrite HB in Hi.
    cbn [Deref build Rows Cols vRows vCols] in Hi.
    rewrite <- (Hi ltac:(lia) ltac:(lia)).
    apply Qsum_ext. intros i Hi'. apply elem_of_seqZ in Hi'.
    rewrite get_Deref by (cbn [vRows vCols]; lia). cbn [vi vj].
    rewrite !Z.add_0_l. reflexivity.
Qed.

(** ** Construction *)

(** The slack loop of [New] writes a one in column [n + i] of every row
    [i] and nothing else. *)
Lemma slack_loop_content {R} (cf : CanonicalForm R) :
  wf (cf_A cf) -> 0 <= cf_m cf <= Rows (cf_A cf) -> 0 <= cf_n cf ->
  cf_n cf + cf_m cf <= Cols (cf_A cf) ->
  exists A',
    forS (seqZ 0 (cf_m cf))
      (fun i => assign set_A (fun cf => Set_ (cf_A cf) i (cf_n cf + i) 1%Q)) cf
    = (set_A A' cf, Ok tt) /\
    wf A' /\ Dims A' = Dims (cf_A cf) /\
    forall i j, At A' i j =
      if (0 <=? i) && (i <? cf_m cf) && (j =? cf_n cf + i) then Ok 1%Q
      else At (cf_A cf) i j.
Proof.
  intros Hw Hm Hn Hc.
  destruct (forS_inv
    (fun (k : Z) t => exists A', t = set_A A' cf /\ wf A' /\ Dims A' = Dims (cf_A cf) /\
       forall i j, At A' i j =
         if (0 <=? i) && (i <? k) && (j =? cf_n cf + i) then Ok 1%Q
         else At (cf_A cf) i j)
    (fun i => assign set_A (fun cf => Set_ (cf_A cf) i (cf_n cf + i) 1%Q))
    0 (cf_m cf) cf) as (t & E & A' & -> & P); [lia| | |].
  - exists (cf_A cf). split; [destruct cf; reflexivity|]. split; [exact Hw|].
    split; [reflexivity|]. intros i j.
    destruct (0 <=? i) eqn:E0; destruct (i <? 0) eqn:E1; try reflexivity; lia.
  - intros k t Hk (Ak & -> & HwAk & [= RAk CAk] & Hcont).
    unfold assign. cbn [cf_A cf_n set_A].
    destruct (Set_ok Ak k (cf_n cf + k) 1%Q HwAk ltac:(lia) ltac:(lia)) as [A1 HA1].
    rewrite HA1. eexists. split; [reflexivity|]. exists A1. split; [reflexivity|].
    split; [eapply Set_wf; eassumption|].
    apply Set_spec in HA1 as (R1 & C1 & _ & _ & _ & HAt).
    split; [unfold Dims; congruence|].
    intros i j. rewrite HAt, Hcont.
    destruct (Z.eqb_spec i k) as [->|Hik]; cbn [andb].
    + destruct (Z.eqb_spec j (cf_n cf + k)) as [->|Hj].
      * replace (0 <=? k) with true by (symmetry; lia).
        replace (k <? k + 1) with true by (symmetry; lia). reflexivity.
      * rewrite !andb_false_r. reflexivity.
    + destruct (0 <=? i) eqn:E0; cbn [andb]; [|reflexivity].
      destruct (Z.ltb_spec i k), (Z.ltb_spec i (k + 1)); try lia; reflexivity.
  - exists A'. rewrite Z.add_0_l in P. split; [exact E|exact P].
Qed.

(** ** The version with a slice: construction *)

Section SliceNew.

Import ArrayRemap.

(** The dictionary that [New] builds: [A] is the constraint matrix with
    an identity block appended, [c] the objective row with zeros
    appended, [x] a zero column. *)
Lemma New_content c A b (cf : CF) :
  wf c -> wf A ->
  Rows c = 1 -> 0 < Cols c -> 0 < Rows A -> Cols A = Cols c ->
  exists cf',
    New c A b cf = (cf', Ok tt) /\
    cf_n cf' = Cols c /\ cf_m cf' = Rows A /\
    cf_b cf' = b /\ cf_xBStar cf' = DenseCopyOf b /\
    cf_x cf' = build (Cols c + Rows A) 1 (fun _ _ => 0%Q) /\
    cf_xN cf' = mkView 0 0 (Cols c) 1 /\
    cf_B cf' = mkView 0 (Cols c) (Rows A) (Rows A) /\
    cf_AN cf' = mkView 0 0 (Rows A) (Cols c) /\
    cf_cB cf' = mkView 0 (Cols c) 1 (Rows A) /\
    cf_cN cf' = mkView 0 0 1 (Cols c) /\
    (wf (cf_A cf') /\ Dims (cf_A cf') = (Rows A, Cols c + Rows A) /\
     forall i j, 0 <= i < Rows A -> 0 <= j < Cols c + Rows A ->
       At (cf_A cf') i j =
       Ok (if j <? Cols c then get A i j else if j =? Cols c + i then 1 else 0)%Q) /\
    (wf (cf_c cf') /\ Dims (cf_c cf') = (1, Cols c + Rows A) /\
     forall j, 0 <= j < Cols c + Rows A ->
       At (cf_c cf') 0 j = Ok (if j <? Cols c then get c 0 j else 0)%Q) /\
    length (cf_remap cf') = Z.to_nat (Cols c + Rows A) /\
    forall i, 0 <= i < Cols c + Rows A -> index (cf_remap cf') i = Ok i.
Proof.
  intros Hwc HwA Rc Cc RA CA.
  unfold New. cbn [Dims].
  replace (1 <? Rows c) with false by (symmetry; apply Z.ltb_ge; lia).
  unfold bind at 1. unfold modify at 1. unfold bind at 1. unfold reads at 1.
  cbn [cf_n set_n].
  replace (Cols c <? Cols A) with false by (symmetry; apply Z.ltb_ge; lia).
  unfold bind at 1. unfold modify at 1.
  unfold bind at 1. unfold modify at 1.
  unfold bind at 1. unfold assign at 1. cbn [cf_A cf_m set_A set_m set_n].
  unfold Grow at 1.
  replace ((0 <? 0) || (Rows A <? 0)) with false by (symmetry; apply orb_false_iff; lia).
  replace ((0 =? 0) && (Rows A =? 0)) with false by (symmetry; apply andb_false_iff; lia).
  match goal with |- context [set_A (build ?r ?k ?f) _] => set (A0 := build r k f) end.
  assert (HwA0 : wf A0) by (apply build_wf; destruct HwA; lia).
  unfold bind at 1. unfold reads at 1. cbn [cf_m set_A set_m].
  unfold bind at 1.
  match goal with |- context [forS _ _ ?s] =>
    destruct (slack_loop_content s) as (A1 & E1 & HwA1 & [= RA1 CA1] & HA1) end;
    cbn [cf_A cf_m cf_n set_A set_m set_n]; try assumption; try (simpl; lia).
  cbn [cf_A cf_m cf_n set_A set_m set_n] in E1, RA1, CA1, HA1. simpl in RA1, CA1.
  rewrite E1.
  unfold bind at 1. unfold modify at 1.
  unfold bind at 1. unfold modify at 1.
  unfold bind at 1. unfold assign at 1. cbn [cf_c cf_m set_A set_m set_b set_c].
  unfold Grow at 1.
  replace ((0 <? 0) || (Rows A <? 0)) with false by (symmetry; apply orb_false_iff; lia).
  replace ((0 =? 0) && (Rows A =? 0)) with false by (symmetry; apply andb_false_iff; lia).
  match goal with |- context [set_c (build ?r ?k ?f) _] => set (c0 := build r k f) end.
  assert (Hwc0 : wf c0) by (apply build_wf; destruct Hwc; lia).
  unfold bind at 1. unfold assign at 1.
  cbn [cf_n cf_m set_A set_m set_n set_b set_c].
  unfold NewDense at 1.
  replace ((0 <? Cols c + Rows A) && (0 <? 1)) with true
    by (symmetry; apply andb_true_iff; lia).
  match goal with |- context [set_x (build ?r ?k ?f) _] => set (x0 := build r k f) end.
  unfold bind at 1. unfold modify at 1.
  unfold bind at 1. unfold assign at 1.
  cbn [cf_x cf_n cf_m set_A set_m set_n set_b set_c set_x set_xBStar].
  unfold Slice at 1. cbn [Rows Cols x0 build].
  replace ((0 <=? 0) && (0 <? Cols c) && (Cols c <=? Cols c + Rows A)
           && (0 <=? 0) && (0 <? 1) && (1 <=? 1)) with true
    by (symmetry; rewrite !andb_true_iff; lia).
  unfold bind at 1. unfold assign at 1.
  cbn [cf_A cf_n cf_m set_A set_m set_n set_b set_c set_x set_xBStar set_xN].
  unfold Slice at 1. rewrite RA1, CA1.
  replace ((0 <=? 0) && (0 <? Rows A) && (Rows A <=? Rows A + 0)
           && (0 <=? Cols c) && (Cols c <? Cols c + Rows A)
           && (Cols c + Rows A <=? Cols A + Rows A)) with true
    by (symmetry; rewrite !andb_true_iff; lia).
  unfold bind at 1. unfold assign at 1.
  cbn [cf_A cf_n cf_m set_A set_m set_n set_b set_c set_x set_xBStar set_xN set_B].
  unfold Slice at 1. rewrite RA1, CA1.
  replace ((0 <=? 0) && (0 <? Rows A) && (Rows A <=? Rows A + 0)
           && (0 <=? 0) && (0 <? Cols c)
           && (Cols c <=? Cols A + Rows A)) with true
    by (symmetry; rewrite !andb_true_iff; lia).
  unfold bind at 1. unfold assign at 1.
  cbn [cf_c cf_n cf_m set_A set_m set_n set_b set_c set_x set_xBStar set_xN set_B set_AN].
  unfold Slice at 1. cbn [Rows Cols c0 build].
  replace ((0 <=? 0) && (0 <? 1) && (1 <=? Rows c + 0)
           && (0 <=? Cols c) && (Cols c <? Cols c + Rows A)
           && (Cols c + Rows A <=? Cols c + Rows A)) with true
    by (symmetry; rewrite !andb_true_iff; lia).
  unfold bind at 1. unfold assign at 1.
  cbn [cf_c cf_n cf_m set_A set_m set_n set_b set_c set_x set_xBStar set_xN set_B set_AN set_cB].
  unfold Slice at 1. cbn [Rows Cols c0 build].
  replace ((0 <=? 0) && (0 <? 1) && (1 <=? Rows c + 0)
           && (0 <=? 0) && (0 <? Cols c)
           && (Cols c <=? Cols c + Rows A)) with true
    by (symmetry; rewrite !andb_true_iff; lia).
  unfold bind at 1. unfold assign at 1.
  cbn [cf_n cf_m set_A set_m set_n set_b set_c set_x set_xBStar set_xN set_B set_AN
       set_cB set_cN].
  unfold make at 1.
  replace (Cols c + Rows A <? 0) with false by (symmetry; apply Z.ltb_ge; lia).
  unfold bind at 1. unfold reads at 1.
  cbn [cf_n cf_m set_A set_m set_n set_b set_c set_x set_xBStar set_xN set_B set_AN
       set_cB set_cN set_remap].
  unfold bind at 1.
  match goal with |- context [forS _ _ ?s] =>
    destruct (identity_loop s (Cols c + Rows A)) as (r & E2 & Hlr & Hr) end;
    [lia|cbn [cf_remap set_remap]; apply length_replicate|].
  rewrite E2.
  eexists. split; [reflexivity|].
  cbn [cf_n cf_m cf_A cf_c cf_b cf_x cf_xN cf_xBStar cf_B cf_AN cf_cB cf_cN cf_remap
       set_A set_m set_n set_b set_c set_x set_xBStar set_xN set_B set_AN
       set_cB set_cN set_remap].
  do 4 (split; [reflexivity|]).
  split; [reflexivity|].
  do 5 (split; [f_equal; lia|]).
  split; [|split; [|split; [exact Hlr|exact Hr]]].
  - split; [exact HwA1|]. split; [unfold Dims; f_equal; lia|].
    intros i j Hi Hj. rewrite HA1.
    replace (0 <=? i) with true by (symmetry; lia).
    replace (i <? Rows A) with true by (symmetry; lia). cbn [andb].
    unfold A0. rewrite At_build by lia.
    destruct (Z.eqb_spec j (Cols c + i)) as [->|Hne].
    + replace (Cols c + i <? Cols c) with false by (symmetry; lia). reflexivity.
    + destruct (Z.ltb_spec j (Cols c)) as [Hlt|Hge].
      * replace (inside (Rows A) (Cols A) i j) with true
          by (symmetry; apply inside_true; lia). reflexivity.
      * replace (inside (Rows A) (Cols A) i j) with false
          by (symmetry; apply inside_false; lia). reflexivity.
  - split; [exact Hwc0|]. split; [unfold Dims, c0; cbn [Rows Cols build]; f_equal; lia|].
    intros j Hj. unfold c0. rewrite At_build by lia.
    destruct (Z.ltb_spec j (Cols c)) as [Hlt|Hge].
    + replace (inside (Rows c) (Cols c) 0 j) with true
        by (symmetry; apply inside_true; lia). reflexivity.
    + replace (inside (Rows c) (Cols c) 0 j) with false
        by (symmetry; apply inside_false; lia). reflexivity.
Qed.

(** X1. [New] completes on an objective row [c] (1 x n) and a constraint
    matrix [A] (m x n) of the same width, whatever [b] is: [b] is not
    inspected.  In the dictionary it builds, [AN] is [A], [B] is the
    identity, [cN] is [c], [cB] is zero, [xBStar] is a copy of [b], [x] is
    zero and [remap] is the identity. *)
Theorem New_builds_canonical_form c A b (cf : CF) :
  wf c -> wf A -> Rows c = 1 -> 0 < Cols c -> 0 < Rows A -> Cols A = Cols c ->
  exists cf',
    New c A b cf = (cf', Ok tt) /\
    cf_n cf' = Cols c /\ cf_m cf' = Rows A /\
    cf_b cf' = b /\ cf_xBStar cf' = DenseCopyOf b /\
    Dims (cf_A cf') = (Rows A, Cols c + Rows A) /\
    Dims (cf_c cf') = (1, Cols c + Rows A) /\
    (forall i j, 0 <= i < Rows A -> 0 <= j < Cols c ->
       VAt (cf_A cf') (cf_AN cf') i j = At A i j) /\
    (forall i j, 0 <= i < Rows A -> 0 <= j < Rows A ->
       VAt (cf_A cf') (cf_B cf') i j = Ok (if i =? j then 1 else 0)%Q) /\
    (forall j, 0 <= j < Cols c -> VAt (cf_c cf') (cf_cN cf') 0 j = At c 0 j) /\
    (forall j, 0 <= j < Rows A -> VAt (cf_c cf') (cf_cB cf') 0 j = Ok 0%Q) /\
    (forall i, 0 <= i < Cols c + Rows A ->
       At (cf_x cf') i 0 = Ok 0%Q /\ index (cf_remap cf') i = Ok i).
Proof.
  intros Hwc HwA Rc Cc RA CA.
  destruct (New_content c A b cf Hwc HwA Rc Cc RA CA)
    as (cf' & E & Hn & Hm & Hb & HxB & Hx & _ & HB & HAN & HcB & HcN
        & (_ & DA & HA) & (_ & Dc & Hc) & _ & Hid).
  exists cf'. rewrite HB, HAN, HcB, HcN, Hx. unfold VAt. cbn [vi vj vRows vCols].
  repeat match goal with |- _ /\ _ => split end; try assumption.
  - intros i j Hi Hj.
    replace (inside (Rows A) (Cols c) i j) with true by (symmetry; apply inside_true; lia).
    rewrite !Z.add_0_l, HA by lia.
    replace (j <? Cols c) with true by (symmetry; lia).
    symmetry. apply At_wf; [assumption|lia..].
  - intros i j Hi Hj.
    replace (inside (Rows A) (Rows A) i j) with true by (symmetry; apply inside_true; lia).
    rewrite !Z.add_0_l, HA by lia.
    replace (Cols c + j <? Cols c) with false by (symmetry; lia).
    destruct (Z.eqb_spec i j) as [->|Hne].
    + rewrite Z.eqb_refl. reflexivity.
    + replace (Cols c + j =? Cols c + i) with false by (symmetry; lia). reflexivity.
  - intros j Hj.
    replace (inside 1 (Cols c) 0 j) with true by (symmetry; apply inside_true; lia).
    rewrite !Z.add_0_l, Hc by lia.
    replace (j <? Cols c) with true by (symmetry; lia).
    symmetry. apply At_wf; [assumption|lia..].
  - intros j Hj.
    replace (inside 1 (Rows A) 0 j) with true by (symmetry; apply inside_true; lia).
    rewrite !Z.add_0_l, Hc by lia.
    replace (Cols c + j <? Cols c) with false by (symmetry; lia). reflexivity.
  - intros i Hi. split; [apply At_build; lia|apply Hid; exact Hi].
Qed.

(** X2. The width check of [New] lets a constraint matrix with fewer columns
    than the objective pass; [New] then panics while it writes the slack
    columns, the last of which lies beyond the grown matrix. *)
Theorem New_narrow_matrix_panics c A b (cf : CF) :
  wf A -> Rows c <= 1 -> 0 < Rows A -> Cols A < Cols c ->
  exists cf' w, New c A b cf = (cf', Panic w).
Proof.
  intros HwA Rc RA CA. pose proof HwA as (_ & HCA & _).
  unfold New. cbn [Dims].
  replace (1 <? Rows c) with false by (symmetry; apply Z.ltb_ge; lia).
  unfold bind at 1. unfold modify at 1. unfold bind at 1. unfold reads at 1.
  cbn [cf_n set_n].
  replace (Cols c <? Cols A) with false by (symmetry; apply Z.ltb_ge; lia).
  unfold bind at 1. unfold modify at 1.
  unfold bind at 1. unfold modify at 1.
  unfold bind at 1. unfold assign at 1. cbn [cf_A cf_m set_A set_m set_n].
  unfold Grow at 1.
  replace ((0 <? 0) || (Rows A <? 0)) with false by (symmetry; apply orb_false_iff; lia).
  replace ((0 =? 0) && (Rows A =? 0)) with false by (symmetry; apply andb_false_iff; lia).
  match goal with |- context [set_A (build ?r ?k ?f) _] => set (A0 := build r k f) end.
  assert (HwA0 : wf A0) by (apply build_wf; lia).
  unfold bind at 1. unfold reads at 1. cbn [cf_m set_A set_m].
  unfold bind at 1.
  match goal with |- context [forS _ ?body ?s] =>
    destruct (forS_panics_at
      (fun (_ : Z) (t : CF) => exists A', t = set_A A' s /\ wf A' /\ Dims A' = Dims A0)
      body (Rows A) (Z.max 0 (Cols A + Rows A - Cols c)) ErrIndexOutOfRange s)
      as (s' & E)
  end.
  - lia.
  - exists A0. auto.
  - intros j t Hj (Ak & -> & HwAk & [= RAk CAk]). simpl in RAk, CAk.
    unfold assign. cbn [cf_A cf_n set_A set_m set_n].
    destruct (Set_ok Ak j (Cols c + j) 1%Q HwAk ltac:(lia) ltac:(lia)) as [A1 HA1].
    rewrite HA1. eexists. split; [reflexivity|]. exists A1. split; [reflexivity|].
    split; [eapply Set_wf; eassumption|].
    apply Set_spec in HA1 as (R1 & C1 & _). unfold Dims. simpl. f_equal; lia.
  - intros t (Ak & -> & HwAk & [= RAk CAk]). simpl in RAk, CAk.
    unfold assign, Set_. cbn [cf_A cf_n set_A set_m set_n].
    match goal with |- context [inside ?r ?k ?i ?j] =>
      replace (inside r k i j) with false by (symmetry; apply inside_false; lia) end.
    eauto.
  - rewrite E. eauto.
Qed.

End SliceNew.

(** ** The version with a slice: errors and panics of [Iter] *)

Section SliceErrors.

Variable Inverse : Dense -> result Dense.
Variable Solve : Dense -> Dense -> result Dense.
Variable quo : Q -> Q -> float64.

Import ArrayRemap.

Local Abbreviation FindLeavingVariable := (ArrayRemap.FindLeavingVariable quo).
Local Abbreviation Iter := (ArrayRemap.Iter Inverse Solve quo).
Local Abbreviation FindY := (ArrayRemap.FindY Inverse).
Local Abbreviation SolveBd := (ArrayRemap.SolveBd Solve).

Lemma FindEnteringVariable_noErr (cf : CF) y f : noErr (FindEnteringVariable cf y f).
Proof.
  unfold FindEnteringVariable, reducedCosts.
  apply rbind_noErr.
  - apply rbind_noErr; [apply Mul_noErr|intro; apply Sub_noErr].
  - intros m. cbn [Dims]. destruct (negb _).
    + apply rbind_noErr; [apply At_noErr|]. intros v e. destruct (Qltb 0 v); discriminate.
    + apply rbind_noErr; [|intros acc e; discriminate].
      apply forM_noErr. intros j [mx k]. unfold scanEntering.
      apply rbind_noErr; [apply At_noErr|]. intros v e. destruct (_ && _); discriminate.
Qed.

Lemma FindLeavingVariable_noErr (cf : CF) d : noErr (FindLeavingVariable cf d).
Proof.
  unfold FindLeavingVariable. cbn [Dims].
  apply rbind_noErr.
  - apply forM_noErr. intros i [[x l] found]. unfold scanLeaving.
    apply rbind_noErr; [apply At_noErr|]. intros di.
    destruct (Qleb di 0); [intros e; discriminate|].
    apply rbind_noErr; [apply At_noErr|]. intros xi e.
    destruct (ltF _ _); discriminate.
  - intros [[x l] found] e. destruct found; discriminate.
Qed.

Lemma Update_NoErr d y x k l : NoErr (Update d y x k l).
Proof.
  unfold Update. cbn [Dims].
  apply bind_NoErr; [apply assign_NoErr; intro; apply Sub_noErr|intros _].
  apply bind_NoErr; [apply assign_NoErr; intro; apply Set_noErr|intros _].
  apply bind_NoErr; [apply readsR_NoErr; intro; apply ColView_noErr|intros col].
  apply bind_NoErr; [apply readsR_NoErr; intro; apply VAt_noErr|intros lc].
  apply bind_NoErr.
  { apply forS_NoErr. intros i. unfold exchangeRow.
    apply bind_NoErr; [|intros _]; apply assign_NoErr; intros s;
      (apply rbind_noErr; [first [apply VAt_noErr|apply At_noErr]|intro; apply VSet_noErr]). }
  intros _.
  apply bind_NoErr.
  { apply assign_NoErr; intros s.
    apply rbind_noErr; [apply VAt_noErr|intro; apply VSet_noErr]. }
  intros _.
  apply bind_NoErr; [apply assign_NoErr; intro; apply VSet_noErr|intros _].
  apply ret_NoErr.
Qed.

Lemma FindY_Err (cf : CF) e :
  FindY cf = Err e -> Inverse (Deref (cf_A cf) (cf_B cf)) = Err e.
Proof.
  unfold ArrayRemap.FindY. destruct (Inverse _) as [BInv| |]; simpl; try congruence.
  destruct (Mul _ BInv) eqn:E; simpl; try discriminate.
  exfalso. exact (Mul_noErr _ _ _ E).
Qed.

Lemma SolveBd_Err (cf : CF) k e :
  SolveBd cf k = Err e ->
  exists col, ColView (cf_A cf) (cf_AN cf) k = Ok col /\
              Solve (Deref (cf_A cf) (cf_B cf)) col = Err e.
Proof.
  unfold ArrayRemap.SolveBd. destruct (ColView _ _ k) as [col| |] eqn:E; simpl.
  - eauto.
  - intros _. exfalso. exact (ColView_noErr _ _ _ _ E).
  - discriminate.
Qed.

(** X3. A non-zero forced index that is not a column of the reduced-cost row
    makes [FindEnteringVariable], and [Iter] with it, panic; the state is
    as before the call. *)
Theorem forced_index_out_of_range_panics (cf : CF) f y r :
  ArrayRemap.FindY Inverse cf = Ok y -> reducedCosts cf y = Ok r ->
  f <> 0 -> f < 0 \/ Cols r <= f ->
  FindEnteringVariable cf y f = Panic ErrIndexOutOfRange /\
  Iter f cf = (cf, Panic ErrIndexOutOfRange).
Proof.
  intros Hy Hr Hf Hout.
  assert (HF : FindEnteringVariable cf y f = Panic ErrIndexOutOfRange).
  { unfold FindEnteringVariable. rewrite Hr. cbn [rbind Dims].
    replace (f =? 0) with false by (symmetry; lia). cbn [negb].
    unfold At. replace (inside (Rows r) (Cols r) 0 f) with false
      by (symmetry; apply inside_false; lia).
    reflexivity. }
  split; [exact HF|].
  unfold ArrayRemap.Iter, bind, readsR. rewrite Hy, HF. reflexivity.
Qed.

(** X4. An error returned by [Iter] is the error of [Inverse] on the basis [B],
    or that of [Solve] on [B] and a column of [AN]; the state is as before
    the call. *)
Theorem Iter_error_leaves_state f (cf cf' : CF) e :
  Iter f cf = (cf', Err e) ->
  cf' = cf /\
  (Inverse (Deref (cf_A cf) (cf_B cf)) = Err e \/
   exists k col, 0 <= k < vCols (cf_AN cf) /\
     ColView (cf_A cf) (cf_AN cf) k = Ok col /\
     Solve (Deref (cf_A cf) (cf_B cf)) col = Err e).
Proof.
  unfold ArrayRemap.Iter, bind, readsR, ret.
  destruct (FindY cf) as [y|e0|] eqn:Hy; try discriminate.
  2:{ intros [= <- <-]. split; [reflexivity|]. left. apply FindY_Err. exact Hy. }
  destruct (FindEnteringVariable cf y f) as [k|e0|] eqn:Hk; try discriminate.
  2:{ exfalso. exact (FindEnteringVariable_noErr _ _ _ _ Hk). }
  destruct (k =? -1); [discriminate|].
  destruct (SolveBd cf k) as [d|e0|] eqn:Hd; try discriminate.
  2:{ intros [= <- <-]. split; [reflexivity|]. right.
      apply SolveBd_Err in Hd as (col & Hc & Hs). exists k, col.
      split; [|auto]. unfold ColView in Hc.
      destruct (_ && _) eqn:E in Hc; [|discriminate].
      apply andb_true_iff in E. lia. }
  destruct (FindLeavingVariable cf d) as [[x l]|e0|] eqn:Hl; try discriminate.
  2:{ exfalso. exact (FindLeavingVariable_noErr _ _ _ Hl). }
  destruct (l =? -1); [discriminate|].
  destruct (index _ _) as [tmp|e0|] eqn:Hi; try discriminate.
  2:{ exfalso. exact (index_noErr _ _ _ Hi). }
  destruct (assign set_remap _ cf) as [s1 [[]|e0|]] eqn:E1; try discriminate.
  2:{ exfalso. eapply (assign_NoErr set_remap); [|rewrite E1; reflexivity].
      intros s. apply store_noErr. }
  destruct (assign set_remap _ s1) as [s2 [[]|e0|]] eqn:E2; try discriminate.
  2:{ exfalso. eapply (assign_NoErr set_remap); [|rewrite E2; reflexivity].
      intros s. apply store_noErr. }
  destruct (number x) as [q|e0|] eqn:Hq; try discriminate.
  2:{ exfalso. exact (number_noErr _ _ Hq). }
  destruct (Update d y q k l s2) as [s3 [[]|e0|]] eqn:E3; try discriminate.
  exfalso. eapply (Update_NoErr d y q k l s2). rewrite E3. reflexivity.
Qed.

End SliceErrors.

(** ** The version with a slice: [GetResults] *)

Section SliceResults.

Import ArrayRemap.

Lemma collect_step (cf : CF) j res total :
  shaped cf -> remap_ok cf -> cf_n cf <= j < cf_n cf + cf_m cf ->
  wf res -> Dims res = (cf_n cf + cf_m cf, 1) ->
  reported cf (j - cf_n cf) res ->
  (total == Qsum (scoreTerm cf <$> seqZ 0 (j - cf_n cf)))%Q ->
  exists res' total',
    collect cf j (res, total) = Ok (res', total') /\
    wf res' /\ Dims res' = (cf_n cf + cf_m cf, 1) /\
    reported cf (j + 1 - cf_n cf) res' /\
    (total' == Qsum (scoreTerm cf <$> seqZ 0 (j + 1 - cf_n cf)))%Q.
Proof.
  intros Hs Hr Hj Hw [= Rr Cr] Hrep Htot.
  pose proof Hs as (Hn & Hm & HwA & DA & Hwc & [= Rc Cc] & Hwx & [= Rx Cx] & _).
  destruct (remap_ok_index cf j Hr ltac:(lia)) as (ri & Hri & Hrange).
  destruct (At_ok (cf_xBStar cf) (j - cf_n cf) 0 Hwx) as [v Hv]; [lia..|].
  destruct (Set_ok res ri 0 v Hw) as [res' Hres']; [lia..|].
  destruct (At_ok (cf_c cf) 0 j Hwc) as [ci Hci]; [lia..|].
  unfold collect. rewrite Hri. cbn [rbind]. rewrite Hv. cbn [rbind].
  rewrite Hres'. cbn [rbind].
  pose proof (Set_wf _ _ _ _ _ Hw Hres') as Hw'.
  apply Set_spec in Hres' as (R' & C' & _ & _ & _ & HAt).
  assert (Hterm : scoreTerm cf (j - cf_n cf) =
                  if ri <? cf_n cf then (v * ci)%Q else 0%Q).
  { unfold scoreTerm. replace (cf_n cf + (j - cf_n cf)) with j by lia.
    rewrite Hri, (At_get _ _ _ _ Hv), (At_get _ _ _ _ Hci). reflexivity. }
  assert (Hrep' : reported cf (j + 1 - cf_n cf) res').
  { intros k Hk. rewrite HAt. rewrite Z.eqb_refl, andb_true_r.
    destruct (Z.eqb_spec k ri) as [->|Hne].
    - left. exists (j - cf_n cf). split; [lia|].
      replace (cf_n cf + (j - cf_n cf)) with j by lia.
      split; [exact Hri|]. split; [intros; lia|]. symmetry. exact Hv.
    - destruct (Hrep k Hk) as [(i & Hi & Hik & Hlast & HAtk)|[Hnone HAtk]].
      + left. exists i. split; [lia|]. split; [exact Hik|]. split; [|exact HAtk].
        intros i' Hi'. destruct (Z.eq_dec i' (j - cf_n cf)) as [->|Hne'].
        * replace (cf_n cf + (j - cf_n cf)) with j by lia. rewrite Hri. congruence.
        * apply Hlast. lia.
      + right. split; [|exact HAtk].
        intros i Hi. destruct (Z.eq_dec i (j - cf_n cf)) as [->|Hne'].
        * replace (cf_n cf + (j - cf_n cf)) with j by lia. rewrite Hri. congruence.
        * apply Hnone. lia. }
  assert (Hsum : forall t, (t == Qsum (scoreTerm cf <$> seqZ 0 (j - cf_n cf))
                            + scoreTerm cf (j - cf_n cf))%Q ->
                 (t == Qsum (scoreTerm cf <$> seqZ 0 (j + 1 - cf_n cf)))%Q).
  { intros t Ht. replace (j + 1 - cf_n cf) with (j - cf_n cf + 1) by lia.
    rewrite seqZ_snoc by lia. rewrite fmap_app. cbn [fmap list_fmap].
    rewrite Qsum_snoc. exact Ht. }
  destruct (ri <? cf_n cf) eqn:E.
  - rewrite Hci. cbn [rbind]. eexists _, _. split; [reflexivity|].
    split; [exact Hw'|]. split; [unfold Dims; congruence|]. split; [exact Hrep'|].
    apply Hsum. rewrite Hterm, Htot. reflexivity.
  - eexists _, _. split; [reflexivity|].
    split; [exact Hw'|]. split; [unfold Dims; congruence|]. split; [exact Hrep'|].
    apply Hsum. rewrite Hterm, Htot. ring.
Qed.

(** [GetResults] completes on a well-shaped state whose [remap] entries
    are rows of the result. *)
Lemma GetResults_spec (cf : CF) :
  shaped cf -> remap_ok cf -> Dims (cf_x cf) = (cf_n cf + cf_m cf, 1) ->
  exists res total,
    GetResults cf = Ok (res, total) /\
    wf res /\ Dims res = (cf_n cf + cf_m cf, 1) /\
    reported cf (cf_m cf) res /\
    (total == Qsum (scoreTerm cf <$> seqZ 0 (cf_m cf)))%Q.
Proof.
  intros Hs Hr [= Rx Cx].
  pose proof Hs as (Hn & Hm & _).
  unfold GetResults. cbn [Dims]. rewrite Rx, Cx. unfold NewDense.
  replace ((0 <? cf_n cf + cf_m cf) && (0 <? 1)) with true
    by (symmetry; apply andb_true_iff; lia).
  cbn [rbind].
  destruct (forM_inv
    (fun j (acc : Dense * Q) =>
       wf (fst acc) /\ Dims (fst acc) = (cf_n cf + cf_m cf, 1) /\
       reported cf (j - cf_n cf) (fst acc) /\
       (snd acc == Qsum (scoreTerm cf <$> seqZ 0 (j - cf_n cf)))%Q)
    (collect cf) (cf_n cf) (cf_m cf)
    (build (cf_n cf + cf_m cf) 1 (fun _ _ => 0%Q), 0%Q))
    as ([res total] & E & Hw & Hd & Hrep & Htot); [lia| | |].
  - cbn [fst snd]. split; [apply build_wf; lia|]. split; [reflexivity|].
    rewrite Z.sub_diag. split; [|reflexivity].
    intros k Hk. right. split; [intros; lia|]. apply At_build; lia.
  - intros j [res total] Hj (Hw & Hd & Hrep & Htot). cbn [fst snd] in *.
    destruct (collect_step cf j res total Hs Hr Hj Hw Hd Hrep Htot)
      as (res' & total' & E & H).
    exists (res', total'). split; [exact E|exact H].
  - cbn [fst snd] in *. exists res, total. split; [exact E|].
    replace (cf_n cf + cf_m cf - cf_n cf) with (cf_m cf) in * by lia. auto.
Qed.


End SliceResults.

(** ** The version with a slice: the states of a run *)

Section SliceInvariants.

Variable Inverse : Dense -> result Dense.
Variable Solve : Dense -> Dense -> result Dense.
Variable quo : Q -> Q -> float64.

Import ArrayRemap.

Local Abbreviation FindLeavingVariable := (ArrayRemap.FindLeavingVariable quo).
Local Abbreviation Iter := (ArrayRemap.Iter Inverse Solve quo).
Local Abbreviation iterate := (ArrayRemap.iterate Inverse Solve quo).
Local Abbreviation Simplex := (ArrayRemap.Simplex Inverse Solve quo).
Local Abbreviation pivots := (pivots Inverse Solve quo).
Local Abbreviation pivoted := (pivoted Inverse Solve quo).

Lemma Update_frame d y x k l (cf cf' : CF) r :
  Update d y x k l cf = (cf', r) ->
  cf_remap cf' = cf_remap cf /\ cf_x cf' = cf_x cf /\
  cf_n cf' = cf_n cf /\ cf_m cf' = cf_m cf /\ cf_b cf' = cf_b cf.
Proof.
  intros H. unfold Update in H. cbn [Dims] in H.
  repeat split.
  - framed H (@cf_remap (list Z)). reflexivity.
  - framed H (@cf_x (list Z)). reflexivity.
  - framed H (@cf_n (list Z)). reflexivity.
  - framed H (@cf_m (list Z)). reflexivity.
  - framed H (@cf_b (list Z)). reflexivity.
Qed.

Lemma New_ready c A b (cf : CF) :
  wf c -> wf A -> wf b ->
  Rows c = 1 -> 0 < Cols c -> 0 < Rows A -> Cols A = Cols c ->
  Dims b = (Rows A, 1) ->
  exists cf', New c A b cf = (cf', Ok tt) /\ ready cf'.
Proof.
  intros Hwc HwA Hwb Rc Cc RA CA Db.
  destruct (New_ok c A b cf Hwc HwA Hwb Rc Cc RA CA Db)
    as (cf' & E & Hs & Hn & Hm & _).
  destruct (New_content c A b cf Hwc HwA Rc Cc RA CA)
    as (cf'' & E' & _ & _ & _ & _ & Hx & _ & _ & _ & _ & _ & _ & _ & Hl & Hid).
  rewrite E in E'. injection E' as <-.
  exists cf'. split; [exact E|]. split; [exact Hs|]. split.
  - split; [rewrite Hn, Hm; exact Hl|].
    apply Forall_lookup. intros i v Hv.
    pose proof (lookup_lt_Some _ _ _ Hv) as Hlt. rewrite Hl in Hlt.
    pose proof (Hid (Z.of_nat i) ltac:(lia)) as E0.
    unfold index in E0. replace (0 <=? Z.of_nat i) with true in E0 by (symmetry; lia).
    rewrite Nat2Z.id, Hv in E0. injection E0 as ->. rewrite Hn, Hm. lia.
  - rewrite Hx, Hn, Hm. reflexivity.
Qed.

Lemma Iter_ready f (cf cf' : CF) e :
  ready cf -> Iter f cf = (cf', Ok e) -> ready cf'.
Proof.
  intros (Hs & Hr & Hx) H.
  pose proof (Iter_shaped Inverse Solve quo f cf cf' e Hs H) as Hs'.
  destruct e.
  { apply Iter_end_unchanged in H as ->. exact (conj Hs (conj Hr Hx)). }
  apply Iter_pivot_inv in H
    as (y & k & d & x & l & tmp & r1 & r2 & Hy & Hk & Hkne & Hd & Hl & Hlne
        & Ht & E1 & E2 & HU).
  apply Update_frame in HU as (Hrm & Hxx & Hnn & Hmm & _).
  cbn [cf_remap cf_x cf_n cf_m set_remap] in Hrm, Hxx, Hnn, Hmm.
  split; [exact Hs'|]. split; [|rewrite Hxx, Hnn, Hmm; exact Hx].
  pose proof Hs as (Hn & Hm & _ & _ & _ & _ & _ & _ & _ & _ & _ & HcN).
  assert (Hkr : 0 <= k < cf_n cf).
  { pose proof (FindEnteringVariable_range cf y f k) as Hrg.
    rewrite HcN in Hrg. simpl in Hrg. apply Hrg; try assumption; lia. }
  destruct Hr as [Hlen Hall].
  apply index_inv in Ht as [Hnl Htmp].
  apply store_inv in E1 as (_ & _ & ->). apply store_inv in E2 as (_ & _ & ->).
  unfold remap_ok. rewrite Hrm, Hnn, Hmm, !length_insert. split; [exact Hlen|].
  rewrite Forall_lookup in Hall.
  apply Forall_insert; [apply Forall_insert; [apply Forall_lookup; exact Hall|lia]|].
  exact (Hall _ _ Htmp).
Qed.

Lemma pivots_ready fs (cf cf' : CF) :
  ready cf -> pivots fs cf = Ok cf' -> ready cf'.
Proof.
  revert cf. induction fs as [|f fs IH]; intros cf Hr; simpl.
  - intros [= <-]. exact Hr.
  - destruct (Iter f cf) as [cf2 [e| |]] eqn:E; try discriminate.
    apply IH. eapply Iter_ready; eassumption.
Qed.

(** The loop of [Simplex]: what it has done when it stops. *)
Lemma iterate_inv fuel t (cf cf' : CF) r :
  iterate fuel t cf = (cf', r) ->
  exists k cfk, (k <= fuel)%nat /\ pivots (replicate k 0) cf = Ok cfk /\
    match r with
    | Ok t' => t' = t + Z.of_nat k /\ cf' = cfk /\
               ((k < fuel)%nat -> Iter 0 cfk = (cfk, Ok true))
    | Err e => (k < fuel)%nat /\ Iter 0 cfk = (cf', Err e)
    | Panic w => (k < fuel)%nat /\ Iter 0 cfk = (cf', Panic w)
    end.
Proof.
  revert t cf. induction fuel as [|fuel IH]; intros t cf; simpl.
  - intros [= <- <-]. exists 0%nat, cf. split; [lia|]. split; [reflexivity|].
    split; [lia|]. split; [reflexivity|lia].
  - unfold bind. destruct (Iter 0 cf) as [cf1 [[]| |]] eqn:E.
    + intros [= <- <-]. pose proof (Iter_end_unchanged _ _ _ _ _ _ E) as ->.
      exists 0%nat, cf. split; [lia|]. split; [reflexivity|].
      split; [lia|]. split; [reflexivity|]. intros _. exact E.
    + intros H. destruct (IH _ _ H) as (k & cfk & Hk & Hp & Hr).
      exists (S k), cfk. split; [lia|]. split; [simpl; rewrite E; exact Hp|].
      destruct r as [t'| |].
      * destruct Hr as (-> & -> & Hend). split; [lia|]. split; [reflexivity|].
        intros Hlt. apply Hend. lia.
      * destruct Hr as [Hlt Hr]. split; [lia|exact Hr].
      * destruct Hr as [Hlt Hr]. split; [lia|exact Hr].
    + intros [= <- <-]. exists 0%nat, cf. split; [lia|]. split; [reflexivity|].
      split; [lia|exact E].
    + intros [= <- <-]. exists 0%nat, cf. split; [lia|]. split; [reflexivity|].
      split; [lia|exact E].
Qed.

(** The loop of [Simplex] counts the calls that pivoted. *)
Lemma iterate_pivoted fuel t (cf cf' : CF) t' :
  iterate fuel t cf = (cf', Ok t') ->
  exists k, (k <= fuel)%nat /\ pivoted k cf = Some cf' /\ t' = t + Z.of_nat k /\
    ((k < fuel)%nat -> Iter 0 cf' = (cf', Ok true)).
Proof.
  revert t cf. induction fuel as [|fuel IH]; intros t cf; simpl.
  - intros [= <- <-]. exists 0%nat. split; [lia|]. split; [reflexivity|].
    split; [lia|lia].
  - unfold bind. destruct (Iter 0 cf) as [cf1 [[]| |]] eqn:E; try discriminate.
    + intros [= <- <-]. pose proof (Iter_end_unchanged _ _ _ _ _ _ E) as ->.
      exists 0%nat. split; [lia|]. split; [reflexivity|]. split; [lia|].
      intros _. exact E.
    + intros H. destruct (IH _ _ H) as (k & Hk & Hp & -> & Hend).
      exists (S k). split; [lia|]. split; [simpl; rewrite E; exact Hp|].
      split; [lia|]. intros Hlt. apply Hend. lia.
Qed.

End SliceInvariants.

(** ** The version with a slice: the driver *)

Section SliceSimplex.

Variable Inverse : Dense -> result Dense.
Variable Solve : Dense -> Dense -> result Dense.
Variable quo : Q -> Q -> float64.

Import ArrayRemap.

Local Abbreviation FindLeavingVariable := (ArrayRemap.FindLeavingVariable quo).
Local Abbreviation Iter := (ArrayRemap.Iter Inverse Solve quo).
Local Abbreviation iterate := (ArrayRemap.iterate Inverse Solve quo).
Local Abbreviation Simplex := (ArrayRemap.Simplex Inverse Solve quo).
Local Abbreviation pivots := (pivots Inverse Solve quo).
Local Abbreviation pivoted := (pivoted Inverse Solve quo).

Lemma Iter_dims f (cf cf' : CF) e :
  Iter f cf = (cf', Ok e) -> cf_n cf' = cf_n cf /\ cf_m cf' = cf_m cf /\ cf_b cf' = cf_b cf.
Proof.
  intros H. destruct e.
  { apply Iter_end_unchanged in H as ->. auto. }
  apply Iter_pivot_inv in H
    as (y & k & d & x & l & tmp & r1 & r2 & _ & _ & _ & _ & _ & _ & _ & _ & _ & HU).
  apply Update_frame in HU as (_ & _ & Hn & Hm & Hb). auto.
Qed.

Lemma pivots_dims fs (cf cf' : CF) :
  pivots fs cf = Ok cf' -> cf_n cf' = cf_n cf /\ cf_m cf' = cf_m cf /\ cf_b cf' = cf_b cf.
Proof.
  revert cf. induction fs as [|f fs IH]; intros cf; simpl.
  - intros [= <-]. auto.
  - destruct (Iter f cf) as [cf2 [e| |]] eqn:E; try discriminate.
    intros H. apply IH in H as (Hn & Hm & Hb).
    apply Iter_dims in E as (Hn' & Hm' & Hb'). repeat split; congruence.
Qed.

(** X6. When [Simplex] returns, the iteration count [t] is the number of
    pivots made, between 0 and [maxIter]: from the state of [New], each of
    the first [t] calls of [Iter 0] has returned false and so pivoted; if
    [t] is less than [maxIter], the next call returns true; and the results
    are those of [GetResults] on the state after these [t] pivots. *)
Theorem Simplex_counts_pivots c A b maxIter t res score :
  Simplex c A b maxIter = Ok (t, res, score) ->
  exists cf1 cf',
    New c A b (zeroCF []) = (cf1, Ok tt) /\
    pivoted (Z.to_nat t) cf1 = Some cf' /\
    GetResults cf' = Ok (res, score) /\
    0 <= t <= Z.max 0 maxIter /\
    (t < maxIter -> Iter 0 cf' = (cf', Ok true)).
Proof.
  unfold ArrayRemap.Simplex.
  destruct (New c A b (zeroCF [])) as [cf1 [[]| |]] eqn:Hnew; try discriminate.
  destruct (iterate (Z.to_nat maxIter) 0 cf1) as [cf' [t'| |]] eqn:Hit; try discriminate.
  apply iterate_pivoted in Hit as (k & Hk & Hp & -> & Hend).
  destruct (GetResults cf') as [[res' score']| |] eqn:Hres; simpl; try discriminate.
  intros [= <- <- <-]. exists cf1, cf'. split; [reflexivity|].
  rewrite Z.add_0_l, Nat2Z.id. split; [exact Hp|]. split; [exact Hres|].
  split; [lia|]. intros Hlt. apply Hend. lia.
Qed.

(** X7. On an objective row (1 x n), a constraint matrix (m x n) and a
    right-hand side (m x 1), [Simplex] either returns a result vector
    (n+m x 1) after at most [maxIter] iterations, or returns the error, or
    the panic, of a call of [Iter 0] on a state reached from [New]: neither
    [New] nor [GetResults] fails. *)
Theorem Simplex_fails_only_in_Iter c A b maxIter :
  wf c -> wf A -> wf b ->
  Rows c = 1 -> 0 < Cols c -> 0 < Rows A -> Cols A = Cols c ->
  Dims b = (Rows A, 1) ->
  (exists t res score,
     Simplex c A b maxIter = Ok (t, res, score) /\
     0 <= t <= Z.max 0 maxIter /\
     wf res /\ Dims res = (Cols c + Rows A, 1))
  \/
  (exists cf1 k cf cf',
     New c A b (zeroCF []) = (cf1, Ok tt) /\ 0 <= k < maxIter /\
     pivots (replicate (Z.to_nat k) 0) cf1 = Ok cf /\
     ((exists e, Iter 0 cf = (cf', Err e) /\ Simplex c A b maxIter = Err e) \/
      (exists w, Iter 0 cf = (cf', Panic w) /\ Simplex c A b maxIter = Panic w))).
Proof.
  intros Hwc HwA Hwb Rc Cc RA CA Db.
  destruct (New_ready c A b (zeroCF []) Hwc HwA Hwb Rc Cc RA CA Db) as (cf1 & Hnew & Hr1).
  destruct (New_content c A b (zeroCF []) Hwc HwA Rc Cc RA CA) as (cf1' & Hnew' & Hn & Hm & _).
  rewrite Hnew in Hnew'. injection Hnew' as <-.
  unfold ArrayRemap.Simplex. rewrite Hnew.
  destruct (iterate (Z.to_nat maxIter) 0 cf1) as [cf' [t| |]] eqn:Hit;
    apply iterate_inv in Hit as (k & cfk & Hk & Hp & Hit).
  - destruct Hit as (-> & -> & _). left.
    pose proof (pivots_ready _ _ _ _ _ _ Hr1 Hp) as (Hs & Hrm & Hx).
    destruct (GetResults_spec cfk Hs Hrm Hx) as (res & total & E & Hw & Hd & _).
    apply pivots_dims in Hp as (Hn' & Hm' & _).
    exists (0 + Z.of_nat k), res, total. rewrite E. simpl.
    split; [reflexivity|]. split; [lia|]. split; [exact Hw|]. rewrite Hd. congruence.
  - destruct Hit as (Hlt & Hit). right. exists cf1, (Z.of_nat k), cfk, cf'.
    split; [reflexivity|]. split; [lia|]. rewrite Nat2Z.id. split; [exact Hp|].
    left. exists e. auto.
  - destruct Hit as (Hlt & Hit). right. exists cf1, (Z.of_nat k), cfk, cf'.
    split; [reflexivity|]. split; [lia|]. rewrite Nat2Z.id. split; [exact Hp|].
    right. exists why. auto.
Qed.

(** X8. With an iteration bound of zero or less, [Simplex] returns the slack
    solution: no iteration, the score zero, zero for the n structural
    variables and [b] for the m slack variables. *)
Theorem Simplex_without_iterations c A b maxIter :
  wf c -> wf A -> wf b ->
  Rows c = 1 -> 0 < Cols c -> 0 < Rows A -> Cols A = Cols c ->
  Dims b = (Rows A, 1) ->
  maxIter <= 0 ->
  exists res score,
    Simplex c A b maxIter = Ok (0, res, score) /\
    (score == 0)%Q /\
    Dims res = (Cols c + Rows A, 1) /\
    forall k, 0 <= k < Cols c + Rows A ->
      At res k 0 = if k <? Cols c then Ok 0%Q else At b (k - Cols c) 0.
Proof.
  intros Hwc HwA Hwb Rc Cc RA CA Db Hmax.
  destruct (New_ready c A b (zeroCF []) Hwc HwA Hwb Rc Cc RA CA Db)
    as (cf1 & Hnew & Hs & Hrm & Hx).
  destruct (New_content c A b (zeroCF []) Hwc HwA Rc Cc RA CA)
    as (cf1' & Hnew' & Hn & Hm & _ & HxB & _ & _ & _ & _ & _ & _ & _ & _ & _ & Hid).
  rewrite Hnew in Hnew'. injection Hnew' as <-.
  destruct (GetResults_spec cf1 Hs Hrm Hx) as (res & total & E & Hw & Hd & Hrep & Htot).
  unfold ArrayRemap.Simplex. rewrite Hnew.
  replace (Z.to_nat maxIter) with 0%nat by lia. cbn [ArrayRemap.iterate ret].
  rewrite E. simpl. exists res, total. split; [reflexivity|].
  rewrite Hn, Hm in *. split; [|split; [exact Hd|]].
  - rewrite Htot. apply Qsum_zero. intros i Hi. apply elem_of_seqZ in Hi.
    unfold scoreTerm. rewrite Hn, Hid by lia.
    replace (Cols c + i <? Cols c) with false by (symmetry; lia). reflexivity.
  - intros k Hk. destruct (Hrep k ltac:(lia)) as [(i & Hi & Hik & _ & HAt)|[Hnone HAt]].
    + rewrite Hid in Hik by lia. injection Hik as <-. rewrite Hn in *.
      replace (Cols c + i <? Cols c) with false by (symmetry; lia).
      rewrite HAt, HxB. replace (Cols c + i - Cols c) with i by lia. reflexivity.
    + destruct (Z.ltb_spec k (Cols c)) as [Hlt|Hge]; [exact HAt|].
      exfalso. apply (Hnone (k - Cols c)); [lia|].
      rewrite Hn, Hid by lia. f_equal. lia.
Qed.

End SliceSimplex.

(** ** The version with a slice: the dictionary along a run *)

Section SlicePivot.

Variable Inverse : Dense -> result Dense.
Variable Solve : Dense -> Dense -> result Dense.
Variable quo : Q -> Q -> float64.

Import ArrayRemap.

Local Abbreviation FindLeavingVariable := (ArrayRemap.FindLeavingVariable quo).
Local Abbreviation Iter := (ArrayRemap.Iter Inverse Solve quo).

(** What a pivoting call of [Iter] has done to a well-shaped state. *)
Lemma Iter_pivot_spec f (cf cf' : CF) :
  shaped cf -> Iter f cf = (cf', Ok false) ->
  exists y k d x l col,
    ArrayRemap.FindY Inverse cf = Ok y /\
    FindEnteringVariable cf y f = Ok k /\
    0 <= k < cf_n cf /\ 0 <= l < cf_m cf /\
    ColView (cf_A cf) (cf_AN cf) k = Ok col /\
    Solve (Deref (cf_A cf) (cf_B cf)) col = Ok d /\
    Rows d = cf_m cf /\
    (forall i, 0 <= i < cf_m cf -> At d i 0 = Ok (get d i 0)) /\
    (exists a e, At d l 0 = Ok e /\ (0 < e)%Q /\
       At (cf_xBStar cf) l 0 = Ok a /\ quo a e = Num x) /\
    cf_n cf' = cf_n cf /\ cf_m cf' = cf_m cf /\ cf_b cf' = cf_b cf /\
    (forall i, 0 <= i < cf_m cf ->
       get (cf_xBStar cf') i 0 =
       if i =? l then x else (get (cf_xBStar cf) i 0 - x * get d i 0)%Q) /\
    (forall i j, At (cf_A cf') i j = exchanged (cf_A cf) (cf_n cf) k l (cf_m cf) i j) /\
    (forall i j, At (cf_c cf') i j = exchanged (cf_c cf) (cf_n cf) k l 1 i j) /\
    FindLeavingVariable cf d = Ok (Num x, l).
Proof.
  intros Hs H.
  apply Iter_pivot_inv in H
    as (y & k & d & x & l & tmp & r1 & r2 & Hy & Hk & Hkne & Hd & Hl & Hlne
        & Ht & E1 & E2 & HU).
  pose proof Hs as (Hn & Hm & HwA & DA & Hwc & Dc & Hwx & Dx & HB & HAN & HcB & HcN).
  assert (Hkr : 0 <= k < cf_n cf).
  { pose proof (FindEnteringVariable_range cf y f k) as Hr.
    rewrite HcN in Hr. simpl in Hr. apply Hr; try assumption; lia. }
  destruct (FindLeavingVariable_range quo cf d (Num x) l Hl Hlne) as (Hlr & Hlen).
  destruct (Update_xBStar _ _ _ _ _ _ _ HU) as (s & s' & Hsub & _).
  cbn [cf_xBStar set_remap] in Hsub.
  assert (Hdims : Dims d = (cf_m cf, 1)).
  { unfold Sub in Hsub. destruct (_ && _) eqn:E in Hsub; [|discriminate].
    apply andb_true_iff in E as [ER%Z.eqb_eq EC%Z.eqb_eq]. simpl in ER, EC.
    injection Dx as Rx Cx. unfold Dims. congruence. }
  injection Hdims as Rd Cd.
  assert (H0 : 0 <= Rows d) by lia.
  pose proof Hl as Hl'.
  apply FindLeavingVariable_inv in Hl' as [(_ & -> & _)|(Hscan & _ & _ & _ & Hsel)];
    [lia| |exact H0].
  assert (Hreads : forall i, 0 <= i < cf_m cf -> At d i 0 = Ok (get d i 0)).
  { intros i Hi.
    destruct (scanLeaving_reads _ _ _ _ _ H0 Hscan i) as [e He]; [lia|].
    rewrite He. f_equal. symmetry. apply At_get. exact He. }
  assert (Hratio : exists a e, At d l 0 = Ok e /\ (0 < e)%Q /\
                     At (cf_xBStar cf) l 0 = Ok a /\ quo a e = Num x).
  { destruct Hsel as [[-> _]|(_ & _ & _ & a & e & He & Hp & Ha & Hq)]; [lia|].
    exists a, e. auto. }
  unfold ArrayRemap.SolveBd in Hd.
  destruct (ColView _ _ k) as [col| |] eqn:Hcol; simpl in Hd; try discriminate.
  set (cf2 := set_remap r2 (set_remap r1 cf)) in *.
  assert (Hs2 : shaped cf2) by exact Hs.
  destruct (Update_spec cf2 d y x k l Hs2) as
    (xB' & A' & c' & HU' & (HwxB & DxB & HxB') & (HwA' & DA' & HA') & (Hwc' & Dc' & Hc'));
    try (unfold cf2; cbn [cf_m cf_n set_remap]; rewrite <- ?Rd; first [assumption|lia]).
  { unfold Dims. cbn. congruence. }
  rewrite HU' in HU. injection HU as <-.
  exists y, k, d, x, l, col.
  cbn [cf_n cf_m cf_b cf_A cf_c cf_xBStar set_c set_A set_xBStar set_remap cf2] in *.
  repeat match goal with |- _ /\ _ => split end; try assumption; try reflexivity; try lia.
  intros i Hi. apply At_get. injection Dx as Rx Cx.
  rewrite (HxB' i (get (cf_xBStar cf) i 0) (get d i 0)).
  - reflexivity.
  - apply At_wf; [assumption|lia..].
  - apply Hreads. exact Hi.
Qed.

End SlicePivot.

Section SliceBasis.

Variable Inverse : Dense -> result Dense.
Variable Solve : Dense -> Dense -> result Dense.
Variable quo : Q -> Q -> float64.

Import ArrayRemap.

Local Abbreviation FindLeavingVariable := (ArrayRemap.FindLeavingVariable quo).
Local Abbreviation Iter := (ArrayRemap.Iter Inverse Solve quo).
Local Abbreviation pivots := (pivots Inverse Solve quo).

Hypothesis quo_exact : exact quo.

Hypothesis Solve_solves : solves Solve.

Lemma Iter_basis_eq f (cf cf' : CF) e :
  shaped cf -> basis_eq cf -> Iter f cf = (cf', Ok e) -> basis_eq cf'.
Proof.
  intros Hs Hbe H. destruct e.
  { apply Iter_end_unchanged in H as ->. exact Hbe. }
  destruct (Iter_pivot_spec Inverse Solve quo f cf cf' Hs H)
    as (y & k & d & x & l & col & _ & _ & Hk & Hl & Hcol & Hd & Rd & Hreads
        & (a & e & Hde & Hpos & Hxa & Hx) & Hn' & Hm' & Hb' & HxB' & HA' & _).
  rewrite quo_exact in Hx. injection Hx as Hx. symmetry in Hx.
  pose proof Hs as (Hn & Hm & HwA & [= RA CA] & _).
  apply (basis_step cf cf' k l x d); try assumption.
  - intros i j Hi Hj. apply At_get. rewrite HA'. unfold exchanged.
    replace (i <? cf_m cf) with true by (symmetry; lia).
    replace (cf_n cf + j =? k) with false by (symmetry; lia).
    destruct (Z.eqb_spec j l) as [->|Hne].
    + rewrite Z.eqb_refl. apply At_wf; [assumption|lia..].
    + replace (cf_n cf + j =? cf_n cf + l) with false by (symmetry; lia).
      apply At_wf; [assumption|lia..].
  - eapply solved_column; eassumption.
  - rewrite (At_get _ _ _ _ Hde), (At_get _ _ _ _ Hxa).
    apply ratio_cancels; assumption.
Qed.

Lemma New_basis_eq c A b (cf cf' : CF) :
  wf c -> wf A -> Rows c = 1 -> 0 < Cols c -> 0 < Rows A -> Cols A = Cols c ->
  New c A b cf = (cf', Ok tt) -> basis_eq cf'.
Proof.
  intros Hwc HwA Rc Cc RA CA Hnew.
  destruct (New_content c A b cf Hwc HwA Rc Cc RA CA)
    as (cf1 & E & Hn & Hm & Hb & HxB & _ & _ & _ & _ & _ & _ & (_ & _ & HA) & _).
  rewrite Hnew in E. injection E as <-.
  intros i Hi. unfold basisRow. rewrite Hn, Hm, Hb, HxB in *.
  rewrite (Qsum_ext _ (fun j => (if j =? i then 1 else 0) * get b j 0)%Q).
  - rewrite Qsum_delta by lia. reflexivity.
  - intros j Hj. apply elem_of_seqZ in Hj.
    rewrite (At_get _ _ _ _ (HA i (Cols c + j) ltac:(lia) ltac:(lia))).
    replace (Cols c + j <? Cols c) with false by (symmetry; lia).
    destruct (Z.eqb_spec j i) as [->|Hne].
    + rewrite Z.eqb_refl. reflexivity.
    + replace (Cols c + j =? Cols c + i) with false by (symmetry; lia). reflexivity.
Qed.

End SliceBasis.

Section SliceObjective.

Variable Inverse : Dense -> result Dense.
Variable Solve : Dense -> Dense -> result Dense.
Variable quo : Q -> Q -> float64.

Import ArrayRemap.

Local Abbreviation FindLeavingVariable := (ArrayRemap.FindLeavingVariable quo).
Local Abbreviation Iter := (ArrayRemap.Iter Inverse Solve quo).

Lemma entering_positive (cf : CF) y f k :
  vRows (cf_cN cf) = 1 -> 0 <= vCols (cf_cN cf) ->
  FindEnteringVariable cf y f = Ok k -> k <> -1 ->
  exists m0 r v,
    Mul y (Deref (cf_A cf) (cf_AN cf)) = Ok m0 /\
    Sub (Deref (cf_c cf) (cf_cN cf)) m0 = Ok r /\
    At r 0 k = Ok v /\ (0 < v)%Q.
Proof.
  intros HR HC. unfold FindEnteringVariable.
  destruct (reducedCosts cf y) as [r| |] eqn:Hr; simpl; try discriminate.
  destruct (reducedCosts_shape cf y r) as (Hwf & Rr & Cr); [lia|assumption..|].
  rewrite HR in Rr.
  unfold reducedCosts in Hr.
  destruct (Mul y _) as [m0| |] eqn:Hm0; simpl in Hr; try discriminate.
  destruct (f =? 0); simpl.
  - destruct (scanEntering_spec r Hwf Rr) as ([mx j] & -> & Hinv). simpl.
    intros [= <-] Hne. destruct Hinv as [(-> & _)|(Hj & Hat & Hpos & _)]; [lia|].
    exists m0, r, mx. auto.
  - destruct (At r 0 f) as [v| |] eqn:Hv; simpl; try discriminate.
    destruct (Qltb 0 v) eqn:Hlt; intros [= <-] Hne; [|lia].
    apply Qltb_lt in Hlt. exists m0, r, v. auto.
Qed.

Lemma FindY_inv (cf : CF) y :
  ArrayRemap.FindY Inverse cf = Ok y ->
  exists BInv, Inverse (Deref (cf_A cf) (cf_B cf)) = Ok BInv /\
               Mul (Deref (cf_c cf) (cf_cB cf)) BInv = Ok y.
Proof.
  unfold ArrayRemap.FindY.
  destruct (Inverse _) as [BInv| |] eqn:E1; simpl; try discriminate.
  destruct (Mul _ BInv) as [y'| |] eqn:E2; simpl; try discriminate.
  intros [= <-]. exists BInv. auto.
Qed.

Hypothesis quo_exact : exact quo.

Hypothesis Inverse_inverts : inverts Inverse.

Hypothesis Solve_solves : solves Solve.

(** A pivot adds to the objective the step of the ratio test times the
    reduced cost of the entering column. *)
Lemma Iter_objective f (cf cf' : CF) :
  shaped cf -> nonneg (cf_xBStar cf) ->
  Iter f cf = (cf', Ok false) ->
  exists y k d x l r v,
    ArrayRemap.FindY Inverse cf = Ok y /\
    FindEnteringVariable cf y f = Ok k /\
    ArrayRemap.SolveBd Solve cf k = Ok d /\
    FindLeavingVariable cf d = Ok (Num x, l) /\
    reducedCosts cf y = Ok r /\ At r 0 k = Ok v /\
    (0 <= x)%Q /\ (0 < v)%Q /\
    (objective cf' == objective cf + x * v)%Q.
Proof.
  intros Hs Hnn H.
  destruct (Iter_pivot_spec Inverse Solve quo f cf cf' Hs H)
    as (y & k & d & x & l & col & Hy & Hent & Hk & Hl & Hcol & Hd & Rd & Hreads
        & (a & e & Hde & Hpos & Hxa & Hx) & Hn' & Hm' & Hb' & HxB' & _ & Hc' & Hfl).
  rewrite quo_exact in Hx. injection Hx as Hx. symmetry in Hx.
  pose proof Hs as (Hn & Hm & _ & _ & Hwc & [= Rc Cc] & _ & _ & _ & _ & _ & HcN).
  destruct (entering_positive cf y f k) as (m0 & r & v & Hm0 & Hr & Hv & Hvpos);
    [rewrite HcN; reflexivity|rewrite HcN; simpl; lia|exact Hent|lia|].
  pose proof Hy as Hy0.
  apply FindY_inv in Hy as (BInv & HBInv & Hy).
  exists y, k, d, x, l, r, v.
  split; [exact Hy0|]. split; [exact Hent|].
  split; [unfold ArrayRemap.SolveBd; rewrite Hcol; exact Hd|].
  split; [exact Hfl|].
  split; [unfold reducedCosts; rewrite Hm0; exact Hr|].
  split; [exact Hv|].
  split; [|split; [exact Hvpos|]].
  - rewrite Hx. apply ratio_nonneg; [|exact Hpos].
    eapply nonneg_At; eassumption.
  - rewrite (reduced_cost_identity Inverse Solve cf BInv y m0 r k v col d); try assumption.
    apply (objective_step cf cf' k l x d); try assumption.
    + intros j Hj. apply At_get. rewrite Hc'. unfold exchanged.
      replace (0 <? 1) with true by reflexivity.
      replace (cf_n cf + j =? k) with false by (symmetry; lia).
      destruct (Z.eqb_spec j l) as [->|Hne].
      * rewrite Z.eqb_refl. apply At_wf; [assumption|lia..].
      * replace (cf_n cf + j =? cf_n cf + l) with false by (symmetry; lia).
        apply At_wf; [assumption|lia..].
    + rewrite (At_get _ _ _ _ Hde), (At_get _ _ _ _ Hxa).
      apply ratio_cancels; assumption.
Qed.

End SliceObjective.

Section SliceDictionary.

Variable Inverse : Dense -> result Dense.
Variable Solve : Dense -> Dense -> result Dense.
Variable quo : Q -> Q -> float64.

Import ArrayRemap.

Local Abbreviation FindLeavingVariable := (ArrayRemap.FindLeavingVariable quo).
Local Abbreviation Iter := (ArrayRemap.Iter Inverse Solve quo).
Local Abbreviation pivots := (pivots Inverse Solve quo).

Hypothesis quo_exact : exact quo.

Hypothesis Solve_solves : solves Solve.

(** X9. In exact arithmetic, that is, with the exact division in the ratio
    test and a [Solve] that returns solutions, every state reached from
    [New] by successful calls of [Iter], whatever index is forced, satisfies
    [B * xBStar = b]: the basic solution satisfies the constraints.  (A
    rounded step leaves a rounding error in the row of the leaving
    variable.) *)
Theorem basis_equation_invariant c A b (cf0 cf1 cf' : CF) fs :
  wf c -> wf A -> wf b ->
  Rows c = 1 -> 0 < Cols c -> 0 < Rows A -> Cols A = Cols c ->
  Dims b = (Rows A, 1) ->
  New c A b cf0 = (cf1, Ok tt) -> pivots fs cf1 = Ok cf' ->
  cf_b cf' = b /\ cf_m cf' = Rows A /\
  forall i, 0 <= i < Rows A ->
    (Qsum ((fun j => get (cf_A cf') i (cf_n cf' + j) * get (cf_xBStar cf') j 0)
             <$> seqZ 0 (Rows A)) == get b i 0)%Q.
Proof.
  intros Hwc HwA Hwb Rc Cc RA CA Db Hnew Hrun.
  destruct (New_ok c A b cf0 Hwc HwA Hwb Rc Cc RA CA Db)
    as (cf1' & E & Hs & Hn & Hm & Hb & _).
  rewrite Hnew in E. injection E as <-.
  pose proof (New_basis_eq c A b cf0 cf1 Hwc HwA Rc Cc RA CA Hnew) as Hbe.
  assert (Hall : shaped cf' /\ basis_eq cf').
  { clear Hnew Hn Hm Hb. revert cf1 Hs Hbe Hrun.
    induction fs as [|f fs IH]; intros cf1 Hs Hbe; simpl.
    - intros [= <-]. auto.
    - destruct (Iter f cf1) as [cf2 [e| |]] eqn:E; try discriminate.
      apply IH.
      + eapply Iter_shaped; eassumption.
      + eapply (Iter_basis_eq Inverse Solve quo quo_exact Solve_solves); eassumption. }
  destruct Hall as [_ Hbe'].
  apply pivots_dims in Hrun as (Hn' & Hm' & Hb').
  split; [congruence|]. split; [congruence|].
  intros i Hi. specialize (Hbe' i). unfold basisRow in Hbe'.
  rewrite Hb', Hb, Hm', Hm in Hbe'. apply Hbe'. exact Hi.
Qed.

Hypothesis Inverse_inverts : inverts Inverse.

(** X10. In exact arithmetic, that is, with the exact division and an
    [Inverse] and a [Solve] that are sound, a successful call of [Iter] on
    a well-shaped state with [xBStar >= 0] never decreases the objective
    [cB * xBStar]; a pivot adds [x * v] to it, where [x >= 0] is the step
    that [FindLeavingVariable] returned for the direction [d] of the
    entering column [k], and [v > 0] is the entry [k] of the reduced-cost
    row [cN - y*AN]. *)
Theorem pivot_improves_objective f (cf cf' : CF) e :
  shaped cf -> nonneg (cf_xBStar cf) ->
  Iter f cf = (cf', Ok e) ->
  (objective cf <= objective cf')%Q /\
  (e = false ->
   exists y k d x l r v,
     ArrayRemap.FindY Inverse cf = Ok y /\
     FindEnteringVariable cf y f = Ok k /\
     ArrayRemap.SolveBd Solve cf k = Ok d /\
     FindLeavingVariable cf d = Ok (Num x, l) /\
     reducedCosts cf y = Ok r /\ At r 0 k = Ok v /\
     (0 <= x)%Q /\ (0 < v)%Q /\
     (objective cf' == objective cf + x * v)%Q).
Proof.
  intros Hs Hnn H. destruct e.
  { apply Iter_end_unchanged in H as ->. split; [apply Qle_refl|discriminate]. }
  destruct (Iter_objective Inverse Solve quo quo_exact Inverse_inverts Solve_solves
              f cf cf' Hs Hnn H)
    as (y & k & d & x & l & r & v & Hy & Hk & Hd & Hl & Hr & Hv & Hx & Hvpos & Hobj).
  split; [|intros _; exists y, k, d, x, l, r, v; auto 12].
  rewrite Hobj. rewrite <- (Qplus_0_r (objective cf)) at 1.
  apply Qplus_le_r. apply Qmult_le_0_compat; [exact Hx|apply Qlt_le_weak; exact Hvpos].
Qed.

End SliceDictionary.

(** ** The version with a map: construction *)

Section MapNew.

Import MapRemap.

Lemma MapNew_no_other_error c A b (cf cf' : CF) e :
  Rows c <= 1 -> Cols A <= Cols c -> New c A b cf <> (cf', Err e).
Proof.
  intros H1 H2. unfold New. cbn [Dims].
  unfold bind at 1. unfold modify at 1.
  replace (1 <? Rows c) with false by (symmetry; apply Z.ltb_ge; lia).
  unfold bind at 1. unfold modify at 1. unfold bind at 1. unfold reads at 1.
  cbn [cf_n set_n set_remap].
  replace (Cols c <? Cols A) with false by (symmetry; apply Z.ltb_ge; lia).
  match goal with |- ?a ?s <> _ => assert (Hn : NoErr a); [|specialize (Hn s)] end.
  { repeat first
      [ apply bind_NoErr; [|intro]
      | apply forS_NoErr; intro
      | apply assign_NoErr; intro;
        first [ apply Grow_noErr | apply Set_noErr | apply NewDense_noErr
              | apply Slice_noErr ]
      | intros ? ?; discriminate ].
    apply forSA_NoErr. intros j a.
    apply bind_NoErr; [intros s e'; discriminate|intros _ s e'; discriminate]. }
  intros E. rewrite E in Hn. exact (Hn e eq_refl).
Qed.

(** X11. In the version with a map, [New] returns a validation error exactly
    when the objective has more than one row or the constraint matrix has
    more columns than the objective; [remap] has been reset to the empty
    map before the first check, and [cf.n] assigned before the second. *)
Theorem MapNew_validation (c A b : Dense) (cf : CF) :
  ((exists cf' e, New c A b cf = (cf', Err e)) <-> (1 < Rows c \/ Cols c < Cols A)) /\
  (1 < Rows c -> New c A b cf = (set_remap ∅ cf, Err "z dims.r > 1")) /\
  (Rows c <= 1 -> Cols c < Cols A ->
     New c A b cf = (set_n (Cols c) (set_remap ∅ cf), Err "A dims.c > z dims.r")).
Proof.
  assert (H1 : 1 < Rows c -> New c A b cf = (set_remap ∅ cf, Err "z dims.r > 1")).
  { intros H. unfold New. cbn [Dims]. unfold bind at 1. unfold modify at 1.
    apply Z.ltb_lt in H. rewrite H. reflexivity. }
  assert (H2 : Rows c <= 1 -> Cols c < Cols A ->
     New c A b cf = (set_n (Cols c) (set_remap ∅ cf), Err "A dims.c > z dims.r")).
  { intros Ha Hb. unfold New. cbn [Dims]. unfold bind at 1. unfold modify at 1.
    replace (1 <? Rows c) with false by (symmetry; apply Z.ltb_ge; lia).
    unfold bind at 1. unfold modify at 1. unfold bind at 1. unfold reads at 1.
    cbn [cf_n set_n set_remap]. apply Z.ltb_lt in Hb. rewrite Hb. reflexivity. }
  split; [|split; assumption].
  split.
  - intros (cf' & e & H).
    destruct (Z.lt_ge_cases 1 (Rows c)) as [Ha|Ha]; [left; exact Ha|].
    destruct (Z.lt_ge_cases (Cols c) (Cols A)) as [Hb|Hb]; [right; exact Hb|].
    exfalso. exact (MapNew_no_other_error c A b cf cf' e Ha Hb H).
  - destruct (Z.lt_ge_cases 1 (Rows c)) as [Ha|Ha].
    + intros _. eexists _, _. apply H1. exact Ha.
    + intros [H|H]; [lia|]. eexists _, _. apply H2; assumption.
Qed.

Lemma remap_loop (cf : CF) n m :
  0 <= m ->
  exists r j,
    forSA (seqZ n m) (fun i j =>
      bind (modify (fun cf => set_remap (<[i := j]> (cf_remap cf)) cf))
           (fun _ => ret (j + 1))) 0 cf
    = (set_remap r cf, Ok j) /\
    forall key, r !! key =
      if (n <=? key) && (key <? n + m) then Some (key - n) else cf_remap cf !! key.
Proof.
  intros Hm.
  destruct (forSA_inv
    (fun (k : Z) (t : CF) (j : Z) => j = k - n /\ exists r, t = set_remap r cf /\
       forall key, r !! key =
         if (n <=? key) && (key <? k) then Some (key - n) else cf_remap cf !! key)
    (fun i j =>
      bind (modify (fun cf => set_remap (<[i := j]> (cf_remap cf)) cf))
           (fun _ => ret (j + 1)))
    n m cf 0) as (t & j & E & _ & r & -> & P); [lia| | |].
  - split; [lia|]. exists (cf_remap cf). split; [destruct cf; reflexivity|].
    intros key. destruct (Z.leb_spec n key), (Z.ltb_spec key n); try lia; reflexivity.
  - intros k t j Hk (-> & r & -> & Hr).
    unfold bind, modify, ret. cbn [cf_remap set_remap].
    eexists _, _. split; [reflexivity|]. split; [lia|].
    exists (<[k := k - n]> r). split; [reflexivity|].
    intros key. destruct (Z.eq_dec key k) as [->|Hne].
    + rewrite lookup_insert_eq.
      destruct (Z.leb_spec n k), (Z.ltb_spec k (k + 1)); try lia; reflexivity.
    + rewrite lookup_insert_ne by congruence. rewrite Hr.
      destruct (Z.leb_spec n key), (Z.ltb_spec key k), (Z.ltb_spec key (k + 1));
        try lia; reflexivity.
  - exists r, j. split; [exact E|exact P].
Qed.

Lemma MapNew_content c A b (cf : CF) :
  wf c -> wf A ->
  Rows c = 1 -> 0 < Cols c -> 0 < Rows A -> Cols A = Cols c ->
  exists cf',
    New c A b cf = (cf', Ok tt) /\
    cf_n cf' = Cols c /\ cf_m cf' = Rows A /\
    cf_b cf' = b /\ cf_xBStar cf' = DenseCopyOf b /\
    cf_x cf' = build (Cols c + Rows A) 1 (fun _ _ => 0%Q) /\
    cf_xN cf' = mkView 0 0 (Cols c) 1 /\
    cf_B cf' = mkView 0 (Cols c) (Rows A) (Rows A) /\
    cf_AN cf' = mkView 0 0 (Rows A) (Cols c) /\
    cf_cB cf' = mkView 0 (Cols c) 1 (Rows A) /\
    cf_cN cf' = mkView 0 0 1 (Cols c) /\
    (wf (cf_A cf') /\ Dims (cf_A cf') = (Rows A, Cols c + Rows A) /\
     forall i j, 0 <= i < Rows A -> 0 <= j < Cols c + Rows A ->
       At (cf_A cf') i j =
       Ok (if j <? Cols c then get A i j else if j =? Cols c + i then 1 else 0)%Q) /\
    (wf (cf_c cf') /\ Dims (cf_c cf') = (1, Cols c + Rows A) /\
     forall j, 0 <= j < Cols c + Rows A ->
       At (cf_c cf') 0 j = Ok (if j <? Cols c then get c 0 j else 0)%Q) /\
    forall key, cf_remap cf' !! key =
      if (Cols c <=? key) && (key <? Cols c + Rows A) then Some (key - Cols c) else None.
Proof.
  intros Hwc HwA Rc Cc RA CA.
  unfold New. cbn [Dims].
  unfold bind at 1. unfold modify at 1.
  replace (1 <? Rows c) with false by (symmetry; apply Z.ltb_ge; lia).
  unfold bind at 1. unfold modify at 1. unfold bind at 1. unfold reads at 1.
  cbn [cf_n set_n set_remap].
  replace (Cols c <? Cols A) with false by (symmetry; apply Z.ltb_ge; lia).
  unfold bind at 1. unfold modify at 1.
  unfold bind at 1. unfold modify at 1.
  unfold bind at 1. unfold assign at 1. cbn [cf_A cf_m set_A set_m set_n].
  unfold Grow at 1.
  replace ((0 <? 0) || (Rows A <? 0)) with false by (symmetry; apply orb_false_iff; lia).
  replace ((0 =? 0) && (Rows A =? 0)) with false by (symmetry; apply andb_false_iff; lia).
  match goal with |- context [set_A (build ?r ?k ?f) _] => set (A0 := build r k f) end.
  assert (HwA0 : wf A0) by (apply build_wf; destruct HwA; lia).
  unfold bind at 1. unfold reads at 1. cbn [cf_m set_A set_m].
  unfold bind at 1.
  match goal with |- context [forS _ _ ?s] =>
    destruct (slack_loop_content s) as (A1 & E1 & HwA1 & [= RA1 CA1] & HA1) end;
    cbn [cf_A cf_m cf_n set_A set_m set_n]; try assumption; try (simpl; lia).
  cbn [cf_A cf_m cf_n set_A set_m set_n] in E1, RA1, CA1, HA1. simpl in RA1, CA1.
  rewrite E1.
  unfold bind at 1. unfold modify at 1.
  unfold bind at 1. unfold modify at 1.
  unfold bind at 1. unfold assign at 1. cbn [cf_c cf_m set_A set_m set_b set_c].
  unfold Grow at 1.
  replace ((0 <? 0) || (Rows A <? 0)) with false by (symmetry; apply orb_false_iff; lia).
  replace ((0 =? 0) && (Rows A =? 0)) with false by (symmetry; apply andb_false_iff; lia).
  match goal with |- context [set_c (build ?r ?k ?f) _] => set (c0 := build r k f) end.
  assert (Hwc0 : wf c0) by (apply build_wf; destruct Hwc; lia).
  unfold bind at 1. unfold assign at 1.
  cbn [cf_n cf_m set_A set_m set_n set_b set_c].
  unfold NewDense at 1.
  replace ((0 <? Cols c + Rows A) && (0 <? 1)) with true
    by (symmetry; apply andb_true_iff; lia).
  match goal with |- context [set_x (build ?r ?k ?f) _] => set (x0 := build r k f) end.
  unfold bind at 1. unfold modify at 1.
  unfold bind at 1. unfold assign at 1.
  cbn [cf_x cf_n cf_m set_A set_m set_n set_b set_c set_x set_xBStar].
  unfold Slice at 1. cbn [Rows Cols x0 build].
  replace ((0 <=? 0) && (0 <? Cols c) && (Cols c <=? Cols c + Rows A)
           && (0 <=? 0) && (0 <? 1) && (1 <=? 1)) with true
    by (symmetry; rewrite !andb_true_iff; lia).
  unfold bind at 1. unfold assign at 1.
  cbn [cf_A cf_n cf_m set_A set_m set_n set_b set_c set_x set_xBStar set_xN].
  unfold Slice at 1. rewrite RA1, CA1.
  replace ((0 <=? 0) && (0 <? Rows A) && (Rows A <=? Rows A + 0)
           && (0 <=? Cols c) && (Cols c <? Cols c + Rows A)
           && (Cols c + Rows A <=? Cols A + Rows A)) with true
    by (symmetry; rewrite !andb_true_iff; lia).
  unfold bind at 1. unfold assign at 1.
  cbn [cf_A cf_n cf_m set_A set_m set_n set_b set_c set_x set_xBStar set_xN set_B].
  unfold Slice at 1. rewrite RA1, CA1.
  replace ((0 <=? 0) && (0 <? Rows A) && (Rows A <=? Rows A + 0)
           && (0 <=? 0) && (0 <? Cols c)
           && (Cols c <=? Cols A + Rows A)) with true
    by (symmetry; rewrite !andb_true_iff; lia).
  unfold bind at 1. unfold assign at 1.
  cbn [cf_c cf_n cf_m set_A set_m set_n set_b set_c set_x set_xBStar set_xN set_B set_AN].
  unfold Slice at 1. cbn [Rows Cols c0 build].
  replace ((0 <=? 0) && (0 <? 1) && (1 <=? Rows c + 0)
           && (0 <=? Cols c) && (Cols c <? Cols c + Rows A)
           && (Cols c + Rows A <=? Cols c + Rows A)) with true
    by (symmetry; rewrite !andb_true_iff; lia).
  unfold bind at 1. unfold assign at 1.
  cbn [cf_c cf_n cf_m set_A set_m set_n set_b set_c set_x set_xBStar set_xN set_B set_AN set_cB].
  unfold Slice at 1. cbn [Rows Cols c0 build].
  replace ((0 <=? 0) && (0 <? 1) && (1 <=? Rows c + 0)
           && (0 <=? 0) && (0 <? Cols c)
           && (Cols c <=? Cols c + Rows A)) with true
    by (symmetry; rewrite !andb_true_iff; lia).
  unfold bind at 1. unfold reads at 1.
  cbn [cf_n cf_m set_A set_m set_n set_b set_c set_x set_xBStar set_xN set_B set_AN
       set_cB set_cN set_remap].
  unfold bind at 1. unfold reads at 1.
  cbn [cf_n cf_m set_A set_m set_n set_b set_c set_x set_xBStar set_xN set_B set_AN
       set_cB set_cN set_remap].
  unfold bind at 1.
  match goal with |- context [forSA _ _ _ ?s] =>
    destruct (remap_loop s (Cols c) (Rows A)) as (r & j0 & E2 & Hr) end; [lia|].
  cbn [cf_remap set_A set_m set_n set_b set_c set_x set_xBStar set_xN set_B set_AN
       set_cB set_cN set_remap] in Hr.
  rewrite E2. unfold ret.
  eexists. split; [reflexivity|].
  cbn [cf_n cf_m cf_A cf_c cf_b cf_x cf_xN cf_xBStar cf_B cf_AN cf_cB cf_cN cf_remap
       set_A set_m set_n set_b set_c set_x set_xBStar set_xN set_B set_AN
       set_cB set_cN set_remap].
  do 4 (split; [reflexivity|]).
  split; [reflexivity|].
  do 5 (split; [f_equal; lia|]).
  split; [|split; [|intros key; rewrite Hr, lookup_empty; reflexivity]].
  - split; [exact HwA1|]. split; [unfold Dims; f_equal; lia|].
    intros i j Hi Hj. rewrite HA1.
    replace (0 <=? i) with true by (symmetry; lia).
    replace (i <? Rows A) with true by (symmetry; lia). cbn [andb].
    unfold A0. rewrite At_build by lia.
    destruct (Z.eqb_spec j (Cols c + i)) as [->|Hne].
    + replace (Cols c + i <? Cols c) with false by (symmetry; lia). reflexivity.
    + destruct (Z.ltb_spec j (Cols c)) as [Hlt|Hge].
      * replace (inside (Rows A) (Cols A) i j) with true
          by (symmetry; apply inside_true; lia). reflexivity.
      * replace (inside (Rows A) (Cols A) i j) with false
          by (symmetry; apply inside_false; lia). reflexivity.
  - split; [exact Hwc0|]. split; [unfold Dims, c0; cbn [Rows Cols build]; f_equal; lia|].
    intros j Hj. unfold c0. rewrite At_build by lia.
    destruct (Z.ltb_spec j (Cols c)) as [Hlt|Hge].
    + replace (inside (Rows c) (Cols c) 0 j) with true
        by (symmetry; apply inside_true; lia). reflexivity.
    + replace (inside (Rows c) (Cols c) 0 j) with false
        by (symmetry; apply inside_false; lia). reflexivity.
Qed.

(** X12. In the version with a map, [New] completes on an objective row [c]
    (1 x n) and a constraint matrix [A] (m x n) of the same width, whatever
    [b] is.  In the dictionary it builds, [AN] is [A], [B] is the identity,
    [cN] is [c], [cB] is zero, [xBStar] is a copy of [b], [x] is zero, and
    [remap] maps exactly the slack indices [n+i] to the rows [i]. *)
Theorem MapNew_builds_canonical_form c A b (cf : CF) :
  wf c -> wf A -> Rows c = 1 -> 0 < Cols c -> 0 < Rows A -> Cols A = Cols c ->
  exists cf',
    New c A b cf = (cf', Ok tt) /\
    cf_n cf' = Cols c /\ cf_m cf' = Rows A /\
    cf_b cf' = b /\ cf_xBStar cf' = DenseCopyOf b /\
    Dims (cf_A cf') = (Rows A, Cols c + Rows A) /\
    Dims (cf_c cf') = (1, Cols c + Rows A) /\
    (forall i j, 0 <= i < Rows A -> 0 <= j < Cols c ->
       VAt (cf_A cf') (cf_AN cf') i j = At A i j) /\
    (forall i j, 0 <= i < Rows A -> 0 <= j < Rows A ->
       VAt (cf_A cf') (cf_B cf') i j = Ok (if i =? j then 1 else 0)%Q) /\
    (forall j, 0 <= j < Cols c -> VAt (cf_c cf') (cf_cN cf') 0 j = At c 0 j) /\
    (forall j, 0 <= j < Rows A -> VAt (cf_c cf') (cf_cB cf') 0 j = Ok 0%Q) /\
    (forall i, 0 <= i < Cols c + Rows A -> At (cf_x cf') i 0 = Ok 0%Q) /\
    (forall key, cf_remap cf' !! key =
       if (Cols c <=? key) && (key <? Cols c + Rows A) then Some (key - Cols c)
       else None).
Proof.
  intros Hwc HwA Rc Cc RA CA.
  destruct (MapNew_content c A b cf Hwc HwA Rc Cc RA CA)
    as (cf' & E & Hn & Hm & Hb & HxB & Hx & _ & HB & HAN & HcB & HcN
        & (_ & DA & HA) & (_ & Dc & Hc) & Hr).
  exists cf'. rewrite HB, HAN, HcB, HcN, Hx. unfold VAt. cbn [vi vj vRows vCols].
  repeat match goal with |- _ /\ _ => split end; try assumption.
  - intros i j Hi Hj.
    replace (inside (Rows A) (Cols c) i j) with true by (symmetry; apply inside_true; lia).
    rewrite !Z.add_0_l, HA by lia.
    replace (j <? Cols c) with true by (symmetry; lia).
    symmetry. apply At_wf; [assumption|lia..].
  - intros i j Hi Hj.
    replace (inside (Rows A) (Rows A) i j) with true by (symmetry; apply inside_true; lia).
    rewrite !Z.add_0_l, HA by lia.
    replace (Cols c + j <? Cols c) with false by (symmetry; lia).
    destruct (Z.eqb_spec i j) as [->|Hne].
    + rewrite Z.eqb_refl. reflexivity.
    + replace (Cols c + j =? Cols c + i) with false by (symmetry; lia). reflexivity.
  - intros j Hj.
    replace (inside 1 (Cols c) 0 j) with true by (symmetry; apply inside_true; lia).
    rewrite !Z.add_0_l, Hc by lia.
    replace (j <? Cols c) with true by (symmetry; lia).
    symmetry. apply At_wf; [assumption|lia..].
  - intros j Hj.
    replace (inside 1 (Rows A) 0 j) with true by (symmetry; apply inside_true; lia).
    rewrite !Z.add_0_l, Hc by lia.
    replace (Cols c + j <? Cols c) with false by (symmetry; lia). reflexivity.
  - intros i Hi. apply At_build; lia.
Qed.

End MapNew.

(** ** The version with a map: [Iter] *)

Section MapIter.

Variable Inverse : Dense -> result Dense.
Variable Solve : Dense -> Dense -> result Dense.
Variable quo : Q -> Q -> float64.

Import MapRemap.

Local Abbreviation FindOutputVariable := (MapRemap.FindOutputVariable quo).
Local Abbreviation scanOutput := (MapRemap.scanOutput quo).
Local Abbreviation Iter := (MapRemap.Iter Inverse Solve quo).
Local Abbreviation FindY := (MapRemap.FindY Inverse).
Local Abbreviation SolveBd := (MapRemap.SolveBd Solve).

Lemma FindY_asArray (cf : CF) : FindY cf = ArrayRemap.FindY Inverse (asArray cf).
Proof. reflexivity. Qed.

Lemma FindInputVariable_asArray (cf : CF) y f :
  FindInputVariable cf y f = ArrayRemap.FindEnteringVariable (asArray cf) y f.
Proof.
  unfold FindInputVariable, ArrayRemap.FindEnteringVariable, ArrayRemap.reducedCosts.
  cbn [asArray cf_A cf_AN cf_c cf_cN].
  destruct (Mul y _) as [m0| |]; reflexivity.
Qed.

Lemma SolveBd_asArray (cf : CF) k : SolveBd cf k = ArrayRemap.SolveBd Solve (asArray cf) k.
Proof. reflexivity. Qed.

Lemma scanOutput_asArray (cf : CF) d acc :
  forM (seqZ 0 (Rows d)) (scanOutput (cf_xBStar cf) d) acc =
  forM (seqZ 0 (Rows d)) (ArrayRemap.scanLeaving quo (cf_xBStar (asArray cf)) d) acc.
Proof. reflexivity. Qed.

Lemma FindOutputVariable_asArray (cf : CF) d :
  snd (FindOutputVariable d cf) = ArrayRemap.FindLeavingVariable quo (asArray cf) d.
Proof.
  unfold MapRemap.FindOutputVariable, ArrayRemap.FindLeavingVariable. cbn [Dims].
  unfold bind, readsR. rewrite scanOutput_asArray.
  destruct (forM _ _ _) as [[[x l] found]| |]; [|reflexivity..].
  destruct found; reflexivity.
Qed.

(** What [FindOutputVariable] returns and what it does to [remap]. *)
Lemma FindOutputVariable_inv d (cf cf' : CF) x l :
  FindOutputVariable d cf = (cf', Ok (x, l)) ->
  ArrayRemap.FindLeavingVariable quo (asArray cf) d = Ok (x, l) /\
  ((x = Num (-1) /\ l = -1 /\ cf' = cf /\
    exists x0 l0,
      forM (seqZ 0 (Rows d)) (scanOutput (cf_xBStar cf) d) (PosInf, -1, false)
      = Ok (x0, l0, false))
   \/
   (forM (seqZ 0 (Rows d)) (scanOutput (cf_xBStar cf) d) (PosInf, -1, false)
    = Ok (x, l, true) /\
    cf' = set_remap (delete (cf_n cf + l) (cf_remap cf)) cf)).
Proof.
  intros H. split.
  { rewrite <- FindOutputVariable_asArray, H. reflexivity. }
  revert H. unfold MapRemap.FindOutputVariable. cbn [Dims]. unfold bind, readsR.
  destruct (forM _ _ _) as [[[x0 l0] found]| |] eqn:E; try discriminate.
  destruct found; cbn [negb].
  - unfold modify, ret. intros [= <- <- <-]. right. auto.
  - unfold ret. intros [= <- <- <-]. left. eauto 8.
Qed.

(** X13. The two versions select alike: on the same dictionary, [FindY],
    [FindInputVariable], [SolveBd] and [FindOutputVariable] of the version
    with a map return what [FindY], [FindEnteringVariable], [SolveBd] and
    [FindLeavingVariable] of the version with a slice return; and the only
    effect of [FindOutputVariable] is to delete the key [n + l] of the row
    [l] it returns. *)
Theorem Map_selects_like_slice_version (cf : CF) (y d : Dense) (f k : Z) :
  MapRemap.FindY Inverse cf = ArrayRemap.FindY Inverse (asArray cf) /\
  FindInputVariable cf y f = ArrayRemap.FindEnteringVariable (asArray cf) y f /\
  MapRemap.SolveBd Solve cf k = ArrayRemap.SolveBd Solve (asArray cf) k /\
  snd (FindOutputVariable d cf) = ArrayRemap.FindLeavingVariable quo (asArray cf) d /\
  forall x l, l <> -1 -> snd (FindOutputVariable d cf) = Ok (x, l) ->
    fst (FindOutputVariable d cf)
    = set_remap (delete (cf_n cf + l) (cf_remap cf)) cf.
Proof.
  split; [reflexivity|]. split; [apply FindInputVariable_asArray|].
  split; [reflexivity|].
  split; [apply FindOutputVariable_asArray|].
  intros x l Hl H.
  destruct (FindOutputVariable d cf) as [s r] eqn:E.
  cbn [fst snd] in *. rewrite H in E.
  apply FindOutputVariable_inv in E as (_ & [(_ & -> & _)|(_ & ->)]); [lia|reflexivity].
Qed.

(** A call of [Iter] that signals the end leaves the state as it was,
    except when the ratio test has met a positive row of [d] and no
    quotient below [+Inf]: the key [n - 1] is then deleted from [remap].
    The matrices and the windows are as before in every case. *)
Lemma MapIter_end_inv f (cf cf' : CF) :
  Iter f cf = (cf', Ok true) ->
  cf' = cf \/
  (cf' = set_remap (delete (cf_n cf + -1) (cf_remap cf)) cf /\
   exists y k d,
     FindY cf = Ok y /\ FindInputVariable cf y f = Ok k /\ k <> -1 /\
     SolveBd cf k = Ok d /\
     ArrayRemap.FindLeavingVariable quo (asArray cf) d = Ok (PosInf, -1)).
Proof.
  unfold MapRemap.Iter. intros H.
  apply bind_inv in H as (? & y & [-> Hy]%readsR_inv & H).
  apply bind_inv in H as (? & k & [-> Hk]%readsR_inv & H).
  destruct (k =? -1) eqn:Ek; [apply ret_inv in H as [-> _]; left; reflexivity|].
  apply Z.eqb_neq in Ek.
  apply bind_inv in H as (? & d & [-> Hd]%readsR_inv & H).
  apply bind_inv in H as (s & [x l] & Hout & H).
  apply FindOutputVariable_inv in Hout as (Hfl & [(-> & -> & -> & _)|(Hscan & ->)]).
  - apply ret_inv in H as [-> _]. left. reflexivity.
  - destruct (l =? -1) eqn:El.
    + apply Z.eqb_eq in El. subst l. apply ret_inv in H as [-> _]. right.
      split; [reflexivity|]. exists y, k, d.
      assert (x = PosInf) as ->; [|auto 8].
      destruct (Z.lt_ge_cases (Rows d) 0) as [Hneg|Hr].
      { rewrite seqZ_nil in Hscan by lia. discriminate. }
      rewrite scanOutput_asArray in Hscan.
      apply scanLeaving_post in Hscan as (_ & _ & _ & [[_ ->]|(Hl & _)]); [reflexivity|lia|exact Hr].
    + apply bind_inv in H as (? & ? & _ & H).
      apply bind_inv in H as (? & ? & _ & H).
      apply bind_inv in H as (? & ? & _ & H). discriminate.
Qed.

(** The matrices of the state after a call that signals the end. *)
Lemma MapIter_end_frame f (cf cf' : CF) :
  Iter f cf = (cf', Ok true) ->
  exists r, cf' = set_remap r cf /\
    (r = cf_remap cf \/ r = delete (cf_n cf + -1) (cf_remap cf)).
Proof.
  intros H. apply MapIter_end_inv in H as [->|(-> & _)].
  - exists (cf_remap cf). split; [destruct cf; reflexivity|auto].
  - eexists. split; [reflexivity|auto].
Qed.

Lemma MapIter_pivot_inv f (cf cf' : CF) :
  Iter f cf = (cf', Ok false) ->
  exists y k d x l,
    FindY cf = Ok y /\ FindInputVariable cf y f = Ok k /\ k <> -1 /\
    SolveBd cf k = Ok d /\
    ArrayRemap.FindLeavingVariable quo (asArray cf) d = Ok (Num x, l) /\
    0 <= l < Rows d /\
    Update d y x k l
      (set_remap (<[k := l]> (delete (cf_n cf + l) (cf_remap cf))) cf) = (cf', Ok tt).
Proof.
  unfold MapRemap.Iter. intros H.
  apply bind_inv in H as (? & y & [-> Hy]%readsR_inv & H).
  apply bind_inv in H as (? & k & [-> Hk]%readsR_inv & H).
  destruct (k =? -1) eqn:Ek; [discriminate|]. apply Z.eqb_neq in Ek.
  apply bind_inv in H as (? & d & [-> Hd]%readsR_inv & H).
  apply bind_inv in H as (s & [x l] & Hout & H).
  apply FindOutputVariable_inv in Hout as (Hfl & Hcase).
  destruct (l =? -1) eqn:El; [discriminate|]. apply Z.eqb_neq in El.
  destruct Hcase as [(_ & -> & _)|(Hscan & ->)]; [lia|].
  apply bind_inv in H as (? & ? & ->%modify_inv & H).
  apply bind_inv in H as (? & q & [-> ->%number_inv]%readsR_inv & H).
  apply bind_inv in H as (? & [] & HU & H).
  apply ret_inv in H as [-> _].
  exists y, k, d, q, l. cbn [cf_remap cf_n set_remap] in HU.
  destruct (FindLeavingVariable_range quo (asArray cf) d (Num q) l Hfl El) as (Hl & _).
  repeat match goal with |- _ /\ _ => split end; try assumption; try lia.
Qed.



End MapIter.

Section MapErrors.

Variable Inverse : Dense -> result Dense.
Variable Solve : Dense -> Dense -> result Dense.
Variable quo : Q -> Q -> float64.

Import MapRemap.

Local Abbreviation FindOutputVariable := (MapRemap.FindOutputVariable quo).
Local Abbreviation scanOutput := (MapRemap.scanOutput quo).
Local Abbreviation Iter := (MapRemap.Iter Inverse Solve quo).

Lemma MapUpdate_NoErr d y x k l : NoErr (Update d y x k l).
Proof.
  unfold Update. cbn [Dims].
  apply bind_NoErr; [apply assign_NoErr; intro; apply Sub_noErr|intros _].
  apply bind_NoErr; [apply assign_NoErr; intro; apply Set_noErr|intros _].
  apply bind_NoErr.
  { apply forS_NoErr. intros i. unfold copyRow.
    apply assign_NoErr; intros s.
    apply rbind_noErr; [apply VAt_noErr|intro; apply VSet_noErr]. }
  intros _.
  apply bind_NoErr.
  { apply assign_NoErr; intros s.
    apply rbind_noErr; [apply VAt_noErr|intro; apply VSet_noErr]. }
  intros _. apply ret_NoErr.
Qed.

Lemma FindOutputVariable_NoErr d : NoErr (FindOutputVariable d).
Proof.
  unfold FindOutputVariable. cbn [Dims].
  apply bind_NoErr.
  - apply readsR_NoErr. intros s.
    apply forM_noErr. intros i [[x l] found]. unfold scanOutput.
    apply rbind_noErr; [apply At_noErr|]. intros di.
    destruct (Qleb di 0); [intros e; discriminate|].
    apply rbind_noErr; [apply At_noErr|]. intros xi e.
    destruct (ltF _ _); discriminate.
  - intros [[x l] found]. destruct found; cbn [negb]; [|apply ret_NoErr].
    apply bind_NoErr; [intros s e; discriminate|intros _; apply ret_NoErr].
Qed.

(** X15. In the version with a map, an error returned by [Iter] is the error of
    [Inverse] on the basis [B], or that of [Solve] on [B] and a column of
    [AN]; the state is as before the call, [remap] included. *)
Theorem MapIter_error_leaves_state f (cf cf' : CF) e :
  Iter f cf = (cf', Err e) ->
  cf' = cf /\
  (Inverse (Deref (cf_A cf) (cf_B cf)) = Err e \/
   exists k col, 0 <= k < vCols (cf_AN cf) /\
     ColView (cf_A cf) (cf_AN cf) k = Ok col /\
     Solve (Deref (cf_A cf) (cf_B cf)) col = Err e).
Proof.
  unfold MapRemap.Iter, bind, readsR, ret.
  destruct (MapRemap.FindY Inverse cf) as [y|e0|] eqn:Hy; try discriminate.
  2:{ intros [= <- <-]. split; [reflexivity|]. left.
      rewrite FindY_asArray in Hy. apply FindY_Err in Hy. exact Hy. }
  destruct (FindInputVariable cf y f) as [k|e0|] eqn:Hk; try discriminate.
  2:{ exfalso. rewrite FindInputVariable_asArray in Hk.
      exact (FindEnteringVariable_noErr _ _ _ _ Hk). }
  destruct (k =? -1); [discriminate|].
  destruct (MapRemap.SolveBd Solve cf k) as [d|e0|] eqn:Hd; try discriminate.
  2:{ intros [= <- <-]. split; [reflexivity|]. right.
      rewrite SolveBd_asArray in Hd.
      apply SolveBd_Err in Hd as (col & Hc & Hs). exists k, col.
      split; [|auto]. unfold ColView in Hc.
      destruct (_ && _) eqn:E in Hc; [|discriminate].
      apply andb_true_iff in E. cbn [asArray cf_AN] in E. lia. }
  destruct (FindOutputVariable d cf) as [s1 [[x l]|e0|]] eqn:Hl; try discriminate.
  2:{ exfalso. eapply (FindOutputVariable_NoErr d cf). rewrite Hl. reflexivity. }
  destruct (l =? -1); [discriminate|].
  unfold modify.
  destruct (number x) as [q|e0|] eqn:Hq; try discriminate.
  2:{ exfalso. exact (number_noErr _ _ Hq). }
  destruct (Update d y q k l _) as [s3 [[]|e0|]] eqn:E3; try discriminate.
  exfalso. eapply (MapUpdate_NoErr d y q k l). rewrite E3. reflexivity.
Qed.

End MapErrors.

(** ** The version with a map: [GetResults] *)

Section MapResults.

Import MapRemap.

Lemma MapGetResults_spec (cf : CF) :
  shaped cf -> mremap_ok cf -> Dims (cf_x cf) = (cf_n cf + cf_m cf, 1) ->
  exists res total,
    GetResults cf = Ok (res, total) /\
    wf res /\ Dims res = (cf_n cf + cf_m cf, 1) /\
    (forall k, 0 <= k < cf_n cf + cf_m cf ->
       At res k 0 = match cf_remap cf !! k with
                    | Some v => At (cf_xBStar cf) v 0
                    | None => Ok 0%Q
                    end) /\
    (total == Qsum (mapScoreTerm cf <$> seqZ 0 (cf_n cf + cf_m cf)))%Q.
Proof.
  intros Hs Hr [= Rx Cx].
  pose proof Hs as (Hn & Hm & HwA & DA & Hwc & [= Rc Cc] & Hwx & [= RxB CxB]
                   & _ & _ & _ & HcN).
  unfold GetResults. cbn [Dims]. rewrite Rx, Cx. unfold NewDense.
  replace ((0 <? cf_n cf + cf_m cf) && (0 <? 1)) with true
    by (symmetry; apply andb_true_iff; lia).
  cbn [rbind].
  destruct (forM_inv
    (fun j (acc : Dense * Q) =>
       wf (fst acc) /\ Dims (fst acc) = (cf_n cf + cf_m cf, 1) /\
       (forall k, 0 <= k < cf_n cf + cf_m cf ->
          At (fst acc) k 0 =
          if k <? j then match cf_remap cf !! k with
                         | Some v => At (cf_xBStar cf) v 0
                         | None => Ok 0%Q
                         end
          else Ok 0%Q) /\
       (snd acc == Qsum (mapScoreTerm cf <$> seqZ 0 j))%Q)
    (collect cf) 0 (cf_n cf + cf_m cf)
    (build (cf_n cf + cf_m cf) 1 (fun _ _ => 0%Q), 0%Q))
    as ([res total] & E & Hw & Hd & Hrep & Htot); [lia| | |].
  - cbn [fst snd]. split; [apply build_wf; lia|]. split; [reflexivity|].
    split; [|reflexivity].
    intros k Hk. replace (k <? 0) with false by (symmetry; lia). apply At_build; lia.
  - intros j [res total] Hj (Hw & [= Rr Cr] & Hrep & Htot). cbn [fst snd] in *.
    assert (Hsum : forall t, (t == Qsum (mapScoreTerm cf <$> seqZ 0 j)
                              + mapScoreTerm cf j)%Q ->
                   (t == Qsum (mapScoreTerm cf <$> seqZ 0 (j + 1)))%Q).
    { intros t Ht. rewrite seqZ_snoc by lia. rewrite fmap_app. cbn [fmap list_fmap].
      rewrite Qsum_snoc. exact Ht. }
    unfold collect. unfold mapScoreTerm in Hsum at 2.
    destruct (cf_remap cf !! j) as [v|] eqn:Hv.
    + pose proof (Hr j v Hv) as Hrange. cbn beta in Hrange.
      destruct (At_ok (cf_xBStar cf) v 0 Hwx) as [a Ha]; [lia..|].
      destruct (Set_ok res j 0 a Hw) as [res' Hres']; [lia..|].
      rewrite Ha. cbn [rbind]. rewrite Hres'. cbn [rbind].
      pose proof (Set_wf _ _ _ _ _ Hw Hres') as Hw'.
      apply Set_spec in Hres' as (R' & C' & _ & _ & _ & HAt).
      assert (Hrep' : forall k, 0 <= k < cf_n cf + cf_m cf ->
                At res' k 0 =
                if k <? j + 1 then match cf_remap cf !! k with
                                   | Some v => At (cf_xBStar cf) v 0
                                   | None => Ok 0%Q
                                   end
                else Ok 0%Q).
      { intros k Hk. rewrite HAt, Z.eqb_refl, andb_true_r.
        destruct (Z.eqb_spec k j) as [->|Hne].
        - replace (j <? j + 1) with true by (symmetry; lia). rewrite Hv. symmetry. exact Ha.
        - rewrite (Hrep k Hk).
          destruct (Z.ltb_spec k j), (Z.ltb_spec k (j + 1)); try lia; reflexivity. }
      rewrite (At_get _ _ _ _ Ha) in Hsum.
      destruct (j <? cf_n cf) eqn:Ej.
      * apply Z.ltb_lt in Ej.
        destruct (At_ok (cf_c cf) 0 j Hwc) as [ci Hci]; [lia..|].
        rewrite HcN. unfold VAt. cbn [vi vj vRows vCols].
        replace (inside 1 (cf_n cf) 0 j) with true by (symmetry; apply inside_true; lia).
        rewrite !Z.add_0_l, Hci. cbn [rbind].
        eexists. split; [reflexivity|]. cbn [fst snd].
        split; [exact Hw'|]. split; [unfold Dims; congruence|]. split; [exact Hrep'|].
        apply Hsum. rewrite (At_get _ _ _ _ Hci), Htot. reflexivity.
      * eexists. split; [reflexivity|]. cbn [fst snd].
        split; [exact Hw'|]. split; [unfold Dims; congruence|]. split; [exact Hrep'|].
        apply Hsum. rewrite Htot. ring.
    + eexists. split; [reflexivity|]. cbn [fst snd].
      split; [exact Hw|]. split; [unfold Dims; congruence|]. split.
      * intros k Hk. rewrite (Hrep k Hk).
        destruct (Z.ltb_spec k j), (Z.ltb_spec k (j + 1)); try lia; try reflexivity.
        assert (k = j) by lia. subst. rewrite Hv. reflexivity.
      * apply Hsum. rewrite Htot. ring.
  - cbn [fst snd] in *. exists res, total. split; [exact E|].
    rewrite Z.add_0_l in *. split; [exact Hw|]. split; [exact Hd|]. split; [|exact Htot].
    intros k Hk. rewrite (Hrep k Hk).
    replace (k <? cf_n cf + cf_m cf) with true by (symmetry; lia). reflexivity.
Qed.


End MapResults.

(** ** The version with a map: the states of a run *)

Section MapPivot.

Variable Inverse : Dense -> result Dense.
Variable Solve : Dense -> Dense -> result Dense.
Variable quo : Q -> Q -> float64.

Import MapRemap.

Local Abbreviation FindOutputVariable := (MapRemap.FindOutputVariable quo).
Local Abbreviation scanOutput := (MapRemap.scanOutput quo).
Local Abbreviation Iter := (MapRemap.Iter Inverse Solve quo).

Lemma MapUpdate_spec (cf : CF) d y x e l :
  shaped cf -> (Z.to_nat (cf_m cf) <= length (Data d))%nat -> Dims d = (cf_m cf, 1) ->
  0 <= e < cf_n cf -> 0 <= l < cf_m cf ->
  exists xB' A' c',
    Update d y x e l cf = (set_c c' (set_A A' (set_xBStar xB' cf)), Ok tt) /\
    (wf xB' /\ Dims xB' = (cf_m cf, 1) /\
     forall i a di, At (cf_xBStar cf) i 0 = Ok a -> At d i 0 = Ok di ->
       At xB' i 0 = Ok (if i =? l then x else (a - x * di)%Q)) /\
    (wf A' /\ Dims A' = Dims (cf_A cf) /\
     forall i j, At A' i j = copied (cf_A cf) (cf_n cf) e l (cf_m cf) i j) /\
    (wf c' /\ Dims c' = Dims (cf_c cf) /\
     forall i j, At c' i j = copied (cf_c cf) (cf_n cf) e l 1 i j).
Proof.
  intros Hs Hwd [= Rd Cd] He Hl. pose proof Hs as Hs'.
  destruct Hs' as (Hn & Hm & HwA & [= RA CA] & Hwc & [= Rc Cc] & Hwx & [= Rx Cx]
                  & HB & HAN & HcB & HcN).
  unfold Update. cbn [Dims].
  destruct (Sub (cf_xBStar cf) (Scale x d)) as [s1| |] eqn:Hsub.
  2,3: (unfold Sub in Hsub; simpl in Hsub;
        replace (Rows (cf_xBStar cf) =? Rows d) with true in Hsub by (symmetry; lia);
        replace (Cols (cf_xBStar cf) =? Cols d) with true in Hsub by (symmetry; lia);
        discriminate).
  assert (Hlen : (length (Data (cf_xBStar cf)) <= length (Data (Scale x d)))%nat).
  { destruct Hwx as (_ & _ & ->). simpl. rewrite length_fmap, Rx, Cx, Z.mul_1_r.
    exact Hwd. }
  destruct (Sub_wf_left _ _ _ Hwx Hlen Hsub) as (Hw1 & R1 & C1).
  destruct (Set_ok s1 l 0 x Hw1 ltac:(lia) ltac:(lia)) as [s2 Hset].
  pose proof (Set_wf _ _ _ _ _ Hw1 Hset) as Hw2.
  pose proof (Set_spec _ _ _ _ _ Hset) as (R2 & C2 & _ & _ & _ & HS2).
  assert (HeC : At (cf_c cf) 0 e = Ok (get (cf_c cf) 0 e))
    by (apply At_wf; [assumption|lia..]).
  assert (Hs1 : shaped (set_xBStar s2 (set_xBStar s1 cf))).
  { unfold shaped.
    cbn [cf_n cf_m cf_A cf_c cf_xBStar cf_B cf_AN cf_cB cf_cN set_xBStar].
    unfold Dims. rewrite R2, C2, R1, C1, RA, CA, Rc, Cc, Rx, Cx.
    repeat match goal with |- _ /\ _ => split end; auto. }
  destruct (copy_loop _ e l Hs1 He Hl) as (A' & Hloop & HwA' & HdA' & HA').
  clear Hs1. cbn [cf_m cf_n cf_A set_xBStar] in Hloop, HdA', HA'.
  destruct (Set_ok (cf_c cf) 0 (cf_n cf + l) (get (cf_c cf) 0 e) Hwc ltac:(lia) ltac:(lia))
    as [c1 Hc1].
  pose proof (Set_wf _ _ _ _ _ Hwc Hc1) as Hwc1.
  pose proof (Set_spec _ _ _ _ _ Hc1) as (Rc1 & Cc1 & _ & _ & _ & HSc1).
  exists s2, A', c1. split; [|split; [|split]].
  - unfold bind at 1. unfold assign at 1. rewrite Hsub.
    unfold bind at 1. unfold assign at 1. cbn [cf_xBStar set_xBStar]. rewrite Hset.
    unfold bind at 1. rewrite Rd, Hloop.
    unfold bind at 1. unfold assign at 1. cbn [cf_c cf_cN cf_cB set_A set_xBStar].
    rewrite HcN, HcB. unfold VAt, VSet. cbn [vi vj vRows vCols].
    replace (inside 1 (cf_n cf) 0 e) with true by (symmetry; apply inside_true; lia).
    replace (inside 1 (cf_m cf) 0 l) with true by (symmetry; apply inside_true; lia).
    rewrite !Z.add_0_l, HeC. cbn [rbind]. rewrite Hc1. reflexivity.
  - split; [exact Hw2|]. split; [unfold Dims; congruence|].
    intros i a di Ha Hdi. rewrite HS2.
    rewrite (Sub_At _ _ _ _ _ _ _ Hsub Ha (Scale_At x _ _ _ _ Hdi)).
    cases.
  - split; [exact HwA'|]. split; [exact HdA'|exact HA'].
  - split; [exact Hwc1|]. split; [unfold Dims; congruence|].
    intros i j. rewrite HSc1. unfold copied. cases.
    all: rewrite ?At_row_out by lia; try reflexivity.
Qed.

Lemma FindInputVariable_range (cf : CF) y f k :
  vRows (cf_cN cf) = 1 -> 0 <= vCols (cf_cN cf) ->
  FindInputVariable cf y f = Ok k -> k <> -1 ->
  0 <= k < vCols (cf_cN cf).
Proof.
  rewrite FindInputVariable_asArray.
  exact (FindEnteringVariable_range (asArray cf) y f k).
Qed.

(** What a pivoting call of [Iter] has done to a well-shaped state. *)
Lemma MapIter_pivot_spec f (cf cf' : CF) :
  shaped cf -> Iter f cf = (cf', Ok false) ->
  exists y k d x l col,
    MapRemap.FindY Inverse cf = Ok y /\
    FindInputVariable cf y f = Ok k /\
    0 <= k < cf_n cf /\ 0 <= l < cf_m cf /\
    ColView (cf_A cf) (cf_AN cf) k = Ok col /\
    Solve (Deref (cf_A cf) (cf_B cf)) col = Ok d /\
    Rows d = cf_m cf /\
    (forall i, 0 <= i < cf_m cf -> At d i 0 = Ok (get d i 0)) /\
    (exists a e, At d l 0 = Ok e /\ (0 < e)%Q /\
       At (cf_xBStar cf) l 0 = Ok a /\ quo a e = Num x) /\
    cf_n cf' = cf_n cf /\ cf_m cf' = cf_m cf /\ cf_b cf' = cf_b cf /\
    cf_x cf' = cf_x cf /\
    cf_remap cf' = <[k := l]> (delete (cf_n cf + l) (cf_remap cf)) /\
    shaped cf' /\
    (forall i, 0 <= i < cf_m cf ->
       get (cf_xBStar cf') i 0 =
       if i =? l then x else (get (cf_xBStar cf) i 0 - x * get d i 0)%Q) /\
    (forall i j, At (cf_A cf') i j = copied (cf_A cf) (cf_n cf) k l (cf_m cf) i j) /\
    (forall i j, At (cf_c cf') i j = copied (cf_c cf) (cf_n cf) k l 1 i j) /\
    ArrayRemap.FindLeavingVariable quo (asArray cf) d = Ok (Num x, l).
Proof.
  intros Hs H.
  apply MapIter_pivot_inv in H
    as (y & k & d & x & l & Hy & Hk & Hkne & Hd & Hfl & Hlr & HU).
  pose proof Hs as (Hn & Hm & HwA & DA & Hwc & Dc & Hwx & Dx & HB & HAN & HcB & HcN).
  assert (Hkr : 0 <= k < cf_n cf).
  { pose proof (FindInputVariable_range cf y f k) as Hr.
    rewrite HcN in Hr. simpl in Hr. apply Hr; try assumption; lia. }
  assert (Hlne : l <> -1) by lia.
  destruct (FindLeavingVariable_range quo (asArray cf) d (Num x) l Hfl Hlne) as (_ & Hlen).
  set (cf2 := set_remap (<[k := l]> (delete (cf_n cf + l) (cf_remap cf))) cf) in *.
  assert (Hdims : Dims d = (cf_m cf, 1)).
  { unfold Update in HU. cbn [Dims] in HU.
    apply bind_inv in HU as (? & ? & (s & Hsub & _)%assign_inv & _).
    cbn [cf_xBStar set_remap cf2] in Hsub.
    unfold Sub in Hsub. destruct (_ && _) eqn:E in Hsub; [|discriminate].
    apply andb_true_iff in E as [ER%Z.eqb_eq EC%Z.eqb_eq]. simpl in ER, EC.
    injection Dx as Rx Cx. unfold Dims. congruence. }
  injection Hdims as Rd Cd.
  assert (H0 : 0 <= Rows d) by lia.
  destruct (FindLeavingVariable_row quo (asArray cf) d (Num x) l H0 Hfl Hlne)
    as (Hreads0 & Hratio).
  cbn [asArray cf_xBStar] in Hratio.
  assert (Hreads : forall i, 0 <= i < cf_m cf -> At d i 0 = Ok (get d i 0)).
  { intros i Hi.
    destruct (Hreads0 i) as [e He]; [lia|].
    rewrite He. f_equal. symmetry. apply At_get. exact He. }
  unfold MapRemap.SolveBd in Hd.
  destruct (ColView _ _ k) as [col| |] eqn:Hcol; simpl in Hd; try discriminate.
  assert (Hs2 : shaped cf2) by exact Hs.
  destruct (MapUpdate_spec cf2 d y x k l Hs2) as
    (xB' & A' & c' & HU' & (HwxB & DxB & HxB') & (HwA' & DA' & HA') & (Hwc' & Dc' & Hc'));
    try (unfold cf2; cbn [cf_m cf_n set_remap]; rewrite <- ?Rd; first [assumption|lia]).
  { unfold Dims. cbn. congruence. }
  rewrite HU' in HU. injection HU as <-.
  exists y, k, d, x, l, col.
  cbn [cf_n cf_m cf_b cf_x cf_A cf_c cf_xBStar cf_remap set_c set_A set_xBStar set_remap cf2] in *.
  repeat match goal with |- _ /\ _ => split end; try assumption; try reflexivity; try lia.
  - unfold shaped.
    cbn [cf_n cf_m cf_A cf_c cf_xBStar cf_B cf_AN cf_cB cf_cN set_c set_A set_xBStar set_remap].
    rewrite DA', Dc'.
    repeat match goal with |- _ /\ _ => split end; assumption.
  - intros i Hi. apply At_get. injection Dx as Rx Cx.
    rewrite (HxB' i (get (cf_xBStar cf) i 0) (get d i 0)).
    + reflexivity.
    + apply At_wf; [assumption|lia..].
    + apply Hreads. exact Hi.
Qed.

End MapPivot.

Section MapInvariants.

Variable Inverse : Dense -> result Dense.
Variable Solve : Dense -> Dense -> result Dense.
Variable quo : Q -> Q -> float64.

Import MapRemap.

Local Abbreviation FindOutputVariable := (MapRemap.FindOutputVariable quo).
Local Abbreviation scanOutput := (MapRemap.scanOutput quo).
Local Abbreviation Iter := (MapRemap.Iter Inverse Solve quo).
Local Abbreviation iterate := (MapRemap.iterate Inverse Solve quo).
Local Abbreviation Simplex := (MapRemap.Simplex Inverse Solve quo).
Local Abbreviation mpivots := (mpivots Inverse Solve quo).

Lemma MapNew_ready c A b (cf : CF) :
  wf c -> wf A -> wf b ->
  Rows c = 1 -> 0 < Cols c -> 0 < Rows A -> Cols A = Cols c ->
  Dims b = (Rows A, 1) ->
  exists cf', New c A b cf = (cf', Ok tt) /\ mready cf' /\
    cf_n cf' = Cols c /\ cf_m cf' = Rows A /\ cf_b cf' = b.
Proof.
  intros Hwc HwA Hwb Rc Cc RA CA [= Rb Cb].
  destruct (MapNew_content c A b cf Hwc HwA Rc Cc RA CA)
    as (cf' & E & Hn & Hm & Hb & HxB & Hx & _ & HB & HAN & HcB & HcN
        & (HwA' & DA' & _) & (Hwc' & Dc' & _) & Hr).
  exists cf'. split; [exact E|]. split; [|auto].
  split; [|split].
  - unfold shaped. rewrite Hn, Hm, HxB, HB, HAN, HcB, HcN, DA', Dc'.
    unfold Dims. cbn [DenseCopyOf Rows Cols]. rewrite Rb, Cb.
    repeat match goal with |- _ /\ _ => split end;
      try assumption; try reflexivity; try lia.
  - intros key v Hv. rewrite Hr in Hv. rewrite Hm.
    destruct (_ && _) eqn:Ek in Hv; [|discriminate].
    injection Hv as <-. apply andb_true_iff in Ek. lia.
  - rewrite Hx, Hn, Hm. reflexivity.
Qed.

Lemma MapIter_ready f (cf cf' : CF) e :
  mready cf -> Iter f cf = (cf', Ok e) ->
  mready cf' /\ cf_n cf' = cf_n cf /\ cf_m cf' = cf_m cf /\ cf_b cf' = cf_b cf.
Proof.
  intros (Hs & Hr & Hx) H. destruct e.
  { apply MapIter_end_frame in H as (r & -> & Hcase).
    split; [|auto]. split; [exact Hs|]. split; [|exact Hx].
    unfold mremap_ok. cbn [cf_remap cf_m set_remap].
    destruct Hcase as [->| ->]; [exact Hr|apply map_Forall_delete; exact Hr]. }
  destruct (MapIter_pivot_spec Inverse Solve quo f cf cf' Hs H)
    as (y & k & d & x & l & col & _ & _ & Hk & Hl & _ & _ & _ & _ & _
        & Hn' & Hm' & Hb' & Hx' & Hr' & Hs' & _).
  split; [|auto]. split; [exact Hs'|]. split.
  - unfold mremap_ok. rewrite Hr', Hm'.
    apply map_Forall_insert_2; [lia|]. apply map_Forall_delete. exact Hr.
  - rewrite Hx', Hn', Hm'. exact Hx.
Qed.

Lemma mpivots_ready fs (cf cf' : CF) :
  mready cf -> mpivots fs cf = Ok cf' ->
  mready cf' /\ cf_n cf' = cf_n cf /\ cf_m cf' = cf_m cf /\ cf_b cf' = cf_b cf.
Proof.
  revert cf. induction fs as [|f fs IH]; intros cf Hr; simpl.
  - intros [= <-]. auto.
  - destruct (Iter f cf) as [cf2 [e| |]] eqn:E; try discriminate.
    intros H. destruct (MapIter_ready _ _ _ _ Hr E) as (Hr2 & Hn & Hm & Hb).
    destruct (IH _ Hr2 H) as (Hr' & Hn' & Hm' & Hb').
    split; [exact Hr'|]. repeat split; congruence.
Qed.

(** The loop of [Simplex]: what it has done when it stops.  It returns the
    state after its last call of [Iter], also when that call has signalled
    the end. *)
Lemma Mapiterate_inv fuel t (cf cf' : CF) r :
  iterate fuel t cf = (cf', r) ->
  exists k cfk, (k <= fuel)%nat /\ mpivots (replicate k 0) cf = Ok cfk /\
    match r with
    | Ok t' => t' = t + Z.of_nat k /\
               ((k = fuel /\ cf' = cfk) \/
                ((k < fuel)%nat /\ Iter 0 cfk = (cf', Ok true)))
    | Err e => (k < fuel)%nat /\ Iter 0 cfk = (cf', Err e)
    | Panic w => (k < fuel)%nat /\ Iter 0 cfk = (cf', Panic w)
    end.
Proof.
  revert t cf. induction fuel as [|fuel IH]; intros t cf; simpl.
  - intros [= <- <-]. exists 0%nat, cf. split; [lia|]. split; [reflexivity|].
    split; [lia|]. left. auto.
  - unfold bind. destruct (Iter 0 cf) as [cf1 [[]| |]] eqn:E.
    + intros [= <- <-].
      exists 0%nat, cf. split; [lia|]. split; [reflexivity|].
      split; [lia|]. right. split; [lia|exact E].
    + intros H. destruct (IH _ _ H) as (k & cfk & Hk & Hp & Hr).
      exists (S k), cfk. split; [lia|]. split; [simpl; rewrite E; exact Hp|].
      destruct r as [t'| |].
      * destruct Hr as (-> & [[-> ->]|[Hlt Hend]]).
        -- split; [lia|]. left. auto.
        -- split; [lia|]. right. split; [lia|exact Hend].
      * destruct Hr as [Hlt Hr]. split; [lia|exact Hr].
      * destruct Hr as [Hlt Hr]. split; [lia|exact Hr].
    + intros [= <- <-]. exists 0%nat, cf. split; [lia|]. split; [reflexivity|].
      split; [lia|exact E].
    + intros [= <- <-]. exists 0%nat, cf. split; [lia|]. split; [reflexivity|].
      split; [lia|exact E].
Qed.

Hypothesis quo_exact : exact quo.

Hypothesis Solve_solves : solves Solve.

Lemma MapIter_basis_eq f (cf cf' : CF) e :
  shaped cf -> basis_eq cf -> Iter f cf = (cf', Ok e) -> basis_eq cf'.
Proof.
  intros Hs Hbe H. destruct e.
  { apply MapIter_end_frame in H as (r & -> & _). exact Hbe. }
  destruct (MapIter_pivot_spec Inverse Solve quo f cf cf' Hs H)
    as (y & k & d & x & l & col & _ & _ & Hk & Hl & Hcol & Hd & Rd & Hreads
        & (a & e & Hde & Hpos & Hxa & Hx) & Hn' & Hm' & Hb' & _ & _ & _ & HxB' & HA' & _).
  rewrite quo_exact in Hx. injection Hx as Hx. symmetry in Hx.
  pose proof Hs as (Hn & Hm & HwA & [= RA CA] & _).
  apply (basis_step cf cf' k l x d); try assumption.
  - intros i j Hi Hj. apply At_get. rewrite HA'. unfold copied.
    replace (i <? cf_m cf) with true by (symmetry; lia). cbn [andb].
    destruct (Z.eqb_spec j l) as [->|Hne].
    + rewrite Z.eqb_refl. apply At_wf; [assumption|lia..].
    + replace (cf_n cf + j =? cf_n cf + l) with false by (symmetry; lia).
      apply At_wf; [assumption|lia..].
  - eapply solved_column; eassumption.
  - rewrite (At_get _ _ _ _ Hde), (At_get _ _ _ _ Hxa).
    apply ratio_cancels; assumption.
Qed.

Lemma MapNew_basis_eq c A b (cf cf' : CF) :
  wf c -> wf A -> Rows c = 1 -> 0 < Cols c -> 0 < Rows A -> Cols A = Cols c ->
  New c A b cf = (cf', Ok tt) -> basis_eq cf'.
Proof.
  intros Hwc HwA Rc Cc RA CA Hnew.
  destruct (MapNew_content c A b cf Hwc HwA Rc Cc RA CA)
    as (cf1 & E & Hn & Hm & Hb & HxB & _ & _ & _ & _ & _ & _ & (_ & _ & HA) & _).
  rewrite Hnew in E. injection E as <-.
  intros i Hi. unfold basisRow. rewrite Hn, Hm, Hb, HxB in *.
  rewrite (Qsum_ext _ (fun j => (if j =? i then 1 else 0) * get b j 0)%Q).
  - rewrite Qsum_delta by lia. reflexivity.
  - intros j Hj. apply elem_of_seqZ in Hj.
    rewrite (At_get _ _ _ _ (HA i (Cols c + j) ltac:(lia) ltac:(lia))).
    replace (Cols c + j <? Cols c) with false by (symmetry; lia).
    destruct (Z.eqb_spec j i) as [->|Hne].
    + rewrite Z.eqb_refl. reflexivity.
    + replace (Cols c + j =? Cols c + i) with false by (symmetry; lia). reflexivity.
Qed.

End MapInvariants.

Section MapObjective.

Variable Inverse : Dense -> result Dense.
Variable Solve : Dense -> Dense -> result Dense.
Variable quo : Q -> Q -> float64.

Import MapRemap.

Local Abbreviation FindOutputVariable := (MapRemap.FindOutputVariable quo).
Local Abbreviation scanOutput := (MapRemap.scanOutput quo).
Local Abbreviation Iter := (MapRemap.Iter Inverse Solve quo).

Hypothesis quo_exact : exact quo.

Hypothesis Inverse_inverts : inverts Inverse.

Hypothesis Solve_solves : solves Solve.

(** A pivot adds to the objective the step of the ratio test times the
    reduced cost of the input column. *)
Lemma MapIter_objective f (cf cf' : CF) :
  shaped cf -> nonneg (cf_xBStar cf) ->
  Iter f cf = (cf', Ok false) ->
  exists y k d x l m0 r v,
    MapRemap.FindY Inverse cf = Ok y /\
    FindInputVariable cf y f = Ok k /\
    MapRemap.SolveBd Solve cf k = Ok d /\
    snd (FindOutputVariable d cf) = Ok (Num x, l) /\
    Mul y (Deref (cf_A cf) (cf_AN cf)) = Ok m0 /\
    Sub (Deref (cf_c cf) (cf_cN cf)) m0 = Ok r /\ At r 0 k = Ok v /\
    (0 <= x)%Q /\ (0 < v)%Q /\
    (objective cf' == objective cf + x * v)%Q.
Proof.
  intros Hs Hnn H.
  destruct (MapIter_pivot_spec Inverse Solve quo f cf cf' Hs H)
    as (y & k & d & x & l & col & Hy & Hent & Hk & Hl & Hcol & Hd & Rd & Hreads
        & (a & e & Hde & Hpos & Hxa & Hx) & Hn' & Hm' & Hb' & _ & _ & _ & HxB' & _ & Hc' & Hfl).
  rewrite quo_exact in Hx. injection Hx as Hx. symmetry in Hx.
  pose proof Hs as (Hn & Hm & _ & _ & Hwc & [= Rc Cc] & _ & _ & _ & _ & _ & HcN).
  pose proof Hent as Hent0.
  rewrite FindInputVariable_asArray in Hent.
  destruct (entering_positive (asArray cf) y f k) as (m0 & r & v & Hm0 & Hr & Hv & Hvpos);
    [cbn [asArray cf_cN]; rewrite HcN; reflexivity
    |cbn [asArray cf_cN]; rewrite HcN; simpl; lia|exact Hent|lia|].
  cbn [asArray cf_A cf_AN cf_c cf_cN] in Hm0, Hr.
  pose proof Hy as Hy0.
  rewrite FindY_asArray in Hy.
  apply FindY_inv in Hy as (BInv & HBInv & Hy).
  cbn [asArray cf_A cf_B cf_c cf_cB] in HBInv, Hy.
  exists y, k, d, x, l, m0, r, v.
  split; [exact Hy0|]. split; [exact Hent0|].
  split; [unfold MapRemap.SolveBd; rewrite Hcol; exact Hd|].
  split; [rewrite (FindOutputVariable_asArray quo); exact Hfl|].
  split; [exact Hm0|]. split; [exact Hr|]. split; [exact Hv|].
  split; [|split; [exact Hvpos|]].
  - rewrite Hx. apply ratio_nonneg; [|exact Hpos].
    eapply nonneg_At; eassumption.
  - rewrite (reduced_cost_identity Inverse Solve cf BInv y m0 r k v col d); try assumption.
    apply (objective_step cf cf' k l x d); try assumption.
    + intros j Hj. apply At_get. rewrite Hc'. unfold copied.
      replace (0 <? 1) with true by reflexivity. cbn [andb].
      destruct (Z.eqb_spec j l) as [->|Hne].
      * rewrite Z.eqb_refl. apply At_wf; [assumption|lia..].
      * replace (cf_n cf + j =? cf_n cf + l) with false by (symmetry; lia).
        apply At_wf; [assumption|lia..].
    + rewrite (At_get _ _ _ _ Hde), (At_get _ _ _ _ Hxa).
      apply ratio_cancels; assumption.
Qed.

End MapObjective.

Section MapFeasibility.

Variable Inverse : Dense -> result Dense.
Variable Solve : Dense -> Dense -> result Dense.
Variable quo : Q -> Q -> float64.

Import MapRemap.

Local Abbreviation FindOutputVariable := (MapRemap.FindOutputVariable quo).
Local Abbreviation scanOutput := (MapRemap.scanOutput quo).
Local Abbreviation Iter := (MapRemap.Iter Inverse Solve quo).
Local Abbreviation mpivots := (mpivots Inverse Solve quo).

(** X17. In the version with a map, a call of [Iter] that signals the end
    leaves the matrices, the windows and the dimensions as they were.
    Either it leaves [remap] as it was too, and then repeating the call
    gives the same answer and [GetResults] the same output; or the ratio
    test has met a positive row of [d] and the quotient of every positive
    row is [+Inf], and then [FindOutputVariable] has returned the step
    [+Inf] with the index -1 and the key [n - 1] has been deleted from
    [remap].  With the exact division the second case does not occur. *)
Theorem MapIter_terminal_state f (cf cf' : CF) :
  Iter f cf = (cf', Ok true) ->
  ((cf' = cf /\ Iter f cf' = (cf', Ok true) /\ GetResults cf' = GetResults cf)
   \/
   (cf' = set_remap (delete (cf_n cf - 1) (cf_remap cf)) cf /\
    exists y k d,
      MapRemap.FindY Inverse cf = Ok y /\ FindInputVariable cf y f = Ok k /\
      k <> -1 /\ MapRemap.SolveBd Solve cf k = Ok d /\
      snd (FindOutputVariable d cf) = Ok (PosInf, -1) /\
      (exists i e a, 0 <= i < Rows d /\ At d i 0 = Ok e /\ (0 < e)%Q /\
         At (cf_xBStar cf) i 0 = Ok a) /\
      (forall i e a, 0 <= i < Rows d -> At d i 0 = Ok e -> (0 < e)%Q ->
         At (cf_xBStar cf) i 0 = Ok a -> quo a e = PosInf))) /\
  (exact quo -> cf' = cf).
Proof.
  intros H. pose proof (MapIter_end_inv _ _ _ _ _ _ H) as Hend. split.
  - destruct Hend as [->|(-> & y & k & d & Hy & Hk & Hne & Hd & Hfl)].
    + left. split; [reflexivity|]. split; [exact H|reflexivity].
    + right. split; [reflexivity|]. exists y, k, d.
      split; [exact Hy|]. split; [exact Hk|]. split; [exact Hne|].
      split; [exact Hd|].
      split; [rewrite FindOutputVariable_asArray; exact Hfl|].
      apply FindLeavingVariable_overflow in Hfl as (_ & Hex & Hall).
      split; [exact Hex|exact Hall].
  - intros Hq. destruct Hend as [->|(_ & y & k & d & _ & _ & _ & _ & Hfl)];
      [reflexivity|].
    exfalso. exact (FindLeavingVariable_exact_number quo (asArray cf) d _ Hq Hfl).
Qed.

Lemma MapNew_xBStar c A b (cf cf' : CF) :
  New c A b cf = (cf', Ok tt) -> cf_xBStar cf' = DenseCopyOf b.
Proof.
  unfold New. cbn [Dims]. intros H. inv_bind H.
  destruct (1 <? Rows c); [discriminate|].
  inv_bind H. inv_bind H.
  destruct (_ <? _); [discriminate|].
  do 10 (inv_bind H).
  match type of H with ?a _ = _ =>
    assert (F : forall t t' r, a t = (t', r) -> cf_xBStar t' = cf_xBStar t) by frame_acc;
    rewrite (F _ _ _ H); clear F end.
  apply modify_inv in H12. subst. reflexivity.
Qed.

Lemma MapUpdate_xBStar d y x e l (cf cf' : CF) :
  Update d y x e l cf = (cf', Ok tt) ->
  exists s s',
    Sub (cf_xBStar cf) (Scale x d) = Ok s /\ Set_ s l 0 x = Ok s' /\
    cf_xBStar cf' = s'.
Proof.
  unfold Update. simpl. intros H. inv_bind H. inv_bind H.
  apply assign_inv in H0 as (s1 & E1 & ->).
  apply assign_inv in H1 as (s2 & E2 & ->). simpl in E2.
  framed H (@cf_xBStar (gmap Z Z)). simpl. eauto.
Qed.

(** *** Feasibility, with the exact division *)

Hypothesis quo_exact : exact quo.

Lemma MapIter_feasible f (cf cf' : CF) e :
  feasible (cf_xBStar cf) -> Iter f cf = (cf', Ok e) -> feasible (cf_xBStar cf').
Proof.
  intros Hf H. destruct e.
  - apply MapIter_end_frame in H as (r & -> & _). exact Hf.
  - apply MapIter_pivot_inv in H as (y & k & d & x & l & _ & _ & _ & _ & Hfl & Hl & HU).
    apply MapUpdate_xBStar in HU as (s & s' & Hsub & Hset & ->).
    cbn [cf_xBStar set_remap] in Hsub.
    apply (pivot_feasible quo quo_exact (asArray cf) d x l s s'); try assumption. lia.
Qed.

(** X18. In exact arithmetic, that is, with the exact division in the ratio
    test and the exact matrix operations of the model, in the version with
    a map, from a right-hand side [b >= 0], [xBStar] is componentwise
    non-negative after [New] and after every successful call of [Iter],
    whatever index is forced. *)
Theorem Map_pivot_preserves_feasibility (c A b : Dense) (cf0 cf1 cf' : CF) (fs : list Z) :
  wf b -> Cols b = 1 -> nonneg b ->
  New c A b cf0 = (cf1, Ok tt) ->
  mpivots fs cf1 = Ok cf' ->
  nonneg (cf_xBStar cf') /\
  forall f cf'' e, Iter f cf' = (cf'', Ok e) -> nonneg (cf_xBStar cf'').
Proof.
  intros Hwf Hc Hn Hnew Hrun.
  assert (H1 : feasible (cf_xBStar cf1)).
  { rewrite (MapNew_xBStar _ _ _ _ _ Hnew). repeat split; try apply Hwf; assumption. }
  assert (Hf : feasible (cf_xBStar cf')).
  { clear Hnew. revert cf1 H1 Hrun.
    induction fs as [|f fs IH]; intros cf1 H1; simpl.
    - intros [= <-]. exact H1.
    - destruct (Iter f cf1) as [cf2 [e| |]] eqn:E; try discriminate.
      apply IH. eapply MapIter_feasible; eassumption. }
  split; [apply Hf|]. intros f cf'' e Hi.
  exact (proj2 (proj2 (MapIter_feasible f cf' cf'' e Hf Hi))).
Qed.

End MapFeasibility.

(** ** The version with a map: the driver and the dictionary *)

Section MapDictionary.

Variable Inverse : Dense -> result Dense.
Variable Solve : Dense -> Dense -> result Dense.
Variable quo : Q -> Q -> float64.

Import MapRemap.

Local Abbreviation FindOutputVariable := (MapRemap.FindOutputVariable quo).
Local Abbreviation scanOutput := (MapRemap.scanOutput quo).
Local Abbreviation Iter := (MapRemap.Iter Inverse Solve quo).
Local Abbreviation iterate := (MapRemap.iterate Inverse Solve quo).
Local Abbreviation Simplex := (MapRemap.Simplex Inverse Solve quo).
Local Abbreviation mpivots := (mpivots Inverse Solve quo).

(** X19. In the version with a map, on an objective row (1 x n), a constraint
    matrix (m x n) and a right-hand side (m x 1), [Simplex] either returns
    a result vector (n+m x 1) after at most [maxIter] iterations, or
    returns the error, or the panic, of a call of [Iter 0] on a state
    reached from [New]: neither [New] nor [GetResults] fails. *)
Theorem MapSimplex_fails_only_in_Iter c A b maxIter :
  wf c -> wf A -> wf b ->
  Rows c = 1 -> 0 < Cols c -> 0 < Rows A -> Cols A = Cols c ->
  Dims b = (Rows A, 1) ->
  (exists t res score,
     Simplex c A b maxIter = Ok (t, res, score) /\
     0 <= t <= Z.max 0 maxIter /\
     wf res /\ Dims res = (Cols c + Rows A, 1))
  \/
  (exists cf1 k cf cf',
     New c A b (zeroCF ∅) = (cf1, Ok tt) /\ 0 <= k < maxIter /\
     mpivots (replicate (Z.to_nat k) 0) cf1 = Ok cf /\
     ((exists e, Iter 0 cf = (cf', Err e) /\ Simplex c A b maxIter = Err e) \/
      (exists w, Iter 0 cf = (cf', Panic w) /\ Simplex c A b maxIter = Panic w))).
Proof.
  intros Hwc HwA Hwb Rc Cc RA CA Db.
  destruct (MapNew_ready c A b (zeroCF ∅) Hwc HwA Hwb Rc Cc RA CA Db)
    as (cf1 & Hnew & Hr1 & Hn & Hm & _).
  unfold MapRemap.Simplex. rewrite Hnew.
  destruct (iterate (Z.to_nat maxIter) 0 cf1) as [cf' [t| |]] eqn:Hit;
    apply Mapiterate_inv in Hit as (k & cfk & Hk & Hp & Hit).
  - destruct Hit as (-> & Hend). left.
    destruct (mpivots_ready _ _ _ _ _ _ Hr1 Hp) as (Hrk & Hn' & Hm' & _).
    assert (Hr' : mready cf' /\ cf_n cf' = cf_n cfk /\ cf_m cf' = cf_m cfk).
    { destruct Hend as [[_ ->]|[_ Hend]]; [auto|].
      destruct (MapIter_ready _ _ _ _ _ _ _ Hrk Hend) as (? & ? & ? & _). auto. }
    destruct Hr' as ((Hs & Hrm & Hx) & Hn'' & Hm'').
    destruct (MapGetResults_spec cf' Hs Hrm Hx) as (res & total & E & Hw & Hd & _).
    exists (0 + Z.of_nat k), res, total. rewrite E. simpl.
    split; [reflexivity|]. split; [lia|]. split; [exact Hw|]. rewrite Hd. congruence.
  - destruct Hit as (Hlt & Hit). right. exists cf1, (Z.of_nat k), cfk, cf'.
    split; [reflexivity|]. split; [lia|]. rewrite Nat2Z.id. split; [exact Hp|].
    left. exists e. auto.
  - destruct Hit as (Hlt & Hit). right. exists cf1, (Z.of_nat k), cfk, cf'.
    split; [reflexivity|]. split; [lia|]. rewrite Nat2Z.id. split; [exact Hp|].
    right. exists why. auto.
Qed.

(** X20. In the version with a map, [AN] and [cN] hold the constraint matrix
    and the objective row given to [New] in every state reached by
    successful calls of [Iter]. *)
Theorem Map_input_columns_kept c A b (cf0 cf1 cf' : CF) fs :
  wf c -> wf A -> wf b ->
  Rows c = 1 -> 0 < Cols c -> 0 < Rows A -> Cols A = Cols c ->
  Dims b = (Rows A, 1) ->
  New c A b cf0 = (cf1, Ok tt) -> mpivots fs cf1 = Ok cf' ->
  (forall i j, 0 <= i < Rows A -> 0 <= j < Cols c ->
     VAt (cf_A cf') (cf_AN cf') i j = At A i j) /\
  (forall j, 0 <= j < Cols c -> VAt (cf_c cf') (cf_cN cf') 0 j = At c 0 j).
Proof.
  intros Hwc HwA Hwb Rc Cc RA CA Db Hnew Hrun.
  destruct (MapNew_ready c A b cf0 Hwc HwA Hwb Rc Cc RA CA Db)
    as (cf1' & E & (Hs & _) & Hn & Hm & _).
  rewrite Hnew in E. injection E as <-.
  destruct (MapNew_content c A b cf0 Hwc HwA Rc Cc RA CA)
    as (cf1' & E & _ & _ & _ & _ & _ & _ & _ & _ & _ & _
        & (_ & _ & HA1) & (_ & _ & Hc1) & _).
  rewrite Hnew in E. injection E as <-.
  assert (Hall : shaped cf' /\ cf_n cf' = cf_n cf1 /\ cf_m cf' = cf_m cf1 /\
                 (forall i j, 0 <= j < cf_n cf1 -> At (cf_A cf') i j = At (cf_A cf1) i j) /\
                 (forall i j, 0 <= j < cf_n cf1 -> At (cf_c cf') i j = At (cf_c cf1) i j)).
  { clear Hnew HA1 Hc1 Hn Hm. revert cf1 Hs Hrun.
    induction fs as [|f fs IH]; intros cf1 Hs; simpl.
    - intros [= <-]. auto.
    - destruct (Iter f cf1) as [cf2 [e| |]] eqn:E; try discriminate.
      intros Hrun. destruct e.
      { apply MapIter_end_frame in E as (r & -> & _).
        exact (IH (set_remap r cf1) Hs Hrun). }
      destruct (MapIter_pivot_spec Inverse Solve quo f cf1 cf2 Hs E)
        as (y & k & d & x & l & col & _ & _ & Hk & Hl & _ & _ & _ & _ & _
            & Hn' & Hm' & _ & _ & _ & Hs' & _ & HA' & Hc' & _).
      destruct (IH cf2 Hs' Hrun) as (Hs'' & Hn'' & Hm'' & HA'' & Hc'').
      split; [exact Hs''|]. split; [congruence|]. split; [congruence|].
      rewrite Hn' in HA'', Hc''. split.
      + intros i j Hj. rewrite HA'' by exact Hj. rewrite HA'. unfold copied.
        replace (j =? cf_n cf1 + l) with false by (symmetry; lia).
        rewrite andb_false_r. reflexivity.
      + intros i j Hj. rewrite Hc'' by exact Hj. rewrite Hc'. unfold copied.
        replace (j =? cf_n cf1 + l) with false by (symmetry; lia).
        rewrite andb_false_r. reflexivity. }
  destruct Hall as ((_ & _ & _ & _ & _ & _ & _ & _ & _ & HAN' & _ & HcN')
                    & Hn' & Hm' & HA' & Hc').
  rewrite HAN', HcN', Hn', Hm', Hn, Hm. rewrite Hn in HA', Hc'.
  unfold VAt. cbn [vi vj vRows vCols]. split.
  - intros i j Hi Hj.
    replace (inside (Rows A) (Cols c) i j) with true by (symmetry; apply inside_true; lia).
    rewrite !Z.add_0_l, HA', HA1 by lia.
    replace (j <? Cols c) with true by (symmetry; lia).
    symmetry. apply At_wf; [assumption|lia..].
  - intros j Hj.
    replace (inside 1 (Cols c) 0 j) with true by (symmetry; apply inside_true; lia).
    rewrite !Z.add_0_l, Hc', Hc1 by lia.
    replace (j <? Cols c) with true by (symmetry; lia).
    symmetry. apply At_wf; [assumption|lia..].
Qed.

(** *** With the exact division *)

Hypothesis quo_exact : exact quo.
Hypothesis Solve_solves : solves Solve.

(** X21. In exact arithmetic, that is, with the exact division in the ratio
    test, the exact matrix operations of the model and a [Solve] that
    returns solutions, in the version with a map every state reached from
    [New] by successful calls of [Iter] satisfies [B * xBStar = b]. *)
Theorem Map_basis_equation_invariant c A b (cf0 cf1 cf' : CF) fs :
  wf c -> wf A -> wf b ->
  Rows c = 1 -> 0 < Cols c -> 0 < Rows A -> Cols A = Cols c ->
  Dims b = (Rows A, 1) ->
  New c A b cf0 = (cf1, Ok tt) -> mpivots fs cf1 = Ok cf' ->
  cf_b cf' = b /\ cf_m cf' = Rows A /\
  forall i, 0 <= i < Rows A ->
    (Qsum ((fun j => get (cf_A cf') i (cf_n cf' + j) * get (cf_xBStar cf') j 0)
             <$> seqZ 0 (Rows A)) == get b i 0)%Q.
Proof.
  intros Hwc HwA Hwb Rc Cc RA CA Db Hnew Hrun.
  destruct (MapNew_ready c A b cf0 Hwc HwA Hwb Rc Cc RA CA Db)
    as (cf1' & E & Hr1 & Hn & Hm & Hb).
  rewrite Hnew in E. injection E as <-.
  pose proof (MapNew_basis_eq c A b cf0 cf1 Hwc HwA Rc Cc RA CA Hnew) as Hbe.
  destruct (mpivots_ready _ _ _ _ _ _ Hr1 Hrun) as (_ & Hn' & Hm' & Hb').
  assert (Hall : shaped cf' /\ basis_eq cf').
  { destruct Hr1 as (Hs & _).
    clear Hnew Hn Hm Hb Hn' Hm' Hb'. revert cf1 Hs Hbe Hrun.
    induction fs as [|f fs IH]; intros cf1 Hs Hbe; simpl.
    - intros [= <-]. auto.
    - destruct (Iter f cf1) as [cf2 [e| |]] eqn:E; try discriminate.
      apply IH.
      + destruct e.
        * apply MapIter_end_frame in E as (r & -> & _). exact Hs.
        * destruct (MapIter_pivot_spec Inverse Solve quo f cf1 cf2 Hs E)
            as (? & ? & ? & ? & ? & ? & _ & _ & _ & _ & _ & _ & _ & _ & _
                & _ & _ & _ & _ & _ & Hs' & _). exact Hs'.
      + eapply (MapIter_basis_eq Inverse Solve quo quo_exact Solve_solves); eassumption. }
  destruct Hall as [_ Hbe'].
  split; [congruence|]. split; [congruence|].
  intros i Hi. specialize (Hbe' i). unfold basisRow in Hbe'.
  rewrite Hb', Hb, Hm', Hm in Hbe'. apply Hbe'. exact Hi.
Qed.

Hypothesis Inverse_inverts : inverts Inverse.

(** X22. In exact arithmetic, that is, with the exact division and an
    [Inverse] and a [Solve] that are sound, in the version with a map a
    successful call of [Iter] on a well-shaped state with [xBStar >= 0]
    never decreases the objective [cB * xBStar]; a pivot adds [x * v] to
    it, where [x >= 0] is the step that [FindOutputVariable] returned for
    the direction [d] of the input column [k], and [v > 0] is the entry
    [k] of the reduced-cost row [cN - y*AN]. *)
Theorem Map_pivot_improves_objective f (cf cf' : CF) e :
  shaped cf -> nonneg (cf_xBStar cf) ->
  Iter f cf = (cf', Ok e) ->
  (objective cf <= objective cf')%Q /\
  (e = false ->
   exists y k d x l m0 r v,
     MapRemap.FindY Inverse cf = Ok y /\
     FindInputVariable cf y f = Ok k /\
     MapRemap.SolveBd Solve cf k = Ok d /\
     snd (FindOutputVariable d cf) = Ok (Num x, l) /\
     Mul y (Deref (cf_A cf) (cf_AN cf)) = Ok m0 /\
     Sub (Deref (cf_c cf) (cf_cN cf)) m0 = Ok r /\ At r 0 k = Ok v /\
     (0 <= x)%Q /\ (0 < v)%Q /\
     (objective cf' == objective cf + x * v)%Q).
Proof.
  intros Hs Hnn H. destruct e.
  { apply MapIter_end_frame in H as (r & -> & _).
    split; [apply Qle_refl|discriminate]. }
  destruct (MapIter_objective Inverse Solve quo quo_exact Inverse_inverts Solve_solves
              f cf cf' Hs Hnn H)
    as (y & k & d & x & l & m0 & r & v & Hy & Hk & Hd & Hl & Hm0 & Hr & Hv
        & Hx & Hvpos & Hobj).
  split; [|intros _; exists y, k, d, x, l, m0, r, v; auto 14].
  rewrite Hobj. rewrite <- (Qplus_0_r (objective cf)) at 1.
  apply Qplus_le_r. apply Qmult_le_0_compat; [exact Hx|apply Qlt_le_weak; exact Hvpos].
Qed.

End MapDictionary.

(** ** The further properties on the scenarios *)


Lemma shaped_cfM2 : shaped cfM2.
Proof.
  unfold shaped, wf. simpl.
  repeat match goal with |- _ /\ _ => split end; try lia; reflexivity.
Defined.

(** X1 on scenario A. *)
Lemma New_builds_canonical_form_witness :
  exists cf',
    ArrayRemap.New cA AA bA (zeroCF []) = (cf', Ok tt) /\
    cf_n cf' = 4 /\ cf_m cf' = 3 /\
    VAt (cf_A cf') (cf_B cf') 1 1 = Ok 1%Q /\
    VAt (cf_A cf') (cf_B cf') 1 2 = Ok 0%Q.
Proof.
  destruct (New_builds_canonical_form cA AA bA (zeroCF []))
    as (cf' & E & Hn & Hm & _ & _ & _ & _ & _ & HB & _).
  - unfold wf. simpl. repeat split; lia.
  - unfold wf. simpl. repeat split; lia.
  - reflexivity.
  - simpl. lia.
  - simpl. lia.
  - reflexivity.
  - exists cf'. split; [exact E|]. split; [exact Hn|]. split; [exact Hm|].
    split; [apply (HB 1 1)|apply (HB 1 2)]; simpl; lia.
Defined.

(** X2 on an objective of two variables and a constraint matrix of one column. *)
Lemma New_narrow_matrix_panics_witness :
  exists cf' w, ArrayRemap.New c_narrow A_narrow b_narrow (zeroCF []) = (cf', Panic w).
Proof.
  apply (New_narrow_matrix_panics c_narrow A_narrow b_narrow (zeroCF [])).
  - unfold wf. simpl. repeat split; lia.
  - simpl. lia.
  - simpl. lia.
  - simpl. lia.
Defined.

(** X3 at the start of scenario A, with the forced index 7. *)
Lemma forced_index_out_of_range_panics_witness :
  ArrayRemap.FindEnteringVariable cfA0 yA0 7 = Panic ErrIndexOutOfRange /\
  AIter 7 cfA0 = (cfA0, Panic ErrIndexOutOfRange).
Proof.
  apply (forced_index_out_of_range_panics Exact.Inverse Exact.Solve exactQuo cfA0 7 yA0 rA0).
  - vm_compute. reflexivity.
  - vm_compute. reflexivity.
  - lia.
  - right. simpl. lia.
Defined.

(** X4 on the state whose basis is zero. *)
Lemma Iter_error_leaves_state_witness :
  cf_singular = cf_singular /\
  (Exact.Inverse (Deref (cf_A cf_singular) (cf_B cf_singular)) = Err Exact.ErrSingular \/
   exists k col, 0 <= k < vCols (cf_AN cf_singular) /\
     ColView (cf_A cf_singular) (cf_AN cf_singular) k = Ok col /\
     Exact.Solve (Deref (cf_A cf_singular) (cf_B cf_singular)) col = Err Exact.ErrSingular).
Proof.
  apply (Iter_error_leaves_state Exact.Inverse Exact.Solve exactQuo 0 cf_singular cf_singular).
  vm_compute. reflexivity.
Defined.


(** X6 on scenario A. *)
Lemma Simplex_counts_pivots_witness :
  exists cf1 cf',
    ArrayRemap.New cA AA bA (zeroCF []) = (cf1, Ok tt) /\
    pivoted Exact.Inverse Exact.Solve exactQuo (Z.to_nat 2) cf1 = Some cf' /\
    ArrayRemap.GetResults cf' = Ok resA /\
    0 <= 2 <= Z.max 0 10 /\
    (2 < 10 -> AIter 0 cf' = (cf', Ok true)).
Proof.
  apply (Simplex_counts_pivots Exact.Inverse Exact.Solve exactQuo cA AA bA 10 2 (fst resA) (snd resA)).
  vm_compute. reflexivity.
Defined.

(** X7 on scenario A. *)
Lemma Simplex_fails_only_in_Iter_witness :
  (exists t res score,
     ASimplex cA AA bA 10 = Ok (t, res, score) /\
     0 <= t <= Z.max 0 10 /\
     wf res /\ Dims res = (Cols cA + Rows AA, 1))
  \/
  (exists cf1 k cf cf',
     ArrayRemap.New cA AA bA (zeroCF []) = (cf1, Ok tt) /\ 0 <= k < 10 /\
     pivots Exact.Inverse Exact.Solve exactQuo (replicate (Z.to_nat k) 0) cf1 = Ok cf /\
     ((exists e, AIter 0 cf = (cf', Err e) /\ ASimplex cA AA bA 10 = Err e) \/
      (exists w, AIter 0 cf = (cf', Panic w) /\ ASimplex cA AA bA 10 = Panic w))).
Proof.
  apply (Simplex_fails_only_in_Iter Exact.Inverse Exact.Solve exactQuo cA AA bA 10).
  - unfold wf. simpl. repeat split; lia.
  - unfold wf. simpl. repeat split; lia.
  - unfold wf. simpl. repeat split; lia.
  - reflexivity.
  - simpl. lia.
  - simpl. lia.
  - reflexivity.
  - reflexivity.
Defined.

(** X8 on scenario A, with the bound 0. *)
Lemma Simplex_without_iterations_witness :
  exists res score,
    ASimplex cA AA bA 0 = Ok (0, res, score) /\
    (score == 0)%Q /\
    Dims res = (Cols cA + Rows AA, 1) /\
    forall k, 0 <= k < Cols cA + Rows AA ->
      At res k 0 = if k <? Cols cA then Ok 0%Q else At bA (k - Cols cA) 0.
Proof.
  apply (Simplex_without_iterations Exact.Inverse Exact.Solve exactQuo cA AA bA 0).
  - unfold wf. simpl. repeat split; lia.
  - unfold wf. simpl. repeat split; lia.
  - unfold wf. simpl. repeat split; lia.
  - reflexivity.
  - simpl. lia.
  - simpl. lia.
  - reflexivity.
  - reflexivity.
  - lia.
Defined.

(** X9 on scenario A after its two pivots, with the checked linear algebra. *)
Lemma basis_equation_invariant_witness :
  cf_b cfA2 = bA /\ cf_m cfA2 = Rows AA /\
  forall i, 0 <= i < Rows AA ->
    (Qsum ((fun j => get (cf_A cfA2) i (cf_n cfA2 + j) * get (cf_xBStar cfA2) j 0)
             <$> seqZ 0 (Rows AA)) == get bA i 0)%Q.
Proof.
  apply (basis_equation_invariant checkedInverse checkedSolve exactQuo exactQuo_exact checkedSolve_solves
           cA AA bA (zeroCF []) cfA0 cfA2 [0; 0]).
  - unfold wf. simpl. repeat split; lia.
  - unfold wf. simpl. repeat split; lia.
  - unfold wf. simpl. repeat split; lia.
  - reflexivity.
  - simpl. lia.
  - simpl. lia.
  - reflexivity.
  - reflexivity.
  - vm_compute. reflexivity.
  - vm_compute. reflexivity.
Defined.

(** X10 at the first pivot of scenario A, with the checked linear algebra. *)
Lemma pivot_improves_objective_witness :
  (objective cfA0 <= objective cfA1)%Q /\
  (false = false ->
   exists y k d x l r v,
     ArrayRemap.FindY checkedInverse cfA0 = Ok y /\
     ArrayRemap.FindEnteringVariable cfA0 y 0 = Ok k /\
     ArrayRemap.SolveBd checkedSolve cfA0 k = Ok d /\
     ArrayRemap.FindLeavingVariable exactQuo cfA0 d = Ok (Num x, l) /\
     ArrayRemap.reducedCosts cfA0 y = Ok r /\ At r 0 k = Ok v /\
     (0 <= x)%Q /\ (0 < v)%Q /\
     (objective cfA1 == objective cfA0 + x * v)%Q).
Proof.
  apply (pivot_improves_objective checkedInverse checkedSolve exactQuo exactQuo_exact checkedSolve_solves
           checkedInverse_inverts 0 cfA0 cfA1 false).
  - exact shaped_cfA0.
  - unfold nonneg. simpl. repeat constructor; unfold Qle; simpl; lia.
  - vm_compute. reflexivity.
Defined.

(** X12 on scenario A. *)
Lemma MapNew_builds_canonical_form_witness :
  exists cf',
    MapRemap.New cA AA bA (zeroCF ∅) = (cf', Ok tt) /\
    cf_n cf' = 4 /\ cf_m cf' = 3 /\
    cf_remap cf' !! 5 = Some 1 /\ cf_remap cf' !! 2 = None.
Proof.
  destruct (MapNew_builds_canonical_form cA AA bA (zeroCF ∅))
    as (cf' & E & Hn & Hm & _ & _ & _ & _ & _ & _ & _ & _ & _ & Hr).
  - unfold wf. simpl. repeat split; lia.
  - unfold wf. simpl. repeat split; lia.
  - reflexivity.
  - simpl. lia.
  - simpl. lia.
  - reflexivity.
  - exists cf'. split; [exact E|]. split; [exact Hn|]. split; [exact Hm|].
    rewrite !Hr. split; reflexivity.
Defined.


(** X15 on the state whose basis is zero. *)
Lemma MapIter_error_leaves_state_witness :
  cfM_singular = cfM_singular /\
  (Exact.Inverse (Deref (cf_A cfM_singular) (cf_B cfM_singular)) = Err Exact.ErrSingular \/
   exists k col, 0 <= k < vCols (cf_AN cfM_singular) /\
     ColView (cf_A cfM_singular) (cf_AN cfM_singular) k = Ok col /\
     Exact.Solve (Deref (cf_A cfM_singular) (cf_B cfM_singular)) col
     = Err Exact.ErrSingular).
Proof.
  apply (MapIter_error_leaves_state Exact.Inverse Exact.Solve exactQuo 0 cfM_singular cfM_singular).
  vm_compute. reflexivity.
Defined.


(** X17 at the second call of the overflowing scenario, which signals the
    end. *)
Lemma MapIter_terminal_state_witness :
  ((cfMO2 = cfMO1 /\
    MapRemap.Iter Exact.Inverse Exact.Solve overflowQuo 0 cfMO2 = (cfMO2, Ok true) /\
    MapRemap.GetResults cfMO2 = MapRemap.GetResults cfMO1)
   \/
   (cfMO2 = set_remap (delete (cf_n cfMO1 - 1) (cf_remap cfMO1)) cfMO1 /\
    exists y k d,
      MapRemap.FindY Exact.Inverse cfMO1 = Ok y /\
      MapRemap.FindInputVariable cfMO1 y 0 = Ok k /\
      k <> -1 /\ MapRemap.SolveBd Exact.Solve cfMO1 k = Ok d /\
      snd (MapRemap.FindOutputVariable overflowQuo d cfMO1) = Ok (PosInf, -1) /\
      (exists i e a, 0 <= i < Rows d /\ At d i 0 = Ok e /\ (0 < e)%Q /\
         At (cf_xBStar cfMO1) i 0 = Ok a) /\
      (forall i e a, 0 <= i < Rows d -> At d i 0 = Ok e -> (0 < e)%Q ->
         At (cf_xBStar cfMO1) i 0 = Ok a -> overflowQuo a e = PosInf))) /\
  (exact overflowQuo -> cfMO2 = cfMO1).
Proof.
  apply (MapIter_terminal_state Exact.Inverse Exact.Solve overflowQuo 0 cfMO1 cfMO2).
  vm_compute. reflexivity.
Defined.

(** In that scenario the key deleted is that of the variable x1, which is
    in the basis with the value 1: the call has changed [remap], and the
    objective reported falls from 2 to 0. *)
Lemma MapIter_overflow_drops_basic_variable :
  MapRemap.Iter Exact.Inverse Exact.Solve overflowQuo 0 cfMO1 = (cfMO2, Ok true) /\
  cf_remap cfMO1 !! 1 = Some 1 /\ cf_remap cfMO2 !! 1 = None /\
  (exists res, MapRemap.GetResults cfMO1 = Ok (res, 2%Q)) /\
  (exists res, MapRemap.GetResults cfMO2 = Ok (res, 0%Q)).
Proof.
  split; [vm_compute; reflexivity|].
  split; [vm_compute; reflexivity|].
  split; [vm_compute; reflexivity|].
  split; eexists; vm_compute; reflexivity.
Qed.

(** X18 on scenario A after its two pivots. *)
Lemma Map_pivot_preserves_feasibility_witness :
  nonneg (cf_xBStar cfM2) /\
  forall f cf'' e, MIter f cfM2 = (cf'', Ok e) -> nonneg (cf_xBStar cf'').
Proof.
  apply (Map_pivot_preserves_feasibility Exact.Inverse Exact.Solve exactQuo exactQuo_exact
           cA AA bA (zeroCF ∅) cfM0 cfM2 [0; 0]).
  - unfold wf. simpl. repeat split; try lia.
  - reflexivity.
  - unfold nonneg. simpl. repeat constructor; unfold Qle; simpl; lia.
  - vm_compute. reflexivity.
  - vm_compute. reflexivity.
Defined.

(** X19 on scenario A. *)
Lemma MapSimplex_fails_only_in_Iter_witness :
  (exists t res score,
     MSimplex cA AA bA 10 = Ok (t, res, score) /\
     0 <= t <= Z.max 0 10 /\
     wf res /\ Dims res = (Cols cA + Rows AA, 1))
  \/
  (exists cf1 k cf cf',
     MapRemap.New cA AA bA (zeroCF ∅) = (cf1, Ok tt) /\ 0 <= k < 10 /\
     mpivots Exact.Inverse Exact.Solve exactQuo (replicate (Z.to_nat k) 0) cf1 = Ok cf /\
     ((exists e, MIter 0 cf = (cf', Err e) /\ MSimplex cA AA bA 10 = Err e) \/
      (exists w, MIter 0 cf = (cf', Panic w) /\ MSimplex cA AA bA 10 = Panic w))).
Proof.
  apply (MapSimplex_fails_only_in_Iter Exact.Inverse Exact.Solve exactQuo cA AA bA 10).
  - unfold wf. simpl. repeat split; lia.
  - unfold wf. simpl. repeat split; lia.
  - unfold wf. simpl. repeat split; lia.
  - reflexivity.
  - simpl. lia.
  - simpl. lia.
  - reflexivity.
  - reflexivity.
Defined.

(** X20 on scenario A after its two pivots. *)
Lemma Map_input_columns_kept_witness :
  (forall i j, 0 <= i < Rows AA -> 0 <= j < Cols cA ->
     VAt (cf_A cfM2) (cf_AN cfM2) i j = At AA i j) /\
  (forall j, 0 <= j < Cols cA -> VAt (cf_c cfM2) (cf_cN cfM2) 0 j = At cA 0 j).
Proof.
  apply (Map_input_columns_kept Exact.Inverse Exact.Solve exactQuo
           cA AA bA (zeroCF ∅) cfM0 cfM2 [0; 0]).
  - unfold wf. simpl. repeat split; lia.
  - unfold wf. simpl. repeat split; lia.
  - unfold wf. simpl. repeat split; lia.
  - reflexivity.
  - simpl. lia.
  - simpl. lia.
  - reflexivity.
  - reflexivity.
  - vm_compute. reflexivity.
  - vm_compute. reflexivity.
Defined.

(** X21 on scenario A after its two pivots, with the checked linear algebra. *)
Lemma Map_basis_equation_invariant_witness :
  cf_b cfM2 = bA /\ cf_m cfM2 = Rows AA /\
  forall i, 0 <= i < Rows AA ->
    (Qsum ((fun j => get (cf_A cfM2) i (cf_n cfM2 + j) * get (cf_xBStar cfM2) j 0)
             <$> seqZ 0 (Rows AA)) == get bA i 0)%Q.
Proof.
  apply (Map_basis_equation_invariant checkedInverse checkedSolve exactQuo exactQuo_exact checkedSolve_solves
           cA AA bA (zeroCF ∅) cfM0 cfM2 [0; 0]).
  - unfold wf. simpl. repeat split; lia.
  - unfold wf. simpl. repeat split; lia.
  - unfold wf. simpl. repeat split; lia.
  - reflexivity.
  - simpl. lia.
  - simpl. lia.
  - reflexivity.
  - reflexivity.
  - vm_compute. reflexivity.
  - vm_compute. reflexivity.
Defined.

(** X22 at the first pivot of scenario A, with the checked linear algebra. *)
Lemma Map_pivot_improves_objective_witness :
  (objective cfM0 <= objective cfM1)%Q /\
  (false = false ->
   exists y k d x l m0 r v,
     MapRemap.FindY checkedInverse cfM0 = Ok y /\
     MapRemap.FindInputVariable cfM0 y 0 = Ok k /\
     MapRemap.SolveBd checkedSolve cfM0 k = Ok d /\
     snd (MapRemap.FindOutputVariable exactQuo d cfM0) = Ok (Num x, l) /\
     Mul y (Deref (cf_A cfM0) (cf_AN cfM0)) = Ok m0 /\
     Sub (Deref (cf_c cfM0) (cf_cN cfM0)) m0 = Ok r /\ At r 0 k = Ok v /\
     (0 <= x)%Q /\ (0 < v)%Q /\
     (objective cfM1 == objective cfM0 + x * v)%Q).
Proof.
  apply (Map_pivot_improves_objective checkedInverse checkedSolve exactQuo exactQuo_exact checkedSolve_solves
           checkedInverse_inverts 0 cfM0 cfM1 false).
  - exact shaped_cfM0.
  - unfold nonneg. simpl. repeat constructor; unfold Qle; simpl; lia.
  - vm_compute. reflexivity.
Defined.

(** * Certificates *)

(** A sum is monotone in its terms. *)
Lemma Qsum_le {X} (f g : X -> Q) (l : list X) :
  (forall x, x ∈ l -> (f x <= g x)%Q) -> (Qsum (f <$> l) <= Qsum (g <$> l))%Q.
Proof.
  induction l as [|x l IH]; intros H.
  - rewrite !fmap_nil, Qsum_nil. apply Qle_refl.
  - rewrite !fmap_cons, !Qsum_cons. apply Qplus_le_compat.
    + apply H. left.
    + apply IH. intros y Hy. apply H. right. exact Hy.
Qed.

(** A sum over the [n + m] columns, split into the structural and the
    basic ones. *)
Lemma Qsum_columns (f : Z -> Q) (n m : Z) :
  0 <= n -> 0 <= m ->
  (Qsum (f <$> seqZ 0 (n + m))
   == Qsum (f <$> seqZ 0 n) + Qsum ((fun j => f (n + j)%Z) <$> seqZ 0 m))%Q.
Proof.
  intros Hn Hm. rewrite seqZ_app by lia. rewrite fmap_app, Qsum_app, Z.add_0_l.
  replace (seqZ n m) with (Z.add n <$> seqZ 0 m)
    by (rewrite fmap_add_seqZ; f_equal; lia).
  rewrite <- list_fmap_compose. reflexivity.
Qed.

(** The entries of the reduced-cost row. *)
Lemma reduced_cost_entry {R} (cf : CanonicalForm R) BInv y m0 r k :
  shaped cf ->
  Mul (Deref (cf_c cf) (cf_cB cf)) BInv = Ok y ->
  Mul y (Deref (cf_A cf) (cf_AN cf)) = Ok m0 ->
  Sub (Deref (cf_c cf) (cf_cN cf)) m0 = Ok r ->
  0 <= k < cf_n cf ->
  exists v, At r 0 k = Ok v /\
    (v == get (cf_c cf) 0 k
          - Qsum ((fun i =>
                     Qsum ((fun p => get (cf_c cf) 0 (cf_n cf + p) * get BInv p i)
                             <$> seqZ 0 (cf_m cf))
                     * get (cf_A cf) i k) <$> seqZ 0 (cf_m cf)))%Q.
Proof.
  intros Hs Hy Hm0 Hr Hk.
  pose proof Hs as (Hn & Hm & HwA & [= RA CA] & Hwc & [= Rc Cc] & _ & _
                   & HB & HAN & HcB & HcN).
  rewrite HcB in Hy. rewrite HAN in Hm0. rewrite HcN in Hr.
  apply Mul_inv in Hy as (Ey & Ry & Cy & Hy).
  apply Mul_inv in Hm0 as (Em & Rm & Cm & Hm0).
  cbn [Deref build Rows Cols vRows vCols] in *.
  assert (Hr1 : Rows y = 1).
  { unfold Sub in Hr. destruct (_ && _) eqn:E in Hr; [|discriminate].
    apply andb_true_iff in E as [E1%Z.eqb_eq _]. cbn [Rows] in E1. lia. }
  pose proof (Sub_At _ _ _ 0 k _ _ Hr
                (At_build 1 (cf_n cf) _ 0 k ltac:(lia) Hk)
                (Hm0 0 k ltac:(lia) Hk)) as Hv.
  eexists. split; [exact Hv|].
  rewrite !Z.add_0_l.
  match goal with |- (?a - ?s1 == ?a - ?s2)%Q =>
    cut (s1 == s2)%Q; [intros ->; reflexivity|] end.
  replace (Cols y) with (cf_m cf) by (rewrite Em; reflexivity).
  apply Qsum_ext. intros i Hi. apply elem_of_seqZ in Hi.
  rewrite (At_get _ _ _ _ (Hy 0 i ltac:(lia) ltac:(lia))).
  rewrite get_Deref by (cbn [vRows vCols]; lia). cbn [vi vj]. rewrite !Z.add_0_l.
  apply Qmult_comp; [|reflexivity].
  apply Qsum_ext. intros p Hp. apply elem_of_seqZ in Hp.
  rewrite get_Deref by (cbn [vRows vCols]; lia). cbn [vi vj].
  rewrite !Z.add_0_l. reflexivity.
Qed.

(** [y * B = cB] for [y = cB * BInv], when [BInv * B] is the identity. *)
Lemma dual_prices (cB : Z -> Q) (BInv B : Z -> Z -> Q) (m j : Z) :
  0 <= j < m ->
  (forall p j, 0 <= p < m -> 0 <= j < m ->
     (Qsum ((fun i => BInv p i * B i j) <$> seqZ 0 m) == if p =? j then 1 else 0)%Q) ->
  (Qsum ((fun i => Qsum ((fun p => cB p * BInv p i) <$> seqZ 0 m) * B i j) <$> seqZ 0 m)
   == cB j)%Q.
Proof.
  intros Hj Hinv.
  rewrite (Qsum_ext _ (fun i => Qsum ((fun p => cB p * (BInv p i * B i j))%Q <$> seqZ 0 m))).
  2:{ intros i _. rewrite <- Qsum_scale_r. apply Qsum_ext. intros p _. ring. }
  rewrite Qsum_swap.
  rewrite (Qsum_ext _ (fun p => (if p =? j then 1 else 0) * cB p)%Q).
  2:{ intros p Hp. apply elem_of_seqZ in Hp.
      rewrite Qsum_scale_l. rewrite (Hinv p j) by lia. ring. }
  apply Qsum_delta. exact Hj.
Qed.

(** [(Y * M) * x = Y * (M * x)], entry by entry. *)
Lemma Qsum_assoc {X W} (Y : X -> Q) (M : X -> W -> Q) (x : W -> Q)
    (l1 : list X) (l2 : list W) :
  (Qsum ((fun j => Qsum ((fun i => Y i * M i j) <$> l1) * x j) <$> l2)
   == Qsum ((fun i => Y i * Qsum ((fun j => M i j * x j) <$> l2)) <$> l1))%Q.
Proof.
  rewrite (Qsum_ext _ (fun j => Qsum ((fun i => Y i * (M i j * x j))%Q <$> l1))).
  2:{ intros j _. rewrite <- Qsum_scale_r. apply Qsum_ext. intros i _. ring. }
  rewrite Qsum_swap. apply Qsum_ext. intros i _. apply Qsum_scale_l.
Qed.

(** ** The two ends of a run *)

Section SliceCertificates.

Variable Inverse : Dense -> result Dense.
Variable Solve : Dense -> Dense -> result Dense.
Variable quo : Q -> Q -> float64.

Import ArrayRemap.

Local Abbreviation FindLeavingVariable := (ArrayRemap.FindLeavingVariable quo).
Local Abbreviation Iter := (ArrayRemap.Iter Inverse Solve quo).

(** When the scan of [FindEnteringVariable] finds no column, every reduced
    cost is at most 0. *)
Lemma no_entering_reduced_costs (cf : CF) y :
  shaped cf -> FindEnteringVariable cf y 0 = Ok (-1) ->
  exists m0 r,
    Mul y (Deref (cf_A cf) (cf_AN cf)) = Ok m0 /\
    Sub (Deref (cf_c cf) (cf_cN cf)) m0 = Ok r /\
    forall k v, 0 <= k < cf_n cf -> At r 0 k = Ok v -> (v <= 0)%Q.
Proof.
  intros Hs. pose proof Hs as (Hn & _ & _ & _ & _ & _ & _ & _ & _ & _ & _ & HcN).
  unfold FindEnteringVariable.
  destruct (reducedCosts cf y) as [r| |] eqn:Hr; simpl; try discriminate.
  destruct (reducedCosts_shape cf y r) as (Hwf & Rr & Cr);
    [rewrite HcN; simpl; lia..|exact Hr|].
  rewrite HcN in Rr, Cr. simpl in Rr, Cr.
  unfold reducedCosts in Hr.
  destruct (Mul y _) as [m0| |] eqn:Hm0; simpl in Hr; try discriminate.
  destruct (scanEntering_spec r Hwf Rr) as ([mx j] & -> & Hinv). simpl.
  intros [= ->]. exists m0, r. split; [reflexivity|]. split; [exact Hr|].
  destruct Hinv as [(_ & _ & Hall)|(Hj & _)]; [|lia].
  intros k v Hk. apply Hall. lia.
Qed.

Hypothesis Inverse_inverts : inverts Inverse.

(** Weak duality at a state without an entering column: [c * z <= y * b]
    for every point [z], and [y * b] is the value of the basic solution. *)
Lemma optimal_certificate (cf : CF) (y : Dense) (x : Z -> Q) :
  shaped cf -> basis_eq cf ->
  ArrayRemap.FindY Inverse cf = Ok y ->
  FindEnteringVariable cf y 0 = Ok (-1) ->
  admissible cf x ->
  (objectiveAt cf x <= objective cf)%Q.
Proof.
  intros Hs Hbe Hy Hent [Hx HAx]. unfold objectiveAt.
  pose proof Hs as (Hn & Hm & _ & _ & _ & _ & _ & _ & HB & _).
  destruct (no_entering_reduced_costs cf y Hs Hent) as (m0 & r & Hm0 & Hr & Hneg).
  apply FindY_inv in Hy as (BInv & HBInv & Hy).
  set (Y := fun i => Qsum ((fun p => get (cf_c cf) 0 (cf_n cf + p) * get BInv p i)%Q
                             <$> seqZ 0 (cf_m cf))).
  set (yA := fun j => Qsum ((fun i => Y i * get (cf_A cf) i j)%Q <$> seqZ 0 (cf_m cf))).
  assert (Hinv : forall p j, 0 <= p < cf_m cf -> 0 <= j < cf_m cf ->
            (Qsum ((fun i => get BInv p i * get (cf_A cf) i (cf_n cf + j))
                     <$> seqZ 0 (cf_m cf)) == if p =? j then 1 else 0)%Q).
  { intros p j Hp Hj.
    pose proof (Inverse_inverts _ _ HBInv p j) as Hi. rewrite HB in Hi.
    cbn [Deref build Rows Cols vRows vCols] in Hi.
    rewrite <- (Hi ltac:(lia) ltac:(lia)).
    apply Qsum_ext. intros i Hi'. apply elem_of_seqZ in Hi'.
    rewrite get_Deref by (cbn [vRows vCols]; lia). cbn [vi vj].
    rewrite !Z.add_0_l. reflexivity. }
  assert (Hstruct : forall k, 0 <= k < cf_n cf -> (get (cf_c cf) 0 k <= yA k)%Q).
  { intros k Hk.
    destruct (reduced_cost_entry cf BInv y m0 r k Hs Hy Hm0 Hr Hk) as (v & Hv & Ev).
    pose proof (Hneg k v Hk Hv) as Hle. rewrite Ev in Hle.
    apply Qle_minus_iff in Hle. apply Qle_minus_iff.
    unfold yA, Y. 
    match goal with H : (0 <= 0 + - (?a - ?s))%Q |- (0 <= ?s' + - ?a')%Q =>
      setoid_replace (s' + - a')%Q with (0 + - (a - s))%Q using relation Qeq by ring end.
    exact Hle. }
  assert (Hbasic : forall j, 0 <= j < cf_m cf ->
            (yA (cf_n cf + j)%Z == get (cf_c cf) 0 (cf_n cf + j))%Q).
  { intros j Hj. unfold yA, Y.
    apply (dual_prices (fun p => get (cf_c cf) 0 (cf_n cf + p))
             (fun p i => get BInv p i) (fun i j => get (cf_A cf) i (cf_n cf + j))
             (cf_m cf) j Hj Hinv). }
  assert (Hyb : forall z : Z -> Q,
            (Qsum ((fun j => yA j * z j) <$> seqZ 0 (cf_n cf + cf_m cf))
             == Qsum ((fun i => Y i * Qsum ((fun j => get (cf_A cf) i j * z j)
                                              <$> seqZ 0 (cf_n cf + cf_m cf)))
                        <$> seqZ 0 (cf_m cf)))%Q).
  { intros z. unfold yA. apply Qsum_assoc. }
  (* the candidate is worth at most y * b *)
  apply Qle_trans with
    (Qsum ((fun j => yA j * x j)%Q <$> seqZ 0 (cf_n cf + cf_m cf))).
  { apply Qsum_le. intros j Hj. apply elem_of_seqZ in Hj.
    apply Qmult_le_compat_r; [|apply Hx; lia].
    destruct (Z.lt_ge_cases j (cf_n cf)) as [Hlt|Hge].
    - apply Hstruct. lia.
    - replace j with (cf_n cf + (j - cf_n cf)) by lia.
      rewrite Hbasic by lia. apply Qle_refl. }
  rewrite Hyb.
  rewrite (Qsum_ext _ (fun i => Y i * get (cf_b cf) i 0)%Q).
  2:{ intros i Hi. apply elem_of_seqZ in Hi. rewrite HAx by lia. reflexivity. }
  (* the basic solution is worth y * b *)
  assert (Hobj : (objective cf
                  == Qsum ((fun i => Y i * get (cf_b cf) i 0)%Q <$> seqZ 0 (cf_m cf)))%Q).
  { unfold objective.
    rewrite (Qsum_ext (fun j => get (cf_c cf) 0 (cf_n cf + j) * get (cf_xBStar cf) j 0)%Q
               (fun j => yA (cf_n cf + j)%Z * get (cf_xBStar cf) j 0)%Q).
    2:{ intros j Hj. apply elem_of_seqZ in Hj. rewrite Hbasic by lia. reflexivity. }
    unfold yA.
    rewrite (Qsum_assoc Y (fun i j => get (cf_A cf) i (cf_n cf + j))
               (fun j => get (cf_xBStar cf) j 0)).
    apply Qsum_ext. intros i Hi. apply elem_of_seqZ in Hi.
    rewrite <- (Hbe i) by lia. reflexivity. }
  rewrite Hobj. apply Qle_refl.
Qed.


Hypothesis Solve_solves : solves Solve.

(** A row times the point at distance [t] along the direction [d]. *)
Lemma ray_sum (cf : CF) (a : Z -> Q) k d t :
  0 < cf_m cf -> 0 <= k < cf_n cf ->
  (Qsum ((fun j => a j * ray cf k d t j) <$> seqZ 0 (cf_n cf + cf_m cf))
   == t * a k
      + (Qsum ((fun j => a (cf_n cf + j)%Z * get (cf_xBStar cf) j 0) <$> seqZ 0 (cf_m cf))
         - t * Qsum ((fun j => a (cf_n cf + j)%Z * get d j 0) <$> seqZ 0 (cf_m cf))))%Q.
Proof.
  intros Hm Hk. rewrite Qsum_columns by lia.
  apply Qplus_comp.
  - rewrite (Qsum_ext _ (fun j => (if j =? k then 1 else 0) * (t * a j))%Q).
    2:{ intros j Hj. apply elem_of_seqZ in Hj. unfold ray.
        destruct (Z.eqb_spec j k) as [->|Hne]; [ring|].
        replace (j <? cf_n cf) with true by (symmetry; apply Z.ltb_lt; lia). ring. }
    apply (Qsum_delta (fun j => t * a j)%Q). exact Hk.
  - rewrite <- Qsum_linear. apply Qsum_ext. intros j Hj. apply elem_of_seqZ in Hj.
    unfold ray.
    replace (cf_n cf + j =? k) with false by (symmetry; apply Z.eqb_neq; lia).
    replace (cf_n cf + j <? cf_n cf) with false by (symmetry; apply Z.ltb_ge; lia).
    replace (cf_n cf + j - cf_n cf) with j by lia. ring.
Qed.

(** At a state where no row of [d] is positive, every point of the ray is
    a point of the program, and its value grows with [t]. *)
Lemma unbounded_certificate f (cf : CF) (y d : Dense) (k : Z) :
  shaped cf -> nonneg (cf_xBStar cf) -> basis_eq cf ->
  ArrayRemap.FindY Inverse cf = Ok y ->
  FindEnteringVariable cf y f = Ok k -> k <> -1 ->
  ArrayRemap.SolveBd Solve cf k = Ok d -> wf d -> Dims d = (cf_m cf, 1) ->
  FindLeavingVariable cf d = Ok (Num (-1), -1) ->
  exists m0 r v,
    Mul y (Deref (cf_A cf) (cf_AN cf)) = Ok m0 /\
    Sub (Deref (cf_c cf) (cf_cN cf)) m0 = Ok r /\
    At r 0 k = Ok v /\ (0 < v)%Q /\
    forall t, (0 <= t)%Q ->
      admissible cf (ray cf k d t) /\
      (objectiveAt cf (ray cf k d t) == objective cf + t * v)%Q.
Proof.
  intros Hs Hnn Hbe Hy Hent Hk Hd Hwd [= Rd Cd] Hl.
  pose proof Hs as (Hn & Hm & _ & _ & _ & _ & HwxB & [= RxB CxB] & _ & _ & _ & HcN).
  destruct (entering_positive cf y f k) as (m0 & r & v & Hm0 & Hr & Hv & Hvpos);
    [rewrite HcN; reflexivity|rewrite HcN; simpl; lia|exact Hent|exact Hk|].
  assert (Hkr : 0 <= k < cf_n cf).
  { pose proof (FindEnteringVariable_range cf y f k) as Hrange.
    rewrite HcN in Hrange. apply Hrange; simpl; try lia; assumption. }
  apply FindY_inv in Hy as (BInv & HBInv & Hy).
  unfold ArrayRemap.SolveBd in Hd.
  destruct (ColView _ _ k) as [col| |] eqn:Hcol; simpl in Hd; try discriminate.
  assert (Hdneg : forall j, 0 <= j < cf_m cf -> (get d j 0 <= 0)%Q).
  { intros j Hj. assert (Hr0 : 0 <= Rows d) by lia.
    destruct (FindLeavingVariable_inv quo cf d _ _ Hr0 Hl)
      as [(_ & _ & Hall)|(_ & _ & _ & _ & [[_ Hx]|(Hrow & _)])];
      [|discriminate|lia].
    apply (Hall j); [lia|]. apply At_wf; [exact Hwd|lia..]. }
  assert (HxBpos : forall j, 0 <= j < cf_m cf -> (0 <= get (cf_xBStar cf) j 0)%Q).
  { intros j Hj. apply (nonneg_At (cf_xBStar cf) j); [exact Hnn|].
    apply At_wf; [exact HwxB|lia..]. }
  exists m0, r, v. split; [exact Hm0|]. split; [exact Hr|]. split; [exact Hv|].
  split; [exact Hvpos|]. intros t Ht. split; [split|].
  - intros j Hj. unfold ray.
    destruct (Z.eqb_spec j k) as [->|Hne]; [exact Ht|].
    destruct (Z.ltb_spec j (cf_n cf)) as [Hlt|Hge]; [apply Qle_refl|].
    specialize (HxBpos (j - cf_n cf) ltac:(lia)).
    specialize (Hdneg (j - cf_n cf) ltac:(lia)).
    setoid_replace (get (cf_xBStar cf) (j - cf_n cf) 0 - t * get d (j - cf_n cf) 0)%Q
      with (get (cf_xBStar cf) (j - cf_n cf) 0 + t * (- get d (j - cf_n cf) 0))%Q
      using relation Qeq by ring.
    apply Qle_trans with (0 + 0)%Q; [discriminate|].
    apply Qplus_le_compat; [exact HxBpos|].
    apply Qmult_le_0_compat; [exact Ht|].
    apply (Qopp_le_compat _ 0) in Hdneg. exact Hdneg.
  - intros i Hi.
    rewrite (ray_sum cf (fun j => get (cf_A cf) i j) k d t Hm Hkr).
    pose proof (Hbe i Hi) as Hb. unfold basisRow in Hb. rewrite Hb.
    rewrite (solved_column Solve cf k col d Solve_solves Hs Hkr Hcol Hd i Hi). ring.
  - unfold objectiveAt.
    rewrite (ray_sum cf (fun j => get (cf_c cf) 0 j) k d t Hm Hkr).
    rewrite (reduced_cost_identity Inverse Solve cf BInv y m0 r k v col d); try assumption.
    unfold objective. ring.
Qed.

(** X24. When [FindLeavingVariable] returns the step -1 with the index -1
    for the direction [d] of the entering column [k], which it does when
    no row of [d] is positive, on a well-shaped state with [xBStar >= 0]
    and [B * xBStar = b], [Iter] signals the end with no error although,
    with an [Inverse] and a [Solve] that are sound and the exact matrix
    operations of the model, the program that the state holds has no
    maximum: for every [t >= 0] the point with [t] at [k] and
    [xBStar - t * d] on the basis satisfies the constraints, and its value
    is [cB * xBStar + t * v], where [v > 0] is the entry [k] of the
    reduced-cost row [cN - y*AN]. *)
Theorem no_leaving_variable_means_unbounded f (cf : CF) (y d : Dense) (k : Z) :
  shaped cf -> nonneg (cf_xBStar cf) -> basis_eq cf ->
  ArrayRemap.FindY Inverse cf = Ok y ->
  FindEnteringVariable cf y f = Ok k -> k <> -1 ->
  ArrayRemap.SolveBd Solve cf k = Ok d -> wf d -> Dims d = (cf_m cf, 1) ->
  FindLeavingVariable cf d = Ok (Num (-1), -1) ->
  Iter f cf = (cf, Ok true) /\
  (forall i e, 0 <= i < Rows d -> At d i 0 = Ok e -> (e <= 0)%Q) /\
  exists r v,
    reducedCosts cf y = Ok r /\ At r 0 k = Ok v /\ (0 < v)%Q /\
    forall t, (0 <= t)%Q ->
      admissible cf (ray cf k d t) /\
      (objectiveAt cf (ray cf k d t) == objective cf + t * v)%Q.
Proof.
  intros Hs Hnn Hbe Hy Hent Hk Hd Hwd Dd Hl.
  split; [apply (Iter_no_leaving Inverse Solve quo f cf y k d _ Hy Hent Hk Hd Hl)|].
  split.
  { assert (Hr0 : 0 <= Rows d) by (injection Dd as -> _; destruct Hs as (_ & ? & _); lia).
    destruct (FindLeavingVariable_inv quo cf d _ _ Hr0 Hl)
      as [(_ & _ & Hall)|(_ & _ & _ & _ & [[_ Hx]|(Hrow & _)])];
      [exact Hall|discriminate|lia]. }
  destruct (unbounded_certificate f cf y d k Hs Hnn Hbe Hy Hent Hk Hd Hwd Dd Hl)
    as (m0 & r & v & Hm0 & Hr & Hv & Hvpos & Hray).
  exists r, v. split; [unfold reducedCosts; rewrite Hm0; exact Hr|]. auto.
Qed.

End SliceCertificates.

(** ** The version with a map: the two ends of a run *)

Section MapCertificates.

Variable Inverse : Dense -> result Dense.
Variable Solve : Dense -> Dense -> result Dense.
Variable quo : Q -> Q -> float64.

Import MapRemap.

Local Abbreviation FindOutputVariable := (MapRemap.FindOutputVariable quo).
Local Abbreviation scanOutput := (MapRemap.scanOutput quo).
Local Abbreviation Iter := (MapRemap.Iter Inverse Solve quo).

Hypothesis Inverse_inverts : inverts Inverse.

(** X25. In the version with a map: when [FindInputVariable], not forced,
    returns -1 on a well-shaped state with [B * xBStar = b], [Iter]
    signals the end and, with an [Inverse] that is sound, no point
    [z >= 0] with [A * z = b] has a larger value [c * z] than
    [cB * xBStar]. *)
Theorem Map_no_input_variable_means_optimal (cf : CF) (y : Dense) (x : Z -> Q) :
  shaped cf -> basis_eq cf ->
  MapRemap.FindY Inverse cf = Ok y ->
  FindInputVariable cf y 0 = Ok (-1) ->
  admissible cf x ->
  Iter 0 cf = (cf, Ok true) /\ (objectiveAt cf x <= objective cf)%Q.
Proof.
  intros Hs Hbe Hy Hent Hx. split.
  - unfold MapRemap.Iter, bind, readsR, ret. rewrite Hy, Hent. reflexivity.
  - rewrite FindY_asArray in Hy. rewrite FindInputVariable_asArray in Hent.
    exact (optimal_certificate Inverse Inverse_inverts (asArray cf) y x Hs Hbe Hy Hent Hx).
Qed.

Hypothesis Solve_solves : solves Solve.

(** X26. In the version with a map: when [FindOutputVariable] returns the
    step -1 with the index -1 for the direction [d] of the input column
    [k], which it does when no row of [d] is positive, on a well-shaped
    state with [xBStar >= 0] and [B * xBStar = b], [Iter] signals the end
    with no error and leaves the state alone, although, with an [Inverse]
    and a [Solve] that are sound and the exact matrix operations of the
    model, the program that the state holds has no maximum: every point
    of the ray along [d] satisfies the constraints, and its value is
    [cB * xBStar + t * v], where [v > 0] is the entry [k] of the
    reduced-cost row [cN - y*AN]. *)
Theorem Map_no_output_variable_means_unbounded f (cf cf' : CF) (y d : Dense)
    (k : Z) :
  shaped cf -> nonneg (cf_xBStar cf) -> basis_eq cf ->
  MapRemap.FindY Inverse cf = Ok y ->
  FindInputVariable cf y f = Ok k -> k <> -1 ->
  MapRemap.SolveBd Solve cf k = Ok d -> wf d -> Dims d = (cf_m cf, 1) ->
  FindOutputVariable d cf = (cf', Ok (Num (-1), -1)) ->
  cf' = cf /\ Iter f cf = (cf, Ok true) /\
  (forall i e, 0 <= i < Rows d -> At d i 0 = Ok e -> (e <= 0)%Q) /\
  exists m0 r v,
    Mul y (Deref (cf_A cf) (cf_AN cf)) = Ok m0 /\
    Sub (Deref (cf_c cf) (cf_cN cf)) m0 = Ok r /\
    At r 0 k = Ok v /\ (0 < v)%Q /\
    forall t, (0 <= t)%Q ->
      admissible cf (ray cf k d t) /\
      (objectiveAt cf (ray cf k d t) == objective cf + t * v)%Q.
Proof.
  intros Hs Hnn Hbe Hy Hent Hk Hd Hwd Dd Hout.
  pose proof Hout as Hout'.
  apply FindOutputVariable_inv in Hout' as (Hlv & [(_ & _ & -> & _)|(Hscan & _)]).
  2:{ exfalso. assert (Hr0 : 0 <= Rows d)
        by (injection Dd as -> _; destruct Hs as (_ & ? & _); lia).
      rewrite scanOutput_asArray in Hscan.
      apply scanLeaving_post in Hscan as (_ & _ & _ & [[_ Hx]|(Hrow & _)]);
        [discriminate|lia|exact Hr0]. }
  split; [reflexivity|]. split.
  { unfold MapRemap.Iter, bind, readsR. rewrite Hy, Hent.
    apply Z.eqb_neq in Hk. rewrite Hk, Hd, Hout. reflexivity. }
  split.
  { assert (Hr0 : 0 <= Rows d) by (injection Dd as -> _; destruct Hs as (_ & ? & _); lia).
    destruct (FindLeavingVariable_inv quo (asArray cf) d _ _ Hr0 Hlv)
      as [(_ & _ & Hall)|(_ & _ & _ & _ & [[_ Hx]|(Hrow & _)])];
      [exact Hall|discriminate|lia]. }
  rewrite FindY_asArray in Hy. rewrite FindInputVariable_asArray in Hent.
  rewrite SolveBd_asArray in Hd.
  exact (unbounded_certificate Inverse Solve quo Inverse_inverts Solve_solves f
           (asArray cf) y d k Hs Hnn Hbe Hy Hent Hk Hd Hwd Dd Hlv).
Qed.

End MapCertificates.

(** ** Certificates: instances *)




Lemma shaped_cfU1 : shaped cfU1.
Proof.
  unfold shaped, wf. simpl.
  repeat match goal with |- _ /\ _ => split end; try lia; reflexivity.
Defined.

Lemma shaped_cfMU1 : shaped cfMU1.
Proof.
  unfold shaped, wf. simpl.
  repeat match goal with |- _ /\ _ => split end; try lia; reflexivity.
Defined.

Lemma basis_eq_cfM2 : basis_eq cfM2.
Proof.
  intros i Hi. change (cf_m cfM2) with 3 in Hi.
  assert (i = 0 \/ i = 1 \/ i = 2) as [-> | [-> | ->]] by lia; vm_compute; reflexivity.
Defined.

Lemma basis_eq_cfU1 : basis_eq cfU1.
Proof.
  intros i Hi. change (cf_m cfU1) with 1 in Hi.
  assert (i = 0) as -> by lia. vm_compute. reflexivity.
Defined.

Lemma basis_eq_cfMU1 : basis_eq cfMU1.
Proof.
  intros i Hi. change (cf_m cfMU1) with 1 in Hi.
  assert (i = 0) as -> by lia. vm_compute. reflexivity.
Defined.

(** X24 on the program without a maximum, after its first pivot. *)
Lemma no_leaving_variable_means_unbounded_witness :
  ArrayRemap.Iter checkedInverse checkedSolve exactQuo 0 cfU1 = (cfU1, Ok true) /\
  (forall i e, 0 <= i < Rows dU -> At dU i 0 = Ok e -> (e <= 0)%Q) /\
  exists r v,
    ArrayRemap.reducedCosts cfU1 yU1 = Ok r /\ At r 0 1 = Ok v /\ (0 < v)%Q /\
    forall t, (0 <= t)%Q ->
      admissible cfU1 (ray cfU1 1 dU t) /\
      (objectiveAt cfU1 (ray cfU1 1 dU t) == objective cfU1 + t * v)%Q.
Proof.
  apply (no_leaving_variable_means_unbounded checkedInverse checkedSolve exactQuo
           checkedInverse_inverts checkedSolve_solves 0 cfU1 yU1 dU 1).
  - exact shaped_cfU1.
  - unfold nonneg. simpl. repeat constructor; discriminate.
  - exact basis_eq_cfU1.
  - vm_compute. reflexivity.
  - vm_compute. reflexivity.
  - lia.
  - vm_compute. reflexivity.
  - unfold wf. simpl. repeat split; lia.
  - reflexivity.
  - vm_compute. reflexivity.
Defined.

(** X25 at the end of scenario A, against a point off the basis. *)
Lemma Map_no_input_variable_means_optimal_witness :
  MapRemap.Iter checkedInverse checkedSolve exactQuo 0 cfM2 = (cfM2, Ok true) /\
  (objectiveAt cfM2
     (fun j => if j =? 1 then 1 else if j =? 5 then 4 else if j =? 6 then 6 else 0)
   <= objective cfM2)%Q.
Proof.
  eapply (Map_no_input_variable_means_optimal checkedInverse checkedSolve exactQuo
            checkedInverse_inverts cfM2).
  - exact shaped_cfM2.
  - exact basis_eq_cfM2.
  - vm_compute. reflexivity.
  - vm_compute. reflexivity.
  - split.
    + intros j Hj. change (cf_n cfM2 + cf_m cfM2) with 7 in Hj.
      assert (j = 0 \/ j = 1 \/ j = 2 \/ j = 3 \/ j = 4 \/ j = 5 \/ j = 6)
        as [-> | [-> | [-> | [-> | [-> | [-> | ->]]]]]] by lia; vm_compute; discriminate.
    + intros i Hi. change (cf_m cfM2) with 3 in Hi.
      assert (i = 0 \/ i = 1 \/ i = 2) as [-> | [-> | ->]] by lia; vm_compute; reflexivity.
Defined.

(** X26 on the program without a maximum, after its first pivot. *)
Lemma Map_no_output_variable_means_unbounded_witness :
  cfMU1 = cfMU1 /\
  MapRemap.Iter checkedInverse checkedSolve exactQuo 0 cfMU1 = (cfMU1, Ok true) /\
  (forall i e, 0 <= i < Rows dU -> At dU i 0 = Ok e -> (e <= 0)%Q) /\
  exists m0 r v,
    Mul yU1 (Deref (cf_A cfMU1) (cf_AN cfMU1)) = Ok m0 /\
    Sub (Deref (cf_c cfMU1) (cf_cN cfMU1)) m0 = Ok r /\
    At r 0 1 = Ok v /\ (0 < v)%Q /\
    forall t, (0 <= t)%Q ->
      admissible cfMU1 (ray cfMU1 1 dU t) /\
      (objectiveAt cfMU1 (ray cfMU1 1 dU t) == objective cfMU1 + t * v)%Q.
Proof.
  apply (Map_no_output_variable_means_unbounded checkedInverse checkedSolve exactQuo
           checkedInverse_inverts checkedSolve_solves 0 cfMU1 cfMU1 yU1 dU 1).
  - exact shaped_cfMU1.
  - unfold nonneg. simpl. repeat constructor; discriminate.
  - exact basis_eq_cfMU1.
  - vm_compute. reflexivity.
  - vm_compute. reflexivity.
  - lia.
  - vm_compute. reflexivity.
  - unfold wf. simpl. repeat split; lia.
  - reflexivity.
  - vm_compute. reflexivity.
Defined.
